(** * Qrack: a shallow embedding of the simulation engine layers

    The development follows the sources: the integer and floating point
    types of the build (the type header), the OpenCL kernels
    (qengine.cl) with the host code that dispatches them (opencl.cpp),
    the CPU engine's state management (state.cpp), the pager (qpager.cpp)
    and the stabilizer hybrid layer (qstabilizerhybrid.cpp).

    Conventions.
    - [bitCapInt], [bitCapIntOcl] and [bitLenInt] values are integers in [Z];
      where the C++ arithmetic can leave the type's range the wrap-around is
      written out with [wrapCap] and [wrapLen].
    - [real1] is a build-time choice (half, float or double) in the sources;
      here it is the carrier of the class [Real1], with one instance on
      IEEE binary64 numbers and one on the real numbers.
    - Arrays are lists, read with [!!!] and written with [<[ _ := _ ]>];
      a C++ access out of range has no defined behaviour, and the theorems
      keep every index in range.
    - Memory that the C++ code allocates and does not initialise is an
      explicit argument of the operation that allocates it. *)

From Stdlib Require Import ZArith Lia Bool List String Reals Lra Floats.
From stdpp Require Import base tactics option list list_numbers.

#[local] Open Scope Z_scope.

(** ** Integer types of the build *)

Definition bitsInByte : Z := 8.
(** [#define bitCapInt uint64_t] *)
Definition sizeof_bitCapInt : Z := 8.
(** [#define bitCapIntOcl uint64_t] ([ONE_BCI] is [1UL]) *)
Definition sizeof_bitCapIntOcl : Z := 8.
Definition bitsInCap : Z := sizeof_bitCapInt * bitsInByte.
Definition ONE_BCI : Z := 1.

(** Arithmetic at the width of [bitCapInt]. *)
Definition wrapCap (z : Z) : Z := z mod 2 ^ bitsInCap.
(** Arithmetic at the width of [bitLenInt] ([uint8_t]). *)
Definition wrapLen (z : Z) : Z := z mod 2 ^ bitsInByte.

Definition cap_add (a b : Z) : Z := wrapCap (a + b).
Definition cap_sub (a b : Z) : Z := wrapCap (a - b).
Definition cap_neg (a : Z) : Z := wrapCap (- a).
Definition cap_shl (a n : Z) : Z := wrapCap (Z.shiftl a n).
Definition cap_not (a : Z) : Z := wrapCap (Z.lnot a).
Definition pow2 (n : Z) : Z := cap_shl ONE_BCI n.

(** The host code of the two engines writes its powers of two as [1 << n]
    and [1U << n], shifts of an [int] and of an [unsigned]: both are defined,
    and are [2 ^ n], for [n] below [bitsInInt - 1]. There they agree with the
    shift at the width of [bitCapInt] that the model writes, and
    [well_formed] of either engine keeps the qubit count in that range. *)
Definition bitsInInt : Z := 32.

(** ** Floating point types of the build *)

(** The arithmetic of [real1]: the constants and operators the sources use. *)
Class Real1 := {
  real1 : Type;
  ZERO_R1 : real1;
  ONE_R1 : real1;
  min_norm : real1;
  REAL1_EPSILON : real1;
  REAL1_DEFAULT_ARG : real1;
  r_add : real1 -> real1 -> real1;
  r_sub : real1 -> real1 -> real1;
  r_mul : real1 -> real1 -> real1;
  r_div : real1 -> real1 -> real1;
  r_neg : real1 -> real1;
  r_eqb : real1 -> real1 -> bool;
  r_ltb : real1 -> real1 -> bool;
  r_leb : real1 -> real1 -> bool
}.

(** The functions of the C mathematics library the sources call. *)
Class Libm (R1 : Real1) := {
  PI_R1 : real1;
  r_sqrt : real1 -> real1;
  r_cos : real1 -> real1;
  r_sin : real1 -> real1;
  r_atan2 : real1 -> real1 -> real1
}.

#[export] Instance real1_inhabited {R1 : Real1} : Inhabited real1 := populate ZERO_R1.

Declare Scope real1_scope.
Delimit Scope real1_scope with r1.
Infix "+" := r_add : real1_scope.
Infix "-" := r_sub : real1_scope.
Infix "*" := r_mul : real1_scope.
Infix "/" := r_div : real1_scope.
Notation "- x" := (r_neg x) : real1_scope.

Section Complex.
Context {R1 : Real1}.

(** [std::complex<real1>], and [cmplx] of the kernels ([x] real, [y] imaginary). *)
Record complex : Type := Complex { real : real1; imag : real1 }.

Definition ZERO_CMPLX : complex := Complex ZERO_R1 ZERO_R1.
Definition ONE_CMPLX : complex := Complex ONE_R1 ZERO_R1.
Definition I_CMPLX : complex := Complex ZERO_R1 ONE_R1.
Definition CMPLX_DEFAULT_ARG : complex := Complex REAL1_DEFAULT_ARG REAL1_DEFAULT_ARG.

#[export] Instance complex_inhabited : Inhabited complex := populate ZERO_CMPLX.

(** [zmul] of the kernels; [operator*] of the host code. *)
Definition zmul (lhs rhs : complex) : complex :=
  Complex (real lhs * real rhs - imag lhs * imag rhs)%r1
          (real lhs * imag rhs + imag lhs * real rhs)%r1.

(** [norm(c)] of the host code, [dot(c, c)] of the kernels. *)
Definition norm (c : complex) : real1 := (real c * real c + imag c * imag c)%r1.

(** [c /= r] for a real [r]. *)
Definition cdiv_real (c : complex) (r : real1) : complex :=
  Complex (real c / r)%r1 (imag c / r)%r1.

(** [r * c] for a real [r]. *)
Definition real_cmul (r : real1) (c : complex) : complex :=
  Complex (r * real c)%r1 (r * imag c)%r1.

Definition cneg (c : complex) : complex := Complex (- real c)%r1 (- imag c)%r1.

(** [c1 / c2] *)
Definition cdiv (c1 c2 : complex) : complex :=
  Complex ((real c1 * real c2 + imag c1 * imag c2) / norm c2)%r1
          ((imag c1 * real c2 - real c1 * imag c2) / norm c2)%r1.

(** [c1 - c2] *)
Definition csub (c1 c2 : complex) : complex :=
  Complex (real c1 - real c2)%r1 (imag c1 - imag c2)%r1.

(** [c1 == c2] and [c1 != c2]. *)
Definition ceqb (c1 c2 : complex) : bool :=
  r_eqb (real c1) (real c2) && r_eqb (imag c1) (imag c2).

Context {LM : Libm R1}.

(** [arg] of the kernels: zero at the origin, [atan2] elsewhere. *)
Definition arg (cmp : complex) : real1 :=
  if r_eqb (real cmp) ZERO_R1 && r_eqb (imag cmp) ZERO_R1 then ZERO_R1
  else r_atan2 (imag cmp) (real cmp).

(** [complex(cos(angle), sin(angle))]. *)
Definition polar_unit (angle : real1) : complex := Complex (r_cos angle) (r_sin angle).

End Complex.

Arguments complex : clear implicits.
Arguments complex {R1}.

(** ** The OpenCL execution model

    Every kernel has the shape
    [for (lcv = ID; lcv < maxI; lcv += Nthreads) body(lcv)], run by
    [Nthreads] work items with [ID] from [0] to [Nthreads - 1]. *)

(** Number of iterations of work item [ID]. *)
Definition work_item_count (ID Nthreads maxI : Z) : Z :=
  (maxI - ID + Nthreads - 1) `div` Nthreads.

(** The values [lcv] takes in work item [ID], in order. *)
Definition work_item (Nthreads maxI ID : Z) : list Z :=
  (λ k, ID + k * Nthreads) <$> seqZ 0 (work_item_count ID Nthreads maxI).

(** One sequential schedule of the whole range: work items in the order of
    their [ID]. *)
Definition NDRange (Nthreads maxI : Z) : list Z :=
  seqZ 0 Nthreads ≫= work_item Nthreads maxI.

(** Running a kernel body over a schedule. *)
Definition run_kernel {S : Type} (body : Z -> S -> S) (schedule : list Z) (st : S) : S :=
  foldl (λ s lcv, body lcv s) st schedule.

(** [par_for(begin, end, fn)] of the CPU engine, as a sequential loop. *)
Definition par_for {S : Type} (begin_ end_ : Z) (fn : Z -> S -> S) (st : S) : S :=
  foldl (λ s lcv, fn lcv s) st (seqZ begin_ (end_ - begin_)).

(** ** Writes of a kernel that touch one cell per index *)

(** A loop whose iteration [i] stores [src i] at [dest i]. *)
Definition scatter {A : Type} (dest : Z -> Z) (src : Z -> A) (schedule : list Z)
    (out : list A) : list A :=
  run_kernel (λ i out, <[ Z.to_nat (dest i) := src i ]> out) schedule out.

(** A loop whose iteration [lcv] replaces cell [lcv] by a function of its
    content. *)
Definition in_place {A : Type} `{Inhabited A} (g : Z -> A -> A) (schedule : list Z)
    (sv : list A) : list A :=
  run_kernel (λ lcv sv, <[ Z.to_nat lcv := g lcv (sv !!! Z.to_nat lcv) ]> sv) schedule sv.

(** ** Bit ranges of an index *)

(** The register field [length] bits wide at [start], and the rest. *)
Definition regMask_of (start length : Z) : Z := Z.shiftl (Z.ones length) start.
Definition otherMask_of (n start length : Z) : Z :=
  Z.land (Z.ones n) (Z.lnot (regMask_of start length)).

(** The register [[start, start + length)] of index [i] read as a
    little-endian unsigned integer, and the index with [k] added to it
    modulo [2 ^ length]. *)
Definition register_value (start length i : Z) : Z := (i / 2 ^ start) mod 2 ^ length.
Definition add_to_register (start length k i : Z) : Z :=
  i + ((register_value start length i + k) mod 2 ^ length - register_value start length i)
      * 2 ^ start.

(** The number of bits set in a non-negative integer. *)
Fixpoint Pos_popcount (p : positive) : Z :=
  match p with
  | xH => 1
  | xO p => Pos_popcount p
  | xI p => 1 + Pos_popcount p
  end.
Definition popcount (z : Z) : Z :=
  match z with Zpos p => Pos_popcount p | _ => 0 end.

(** ** The OpenCL kernels (qengine.cl) *)

Module Kernel.
Section Kernels.
Context {R1 : Real1}.

(** [kernel inc]: every amplitude moves to the index whose register field,
    read as an unsigned integer, is [toAdd] greater. *)
Definition inc_dest (bitCapIntOclPtr : list Z) (i : Z) : Z :=
  let inOutMask := bitCapIntOclPtr !!! 1%nat in
  let otherMask := bitCapIntOclPtr !!! 2%nat in
  let lengthMask := cap_sub (bitCapIntOclPtr !!! 3%nat) ONE_BCI in
  let inOutStart := bitCapIntOclPtr !!! 4%nat in
  let toAdd := bitCapIntOclPtr !!! 5%nat in
  Z.lor
    (cap_shl (Z.land (cap_add (Z.shiftr (Z.land i inOutMask) inOutStart) toAdd) lengthMask)
             inOutStart)
    (Z.land i otherMask).

Definition inc (Nthreads : Z) (stateVec : list complex) (bitCapIntOclPtr : list Z)
    (nStateVec : list complex) : list complex :=
  let maxI := bitCapIntOclPtr !!! 0%nat in
  run_kernel
    (λ i nStateVec,
       <[ Z.to_nat (inc_dest bitCapIntOclPtr i) := stateVec !!! Z.to_nat i ]> nStateVec)
    (NDRange Nthreads maxI) nStateVec.

(** [kernel compose]; the arguments are named as the kernel's comment names
    them: [args.x = nMaxQPower], [args.y = qubitCount], [args.z = startMask],
    [args.w = endMask]. *)
Definition compose (Nthreads : Z) (stateVec1 stateVec2 : list complex)
    (bitCapIntOclPtr : list Z) (nStateVec : list complex) : list complex :=
  let args_x := bitCapIntOclPtr !!! 0%nat in
  let args_y := bitCapIntOclPtr !!! 1%nat in
  let args_z := bitCapIntOclPtr !!! 2%nat in
  let args_w := bitCapIntOclPtr !!! 3%nat in
  run_kernel
    (λ lcv nStateVec,
       <[ Z.to_nat lcv :=
            zmul (stateVec1 !!! Z.to_nat (Z.land lcv args_z))
                 (stateVec2 !!! Z.to_nat (Z.shiftr (Z.land lcv args_w) args_y)) ]> nStateVec)
    (NDRange Nthreads args_x) nStateVec.

(** The loop [for (c = 0; perm; c++) perm &= perm - ONE_BCI;]: [c] counts
    the bits set in [perm]. Each pass clears one bit, so the width of
    [bitCapIntOcl] bounds the number of passes. *)
Fixpoint count_bits (passes : nat) (perm c : Z) : Z :=
  match passes with
  | O => c
  | S passes' =>
      if perm =? 0 then c
      else count_bits passes' (Z.land perm (cap_sub perm ONE_BCI)) (wrapLen (c + 1))
  end.

Definition parity_phase (qMask : Z) (phaseFac phaseFacAdj : complex) (i : Z) : complex :=
  let perm := Z.land i qMask in
  let c := count_bits (Z.to_nat bitsInCap) perm 0 in
  if Z.land c 1 =? 0 then phaseFacAdj else phaseFac.

(** [kernel uniformparityrz] *)
Definition uniformparityrz (Nthreads : Z) (stateVec : list complex)
    (bitCapIntOclPtr : list Z) (cmplx_ptr : list complex) : list complex :=
  let maxI := bitCapIntOclPtr !!! 0%nat in
  let qMask := bitCapIntOclPtr !!! 1%nat in
  let phaseFac := cmplx_ptr !!! 0%nat in
  let phaseFacAdj := cmplx_ptr !!! 1%nat in
  run_kernel
    (λ lcv stateVec,
       <[ Z.to_nat lcv :=
            zmul (stateVec !!! Z.to_nat lcv) (parity_phase qMask phaseFac phaseFacAdj lcv) ]>
         stateVec)
    (NDRange Nthreads maxI) stateVec.

(** [kernel uniformparityrznorm]: the same, with every product multiplied
    by [cmplx_ptr[2]]. *)
Definition uniformparityrznorm (Nthreads : Z) (stateVec : list complex)
    (bitCapIntOclPtr : list Z) (cmplx_ptr : list complex) : list complex :=
  let maxI := bitCapIntOclPtr !!! 0%nat in
  let qMask := bitCapIntOclPtr !!! 1%nat in
  let phaseFac := cmplx_ptr !!! 0%nat in
  let phaseFacAdj := cmplx_ptr !!! 1%nat in
  let nrm := cmplx_ptr !!! 2%nat in
  run_kernel
    (λ lcv stateVec,
       <[ Z.to_nat lcv :=
            zmul nrm (zmul (stateVec !!! Z.to_nat lcv)
                           (parity_phase qMask phaseFac phaseFacAdj lcv)) ]>
         stateVec)
    (NDRange Nthreads maxI) stateVec.

(** The loop that spreads [lcv] around the control bits ([qPowers] sorted,
    [cLen] of them). *)
Fixpoint push_apart (qPowers : list Z) (iHigh i : Z) : Z * Z :=
  match qPowers with
  | [] => (iHigh, i)
  | qp :: rest =>
      let iLow := Z.land iHigh (cap_sub qp ONE_BCI) in
      push_apart rest (cap_shl (Z.lxor iHigh iLow) ONE_BCI) (Z.lor i iLow)
  end.

(** [kernel cuniformparityrz] *)
Definition cuniformparityrz (Nthreads : Z) (stateVec : list complex)
    (bitCapIntOclPtr : list Z) (cmplx_ptr : list complex) (qPowers : list Z) : list complex :=
  let maxI := bitCapIntOclPtr !!! 0%nat in
  let qMask := bitCapIntOclPtr !!! 1%nat in
  let cMask := bitCapIntOclPtr !!! 2%nat in
  let cLen := bitCapIntOclPtr !!! 3%nat in
  let phaseFac := cmplx_ptr !!! 0%nat in
  let phaseFacAdj := cmplx_ptr !!! 1%nat in
  run_kernel
    (λ lcv stateVec,
       let '(iHigh, i) := push_apart (take (Z.to_nat cLen) qPowers) lcv 0 in
       let i := Z.lor i (Z.lor iHigh cMask) in
       <[ Z.to_nat i :=
            zmul (stateVec !!! Z.to_nat i) (parity_phase qMask phaseFac phaseFacAdj i) ]>
         stateVec)
    (NDRange Nthreads maxI) stateVec.

(** [PUSH_APART_1]: [lcv] with a zero bit inserted at the position of
    [qMask + 1]. *)
Definition PUSH_APART_1 (qMask lcv : Z) : Z :=
  let i := Z.land lcv qMask in
  Z.lor i (cap_shl (Z.lxor lcv i) ONE_BCI).

(** [kernel phasesingle] ([APPLY_PHASE]); [OFFSET2_ARG] is
    [bitCapIntOclPtr[0]], [MAXI_ARG] is [bitCapIntOclPtr[2]]. *)
Definition phasesingle (Nthreads : Z) (stateVec : list complex) (cmplxPtr : list complex)
    (bitCapIntOclPtr : list Z) : list complex :=
  let OFFSET2_ARG := bitCapIntOclPtr !!! 0%nat in
  let MAXI_ARG := bitCapIntOclPtr !!! 2%nat in
  let qMask := bitCapIntOclPtr !!! 3%nat in
  let topLeft := cmplxPtr !!! 0%nat in
  let bottomRight := cmplxPtr !!! 3%nat in
  run_kernel
    (λ lcv stateVec,
       let i := PUSH_APART_1 qMask lcv in
       let stateVec := <[ Z.to_nat i := zmul topLeft (stateVec !!! Z.to_nat i) ]> stateVec in
       <[ Z.to_nat (Z.lor i OFFSET2_ARG) :=
            zmul bottomRight (stateVec !!! Z.to_nat (Z.lor i OFFSET2_ARG)) ]> stateVec)
    (NDRange Nthreads MAXI_ARG) stateVec.

(** [kernel invertsingle] ([APPLY_INVERT]) *)
Definition invertsingle (Nthreads : Z) (stateVec : list complex) (cmplxPtr : list complex)
    (bitCapIntOclPtr : list Z) : list complex :=
  let OFFSET2_ARG := bitCapIntOclPtr !!! 0%nat in
  let MAXI_ARG := bitCapIntOclPtr !!! 2%nat in
  let qMask := bitCapIntOclPtr !!! 3%nat in
  let topRight := cmplxPtr !!! 1%nat in
  let bottomLeft := cmplxPtr !!! 2%nat in
  run_kernel
    (λ lcv stateVec,
       let i := PUSH_APART_1 qMask lcv in
       let Y0 := stateVec !!! Z.to_nat i in
       let stateVec :=
         <[ Z.to_nat i := zmul topRight (stateVec !!! Z.to_nat (Z.lor i OFFSET2_ARG)) ]> stateVec in
       <[ Z.to_nat (Z.lor i OFFSET2_ARG) := zmul bottomLeft Y0 ]> stateVec)
    (NDRange Nthreads MAXI_ARG) stateVec.

End Kernels.
End Kernel.

(** ** Errors *)

(** The exceptions the sources throw. *)
Inductive exception : Type :=
  | invalid_argument (what : string).

Inductive result (A : Type) : Type :=
  | Ok (a : A)
  | Throw (e : exception).
Arguments Ok {A} a.
Arguments Throw {A} e.

Definition capacity_message : string :=
  "Cannot instantiate a register with greater capacity than native types on emulating system.".

(** Modelled from the spec: the failure its section 7 calls
    CapacityExceeded. The sources have no classification of failures of
    their own: the capacity guards of the constructors throw
    [std::invalid_argument] with the message above, and that exception is
    the failure meant. *)
Definition CapacityExceeded : exception := invalid_argument capacity_message.

(** ** The OpenCL engine's host code (opencl.cpp) *)

Module QEngineOCL.
Section Host.
Context {R1 : Real1} {LM : Libm R1}.

(** The fields of [QEngineOCL] the modelled operations use;
    [nrmGroupCount] is what the device context reports. *)
Record t : Type := Build {
  qubitCount : Z;
  maxQPower : Z;
  runningNorm : real1;
  stateVec : list complex;
  nrmGroupCount : Z
}.

(** The kernels reached through [DispatchCall] here. *)
Inductive OCLAPI : Type := OCL_API_INC.

Definition BCI_ARG_LEN : nat := 10.

(** [while (power < wic) power <<= 1U;] on a [size_t]: the width bounds the
    number of doublings (lemma [double_until_exit]: the loop ends by its
    test). *)
Fixpoint double_until (doublings : nat) (power wic : Z) : Z :=
  match doublings with
  | O => power
  | S doublings' => if power <? wic then double_until doublings' (power * 2) wic else power
  end.

Definition FixWorkItemCount (maxI wic : Z) : Z :=
  if maxI <? wic then maxI
  else
    let power := double_until (Z.to_nat bitsInCap) 2 wic in
    if wic <? power then Z.shiftr power 1 else power.

(** [DispatchCall] without controls: a new state vector is allocated and
    filled with zeros, the kernel runs over [FixWorkItemCount] work items,
    and the new vector replaces the old one. *)
Definition DispatchCall (api_call : OCLAPI) (bciArgs : list Z) (e : t) : t :=
  let nStateVec := replicate (Z.to_nat (maxQPower e)) ZERO_CMPLX in
  let maxI := bciArgs !!! 0%nat in
  let ngc := FixWorkItemCount maxI (nrmGroupCount e) in
  let nStateVec :=
    match api_call with
    | OCL_API_INC => Kernel.inc ngc (stateVec e) bciArgs nStateVec
    end in
  Build (qubitCount e) (maxQPower e) (runningNorm e) nStateVec (nrmGroupCount e).

(** Add or subtract an integer (without sign or carry). *)
Definition INT (api_call : OCLAPI) (toMod start length : Z) (e : t) : t :=
  let lengthPower := cap_shl 1 length in
  let regMask := cap_shl (cap_sub lengthPower 1) start in
  let otherMask := Z.land (cap_sub (maxQPower e) 1) (cap_not regMask) in
  let bciArgs := [maxQPower e; regMask; otherMask; lengthPower; start; toMod; 0; 0; 0; 0] in
  DispatchCall api_call bciArgs e.

Definition INC (toAdd start length : Z) (e : t) : t := INT OCL_API_INC toAdd start length e.

(** The arguments of the two single-qubit kernels, in the places the
    kernels read them from: [OFFSET2_ARG] is the power of the target,
    [MAXI_ARG] half the number of amplitudes and [qMask] the bits below the
    target. *)
Definition gate_args (target : Z) (e : t) : list Z :=
  let qPower := cap_shl 1 target in
  [qPower; 0; Z.shiftr (maxQPower e) 1; cap_sub qPower ONE_BCI].

(** Modelled from the spec: [ApplyPhase(topLeft, bottomRight, q)] of the
    state-vector engine. The engine's host code for the 2x2 gates is not
    among the sources, the kernel is: the call is the dispatch of
    [phasesingle] over the [maxQPower / 2] index pairs that differ in bit
    [target]. *)
Definition ApplySinglePhase (topLeft bottomRight : complex) (target : Z) (e : t) : t :=
  let ngc := FixWorkItemCount (Z.shiftr (maxQPower e) 1) (nrmGroupCount e) in
  Build (qubitCount e) (maxQPower e) (runningNorm e)
    (Kernel.phasesingle ngc (stateVec e) [topLeft; ZERO_CMPLX; ZERO_CMPLX; bottomRight]
       (gate_args target e))
    (nrmGroupCount e).

(** Modelled from the spec: [ApplyInvert(topRight, bottomLeft, q)] of the
    state-vector engine, the dispatch of [invertsingle] in the same way. *)
Definition ApplySingleInvert (topRight bottomLeft : complex) (target : Z) (e : t) : t :=
  let ngc := FixWorkItemCount (Z.shiftr (maxQPower e) 1) (nrmGroupCount e) in
  Build (qubitCount e) (maxQPower e) (runningNorm e)
    (Kernel.invertsingle ngc (stateVec e) [ZERO_CMPLX; topRight; bottomLeft; ZERO_CMPLX]
       (gate_args target e))
    (nrmGroupCount e).

(** The constructor; [rand] is the value [Rand()] draws, [nrmGroupCount]
    what [InitOCL] finds on the device. The parameter [qBitCount] is a
    [bitLenInt] ([uint8_t]): the count the caller passes arrives modulo
    [2 ^ 8]. The guard comes first; [SetQubitCount] (in the header) sets
    [maxQPower] to [1 << qBitCount]. *)
Definition construct (rand : real1) (nrmGroupCount : Z)
    (qBitCount initState : Z) (phaseFac : complex) : result t :=
  let qBitCount := wrapLen qBitCount in
  if sizeof_bitCapInt * bitsInByte <? qBitCount then
    Throw (invalid_argument capacity_message)
  else
    let maxQPower := cap_shl 1 qBitCount in
    let stateVec := replicate (Z.to_nat maxQPower) ZERO_CMPLX in
    let amp :=
      if ceqb phaseFac CMPLX_DEFAULT_ARG
      then polar_unit (rand * (ONE_R1 + ONE_R1) * PI_R1)%r1
      else phaseFac in
    Ok (Build qBitCount maxQPower ONE_R1 (<[ Z.to_nat initState := amp ]> stateVec)
          nrmGroupCount).

(** What the constructor and [SetQubitCount] establish. *)
Definition well_formed (e : t) : Prop :=
  0 <= qubitCount e < bitsInInt - 1 /\
  maxQPower e = 2 ^ qubitCount e /\
  length (stateVec e) = Z.to_nat (maxQPower e).

End Host.

Arguments t : clear implicits.
Arguments t {R1}.

End QEngineOCL.

(** ** The CPU engine (state.cpp) *)

Module QEngineCPU.
Section Engine.
Context {R1 : Real1} {LM : Libm R1}.

Record t : Type := Build {
  qubitCount : Z;
  maxQPower : Z;
  runningNorm : real1;
  stateVec : list complex
}.

Definition SetQubitCount (qb : Z) (e : t) : t :=
  Build qb (cap_shl 1 qb) (runningNorm e) (stateVec e).

(** [AllocStateVec(elemCount)]: [aligned_alloc] hands out a block whose
    contents are indeterminate; [mem] is what the block holds. *)
Definition AllocStateVec (mem : list complex) (elemCount : Z) : list complex :=
  resize (Z.to_nat elemCount) ZERO_CMPLX mem.

Definition ResetStateVec (nStateVec : list complex) (e : t) : t :=
  Build (qubitCount e) (maxQPower e) (runningNorm e) nStateVec.

(** One pass of the loop of [NormalizeState]: the amplitude divided by the
    running norm, or zero when the squared magnitude of that is below
    [min_norm]. *)
Definition normalized_amplitude (runningNorm : real1) (amp : complex) : complex :=
  let amp := cdiv_real amp runningNorm in
  if r_ltb (norm amp) min_norm then ZERO_CMPLX else amp.

Definition NormalizeState (e : t) : t :=
  let stateVec :=
    par_for 0 (maxQPower e)
      (λ lcv stateVec,
         <[ Z.to_nat lcv :=
              normalized_amplitude (runningNorm e) (stateVec !!! Z.to_nat lcv) ]> stateVec)
      (stateVec e) in
  Build (qubitCount e) (maxQPower e) ONE_R1 stateVec.

(** [if (runningNorm != 1.0) NormalizeState();] *)
Definition normalize_if_needed (e : t) : t :=
  if negb (r_eqb (runningNorm e) ONE_R1) then NormalizeState e else e.

(** The constructor. [rand] is the value [Rand()] draws when the phase
    factor is the default one, [complex(-999.0, -999.0)]. The parameter
    [qBitCount] is a [bitLenInt] ([uint8_t]): the count the caller passes
    arrives modulo [2 ^ 8]. The guard comes before anything is built. *)
Definition construct (mem : list complex) (rand : real1)
    (qBitCount initState : Z) (phaseFac : complex) : result t :=
  let qBitCount := wrapLen qBitCount in
  if sizeof_bitCapInt * bitsInByte <? qBitCount then
    Throw (invalid_argument capacity_message)
  else
    let e := SetQubitCount qBitCount (Build 0 1 ONE_R1 []) in
    let stateVec := AllocStateVec mem (maxQPower e) in
    let stateVec := replicate (length stateVec) ZERO_CMPLX in
    let amp :=
      if ceqb phaseFac CMPLX_DEFAULT_ARG
      then polar_unit (rand * (ONE_R1 + ONE_R1) * PI_R1)%r1
      else phaseFac in
    Ok (ResetStateVec (<[ Z.to_nat initState := amp ]> stateVec) e).

(** [Cohere(toCopy)]: returns the index the copied qubits start at, this
    engine and [toCopy] (which is normalised in place too). *)
Definition Cohere (mem : list complex) (e toCopy : t) : Z * t * t :=
  let result := qubitCount e in
  let e := normalize_if_needed e in
  let toCopy := normalize_if_needed toCopy in
  let nQubitCount := cap_add (qubitCount e) (qubitCount toCopy) in
  let nMaxQPower := cap_shl 1 nQubitCount in
  let startMask := cap_sub (cap_shl 1 (qubitCount e)) 1 in
  let endMask := cap_shl (cap_sub (cap_shl 1 (qubitCount toCopy)) 1) (qubitCount e) in
  let nStateVec := AllocStateVec mem nMaxQPower in
  let nStateVec :=
    par_for 0 nMaxQPower
      (λ lcv nStateVec,
         <[ Z.to_nat lcv :=
              zmul (stateVec e !!! Z.to_nat (Z.land lcv startMask))
                   (stateVec toCopy !!! Z.to_nat (Z.shiftr (Z.land lcv endMask) (qubitCount e))) ]>
           nStateVec)
      nStateVec in
  (result, ResetStateVec nStateVec (SetQubitCount nQubitCount e), toCopy).

(** [array[i] += x] on an array of [real1]. *)
Definition accumulate (i : Z) (x : real1) (array : list real1) : list real1 :=
  <[ Z.to_nat i := (array !!! Z.to_nat i + x)%r1 ]> array.

(** [sqrt(prob) * complex(cos(angle), sin(angle))] *)
Definition from_polar (prob angle : real1) : complex :=
  real_cmul (r_sqrt prob) (polar_unit angle).

(** [Decohere(start, length, destination)]. [partStateAngle0] and
    [remainderStateAngle0] are the contents of the two arrays that
    [new real1[...]] leaves uninitialised; the probability arrays are
    value-initialised ([new real1[...]()]). The second loop stores into
    [remainderStateAngle], as the source does; where [partPower] exceeds
    [remainderPower] that store is past the end of the array, which has no
    defined behaviour in C++ and changes nothing here. Returns this engine
    and the destination. *)
Definition Decohere (mem : list complex) (partStateAngle0 remainderStateAngle0 : list real1)
    (start length : Z) (e destination : t) : t * t :=
  if length =? 0 then (e, destination)
  else
    let e := normalize_if_needed e in
    let partPower := cap_shl 1 length in
    let remainderPower := cap_shl 1 (wrapLen (qubitCount e - length)) in
    let partStateProb := replicate (Z.to_nat partPower) ZERO_R1 in
    let remainderStateProb := replicate (Z.to_nat remainderPower) ZERO_R1 in
    let partStateAngle := resize (Z.to_nat partPower) ZERO_R1 partStateAngle0 in
    let remainderStateAngle := resize (Z.to_nat remainderPower) ZERO_R1 remainderStateAngle0 in
    let '(remainderStateProb, remainderStateAngle) :=
      par_for 0 remainderPower
        (λ lcv '(remainderStateProb, remainderStateAngle),
           let j := lcv mod (cap_shl 1 start) in
           let j := Z.lor j (cap_shl (Z.lxor lcv j) length) in
           let remainderStateProb :=
             foldl (λ prob k,
                      let l := Z.lor j (cap_shl k start) in
                      accumulate lcv (norm (stateVec e !!! Z.to_nat l)) prob)
                   remainderStateProb (seqZ 0 partPower) in
           (remainderStateProb,
            <[ Z.to_nat lcv := arg (stateVec e !!! Z.to_nat j) ]> remainderStateAngle))
        (remainderStateProb, remainderStateAngle) in
    let '(partStateProb, remainderStateAngle) :=
      par_for 0 partPower
        (λ lcv '(partStateProb, remainderStateAngle),
           let j := cap_shl lcv start in
           let partStateProb :=
             foldl (λ prob k,
                      let l := k mod (cap_shl 1 start) in
                      let l := Z.lor l (cap_shl (Z.lxor k l) length) in
                      let l := Z.lor j l in
                      accumulate lcv (norm (stateVec e !!! Z.to_nat l)) prob)
                   partStateProb (seqZ 0 remainderPower) in
           (partStateProb,
            <[ Z.to_nat lcv := arg (stateVec e !!! Z.to_nat j) ]> remainderStateAngle))
        (partStateProb, remainderStateAngle) in
    let e :=
      if cap_sub (maxQPower e) partPower =? 0 then SetQubitCount 1 e
      else SetQubitCount (wrapLen (qubitCount e - length)) e in
    let e := ResetStateVec (AllocStateVec mem (maxQPower e)) e in
    let destination :=
      ResetStateVec
        (par_for 0 partPower
           (λ lcv stateVec,
              <[ Z.to_nat lcv :=
                   from_polar (partStateProb !!! Z.to_nat lcv) (partStateAngle !!! Z.to_nat lcv) ]>
                stateVec)
           (stateVec destination))
        destination in
    let e :=
      ResetStateVec
        (par_for 0 remainderPower
           (λ lcv stateVec,
              <[ Z.to_nat lcv :=
                   from_polar (remainderStateProb !!! Z.to_nat lcv)
                              (remainderStateAngle !!! Z.to_nat lcv) ]>
                stateVec)
           (stateVec e))
        e in
    (e, destination).

(** [Dispose(start, length)]; [partStateAngle0] is the content of the
    array [new real1[...]] leaves uninitialised. *)
Definition Dispose (mem : list complex) (partStateAngle0 : list real1)
    (start length : Z) (e : t) : t :=
  if length =? 0 then e
  else
    let e := normalize_if_needed e in
    let partPower := cap_shl 1 length in
    let mask := cap_shl (cap_sub partPower 1) start in
    let startMask := cap_sub (cap_shl 1 start) 1 in
    let endMask := Z.lxor (cap_sub (maxQPower e) 1) (Z.lor mask startMask) in
    if cap_sub (maxQPower e) partPower =? 0 then
      let e := SetQubitCount 1 e in
      ResetStateVec (AllocStateVec mem (maxQPower e)) e
    else
      let size := cap_shl 1 (wrapLen (qubitCount e - length)) in
      let partStateProb := replicate (Z.to_nat size) ZERO_R1 in
      let partStateAngle := resize (Z.to_nat size) ZERO_R1 partStateAngle0 in
      let '(partStateProb, partStateAngle) :=
        foldl (λ '(partStateProb, partStateAngle) i,
                 let prob := norm (stateVec e !!! Z.to_nat i) in
                 let angle := arg (stateVec e !!! Z.to_nat i) in
                 let d := Z.lor (Z.land i startMask) (Z.shiftr (Z.land i endMask) length) in
                 (accumulate d prob partStateProb, <[ Z.to_nat d := angle ]> partStateAngle))
              (partStateProb, partStateAngle) (seqZ 0 (maxQPower e)) in
      let e := SetQubitCount (wrapLen (qubitCount e - length)) e in
      let e := ResetStateVec (AllocStateVec mem (maxQPower e)) e in
      ResetStateVec
        (par_for 0 (maxQPower e)
           (λ lcv stateVec,
              <[ Z.to_nat lcv :=
                   from_polar (partStateProb !!! Z.to_nat lcv) (partStateAngle !!! Z.to_nat lcv) ]>
                stateVec)
           (stateVec e))
        e.

(** The loop of [Prob]: the sum of [norm(stateVec[lcv])] over the indices
    with the bit [qPower] set. *)
Definition one_chance (qPower maxQPower : Z) (stateVec : list complex) : real1 :=
  foldl (λ oneChance lcv,
           if Z.land lcv qPower =? qPower
           then (oneChance + norm (stateVec !!! Z.to_nat lcv))%r1
           else oneChance)
        ZERO_R1 (seqZ 0 maxQPower).

(** [Prob(qubit)]: the chance of [|1>], and the engine as the call leaves it. *)
Definition Prob (qubit : Z) (e : t) : real1 * t :=
  let e := normalize_if_needed e in
  let qPower := cap_shl 1 qubit in
  (one_chance qPower (maxQPower e) (stateVec e), e).

(** [ProbAll(fullRegister)] *)
Definition ProbAll (fullRegister : Z) (e : t) : real1 * t :=
  let e := normalize_if_needed e in
  (norm (stateVec e !!! Z.to_nat fullRegister), e).

Definition well_formed (e : t) : Prop :=
  0 <= qubitCount e < bitsInInt - 1 /\
  maxQPower e = 2 ^ qubitCount e /\
  length (stateVec e) = Z.to_nat (maxQPower e).

End Engine.

Arguments t : clear implicits.
Arguments t {R1}.

End QEngineCPU.

(** ** The pager (qpager.cpp) *)

Module QPager.
Section Pager.
Context {R1 : Real1} {LM : Libm R1}.

(** The fields the modelled operations use. The page geometry
    ([qubitsPerPage], [qPageCount], [qPageMaxQPower]) is what the pager's
    [SetQubitCount] computes; that function is not among the sources (see
    [Geometry]). *)
Record t : Type := Build {
  qubitCount : Z;
  qubitsPerPage : Z;
  qPageCount : Z;
  qPageMaxQPower : Z;
  randGlobalPhase : bool;
  qPages : list QEngineOCL.t
}.

Definition set_qPages (qPages : list QEngineOCL.t) (p : t) : t :=
  Build (qubitCount p) (qubitsPerPage p) (qPageCount p) (qPageMaxQPower p)
        (randGlobalPhase p) qPages.

(** [qPages[i]->f(...)] *)
Definition on_page (i : Z) (f : QEngineOCL.t -> QEngineOCL.t)
    (qPages : list QEngineOCL.t) : list QEngineOCL.t :=
  match qPages !! Z.to_nat i with
  | Some page => <[ Z.to_nat i := f page ]> qPages
  | None => qPages
  end.

(** [std::swap(qPages[i], qPages[j])] *)
Definition swap_pages (i j : Z) (qPages : list QEngineOCL.t) : list QEngineOCL.t :=
  match qPages !! Z.to_nat i, qPages !! Z.to_nat j with
  | Some pi, Some pj => <[ Z.to_nat j := pi ]> (<[ Z.to_nat i := pj ]> qPages)
  | _, _ => qPages
  end.

(** The page geometry as the pager's [SetQubitCount] leaves it. That
    function is not among the sources; the constructor reads these four
    fields after it has called it. *)
Record Geometry : Type := BuildGeometry {
  g_qubitsPerPage : Z;
  g_qPageQubitCount : Z;
  g_qPageCount : Z;
  g_qPageMaxQPower : Z
}.

(** The constructor. [qBitCount] is a [bitLenInt] ([uint8_t]) and arrives
    modulo [2 ^ 8]. [SetQubitCount(qubitCount)] sets the page geometry; the
    guard compares [pow2(qubitsPerPage)] with the number of bits of
    [bitCapIntOcl]; then one page is built per [qPageCount], the page that
    holds [initState] set to it and the others with amplitude 0 set to
    zero. [SetQubitCount], [MakeEngine] (which builds a page engine in a
    basis state) and the engine's [SetAmplitude] are not among the sources
    and are arguments. *)
Definition construct (SetQubitCount : Z -> Geometry) (MakeEngine : Z -> Z -> QEngineOCL.t)
    (SetAmplitude : Z -> complex -> QEngineOCL.t -> QEngineOCL.t)
    (qBitCount initState : Z) : result t :=
  let qBitCount := wrapLen qBitCount in
  let g := SetQubitCount qBitCount in
  if sizeof_bitCapIntOcl * bitsInByte <? pow2 (g_qubitsPerPage g) then
    Throw (invalid_argument capacity_message)
  else
    let '(qPages, _) :=
      foldl (λ '(qPages, pagePerm) (_ : Z),
               let isPermInPage := (pagePerm <=? initState) in
               let pagePerm := cap_add pagePerm (g_qPageMaxQPower g) in
               let isPermInPage := isPermInPage && (initState <? pagePerm) in
               if isPermInPage
               then (qPages ++
                       [MakeEngine (g_qPageQubitCount g)
                          (cap_sub initState (cap_sub pagePerm (g_qPageMaxQPower g)))],
                     pagePerm)
               else
                 (qPages ++ [SetAmplitude 0 ZERO_CMPLX (MakeEngine (g_qPageQubitCount g) 0)],
                  pagePerm))
            ([], 0) (seqZ 0 (g_qPageCount g)) in
    Ok (Build qBitCount (g_qubitsPerPage g) (g_qPageCount g) (g_qPageMaxQPower g) false
          qPages).

(** [GetQuantumState(outputState)]: page [i] is copied to
    [outputState + i * qPageMaxQPower]. *)
Definition GetQuantumState (p : t) : list complex :=
  qPages p ≫= QEngineOCL.stateVec.

(** The index of the low page of page pair [lcv] for the meta bit of
    [offset]. *)
Definition pair_low (qMask lcv : Z) : Z :=
  let i := Z.land lcv qMask in
  Z.lor i (cap_shl (Z.lxor lcv i) ONE_BCI).

Definition ApplySinglePhase (tl br : complex) (target : Z) (p : t) : t :=
  let topLeft := tl in
  let bottomRight := br in
  if ceqb topLeft bottomRight && (randGlobalPhase p || ceqb topLeft ONE_CMPLX) then p
  else if target <? qubitsPerPage p then
    set_qPages
      (foldl (λ qPages i, on_page i (QEngineOCL.ApplySinglePhase topLeft bottomRight target) qPages)
             (qPages p) (seqZ 0 (qPageCount p)))
      p
  else
    let topLeft := if randGlobalPhase p then ONE_CMPLX else topLeft in
    let bottomRight := if randGlobalPhase p then cdiv bottomRight topLeft else bottomRight in
    let offset := pow2 (wrapLen (target - qubitsPerPage p)) in
    let qMask := cap_sub offset ONE_BCI in
    let maxLcv := Z.shiftr (qPageCount p) ONE_BCI in
    set_qPages
      (foldl (λ qPages lcv,
                let i := pair_low qMask lcv in
                let qPages :=
                  if negb (ceqb topLeft ONE_CMPLX)
                  then on_page i (QEngineOCL.ApplySinglePhase topLeft topLeft 0) qPages
                  else qPages in
                if negb (ceqb bottomRight ONE_CMPLX)
                then on_page (i + offset)
                       (QEngineOCL.ApplySinglePhase bottomRight bottomRight 0) qPages
                else qPages)
             (qPages p) (seqZ 0 maxLcv))
      p.

Definition ApplySingleInvert (tr bl : complex) (target : Z) (p : t) : t :=
  let topRight := tr in
  let bottomLeft := bl in
  if ceqb topRight (cneg bottomLeft) && (randGlobalPhase p || ceqb topRight ONE_CMPLX) then p
  else if target <? qubitsPerPage p then
    set_qPages
      (foldl (λ qPages i, on_page i (QEngineOCL.ApplySingleInvert topRight bottomLeft target) qPages)
             (qPages p) (seqZ 0 (qPageCount p)))
      p
  else
    let topRight := if randGlobalPhase p then ONE_CMPLX else topRight in
    let bottomLeft := if randGlobalPhase p then cdiv bottomLeft topRight else bottomLeft in
    let offset := pow2 (wrapLen (target - qubitsPerPage p)) in
    let qMask := cap_sub offset ONE_BCI in
    let maxLcv := Z.shiftr (qPageCount p) ONE_BCI in
    set_qPages
      (foldl (λ qPages lcv,
                let i := pair_low qMask lcv in
                let qPages := swap_pages i (i + offset) qPages in
                let qPages :=
                  if negb (ceqb topRight ONE_CMPLX)
                  then on_page i (QEngineOCL.ApplySinglePhase topRight topRight 0) qPages
                  else qPages in
                if negb (ceqb bottomLeft ONE_CMPLX)
                then on_page (i + offset)
                       (QEngineOCL.ApplySinglePhase bottomLeft bottomLeft 0) qPages
                else qPages)
             (qPages p) (seqZ 0 maxLcv))
      p.

(** A pager over [qubitCount] qubits split into pages of [qubitsPerPage]
    qubits each. *)
Definition well_formed (p : t) : Prop :=
  0 < qubitsPerPage p /\ qubitsPerPage p <= qubitCount p < bitsInCap /\
  qPageMaxQPower p = 2 ^ qubitsPerPage p /\
  qPageCount p = 2 ^ (qubitCount p - qubitsPerPage p) /\
  length (qPages p) = Z.to_nat (qPageCount p) /\
  Forall (λ page, QEngineOCL.well_formed page /\
                  QEngineOCL.qubitCount page = qubitsPerPage p) (qPages p).

End Pager.

Arguments t : clear implicits.
Arguments t {R1}.

End QPager.

(** The 2x2 anti-diagonal gate on qubit [target] of an un-paged state
    vector of [n] qubits, as the spec words it: the amplitude of every index
    with bit [target] clear becomes [topRight] times the old amplitude of
    the index with the bit set, and the amplitude of the index with the bit
    set becomes [bottomLeft] times the old amplitude of the index with the
    bit clear. *)
Definition apply_invert_spec {R1 : Real1} (topRight bottomLeft : complex)
    (target : Z) (stateVec : list complex) : list complex :=
  imap (λ i amp,
          let i := Z.of_nat i in
          if Z.testbit i target
          then zmul bottomLeft (stateVec !!! Z.to_nat (Z.clearbit i target))
          else zmul topRight (stateVec !!! Z.to_nat (Z.setbit i target)))
       stateVec.

(** ** Loops that rewrite the two cells of a pair *)

Section PairLoop.
Context {A : Type} `{Inhabited A}.

(** One iteration: the cells [lo] and [hi] are read, then both written. *)
Definition pair_step (G F : A -> A -> A) (lo hi : nat) (l : list A) : list A :=
  <[ hi := F (l !!! lo) (l !!! hi) ]> (<[ lo := G (l !!! lo) (l !!! hi) ]> l).

Definition pair_loop (G F : A -> A -> A) (lo hi : Z -> nat) (schedule : list Z)
    (l : list A) : list A :=
  foldl (λ l a, pair_step G F (lo a) (hi a) l) l schedule.

(** The pairs of a schedule are apart from one another. *)
Definition pairs_apart (lo hi : Z -> nat) (schedule : list Z) : Prop :=
  (forall a, a ∈ schedule -> lo a <> hi a) /\
  (forall a b, a ∈ schedule -> b ∈ schedule -> a <> b ->
     lo a <> lo b /\ lo a <> hi b /\ hi a <> hi b).

End PairLoop.

(** The index without its bit [m]. *)
Definition remove_bit (m j : Z) : Z :=
  Z.lor (Z.land j (Z.ones m)) (Z.shiftl (Z.shiftr j (m + 1)) m).

(** The two cells of the pair of index [a] for bit [t]: [a] with a zero bit
    put in at position [t] ([PUSH_APART_1]), and that index with the bit
    set. *)
Definition pair_lo (t a : Z) : nat := Z.to_nat (Kernel.PUSH_APART_1 (Z.ones t) a).
Definition pair_hi (t a : Z) : nat :=
  Z.to_nat (Z.setbit (Kernel.PUSH_APART_1 (Z.ones t) a) t).

(** The diagonal gate on qubit [target] of a state vector, entry by entry. *)
Definition apply_phase_spec {R1 : Real1} (topLeft bottomRight : complex)
    (target : Z) (stateVec : list complex) : list complex :=
  imap (λ i amp,
          if Z.testbit (Z.of_nat i) target then zmul bottomRight amp else zmul topLeft amp)
       stateVec.

(** The gate of the spec with the multiplications by 1 left out, as the
    pager leaves them out. *)
Definition residual {R1 : Real1} (c amp : complex) : complex :=
  if ceqb c ONE_CMPLX then amp else zmul c amp.

Definition apply_invert_residual {R1 : Real1} (topRight bottomLeft : complex)
    (target : Z) (stateVec : list complex) : list complex :=
  imap (λ i amp,
          let i := Z.of_nat i in
          if Z.testbit i target
          then residual bottomLeft (stateVec !!! Z.to_nat (Z.clearbit i target))
          else residual topRight (stateVec !!! Z.to_nat (Z.setbit i target)))
       stateVec.

#[export] Instance page_inhabited {R1 : Real1} : Inhabited QEngineOCL.t :=
  populate (QEngineOCL.Build 0 1 ONE_R1 [] 0).

(** [qPages[i]->ApplySinglePhase(c, c, 0)] unless [c] is 1. *)
Definition scale_page {R1 : Real1} (c : complex) (page : QEngineOCL.t) : QEngineOCL.t :=
  if ceqb c ONE_CMPLX then page else QEngineOCL.ApplySinglePhase c c 0 page.

(** ** Work-group sizes (opencl.cpp) *)

Module WorkGroup.

(** [while ((frac * gs) != wic) { gs++; frac = wic / gs; }]: the group size
    grows until it divides the number of work items. It cannot pass [wic],
    which bounds the number of passes (lemma [next_divisor_exit]). *)
Fixpoint next_divisor (passes : nat) (wic gs : Z) : Z :=
  match passes with
  | O => gs
  | S passes' =>
      if (wic `div` gs) * gs =? wic then gs else next_divisor passes' wic (gs + 1)
  end.

(** [FixGroupSize(wic, gs)]; [procElemCount] is the number of processing
    elements the device reports. *)
Definition FixGroupSize (procElemCount wic gs : Z) : Z :=
  let gs :=
    if wic `div` procElemCount <? gs then
      let gs := wic `div` procElemCount in
      if gs =? 0 then 1 else gs
    else gs in
  next_divisor (Z.to_nat wic) wic gs.

End WorkGroup.

(** ** Kernels that move buffers (qengine.cl) *)

Module KernelBuffer.
Section Kernels.
Context {R1 : Real1}.

(** [kernel clearbuffer]: the loop of work item [ID] starts at
    [ID + offset]. *)
Definition clearbuffer (Nthreads : Z) (stateVec : list complex)
    (bitCapIntOclPtr : list Z) : list complex :=
  let maxI := bitCapIntOclPtr !!! 0%nat in
  let offset := bitCapIntOclPtr !!! 1%nat in
  let maxI := cap_add maxI offset in
  let amp0 := ZERO_CMPLX in
  run_kernel (λ lcv stateVec, <[ Z.to_nat lcv := amp0 ]> stateVec)
    (seqZ 0 Nthreads ≫= λ ID, work_item Nthreads maxI (cap_add ID offset)) stateVec.

(** [kernel shufflebuffers]: returns both buffers. *)
Definition shufflebuffers (Nthreads : Z) (stateVec1 stateVec2 : list complex)
    (bitCapIntOclPtr : list Z) : list complex * list complex :=
  let halfMaxI := bitCapIntOclPtr !!! 0%nat in
  run_kernel
    (λ lcv '(stateVec1, stateVec2),
       let amp0 := stateVec1 !!! Z.to_nat (cap_add lcv halfMaxI) in
       let stateVec1 :=
         <[ Z.to_nat (cap_add lcv halfMaxI) := stateVec2 !!! Z.to_nat lcv ]> stateVec1 in
       (stateVec1, <[ Z.to_nat lcv := amp0 ]> stateVec2))
    (NDRange Nthreads halfMaxI) (stateVec1, stateVec2).

(** [kernel copypage]: returns the destination buffer. *)
Definition copypage (Nthreads : Z) (srcStateVec destStateVec : list complex)
    (bitCapIntOclPtr : list Z) : list complex :=
  let srcOffset := bitCapIntOclPtr !!! 0%nat in
  let destOffset := bitCapIntOclPtr !!! 1%nat in
  let len := bitCapIntOclPtr !!! 2%nat in
  run_kernel
    (λ lcv destStateVec,
       <[ Z.to_nat (cap_add lcv destOffset) :=
            srcStateVec !!! Z.to_nat (cap_add lcv srcOffset) ]> destStateVec)
    (NDRange Nthreads len) destStateVec.

End Kernels.
End KernelBuffer.

(** ** Setting and reading the state (opencl.cpp, qpager.cpp) *)

Module QuantumState.
Section State.
Context {R1 : Real1}.

(** [QEngineOCL::SetQuantumState(inputState)]:
    [std::copy(inputState, inputState + maxQPower, stateVec)], then the
    running norm is set to 1. *)
Definition SetQuantumState (inputState : list complex) (e : QEngineOCL.t) : QEngineOCL.t :=
  let n := Z.to_nat (QEngineOCL.maxQPower e) in
  QEngineOCL.Build (QEngineOCL.qubitCount e) (QEngineOCL.maxQPower e) ONE_R1
    (take n inputState ++ drop n (QEngineOCL.stateVec e)) (QEngineOCL.nrmGroupCount e).

(** [QPager::SetQuantumState(inputState)]: page [i] is set from
    [inputState + pagePerm], and [pagePerm] grows by [qPageMaxQPower]. *)
Definition QPager_SetQuantumState (inputState : list complex) (p : QPager.t) : QPager.t :=
  let '(qPages, _) :=
    foldl (λ '(qPages, pagePerm) i,
             (QPager.on_page i (SetQuantumState (drop (Z.to_nat pagePerm) inputState)) qPages,
              cap_add pagePerm (QPager.qPageMaxQPower p)))
          (QPager.qPages p, 0) (seqZ 0 (QPager.qPageCount p)) in
  QPager.set_qPages qPages p.

End State.
End QuantumState.

(** ** The multi-device engine (qengine_opencl_multi.hpp) *)

Module QEngineOCLMulti.
Section Multi.
Context {R1 : Real1}.

(** [while (p != 0) { p >>= 1; pow++; }] on a [bitLenInt], whose width
    bounds the number of passes. *)
Fixpoint log2_loop (passes : nat) (p pow : Z) : Z :=
  match passes with
  | O => pow
  | S passes' =>
      if p =? 0 then pow else log2_loop passes' (Z.shiftr p 1) (wrapLen (pow + 1))
  end.

(** [log2(n)]: [p] is a [bitLenInt], so [n >> 1] is cut to its width. *)
Definition log2 (n : Z) : Z :=
  let pow := 0 in
  let p := wrapLen (Z.shiftr n 1) in
  log2_loop (Z.to_nat bitsInByte) p pow.

(** The fields [SetQubitCount] sets, and the sub-engines. *)
Record t : Type := Build {
  qubitCount : Z;
  maxQPower : Z;
  subQubitCount : Z;
  subMaxQPower : Z;
  subEngineCount : Z;
  subBufferSize : Z;
  substateEngines : list QEngineOCL.t
}.

(** [SetQubitCount(qb)]; [sizeof_complex] is [sizeof(complex)] of the
    build. *)
Definition SetQubitCount (sizeof_complex : Z) (qb : Z) (e : t) : t :=
  let qubitCount := qb in
  let maxQPower := cap_shl 1 qubitCount in
  let subEngineCount := wrapLen (Z.of_nat (length (substateEngines e))) in
  let subQubitCount := wrapLen (qubitCount - log2 subEngineCount) in
  let subMaxQPower := cap_shl 1 subQubitCount in
  let subBufferSize := Z.shiftr (wrapCap (sizeof_complex * subMaxQPower)) 1 in
  Build qubitCount maxQPower subQubitCount subMaxQPower subEngineCount subBufferSize
    (substateEngines e).

End Multi.

Arguments t : clear implicits.
Arguments t {R1}.

End QEngineOCLMulti.

(** ** The stabilizer hybrid layer (qstabilizerhybrid.cpp) *)

(** The calls the layer makes on its stabilizer engine ([QStabilizer], not
    among the sources). *)
Inductive StabilizerGate : Type :=
  | SH (t : Z) | SS (t : Z) | SIS (t : Z)
  | SX (t : Z) | SY (t : Z) | SZ (t : Z)
  | SSqrtX (t : Z) | SISqrtX (t : Z) | SSqrtY (t : Z) | SISqrtY (t : Z)
  | SCNOT (c t : Z) | SCZ (c t : Z) | SCY (c t : Z)
  | SSetPermutation (perm : Z)
  | SDispose (start length : Z).

Class QStabilizerOps `{R1 : Real1} (QStabilizer QEngine : Type) := {
  (** [std::make_shared<QStabilizer>(qubitCount, perm, ...)] *)
  new_QStabilizer : Z -> Z -> QStabilizer;
  stab_gate : StabilizerGate -> QStabilizer -> QStabilizer;
  IsSeparableZ : Z -> QStabilizer -> bool;
  IsSeparableX : Z -> QStabilizer -> bool;
  IsSeparableY : Z -> QStabilizer -> bool;
  CanDecomposeDispose : Z -> Z -> QStabilizer -> bool;
  (** [stabilizer->Decompose(start, dest)]: this one and the destination. *)
  stab_Decompose : Z -> QStabilizer -> QStabilizer -> QStabilizer * QStabilizer;
  (** [stabilizer->GetQuantumState(engine)] writes the amplitudes into [engine]. *)
  stab_GetQuantumState : QStabilizer -> QEngine -> QEngine;
  stab_GetProbs : QStabilizer -> list real1;
  (** [stabilizer->M(i)]: the bit measured, and the stabilizer after it. *)
  stab_M : Z -> QStabilizer -> bool * QStabilizer
}.

(** The calls the layer makes on its state-vector engine (a [QInterface]
    built by [CreateQuantumInterface], not among the sources). *)
Inductive EngineGate `{R1 : Real1} : Type :=
  | ECCNOT (c1 c2 t : Z) | ECCZ (c1 c2 t : Z) | ECCY (c1 c2 t : Z)
  | ECH (c t : Z) | ECS (c t : Z) | ECIS (c t : Z)
  | EApplySingleBit (mtrx : list complex) (t : Z)
  | EApplySinglePhase (topLeft bottomRight : complex) (t : Z)
  | EApplySingleInvert (topRight bottomLeft : complex) (t : Z)
  | EApplyControlledSingleBit (controls : list Z) (t : Z) (mtrx : list complex)
  | EApplyControlledSinglePhase (controls : list Z) (t : Z) (topLeft bottomRight : complex)
  | EApplyControlledSingleInvert (controls : list Z) (t : Z) (topRight bottomLeft : complex)
  | EApplyAntiControlledSingleBit (controls : list Z) (t : Z) (mtrx : list complex)
  | EApplyAntiControlledSinglePhase (controls : list Z) (t : Z) (topLeft bottomRight : complex)
  | EApplyAntiControlledSingleInvert (controls : list Z) (t : Z) (topRight bottomLeft : complex)
  | EDispose (start length : Z)
  | EDisposePerm (start length disposedPerm : Z)
  | ESetQuantumState (inputState : list complex).

Class QEngineOps `{R1 : Real1} (QEngine : Type) := {
  (** [CreateQuantumInterface(engineType, ..., qubitCount, perm, ...)] *)
  new_QEngine : Z -> Z -> QEngine;
  engine_gate : EngineGate -> QEngine -> QEngine;
  (** [engine->Decompose(start, dest)]: this one and the destination. *)
  engine_Decompose : Z -> QEngine -> QEngine -> QEngine * QEngine;
  engine_GetProbs : QEngine -> list real1;
  (** [engine->MAll()]: the permutation measured, and the engine after it. *)
  engine_MAll : QEngine -> Z * QEngine
}.

Module QStabilizerHybrid.
Section Hybrid.
Context {R1 : Real1} {LM : Libm R1}.
Context {QStabilizer QEngine : Type}.
Context {SO : QStabilizerOps QStabilizer QEngine} {EO : QEngineOps QEngine}.

(** [QStabilizerShard]: the buffered gate, a 2x2 matrix in row-major order. *)
Definition QStabilizerShard : Type := list complex.

Record t : Type := Build {
  qubitCount : Z;
  stabilizer : option QStabilizer;
  engine : option QEngine;
  shards : list (option QStabilizerShard);
  shardsEigenZ : list bool
}.

Definition set_stabilizer (s : option QStabilizer) (h : t) : t :=
  Build (qubitCount h) s (engine h) (shards h) (shardsEigenZ h).
Definition set_engine (e : option QEngine) (h : t) : t :=
  Build (qubitCount h) (stabilizer h) e (shards h) (shardsEigenZ h).
Definition set_shards (sh : list (option QStabilizerShard)) (h : t) : t :=
  Build (qubitCount h) (stabilizer h) (engine h) sh (shardsEigenZ h).
Definition set_shardsEigenZ (ez : list bool) (h : t) : t :=
  Build (qubitCount h) (stabilizer h) (engine h) (shards h) ez.
Definition SetQubitCount (qb : Z) (h : t) : t :=
  Build qb (stabilizer h) (engine h) (shards h) (shardsEigenZ h).

(** [stabilizer->g(...)] and [engine->g(...)]; a call through a null
    pointer has no defined behaviour and is modelled as no call. *)
Definition on_stabilizer (g : StabilizerGate) (h : t) : t :=
  set_stabilizer (stab_gate g <$> stabilizer h) h.
Definition on_engine (g : EngineGate) (h : t) : t :=
  set_engine (engine_gate g <$> engine h) h.

Definition MakeStabilizer (perm : Z) (h : t) : QStabilizer :=
  new_QStabilizer (qubitCount h) perm.
Definition MakeEngine (perm : Z) (h : t) : QEngine :=
  new_QEngine (qubitCount h) perm.

(** The two modes of the layer. *)
Inductive Mode : Type := StabilizerMode | EngineMode.
Definition mode (h : t) : Mode :=
  match engine h with Some _ => EngineMode | None => StabilizerMode end.

Definition is_set {A} (o : option A) : bool :=
  match o with Some _ => true | None => false end.

(** Engine mode: the engine is set and the stabilizer is not; stabilizer
    mode: the other way round. *)
Definition in_engine_mode (h : t) : Prop :=
  is_set (engine h) = true /\ is_set (stabilizer h) = false.
Definition in_stabilizer_mode (h : t) : Prop :=
  is_set (stabilizer h) = true /\ is_set (engine h) = false.

(** Members of the class that are defined in its header, which is not among
    the sources; they are parameters of the model. *)
Class Header := {
  (** [Prob(qubit)]: the probability, and the layer as the call leaves it. *)
  Prob : Z -> t -> real1 * t;
  CNOT : Z -> Z -> t -> t;
  CZ : Z -> Z -> t -> t;
  CY : Z -> Z -> t -> t;
  H : Z -> t -> t;
  S : Z -> t -> t;
  IS : Z -> t -> t;
  FlushBuffers : t -> t;
  DumpBuffers : t -> t;
  FlushIfBlocked : list Z -> Z -> t -> t;
  (** [TrimControls(lControls, lControlLen, output, anti)]: the returned
      flag, the controls left in [output], and the layer as the call leaves
      it. Where the source leaves [anti] out, the default argument of the
      header applies, taken to be [false]. *)
  TrimControls : list Z -> bool -> t -> bool * list Z * t;
  IsIdentity : list complex -> bool -> bool;
  IS_SAME : complex -> complex -> bool;
  (** [shard->Compose(lMtrx)]: the new gate from the old one and [lMtrx]. *)
  shard_Compose : QStabilizerShard -> list complex -> QStabilizerShard;
  (** [shard->IsInvert()] and [shard->IsPhase()] *)
  shard_IsInvert : QStabilizerShard -> bool;
  shard_IsPhase : QStabilizerShard -> bool;
  SQRT1_2_R1 : real1;
  SetPermutation : Z -> t -> t;
  CollapseSeparableShard : Z -> t -> t;
  Finish : t -> t
}.
Context {HD : Header}.

Definition amplitudeFloor : real1 := REAL1_EPSILON.
Definition IS_NORM_0 (c : complex) : bool := r_leb (norm c) amplitudeFloor.

Definition SwitchToEngine (h : t) : t :=
  match engine h with
  | Some _ => h
  | None =>
      let engine := MakeEngine 0 h in
      let engine :=
        match stabilizer h with
        | Some s => stab_GetQuantumState s engine
        | None => engine
        end in
      FlushBuffers (set_stabilizer None (set_engine (Some engine) h))
  end.

Definition CCNOT (control1 control2 target : Z) (h : t) : t :=
  if is_set (stabilizer h) then
    let '(prob, h) := Prob control1 h in
    if r_eqb prob ZERO_R1 then h
    else if r_eqb prob ONE_R1 then CNOT control2 target h
    else
      let '(prob, h) := Prob control2 h in
      if r_eqb prob ZERO_R1 then h
      else if r_eqb prob ONE_R1 then CNOT control1 target h
      else on_engine (ECCNOT control1 control2 target) (SwitchToEngine h)
  else on_engine (ECCNOT control1 control2 target) h.

Definition CH (control target : Z) (h : t) : t :=
  if is_set (stabilizer h) then
    let '(prob, h) := Prob control h in
    if r_eqb prob ZERO_R1 then h
    else if r_eqb prob ONE_R1 then H target h
    else on_engine (ECH control target) (SwitchToEngine h)
  else on_engine (ECH control target) h.

Definition CS (control target : Z) (h : t) : t :=
  if is_set (stabilizer h) then
    let '(prob, h) := Prob control h in
    if r_eqb prob ZERO_R1 then h
    else if r_eqb prob ONE_R1 then S target h
    else on_engine (ECS control target) (SwitchToEngine h)
  else on_engine (ECS control target) h.

Definition CIS (control target : Z) (h : t) : t :=
  if is_set (stabilizer h) then
    let '(prob, h) := Prob control h in
    if r_eqb prob ZERO_R1 then h
    else if r_eqb prob ONE_R1 then IS target h
    else on_engine (ECIS control target) (SwitchToEngine h)
  else on_engine (ECIS control target) h.

Definition CCZ (control1 control2 target : Z) (h : t) : t :=
  if is_set (stabilizer h) then
    let '(prob, h) := Prob control1 h in
    if r_eqb prob ZERO_R1 then h
    else if r_eqb prob ONE_R1 then CZ control2 target h
    else
      let '(prob, h) := Prob control2 h in
      if r_eqb prob ZERO_R1 then h
      else if r_eqb prob ONE_R1 then CZ control1 target h
      else
        let '(prob, h) := Prob target h in
        if r_eqb prob ZERO_R1 then h
        else if r_eqb prob ONE_R1 then CZ control1 control2 h
        else on_engine (ECCZ control1 control2 target) (SwitchToEngine h)
  else on_engine (ECCZ control1 control2 target) h.

Definition CCY (control1 control2 target : Z) (h : t) : t :=
  if is_set (stabilizer h) then
    let '(prob, h) := Prob control1 h in
    if r_eqb prob ZERO_R1 then h
    else if r_eqb prob ONE_R1 then CY control2 target h
    else
      let '(prob, h) := Prob control2 h in
      if r_eqb prob ZERO_R1 then h
      else if r_eqb prob ONE_R1 then CY control1 target h
      else on_engine (ECCY control1 control2 target) (SwitchToEngine h)
  else on_engine (ECCY control1 control2 target) h.

(** [v.erase(v.begin() + start, v.begin() + start + length)] *)
Definition erase {A} (start length : Z) (v : list A) : list A :=
  take (Z.to_nat start) v ++ drop (Z.to_nat (start + length)) v.

(** [std::copy(src.begin() + start, src.begin() + start + length, dst.begin())] *)
Definition copy_range {A} (start length : Z) (src dst : list A) : list A :=
  take (Z.to_nat length) (drop (Z.to_nat start) src) ++ drop (Z.to_nat length) dst.

(** [Decompose(start, dest)]: this layer and the destination. *)
Definition Decompose (start : Z) (h dest : t) : t * t :=
  let length := qubitCount dest in
  if length =? qubitCount h then
    let dest := set_stabilizer (stabilizer h) dest in
    let h := set_stabilizer None h in
    let dest := set_engine (engine h) dest in
    let h := set_engine None h in
    let dest := set_shards (shards h) dest in
    let dest := set_shardsEigenZ (shardsEigenZ h) dest in
    let h := DumpBuffers h in
    let h := SetQubitCount 1 h in
    let h := set_stabilizer (Some (MakeStabilizer 0 h)) h in
    (h, dest)
  else if is_set (engine h) then
    let dest := SwitchToEngine dest in
    match engine h, engine dest with
    | Some e, Some d =>
        let '(e, d) := engine_Decompose start e d in
        (SetQubitCount (wrapLen (qubitCount h - length)) (set_engine (Some e) h),
         set_engine (Some d) dest)
    | _, _ => (SetQubitCount (wrapLen (qubitCount h - length)) h, dest)
    end
  else
    let dest :=
      if is_set (engine dest)
      then set_stabilizer (Some (MakeStabilizer 0 dest)) (set_engine None dest)
      else dest in
    let '(h, dest) :=
      match stabilizer h, stabilizer dest with
      | Some s, Some d =>
          let '(s, d) := stab_Decompose start s d in
          (set_stabilizer (Some s) h, set_stabilizer (Some d) dest)
      | _, _ => (h, dest)
      end in
    let dest := set_shards (copy_range start length (shards h) (shards dest)) dest in
    let h := set_shards (erase start length (shards h)) h in
    let dest :=
      set_shardsEigenZ (copy_range start length (shardsEigenZ h) (shardsEigenZ dest)) dest in
    let h := set_shardsEigenZ (erase start length (shardsEigenZ h)) h in
    (SetQubitCount (wrapLen (qubitCount h - length)) h, dest).

(** The two overloads of [Dispose] differ in the call they forward to the
    engine. *)
Definition Dispose_with (engine_call : EngineGate) (start length : Z) (h : t) : t :=
  if length =? qubitCount h then
    let h := set_stabilizer None h in
    let h := set_engine None h in
    let h := DumpBuffers h in
    let h := SetQubitCount 1 h in
    set_stabilizer (Some (MakeStabilizer 0 h)) h
  else
    let h :=
      match stabilizer h with
      | Some s => if negb (CanDecomposeDispose start length s) then SwitchToEngine h else h
      | None => h
      end in
    let h :=
      if is_set (engine h) then on_engine engine_call h
      else on_stabilizer (SDispose start length) h in
    let h := set_shards (erase start length (shards h)) h in
    let h := set_shardsEigenZ (erase start length (shardsEigenZ h)) h in
    SetQubitCount (wrapLen (qubitCount h - length)) h.

Definition Dispose (start length : Z) (h : t) : t :=
  Dispose_with (EDispose start length) start length h.

Definition Dispose_perm (start length disposedPerm : Z) (h : t) : t :=
  Dispose_with (EDisposePerm start length disposedPerm) start length h.

Definition GetProbs (h : t) : list real1 * t :=
  let h := FlushBuffers h in
  match stabilizer h, engine h with
  | Some s, _ => (stab_GetProbs s, h)
  | None, Some e => (engine_GetProbs e, h)
  | None, None => ([], h)
  end.

(** [shards[target]] as a pointer that may be null. *)
Definition shard_at (target : Z) (h : t) : option QStabilizerShard :=
  mjoin (shards h !! Z.to_nat target).
Definition set_shard (target : Z) (s : option QStabilizerShard) (h : t) : t :=
  set_shards (<[ Z.to_nat target := s ]> (shards h)) h.

(** [ApplySinglePhase]; [ApplySingleBit] is the function it calls when the
    target has a shard. *)
Definition ApplySinglePhase_with (ApplySingleBit : list complex -> Z -> t -> t)
    (topLeft bottomRight : complex) (target : Z) (h : t) : t :=
  let mtrx := [topLeft; ZERO_CMPLX; ZERO_CMPLX; bottomRight] in
  if IsIdentity mtrx false then h
  else if is_set (shard_at target h) then ApplySingleBit mtrx target h
  else if is_set (engine h) then on_engine (EApplySinglePhase topLeft bottomRight target) h
  else if IS_SAME topLeft bottomRight then h
  else if IS_SAME topLeft (cneg bottomRight) then on_stabilizer (SZ target) h
  else
    let sTest := cdiv bottomRight topLeft in
    if IS_SAME sTest I_CMPLX then on_stabilizer (SS target) h
    else if IS_SAME sTest (cneg I_CMPLX) then on_stabilizer (SIS target) h
    else if from_option (IsSeparableZ target) false (stabilizer h) then h
    else set_shard target (Some mtrx) h.

Definition ApplySingleInvert_with (ApplySingleBit : list complex -> Z -> t -> t)
    (topRight bottomLeft : complex) (target : Z) (h : t) : t :=
  let mtrx := [ZERO_CMPLX; topRight; bottomLeft; ZERO_CMPLX] in
  if is_set (shard_at target h) then ApplySingleBit mtrx target h
  else if is_set (engine h) then on_engine (EApplySingleInvert topRight bottomLeft target) h
  else if IS_SAME topRight bottomLeft then on_stabilizer (SX target) h
  else if IS_SAME topRight (cneg bottomLeft) then on_stabilizer (SY target) h
  else
    let sTest := cdiv topRight bottomLeft in
    if IS_SAME sTest I_CMPLX then on_stabilizer (SS target) (on_stabilizer (SX target) h)
    else if IS_SAME sTest (cneg I_CMPLX)
    then on_stabilizer (SIS target) (on_stabilizer (SX target) h)
    else set_shard target (Some mtrx) h.

(** The Clifford matrices [ApplySingleBit] recognises, each with the
    stabilizer calls made for it, in the order of the source. *)
Definition clifford_cases (mtrx : list complex) (target : Z)
    : list (bool * list StabilizerGate) :=
  let m0 := mtrx !!! 0%nat in
  let m1 := mtrx !!! 1%nat in
  let m2 := mtrx !!! 2%nat in
  let m3 := mtrx !!! 3%nat in
  let I := I_CMPLX in
  let nI := cneg I_CMPLX in
  [ (IS_SAME m0 m1 && IS_SAME m0 m2 && IS_SAME m0 (cneg m3), [SH target]);
    (IS_SAME m0 m1 && IS_SAME m0 (cneg m2) && IS_SAME m0 m3, [SISqrtY target]);
    (IS_SAME m0 (cneg m1) && IS_SAME m0 m2 && IS_SAME m0 m3, [SSqrtY target]);
    (IS_SAME m0 m1 && IS_SAME m0 (zmul nI m2) && IS_SAME m0 (zmul I m3),
     [SH target; SS target]);
    (IS_SAME m0 (zmul I m1) && IS_SAME m0 m2 && IS_SAME m0 (zmul nI m3),
     [SIS target; SH target]);
    (IS_SAME m0 (zmul nI m1) && IS_SAME m0 (zmul nI m2) && IS_SAME m0 m3, [SISqrtX target]);
    (IS_SAME m0 (zmul I m1) && IS_SAME m0 (zmul I m2) && IS_SAME m0 m3, [SSqrtX target]);
    (IS_SAME m0 (cneg m1) && IS_SAME m0 (zmul I m2) && IS_SAME m0 (zmul I m3),
     [SY target; SH target; SS target]);
    (IS_SAME m0 (zmul nI m1) && IS_SAME m0 (cneg m2) && IS_SAME m0 (zmul nI m3),
     [SIS target; SH target; SY target]) ].

Definition on_stabilizer_seq (gs : list StabilizerGate) (h : t) : t :=
  foldl (λ h g, on_stabilizer g h) h gs.

(** The tail of [ApplySingleBit]: the gate is no Clifford gate and is kept
    as a shard, after a change to the Z basis where the qubit is separable. *)
Definition buffer_shard (wasCached : bool) (mtrx : list complex) (target : Z) (h : t) : t :=
  let shard : QStabilizerShard := mtrx in
  let sepZ := from_option (IsSeparableZ target) false (stabilizer h) in
  let sepX := from_option (IsSeparableX target) false (stabilizer h) in
  let sepY := from_option (IsSeparableY target) false (stabilizer h) in
  let c (re im : real1) := Complex re im in
  let '(shard, h) :=
    if wasCached then (shard, h)
    else if sepZ then (shard, set_shardsEigenZ (<[ Z.to_nat target := true ]> (shardsEigenZ h)) h)
    else if sepX then
      let nMtrx := [c SQRT1_2_R1 ZERO_R1; c SQRT1_2_R1 ZERO_R1; c SQRT1_2_R1 ZERO_R1;
                    c (r_neg SQRT1_2_R1) ZERO_R1] in
      let h := on_stabilizer (SH target) h in
      (shard_Compose nMtrx shard,
       set_shardsEigenZ (<[ Z.to_nat target := true ]> (shardsEigenZ h)) h)
    else if sepY then
      let nMtrx := [c SQRT1_2_R1 ZERO_R1; c SQRT1_2_R1 ZERO_R1; c ZERO_R1 SQRT1_2_R1;
                    c ZERO_R1 (r_neg SQRT1_2_R1)] in
      let h := on_stabilizer (SH target) (on_stabilizer (SIS target) h) in
      (shard_Compose nMtrx shard,
       set_shardsEigenZ (<[ Z.to_nat target := true ]> (shardsEigenZ h)) h)
    else (shard, set_shardsEigenZ (<[ Z.to_nat target := false ]> (shardsEigenZ h)) h) in
  if (shardsEigenZ h !!! Z.to_nat target)
     && IS_NORM_0 (shard !!! 1%nat) && IS_NORM_0 (shard !!! 2%nat)
  then h
  else if (shardsEigenZ h !!! Z.to_nat target)
          && IS_NORM_0 (shard !!! 0%nat) && IS_NORM_0 (shard !!! 3%nat)
  then on_stabilizer (SX target) h
  else set_shard target (Some shard) h.

Definition ApplySingleBit_with
    (ApplySinglePhase ApplySingleInvert : complex -> complex -> Z -> t -> t)
    (lMtrx : list complex) (target : Z) (h : t) : t :=
  let '(mtrx, wasCached, h) :=
    match shard_at target h with
    | Some shard =>
        (take 4 (shard_Compose shard lMtrx), true, set_shard target None h)
    | None => (take 4 lMtrx, false, h)
    end in
  if IS_NORM_0 (mtrx !!! 1%nat) && IS_NORM_0 (mtrx !!! 2%nat)
  then ApplySinglePhase (mtrx !!! 0%nat) (mtrx !!! 3%nat) target h
  else if IS_NORM_0 (mtrx !!! 0%nat) && IS_NORM_0 (mtrx !!! 3%nat)
  then ApplySingleInvert (mtrx !!! 1%nat) (mtrx !!! 2%nat) target h
  else if is_set (engine h) then on_engine (EApplySingleBit mtrx target) h
  else
    match List.find fst (clifford_cases mtrx target) with
    | Some (_, gates) => on_stabilizer_seq gates h
    | None => buffer_shard wasCached mtrx target h
    end.

(** The three functions call one another. [ApplySingleBit] clears the
    target's shard before it calls the other two, so their call back to it
    is not taken there: closing that call with the identity gives the
    innermost level, and two more levels give the functions themselves
    (lemma [ApplySingleBit_unfold] is the recursive equation). *)
Definition ApplySingleBit_inner : list complex -> Z -> t -> t :=
  ApplySingleBit_with (ApplySinglePhase_with (λ _ _ h, h)) (ApplySingleInvert_with (λ _ _ h, h)).
Definition ApplySinglePhase : complex -> complex -> Z -> t -> t :=
  ApplySinglePhase_with ApplySingleBit_inner.
Definition ApplySingleInvert : complex -> complex -> Z -> t -> t :=
  ApplySingleInvert_with ApplySingleBit_inner.
Definition ApplySingleBit : list complex -> Z -> t -> t :=
  ApplySingleBit_with ApplySinglePhase ApplySingleInvert.

Definition SetQuantumState (inputState : list complex) (h : t) : t :=
  let h := DumpBuffers h in
  if qubitCount h =? 1 then
    let h := set_engine None h in
    let h :=
      match stabilizer h with
      | Some _ => on_stabilizer (SSetPermutation 0) h
      | None => set_stabilizer (Some (MakeStabilizer 0 h)) h
      end in
    let prob := norm (inputState !!! 1%nat) in
    let sqrtProb := r_sqrt prob in
    let sqrt1MinProb := r_sqrt (ONE_R1 - prob)%r1 in
    let phase0 := polar_unit (arg (inputState !!! 0%nat)) in
    let phase1 := polar_unit (arg (inputState !!! 1%nat)) in
    let mtrx := [real_cmul sqrt1MinProb phase0; real_cmul sqrtProb phase0;
                 real_cmul sqrtProb phase1; real_cmul (r_neg sqrt1MinProb) phase1] in
    ApplySingleBit mtrx 0 h
  else
    on_engine (ESetQuantumState inputState) (SwitchToEngine h).

Definition ApplyControlledSinglePhase (lControls : list Z) (target : Z)
    (topLeft bottomRight : complex) (h : t) : t :=
  let '(trimmed, controls, h) := TrimControls lControls false h in
  if trimmed then h
  else if (length controls =? 0)%nat then ApplySinglePhase topLeft bottomRight target h
  else
    let h := if (1 <? length controls)%nat then SwitchToEngine h else h in
    let h := FlushIfBlocked controls target h in
    let to_engine := EApplyControlledSinglePhase lControls target topLeft bottomRight in
    if is_set (engine h) then on_engine to_engine h
    else
      let control := controls !!! 0%nat in
      let nONE := cneg ONE_CMPLX in
      if IS_SAME topLeft ONE_CMPLX && IS_SAME bottomRight ONE_CMPLX then h
      else if IS_SAME topLeft ONE_CMPLX && IS_SAME bottomRight nONE
      then on_stabilizer (SCZ control target) h
      else if negb (IS_SAME topLeft ONE_CMPLX) && IS_SAME topLeft nONE
              && IS_SAME bottomRight ONE_CMPLX
      then on_stabilizer_seq [SX target; SCZ control target; SX target] h
      else if negb (IS_SAME topLeft ONE_CMPLX) && IS_SAME topLeft nONE
              && IS_SAME bottomRight nONE
      then on_stabilizer_seq [SCZ control target; SX target; SCZ control target; SX target] h
      else on_engine to_engine (SwitchToEngine h).

Definition ApplyControlledSingleInvert (lControls : list Z) (target : Z)
    (topRight bottomLeft : complex) (h : t) : t :=
  let '(trimmed, controls, h) := TrimControls lControls false h in
  if trimmed then h
  else if (length controls =? 0)%nat then ApplySingleInvert topRight bottomLeft target h
  else
    let h := if (1 <? length controls)%nat then SwitchToEngine h else h in
    let h := FlushIfBlocked controls target h in
    let to_engine := EApplyControlledSingleInvert lControls target topRight bottomLeft in
    if is_set (engine h) then on_engine to_engine h
    else
      let control := controls !!! 0%nat in
      let nONE := cneg ONE_CMPLX in
      if IS_SAME topRight ONE_CMPLX && IS_SAME bottomLeft ONE_CMPLX
      then on_stabilizer (SCNOT control target) h
      else if IS_SAME topRight ONE_CMPLX && IS_SAME bottomLeft nONE
      then on_stabilizer_seq [SCNOT control target; SCZ control target] h
      else if IS_SAME topRight nONE && IS_SAME bottomLeft ONE_CMPLX
      then on_stabilizer_seq [SCZ control target; SCNOT control target] h
      else if IS_SAME topRight nONE && IS_SAME bottomLeft nONE
      then on_stabilizer_seq [SCZ control target; SCNOT control target; SCZ control target] h
      else if IS_SAME topRight (cneg I_CMPLX) && IS_SAME bottomLeft I_CMPLX
      then on_stabilizer (SCY control target) h
      else on_engine to_engine (SwitchToEngine h).

Definition ApplyControlledSingleBit (lControls : list Z) (target : Z)
    (mtrx : list complex) (h : t) : t :=
  if IS_NORM_0 (mtrx !!! 1%nat) && IS_NORM_0 (mtrx !!! 2%nat)
  then ApplyControlledSinglePhase lControls target (mtrx !!! 0%nat) (mtrx !!! 3%nat) h
  else if IS_NORM_0 (mtrx !!! 0%nat) && IS_NORM_0 (mtrx !!! 3%nat)
  then ApplyControlledSingleInvert lControls target (mtrx !!! 1%nat) (mtrx !!! 2%nat) h
  else
    let '(trimmed, controls, h) := TrimControls lControls false h in
    if trimmed then h
    else if (length controls =? 0)%nat then ApplySingleBit mtrx target h
    else on_engine (EApplyControlledSingleBit lControls target mtrx) (SwitchToEngine h).

Definition ApplyAntiControlledSinglePhase (lControls : list Z) (target : Z)
    (topLeft bottomRight : complex) (h : t) : t :=
  let '(trimmed, controls, h) := TrimControls lControls true h in
  if trimmed then h
  else if (length controls =? 0)%nat then ApplySinglePhase topLeft bottomRight target h
  else
    let h := if (1 <? length controls)%nat then SwitchToEngine h else h in
    let h := FlushIfBlocked controls target h in
    let to_engine := EApplyAntiControlledSinglePhase lControls target topLeft bottomRight in
    if is_set (engine h) then on_engine to_engine h
    else
      let control := controls !!! 0%nat in
      let nONE := cneg ONE_CMPLX in
      if IS_SAME topLeft ONE_CMPLX && IS_SAME bottomRight ONE_CMPLX then h
      else if IS_SAME topLeft ONE_CMPLX && IS_SAME bottomRight nONE
      then on_stabilizer_seq [SX control; SCZ control target; SX control] h
      else if negb (IS_SAME topLeft ONE_CMPLX) && IS_SAME topLeft nONE
              && IS_SAME bottomRight ONE_CMPLX
      then on_stabilizer_seq
             [SX control; SCNOT control target; SCZ control target; SCNOT control target;
              SX control] h
      else if negb (IS_SAME topLeft ONE_CMPLX) && IS_SAME topLeft nONE
              && IS_SAME bottomRight nONE
      then on_stabilizer_seq
             [SX control; SCZ control target; SCNOT control target; SCZ control target;
              SCNOT control target; SX control] h
      else on_engine to_engine (SwitchToEngine h).

(** In this one the controls are unblocked before the switch to the
    engine, the other way round from its three siblings. *)
Definition ApplyAntiControlledSingleInvert (lControls : list Z) (target : Z)
    (topRight bottomLeft : complex) (h : t) : t :=
  let '(trimmed, controls, h) := TrimControls lControls true h in
  if trimmed then h
  else if (length controls =? 0)%nat then ApplySingleInvert topRight bottomLeft target h
  else
    let h := FlushIfBlocked controls target h in
    let h := if (1 <? length controls)%nat then SwitchToEngine h else h in
    let to_engine := EApplyAntiControlledSingleInvert lControls target topRight bottomLeft in
    if is_set (engine h) then on_engine to_engine h
    else
      let control := controls !!! 0%nat in
      let nONE := cneg ONE_CMPLX in
      if IS_SAME topRight ONE_CMPLX && IS_SAME bottomLeft ONE_CMPLX
      then on_stabilizer_seq [SX control; SCNOT control target; SX control] h
      else if IS_SAME topRight ONE_CMPLX && IS_SAME bottomLeft nONE
      then on_stabilizer_seq
             [SX control; SCNOT control target; SCZ control target; SX control] h
      else if IS_SAME topRight nONE && IS_SAME bottomLeft ONE_CMPLX
      then on_stabilizer_seq
             [SX control; SCZ control target; SCNOT control target; SX control] h
      else if IS_SAME topRight nONE && IS_SAME bottomLeft nONE
      then on_stabilizer_seq
             [SX control; SCZ control target; SCNOT control target; SCZ control target;
              SX control] h
      else if IS_SAME topRight (cneg I_CMPLX) && IS_SAME bottomLeft I_CMPLX
      then on_stabilizer_seq [SX control; SCY control target; SX control] h
      else on_engine to_engine (SwitchToEngine h).

(** The controls are trimmed without the [anti] argument here, as in the
    source. *)
Definition ApplyAntiControlledSingleBit (lControls : list Z) (target : Z)
    (mtrx : list complex) (h : t) : t :=
  if IS_NORM_0 (mtrx !!! 1%nat) && IS_NORM_0 (mtrx !!! 2%nat)
  then ApplyAntiControlledSinglePhase lControls target (mtrx !!! 0%nat) (mtrx !!! 3%nat) h
  else if IS_NORM_0 (mtrx !!! 0%nat) && IS_NORM_0 (mtrx !!! 3%nat)
  then ApplyAntiControlledSingleInvert lControls target (mtrx !!! 1%nat) (mtrx !!! 2%nat) h
  else
    let '(trimmed, controls, h) := TrimControls lControls false h in
    if trimmed then h
    else if (length controls =? 0)%nat then ApplySingleBit mtrx target h
    else on_engine (EApplyAntiControlledSingleBit lControls target mtrx) (SwitchToEngine h).

(** The first loop of [MAll]: the shards are cleared qubit by qubit, until
    one that is neither a phase nor an inversion stands on a qubit that is
    not in a Z eigenstate; there the buffers are flushed and the loop
    left. *)
Definition MAll_shards (h : t) : t :=
  (foldl (λ (st : t * bool) (i : Z),
            let '(h, stopped) := st in
            if stopped then (h, stopped)
            else
              match shard_at i h with
              | Some shard =>
                  if shard_IsInvert shard
                  then (set_shard i None (on_stabilizer (SX i) h), false)
                  else if shard_IsPhase shard then (set_shard i None h, false)
                  else if (shardsEigenZ h !!! Z.to_nat i : bool)
                  then (CollapseSeparableShard i h, false)
                  else (FlushBuffers h, true)
              | None => (h, false)
              end)
         (h, false) (seqZ 0 (qubitCount h))).1.

(** [MAll()]: the permutation measured, and the layer after the
    [SetPermutation] the function ends in. *)
Definition MAll (h : t) : Z * t :=
  let h := if is_set (stabilizer h) then MAll_shards h else h in
  let '(toRet, h) :=
    match stabilizer h, engine h with
    | Some _, _ =>
        foldl (λ (st : Z * t) (i : Z),
                 let '(toRet, h) := st in
                 match stabilizer h with
                 | Some s =>
                     let '(bit, s) := stab_M i s in
                     (if bit then Z.lor toRet (pow2 i) else toRet, set_stabilizer (Some s) h)
                 | None => (toRet, h)
                 end)
              (0, h) (seqZ 0 (qubitCount h))
    | None, Some e => let '(toRet, e) := engine_MAll e in (toRet, set_engine (Some e) h)
    | None, None => (0, h)
    end in
  (toRet, SetPermutation toRet h).

(** The constructor: a stabilizer at [initState], no engine, no shards.
    [qBitCount] is a [bitLenInt]. *)
Definition construct (qBitCount initState : Z) : t :=
  let qBitCount := wrapLen qBitCount in
  Build qBitCount (Some (new_QStabilizer qBitCount initState)) None
        (replicate (Z.to_nat qBitCount) None) (replicate (Z.to_nat qBitCount) false).

(** [Clone()]: the copy, and this layer after the [Finish()] the function
    starts with. Copies of the stabilizer, of the shards and of the engine
    are the values themselves. *)
Definition Clone (h : t) : t * t :=
  let h := Finish h in
  let c := construct (qubitCount h) 0 in
  let c :=
    match stabilizer h with
    | Some s =>
        let c := set_stabilizer (Some s) c in
        foldl (λ (c : t) (i : Z),
                 let c :=
                   match shard_at i h with
                   | Some shard => set_shard i (Some shard) c
                   | None => c
                   end in
                 set_shardsEigenZ
                   (<[ Z.to_nat i := shardsEigenZ h !!! Z.to_nat i ]> (shardsEigenZ c)) c)
              c (seqZ 0 (Z.of_nat (length (shards h))))
    | None => set_stabilizer None (set_engine (engine h) c)
    end in
  (c, h).

(** The operations of the layer: the member functions that
    qstabilizerhybrid.cpp defines and that act on the layer. *)
Inductive Operation : Type :=
  | OpSwitchToEngine
  | OpClone
  | OpCCNOT (control1 control2 target : Z)
  | OpCH (control target : Z)
  | OpCS (control target : Z)
  | OpCIS (control target : Z)
  | OpCCZ (control1 control2 target : Z)
  | OpCCY (control1 control2 target : Z)
  | OpDecompose (start : Z) (dest : t)
  | OpDispose (start length : Z)
  | OpDispose_perm (start length disposedPerm : Z)
  | OpSetQuantumState (inputState : list complex)
  | OpGetProbs
  | OpApplySingleBit (mtrx : list complex) (target : Z)
  | OpApplySinglePhase (topLeft bottomRight : complex) (target : Z)
  | OpApplySingleInvert (topRight bottomLeft : complex) (target : Z)
  | OpApplyControlledSingleBit (controls : list Z) (target : Z) (mtrx : list complex)
  | OpApplyControlledSinglePhase (controls : list Z) (target : Z) (topLeft bottomRight : complex)
  | OpApplyControlledSingleInvert (controls : list Z) (target : Z) (topRight bottomLeft : complex)
  | OpApplyAntiControlledSingleBit (controls : list Z) (target : Z) (mtrx : list complex)
  | OpApplyAntiControlledSinglePhase (controls : list Z) (target : Z)
      (topLeft bottomRight : complex)
  | OpApplyAntiControlledSingleInvert (controls : list Z) (target : Z)
      (topRight bottomLeft : complex)
  | OpMAll.

Definition step (op : Operation) (h : t) : t :=
  match op with
  | OpSwitchToEngine => SwitchToEngine h
  | OpClone => (Clone h).2
  | OpCCNOT c1 c2 t => CCNOT c1 c2 t h
  | OpCH c t => CH c t h
  | OpCS c t => CS c t h
  | OpCIS c t => CIS c t h
  | OpCCZ c1 c2 t => CCZ c1 c2 t h
  | OpCCY c1 c2 t => CCY c1 c2 t h
  | OpDecompose s dest => (Decompose s h dest).1
  | OpDispose s l => Dispose s l h
  | OpDispose_perm s l p => Dispose_perm s l p h
  | OpSetQuantumState v => SetQuantumState v h
  | OpGetProbs => (GetProbs h).2
  | OpApplySingleBit m t => ApplySingleBit m t h
  | OpApplySinglePhase a b t => ApplySinglePhase a b t h
  | OpApplySingleInvert a b t => ApplySingleInvert a b t h
  | OpApplyControlledSingleBit c t m => ApplyControlledSingleBit c t m h
  | OpApplyControlledSinglePhase c t a b => ApplyControlledSinglePhase c t a b h
  | OpApplyControlledSingleInvert c t a b => ApplyControlledSingleInvert c t a b h
  | OpApplyAntiControlledSingleBit c t m => ApplyAntiControlledSingleBit c t m h
  | OpApplyAntiControlledSinglePhase c t a b => ApplyAntiControlledSinglePhase c t a b h
  | OpApplyAntiControlledSingleInvert c t a b => ApplyAntiControlledSingleInvert c t a b h
  | OpMAll => (MAll h).2
  end.

Definition run (ops : list Operation) (h : t) : t := foldl (λ h op, step op h) h ops.

(** The operations that put a fresh stabilizer in place of whatever the
    layer holds: disposing of the whole register, decomposing the whole
    register into a destination, and setting the state of a one-qubit
    register. *)
Definition resets (op : Operation) (h : t) : bool :=
  match op with
  | OpDispose _ l | OpDispose_perm _ l _ => l =? qubitCount h
  | OpDecompose _ dest => qubitCount dest =? qubitCount h
  | OpSetQuantumState _ => qubitCount (DumpBuffers h) =? 1
  | _ => false
  end.

(** [MAll] ends in [SetPermutation], a member defined in the header: what
    mode it leaves the layer in is not in the sources. *)
Definition ends_in_SetPermutation (op : Operation) : bool :=
  match op with OpMAll => true | _ => false end.

(** No operation of the run is a reset at the state it is applied to, and
    none is [MAll]. *)
Fixpoint never_resets (ops : list Operation) (h : t) : Prop :=
  match ops with
  | [] => True
  | op :: ops =>
      resets op h = false /\ ends_in_SetPermutation op = false /\
      never_resets ops (step op h)
  end.

(** [h'] holds an engine, a stabilizer and a qubit count where [h] does. *)
Definition same_mode (h h' : t) : Prop :=
  is_set (engine h') = is_set (engine h) /\
  is_set (stabilizer h') = is_set (stabilizer h) /\
  qubitCount h' = qubitCount h.

(** What the theorems on the modes ask of the members defined in the
    header: flushing the buffers, unblocking and trimming the controls and
    [Finish] keep the layer in engine mode, and dumping the buffers changes
    neither the mode nor the qubit count. *)
Definition header_keeps_engine_mode : Prop :=
  (forall h, in_engine_mode h -> in_engine_mode (FlushBuffers h)) /\
  (forall cs t h, in_engine_mode h -> in_engine_mode (FlushIfBlocked cs t h)) /\
  (forall cs anti h, in_engine_mode h -> in_engine_mode (TrimControls cs anti h).2) /\
  (forall h, same_mode h (DumpBuffers h)) /\
  (forall h, in_engine_mode h -> in_engine_mode (Finish h)).

End Hybrid.

Arguments t : clear implicits.
Arguments t {R1} QStabilizer QEngine.
Arguments Header : clear implicits.
Arguments Header {R1} QStabilizer QEngine.
Arguments Operation : clear implicits.
Arguments Operation {R1} QStabilizer QEngine.

End QStabilizerHybrid.

(** ** Two interpretations of [real1] *)

(** The build with [real1 = double]: IEEE binary64 arithmetic. *)
Definition Real1_double : Real1 := {|
  real1 := float;
  ZERO_R1 := 0%float;
  ONE_R1 := 1%float;
  (* 1e-15 rounded to binary64 *)
  min_norm := 0x1.203af9ee75616p-50%float;
  REAL1_EPSILON := 0x1p-52%float;
  REAL1_DEFAULT_ARG := (-999)%float;
  r_add := PrimFloat.add;
  r_sub := PrimFloat.sub;
  r_mul := PrimFloat.mul;
  r_div := PrimFloat.div;
  r_neg := PrimFloat.opp;
  r_eqb := PrimFloat.eqb;
  r_ltb := PrimFloat.ltb;
  r_leb := PrimFloat.leb
|}.

(** Exact arithmetic on the real numbers. *)
Definition Real1_R : Real1 := {|
  real1 := R;
  ZERO_R1 := 0%R;
  ONE_R1 := 1%R;
  min_norm := (/ 10 ^ 15)%R;
  REAL1_EPSILON := (/ 2 ^ 52)%R;
  REAL1_DEFAULT_ARG := (-999)%R;
  r_add := Rplus;
  r_sub := Rminus;
  r_mul := Rmult;
  r_div := Rdiv;
  r_neg := Ropp;
  r_eqb := λ x y, if Req_dec_T x y then true else false;
  r_ltb := λ x y, if Rlt_dec x y then true else false;
  r_leb := λ x y, if Rle_dec x y then true else false
|}.

(** [atan2] on the real numbers. *)
Definition Ratan2 (y x : R) : R :=
  if Rlt_dec 0 x then atan (y / x)
  else if Rlt_dec x 0 then
    (if Rle_dec 0 y then atan (y / x) + PI else atan (y / x) - PI)%R
  else if Rlt_dec 0 y then (PI / 2)%R
  else if Rlt_dec y 0 then (- PI / 2)%R
  else 0%R.

Definition Libm_R : Libm Real1_R := @Build_Libm Real1_R PI R_sqrt.sqrt Rtrigo_def.cos Rtrigo_def.sin Ratan2.

(** ** A small instance of the hybrid layer's engines

    The stabilizer engine and the state-vector engine are not among the
    sources. [TrackedRegister] is a stand-in for both that is enough to run
    the layer: it tracks, for each qubit, whether the qubit is known to be
    in a basis state ([Some false] for |0>, [Some true] for |1>) or not
    ([None]). *)

Module TrackedRegister.
Section Register.
Context {R1 : Real1} {LM : Libm R1}.

Definition t : Type := list (option bool).

Definition of_perm (qubitCount perm : Z) : t :=
  (λ i, Some (Z.testbit perm i)) <$> seqZ 0 qubitCount.

Definition qubit (q : Z) (r : t) : option bool := mjoin (r !! Z.to_nat q).
Definition forget (q : Z) (r : t) : t := <[ Z.to_nat q := None ]> r.
Definition flip (q : Z) (r : t) : t := alter (fmap negb) (Z.to_nat q) r.

(** A gate that flips [target] where [control] is |1>. *)
Definition controlled_flip (control target : Z) (r : t) : t :=
  match qubit control r with
  | Some true => flip target r
  | Some false => r
  | None => forget target r
  end.

Definition apply_gate (g : StabilizerGate) (r : t) : t :=
  match g with
  | SX q | SY q => flip q r
  | SZ _ | SS _ | SIS _ | SCZ _ _ => r
  | SH q | SSqrtX q | SISqrtX q | SSqrtY q | SISqrtY q => forget q r
  | SCNOT c q | SCY c q => controlled_flip c q r
  | SSetPermutation perm => of_perm (Z.of_nat (length r)) perm
  | SDispose start len => QStabilizerHybrid.erase start len r
  end.

Definition half : real1 := (ONE_R1 / (ONE_R1 + ONE_R1))%r1.

(** The chance of [b] at a qubit tracked as [q]. *)
Definition chance (b : bool) (q : option bool) : real1 :=
  match q with
  | Some b' => if Bool.eqb b b' then ONE_R1 else ZERO_R1
  | None => half
  end.

Definition probs (r : t) : list real1 :=
  (λ perm, foldr r_mul ONE_R1 (imap (λ i, chance (Z.testbit perm (Z.of_nat i))) r))
    <$> seqZ 0 (2 ^ Z.of_nat (length r)).

Definition decompose (start : Z) (r dest : t) : t * t :=
  let len := Z.of_nat (length dest) in
  (QStabilizerHybrid.erase start len r, take (length dest) (drop (Z.to_nat start) r)).

Definition apply_engine_gate (g : EngineGate) (r : t) : t :=
  match g with
  | ECCNOT _ _ q | ECCZ _ _ q | ECCY _ _ q | ECH _ q | ECS _ q | ECIS _ q
  | EApplySingleBit _ q | EApplySinglePhase _ _ q | EApplySingleInvert _ _ q
  | EApplyControlledSingleBit _ q _ | EApplyControlledSinglePhase _ q _ _
  | EApplyControlledSingleInvert _ q _ _
  | EApplyAntiControlledSingleBit _ q _ | EApplyAntiControlledSinglePhase _ q _ _
  | EApplyAntiControlledSingleInvert _ q _ _ => forget q r
  | EDispose start len | EDisposePerm start len _ => QStabilizerHybrid.erase start len r
  | ESetQuantumState _ => replicate (length r) None
  end.

Definition known (q : Z) (r : t) : bool := QStabilizerHybrid.is_set (qubit q r).

(** A measurement finds the tracked value, and |0> where none is tracked. *)
Definition measure (q : Z) (r : t) : bool * t :=
  let bit := default false (qubit q r) in
  (bit, <[ Z.to_nat q := Some bit ]> r).

(** The permutation a measurement of every qubit finds. *)
Definition perm_of (r : t) : Z :=
  foldr (λ q perm, Z.b2z (default false q) + 2 * perm) 0 r.

#[export] Instance stabilizer_ops : QStabilizerOps t t := {|
  new_QStabilizer := of_perm;
  stab_gate := apply_gate;
  IsSeparableZ := known;
  IsSeparableX := λ _ _, false;
  IsSeparableY := λ _ _, false;
  CanDecomposeDispose := λ start len r,
    forallb QStabilizerHybrid.is_set (take (Z.to_nat len) (drop (Z.to_nat start) r));
  stab_Decompose := decompose;
  stab_GetQuantumState := λ r _, r;
  stab_GetProbs := probs;
  stab_M := measure
|}.

#[export] Instance engine_ops : QEngineOps t := {|
  new_QEngine := of_perm;
  engine_gate := apply_engine_gate;
  engine_Decompose := decompose;
  engine_GetProbs := probs;
  engine_MAll := λ r, (perm_of r, of_perm (Z.of_nat (length r)) (perm_of r))
|}.

Abbreviation hybrid := (QStabilizerHybrid.t t t).

(** The register the layer holds: the stabilizer's, or else the engine's. *)
Definition register (h : hybrid) : t :=
  match QStabilizerHybrid.stabilizer h, QStabilizerHybrid.engine h with
  | Some r, _ => r
  | None, Some r => r
  | None, None => []
  end.

(** A gate sent to whichever of the two engines the layer holds. *)
Definition dispatch (s : StabilizerGate) (e : EngineGate) (h : hybrid) : hybrid :=
  if QStabilizerHybrid.is_set (QStabilizerHybrid.engine h)
  then QStabilizerHybrid.on_engine e h
  else QStabilizerHybrid.on_stabilizer s h.

Definition DumpBuffers (h : hybrid) : hybrid :=
  QStabilizerHybrid.set_shards (replicate (length (QStabilizerHybrid.shards h)) None) h.

(** The controls known to be |1> are dropped ([anti]: |0>); a control known
    to be the other way makes the gate the identity. *)
Definition TrimControls (controls : list Z) (anti : bool) (h : hybrid)
    : bool * list Z * hybrid :=
  let r := register h in
  (existsb (λ c, bool_decide (qubit c r = Some anti)) controls,
   List.filter (λ c, negb (bool_decide (qubit c r = Some (negb anti)))) controls,
   h).

Definition IS_SAME (c1 c2 : complex) : bool := r_leb (norm (csub c1 c2)) REAL1_EPSILON.

(** The product of two 2x2 matrices in row-major order. *)
Definition mul2x2 (l r : list complex) : list complex :=
  let e (m : list complex) (i : nat) := m !!! i in
  let cadd (a b : complex) := Complex (real a + real b)%r1 (imag a + imag b)%r1 in
  [ cadd (zmul (e l 0%nat) (e r 0%nat)) (zmul (e l 1%nat) (e r 2%nat));
    cadd (zmul (e l 0%nat) (e r 1%nat)) (zmul (e l 1%nat) (e r 3%nat));
    cadd (zmul (e l 2%nat) (e r 0%nat)) (zmul (e l 3%nat) (e r 2%nat));
    cadd (zmul (e l 2%nat) (e r 1%nat)) (zmul (e l 3%nat) (e r 3%nat)) ].

(** [SetPermutation] as the header of the project has it: the buffers are
    dumped, the engine is given up and the stabilizer is set to the
    permutation. *)
Definition SetPermutation (perm : Z) (h : hybrid) : hybrid :=
  let h := DumpBuffers h in
  QStabilizerHybrid.set_stabilizer
    (Some (of_perm (QStabilizerHybrid.qubitCount h) perm))
    (QStabilizerHybrid.set_engine None h).

#[export] Instance header : QStabilizerHybrid.Header t t := {|
  QStabilizerHybrid.Prob := λ q h, (chance true (qubit q (register h)), h);
  QStabilizerHybrid.CNOT := λ c q,
    dispatch (SCNOT c q) (EApplyControlledSingleInvert [c] q ONE_CMPLX ONE_CMPLX);
  QStabilizerHybrid.CZ := λ c q,
    dispatch (SCZ c q) (EApplyControlledSinglePhase [c] q ONE_CMPLX (cneg ONE_CMPLX));
  QStabilizerHybrid.CY := λ c q,
    dispatch (SCY c q) (EApplyControlledSingleInvert [c] q (cneg I_CMPLX) I_CMPLX);
  QStabilizerHybrid.H := λ q,
    let s := Complex (r_sqrt half) ZERO_R1 in
    dispatch (SH q) (EApplySingleBit [s; s; s; cneg s] q);
  QStabilizerHybrid.S := λ q,
    dispatch (SS q) (EApplySinglePhase ONE_CMPLX I_CMPLX q);
  QStabilizerHybrid.IS := λ q,
    dispatch (SIS q) (EApplySinglePhase ONE_CMPLX (cneg I_CMPLX) q);
  QStabilizerHybrid.FlushBuffers := DumpBuffers;
  QStabilizerHybrid.DumpBuffers := DumpBuffers;
  QStabilizerHybrid.FlushIfBlocked := λ _ _ h, h;
  QStabilizerHybrid.TrimControls := TrimControls;
  QStabilizerHybrid.IsIdentity := λ mtrx _,
    IS_SAME (mtrx !!! 0%nat) (mtrx !!! 3%nat)
    && IS_SAME (mtrx !!! 1%nat) ZERO_CMPLX && IS_SAME (mtrx !!! 2%nat) ZERO_CMPLX;
  QStabilizerHybrid.IS_SAME := IS_SAME;
  QStabilizerHybrid.shard_Compose := λ shard lMtrx, mul2x2 lMtrx shard;
  QStabilizerHybrid.shard_IsInvert := λ shard,
    IS_SAME (shard !!! 0%nat) ZERO_CMPLX && IS_SAME (shard !!! 3%nat) ZERO_CMPLX;
  QStabilizerHybrid.shard_IsPhase := λ shard,
    IS_SAME (shard !!! 1%nat) ZERO_CMPLX && IS_SAME (shard !!! 2%nat) ZERO_CMPLX;
  QStabilizerHybrid.SQRT1_2_R1 := r_sqrt half;
  QStabilizerHybrid.SetPermutation := SetPermutation;
  QStabilizerHybrid.CollapseSeparableShard := λ q h, QStabilizerHybrid.set_shard q None h;
  QStabilizerHybrid.Finish := λ h, h
|}.

End Register.
End TrackedRegister.

(** ** Statement vocabulary for registers *)

(** Index [i] with the register [[start, start + length)] holding [v]. *)
Definition with_register (start length v i : Z) : Z :=
  i + (v - register_value start length i) * 2 ^ start.

(** A [length]-bit value rotated right and left by [shift] bits. *)
Definition rotate_right (length shift v : Z) : Z :=
  v `div` 2 ^ shift + (v mod 2 ^ shift) * 2 ^ (length - shift).
Definition rotate_left (length shift v : Z) : Z := rotate_right length (length - shift) v.

(** ** The arithmetic kernels (qengine.cl) *)

Module KernelArith.
Section Kernels.
Context {R1 : Real1}.

(** [kernel rol]: the index whose amplitude cell [lcv] receives. The shift
    counts stay below the width of [bitCapIntOcl] wherever a theorem uses
    the kernel. *)
Definition rol_src (bitCapIntOclPtr : list Z) (lcv : Z) : Z :=
  let regMask := bitCapIntOclPtr !!! 1%nat in
  let otherMask := bitCapIntOclPtr !!! 2%nat in
  let lengthMask := cap_sub (bitCapIntOclPtr !!! 3%nat) ONE_BCI in
  let start := bitCapIntOclPtr !!! 4%nat in
  let shift := bitCapIntOclPtr !!! 5%nat in
  let length := bitCapIntOclPtr !!! 6%nat in
  let otherRes := Z.land lcv otherMask in
  let regRes := Z.land lcv regMask in
  let regInt := Z.shiftr regRes start in
  let inInt :=
    Z.land (Z.lor (Z.shiftr regInt shift) (cap_shl regInt (cap_sub length shift))) lengthMask in
  Z.lor (cap_shl inInt start) otherRes.

Definition rol (Nthreads : Z) (stateVec : list complex) (bitCapIntOclPtr : list Z)
    (nStateVec : list complex) : list complex :=
  let maxI := bitCapIntOclPtr !!! 0%nat in
  run_kernel
    (λ lcv nStateVec,
       <[ Z.to_nat lcv := stateVec !!! Z.to_nat (rol_src bitCapIntOclPtr lcv) ]> nStateVec)
    (NDRange Nthreads maxI) nStateVec.

(** [kernel incdecc]: the source index of pass [lcv] (the carry bit put in
    as a zero) and the index its amplitude goes to. *)
Definition incdecc_src (bitCapIntOclPtr : list Z) (lcv : Z) : Z :=
  let carryMask := bitCapIntOclPtr !!! 4%nat in
  let i := Z.land lcv (cap_sub carryMask ONE_BCI) in
  Z.lor i (cap_shl (Z.lxor lcv i) ONE_BCI).

Definition incdecc_dest (bitCapIntOclPtr : list Z) (i : Z) : Z :=
  let inOutMask := bitCapIntOclPtr !!! 1%nat in
  let otherMask := bitCapIntOclPtr !!! 2%nat in
  let lengthMask := cap_sub (bitCapIntOclPtr !!! 3%nat) ONE_BCI in
  let carryMask := bitCapIntOclPtr !!! 4%nat in
  let inOutStart := bitCapIntOclPtr !!! 5%nat in
  let toMod := bitCapIntOclPtr !!! 6%nat in
  let otherRes := Z.land i otherMask in
  let inOutRes := Z.land i inOutMask in
  let outInt := cap_add (Z.shiftr inOutRes inOutStart) toMod in
  let outRes := 0 in
  let '(outInt, outRes) :=
    if lengthMask <? outInt then (Z.land outInt lengthMask, carryMask) else (outInt, outRes) in
  let outRes := Z.lor outRes (cap_shl outInt inOutStart) in
  Z.lor outRes otherRes.

Definition incdecc (Nthreads : Z) (stateVec : list complex) (bitCapIntOclPtr : list Z)
    (nStateVec : list complex) : list complex :=
  let maxI := bitCapIntOclPtr !!! 0%nat in
  run_kernel
    (λ lcv nStateVec,
       let i := incdecc_src bitCapIntOclPtr lcv in
       <[ Z.to_nat (incdecc_dest bitCapIntOclPtr i) := stateVec !!! Z.to_nat i ]> nStateVec)
    (NDRange Nthreads maxI) nStateVec.

(** [kernel mul] and [kernel div] share the two index computations: the
    index of pass [lcv] ([len] zero bits put in at the carry register) and
    the index with the product spread over the two registers. *)
Definition mul_src (bitCapIntOclPtr : list Z) (lcv : Z) : Z :=
  let len := bitCapIntOclPtr !!! 5%nat in
  let skipMask := bitCapIntOclPtr !!! 8%nat in
  let iHigh := lcv in
  let iLow := Z.land iHigh skipMask in
  Z.lor iLow (cap_shl (Z.lxor iHigh iLow) len).

Definition mul_dest (bitCapIntOclPtr : list Z) (i : Z) : Z :=
  let toMul := bitCapIntOclPtr !!! 1%nat in
  let inOutMask := bitCapIntOclPtr !!! 2%nat in
  let otherMask := bitCapIntOclPtr !!! 4%nat in
  let len := bitCapIntOclPtr !!! 5%nat in
  let lowMask := cap_sub (cap_shl ONE_BCI len) ONE_BCI in
  let highMask := cap_shl lowMask len in
  let inOutStart := bitCapIntOclPtr !!! 6%nat in
  let carryStart := bitCapIntOclPtr !!! 7%nat in
  let otherRes := Z.land i otherMask in
  let outInt := wrapCap (Z.shiftr (Z.land i inOutMask) inOutStart * toMul) in
  Z.lor (Z.lor (cap_shl (Z.land outInt lowMask) inOutStart)
               (cap_shl (Z.shiftr (Z.land outInt highMask) len) carryStart))
        otherRes.

Definition mul (Nthreads : Z) (stateVec : list complex) (bitCapIntOclPtr : list Z)
    (nStateVec : list complex) : list complex :=
  let maxI := bitCapIntOclPtr !!! 0%nat in
  run_kernel
    (λ lcv nStateVec,
       let i := mul_src bitCapIntOclPtr lcv in
       <[ Z.to_nat (mul_dest bitCapIntOclPtr i) := stateVec !!! Z.to_nat i ]> nStateVec)
    (NDRange Nthreads maxI) nStateVec.

Definition div (Nthreads : Z) (stateVec : list complex) (bitCapIntOclPtr : list Z)
    (nStateVec : list complex) : list complex :=
  let maxI := bitCapIntOclPtr !!! 0%nat in
  run_kernel
    (λ lcv nStateVec,
       let i := mul_src bitCapIntOclPtr lcv in
       <[ Z.to_nat i := stateVec !!! Z.to_nat (mul_dest bitCapIntOclPtr i) ]> nStateVec)
    (NDRange Nthreads maxI) nStateVec.

End Kernels.
End KernelArith.

(** ** Host code of the arithmetic operations (opencl.cpp) *)

Module OCLArith.
Section Host.
Context {R1 : Real1}.
Import QEngineOCL.

(** The kernels this part of the host code reaches. *)
Inductive OCLAPI : Type := OCL_API_ROL | OCL_API_INCC | OCL_API_MUL | OCL_API_DIV.

(** The kernel of an API call, on a zero-filled new state vector: what
    [DispatchCall] (that is [CDispatchCall] without controls) and [MULx] do
    alike. *)
Definition DispatchCall (api_call : OCLAPI) (bciArgs : list Z) (e : t) : t :=
  let nStateVec := replicate (Z.to_nat (maxQPower e)) ZERO_CMPLX in
  let maxI := bciArgs !!! 0%nat in
  let ngc := FixWorkItemCount maxI (nrmGroupCount e) in
  let nStateVec :=
    match api_call with
    | OCL_API_ROL => KernelArith.rol ngc (stateVec e) bciArgs nStateVec
    | OCL_API_INCC => KernelArith.incdecc ngc (stateVec e) bciArgs nStateVec
    | OCL_API_MUL => KernelArith.mul ngc (stateVec e) bciArgs nStateVec
    | OCL_API_DIV => KernelArith.div ngc (stateVec e) bciArgs nStateVec
    end in
  Build (qubitCount e) (maxQPower e) (runningNorm e) nStateVec (nrmGroupCount e).

Definition ROx (api_call : OCLAPI) (shift start length : Z) (e : t) : t :=
  let lengthPower := cap_shl 1 length in
  let regMask := cap_shl (cap_sub lengthPower 1) start in
  let otherMask := Z.land (cap_sub (maxQPower e) 1) (cap_not regMask) in
  let bciArgs := [maxQPower e; regMask; otherMask; lengthPower; start; shift; length; 0; 0; 0] in
  DispatchCall api_call bciArgs e.

(** "Circular shift left" *)
Definition ROL (shift start length : Z) (e : t) : t := ROx OCL_API_ROL shift start length e.

(** Add or subtract an integer (without sign, with carry). *)
Definition INTC (api_call : OCLAPI) (toMod start length carryIndex : Z) (e : t) : t :=
  let carryMask := cap_shl 1 carryIndex in
  let lengthPower := cap_shl 1 length in
  let regMask := cap_shl (cap_sub lengthPower 1) start in
  let otherMask := Z.land (cap_sub (maxQPower e) 1) (cap_not (Z.lor regMask carryMask)) in
  let bciArgs :=
    [Z.shiftr (maxQPower e) 1; regMask; otherMask; lengthPower; carryMask; start; toMod;
     0; 0; 0] in
  DispatchCall api_call bciArgs e.

Definition MULx (api_call : OCLAPI) (toMod inOutStart carryStart length : Z) (e : t) : t :=
  let lowMask := cap_sub (cap_shl 1 length) 1 in
  let inOutMask := cap_shl lowMask inOutStart in
  let carryMask := cap_shl lowMask carryStart in
  let skipMask := cap_sub (cap_shl 1 carryStart) 1 in
  let otherMask := Z.lxor (cap_sub (maxQPower e) 1) (Z.lor inOutMask carryMask) in
  let bciArgs :=
    [Z.shiftr (maxQPower e) length; toMod; inOutMask; carryMask; otherMask; length;
     inOutStart; carryStart; skipMask; 0] in
  DispatchCall api_call bciArgs e.

End Host.
End OCLArith.

(** ** Indices the arithmetic kernels read and write *)

(** Index [i] with bit [c] set to [b]. *)
Definition with_bit (c : Z) (b : bool) (i : Z) : Z :=
  if b then Z.setbit i c else Z.clearbit i c.

(** The index an amplitude goes to: the register holds the sum modulo
    [2 ^ length], the carry bit tells whether the sum passed it. *)
Definition add_with_carry (start length carryIndex toMod i : Z) : Z :=
  let sum := register_value start length i + toMod in
  with_bit carryIndex (2 ^ length <=? sum) (with_register start length (sum mod 2 ^ length) i).

(** Index [lcv] with [len] zero bits put in at position [m], and the
    index without its bits [[m, m + len)]. *)
Definition insert_zeros (m len lcv : Z) : Z :=
  Z.lor (Z.land lcv (Z.ones m)) (Z.shiftl (Z.lxor lcv (Z.land lcv (Z.ones m))) len).
Definition remove_bits (m len i : Z) : Z :=
  Z.lor (Z.land i (Z.ones m)) (Z.shiftl (Z.shiftr i (m + len)) m).

(** The index of the product: the in-out register holds the low half of
    the product of the register and [toMul], the carry register the high
    half. *)
Definition mul_index (inOutStart carryStart length toMul i : Z) : Z :=
  let product := register_value inOutStart length i * toMul in
  with_register carryStart length (product `div` 2 ^ length)
    (with_register inOutStart length (product mod 2 ^ length) i).

(** The arguments [ROx] builds, simplified. *)
Definition ROx_args (n shift start length : Z) : list Z :=
  [2 ^ n; regMask_of start length; otherMask_of n start length; 2 ^ length; start; shift;
   length; 0; 0; 0].

(** The arguments [INTC] builds, simplified. *)
Definition INTC_args (n toMod start length carryIndex : Z) : list Z :=
  [2 ^ (n - 1); regMask_of start length;
   Z.land (Z.ones n) (Z.lnot (Z.lor (regMask_of start length) (2 ^ carryIndex)));
   2 ^ length; 2 ^ carryIndex; start; toMod; 0; 0; 0].

(** The arguments [MULx] builds, simplified. *)
Definition MULx_args (n toMod inOutStart carryStart length : Z) : list Z :=
  [2 ^ (n - length); toMod; regMask_of inOutStart length; regMask_of carryStart length;
   Z.lxor (Z.ones n) (Z.lor (regMask_of inOutStart length) (regMask_of carryStart length));
   length; inOutStart; carryStart; Z.ones carryStart; 0].

(** ** Single-qubit gate kernels (qengine.cl) *)

Module KernelGates.
Section Kernels.
Context {R1 : Real1}.
Import Kernel.

(** [zmatrixmul(nrm, lhs, rhs)]: the 2x2 matrix [lhs] (eight reals, row by
    row, real part before imaginary part) times the pair [rhs], times
    [nrm]. *)
Definition zmatrixmul (nrm : real1) (lhs : list real1) (rhs : complex * complex)
    : complex * complex :=
  let lo_x := lhs !!! 0%nat in let lo_y := lhs !!! 1%nat in
  let lo_z := lhs !!! 2%nat in let lo_w := lhs !!! 3%nat in
  let hi_x := lhs !!! 4%nat in let hi_y := lhs !!! 5%nat in
  let hi_z := lhs !!! 6%nat in let hi_w := lhs !!! 7%nat in
  let x := real rhs.1 in let y := imag rhs.1 in
  let z := real rhs.2 in let w := imag rhs.2 in
  (Complex (nrm * (lo_x * x - lo_y * y + lo_z * z - lo_w * w))%r1
           (nrm * (lo_x * y + lo_y * x + lo_z * w + lo_w * z))%r1,
   Complex (nrm * (hi_x * x - hi_y * y + hi_z * z - hi_w * w))%r1
           (nrm * (hi_x * y + hi_y * x + hi_z * w + hi_w * z))%r1).

(** [APPLY_AND_OUT] *)
Definition APPLY_AND_OUT (nrm : real1) (mtrx : list real1) (OFFSET1_ARG OFFSET2_ARG i : Z)
    (stateVec : list complex) : list complex :=
  let mulRes := (stateVec !!! Z.to_nat (Z.lor i OFFSET1_ARG),
                 stateVec !!! Z.to_nat (Z.lor i OFFSET2_ARG)) in
  let mulRes := zmatrixmul nrm mtrx mulRes in
  let stateVec := <[ Z.to_nat (Z.lor i OFFSET1_ARG) := mulRes.1 ]> stateVec in
  <[ Z.to_nat (Z.lor i OFFSET2_ARG) := mulRes.2 ]> stateVec.

(** [APPLY_X] *)
Definition APPLY_X (OFFSET2_ARG i : Z) (stateVec : list complex) : list complex :=
  let Y0 := stateVec !!! Z.to_nat i in
  let stateVec := <[ Z.to_nat i := stateVec !!! Z.to_nat (Z.lor i OFFSET2_ARG) ]> stateVec in
  <[ Z.to_nat (Z.lor i OFFSET2_ARG) := Y0 ]> stateVec.

(** [APPLY_Z] *)
Definition APPLY_Z (OFFSET2_ARG i : Z) (stateVec : list complex) : list complex :=
  <[ Z.to_nat (Z.lor i OFFSET2_ARG) := cneg (stateVec !!! Z.to_nat (Z.lor i OFFSET2_ARG)) ]>
    stateVec.

(** [APPLY_PHASE] *)
Definition APPLY_PHASE (topLeft bottomRight : complex) (OFFSET2_ARG i : Z)
    (stateVec : list complex) : list complex :=
  let stateVec := <[ Z.to_nat i := zmul topLeft (stateVec !!! Z.to_nat i) ]> stateVec in
  <[ Z.to_nat (Z.lor i OFFSET2_ARG) :=
       zmul bottomRight (stateVec !!! Z.to_nat (Z.lor i OFFSET2_ARG)) ]> stateVec.

(** [APPLY_INVERT] *)
Definition APPLY_INVERT (topRight bottomLeft : complex) (OFFSET2_ARG i : Z)
    (stateVec : list complex) : list complex :=
  let Y0 := stateVec !!! Z.to_nat i in
  let stateVec :=
    <[ Z.to_nat i := zmul topRight (stateVec !!! Z.to_nat (Z.lor i OFFSET2_ARG)) ]> stateVec in
  <[ Z.to_nat (Z.lor i OFFSET2_ARG) := zmul bottomLeft Y0 ]> stateVec.

(** A wide kernel has no loop: work item [ID] of the [Nthreads] work items
    runs the body once, with [lcv = ID]. *)
Definition wide_range (Nthreads : Z) : list Z := seqZ 0 Nthreads.

(** [kernel apply2x2single]; the matrix is [cmplxPtr[0..7]], [nrm] is
    [cmplxPtr[8]]. *)
Definition apply2x2single (Nthreads : Z) (stateVec : list complex) (cmplxPtr : list real1)
    (bitCapIntOclPtr : list Z) : list complex :=
  let OFFSET2_ARG := bitCapIntOclPtr !!! 0%nat in
  let OFFSET1_ARG := bitCapIntOclPtr !!! 1%nat in
  let MAXI_ARG := bitCapIntOclPtr !!! 2%nat in
  let mtrx := cmplxPtr in
  let nrm := cmplxPtr !!! 8%nat in
  let qMask := bitCapIntOclPtr !!! 3%nat in
  run_kernel
    (λ lcv stateVec,
       let i := PUSH_APART_1 qMask lcv in
       APPLY_AND_OUT nrm mtrx OFFSET1_ARG OFFSET2_ARG i stateVec)
    (NDRange Nthreads MAXI_ARG) stateVec.

(** [kernel apply2x2singlewide] *)
Definition apply2x2singlewide (Nthreads : Z) (stateVec : list complex) (cmplxPtr : list real1)
    (bitCapIntOclPtr : list Z) : list complex :=
  let OFFSET2_ARG := bitCapIntOclPtr !!! 0%nat in
  let OFFSET1_ARG := bitCapIntOclPtr !!! 1%nat in
  let mtrx := cmplxPtr in
  let nrm := cmplxPtr !!! 8%nat in
  let qMask := bitCapIntOclPtr !!! 2%nat in
  run_kernel
    (λ lcv stateVec,
       let i := PUSH_APART_1 qMask lcv in
       APPLY_AND_OUT nrm mtrx OFFSET1_ARG OFFSET2_ARG i stateVec)
    (wide_range Nthreads) stateVec.

(** [kernel xsingle] *)
Definition xsingle (Nthreads : Z) (stateVec : list complex) (bitCapIntOclPtr : list Z)
    : list complex :=
  let OFFSET2_ARG := bitCapIntOclPtr !!! 0%nat in
  let MAXI_ARG := bitCapIntOclPtr !!! 2%nat in
  let qMask := bitCapIntOclPtr !!! 3%nat in
  run_kernel
    (λ lcv stateVec, let i := PUSH_APART_1 qMask lcv in APPLY_X OFFSET2_ARG i stateVec)
    (NDRange Nthreads MAXI_ARG) stateVec.

(** [kernel xsinglewide] *)
Definition xsinglewide (Nthreads : Z) (stateVec : list complex) (bitCapIntOclPtr : list Z)
    : list complex :=
  let OFFSET2_ARG := bitCapIntOclPtr !!! 0%nat in
  let qMask := bitCapIntOclPtr !!! 2%nat in
  run_kernel
    (λ lcv stateVec, let i := PUSH_APART_1 qMask lcv in APPLY_X OFFSET2_ARG i stateVec)
    (wide_range Nthreads) stateVec.

(** [kernel zsingle] *)
Definition zsingle (Nthreads : Z) (stateVec : list complex) (bitCapIntOclPtr : list Z)
    : list complex :=
  let OFFSET2_ARG := bitCapIntOclPtr !!! 0%nat in
  let MAXI_ARG := bitCapIntOclPtr !!! 2%nat in
  let qMask := bitCapIntOclPtr !!! 3%nat in
  run_kernel
    (λ lcv stateVec, let i := PUSH_APART_1 qMask lcv in APPLY_Z OFFSET2_ARG i stateVec)
    (NDRange Nthreads MAXI_ARG) stateVec.

(** [kernel zsinglewide] *)
Definition zsinglewide (Nthreads : Z) (stateVec : list complex) (bitCapIntOclPtr : list Z)
    : list complex :=
  let OFFSET2_ARG := bitCapIntOclPtr !!! 0%nat in
  let qMask := bitCapIntOclPtr !!! 2%nat in
  run_kernel
    (λ lcv stateVec, let i := PUSH_APART_1 qMask lcv in APPLY_Z OFFSET2_ARG i stateVec)
    (wide_range Nthreads) stateVec.

(** [kernel phasesinglewide] *)
Definition phasesinglewide (Nthreads : Z) (stateVec : list complex) (cmplxPtr : list complex)
    (bitCapIntOclPtr : list Z) : list complex :=
  let OFFSET2_ARG := bitCapIntOclPtr !!! 0%nat in
  let qMask := bitCapIntOclPtr !!! 2%nat in
  let topLeft := cmplxPtr !!! 0%nat in
  let bottomRight := cmplxPtr !!! 3%nat in
  run_kernel
    (λ lcv stateVec,
       let i := PUSH_APART_1 qMask lcv in APPLY_PHASE topLeft bottomRight OFFSET2_ARG i stateVec)
    (wide_range Nthreads) stateVec.

(** [kernel invertsinglewide] *)
Definition invertsinglewide (Nthreads : Z) (stateVec : list complex) (cmplxPtr : list complex)
    (bitCapIntOclPtr : list Z) : list complex :=
  let OFFSET2_ARG := bitCapIntOclPtr !!! 0%nat in
  let qMask := bitCapIntOclPtr !!! 2%nat in
  let topRight := cmplxPtr !!! 1%nat in
  let bottomLeft := cmplxPtr !!! 2%nat in
  run_kernel
    (λ lcv stateVec,
       let i := PUSH_APART_1 qMask lcv in APPLY_INVERT topRight bottomLeft OFFSET2_ARG i stateVec)
    (wide_range Nthreads) stateVec.

End Kernels.
End KernelGates.

(** The arguments of a single-qubit kernel on qubit [t] of [n], and of its
    wide variant. *)
Definition single_args (t n : Z) : list Z := [2 ^ t; 0; 2 ^ (n - 1); Z.ones t].
Definition single_wide_args (t : Z) : list Z := [2 ^ t; 0; Z.ones t].

(** The matrix of a gate as [apply2x2single] takes it, with [nrm = 1]. *)
Definition mtrx_ptr {R1 : Real1} (m00 m01 m10 m11 : complex) : list real1 :=
  [real m00; imag m00; real m01; imag m01; real m10; imag m10; real m11; imag m11; ONE_R1].

(** A schedule of the pairs of an [n]-qubit vector: the loop's and the wide
    kernel's are two. *)
Definition covers (n : Z) (schedule : list Z) : Prop :=
  NoDup schedule /\ forall a, a ∈ schedule <-> 0 <= a < 2 ^ (n - 1).

(** ** Projection and phase-flip kernels (qengine.cl) *)

Module KernelProject.
Section Kernels.
Context {R1 : Real1}.

(** [kernel applym] *)
Definition applym (Nthreads : Z) (stateVec : list complex) (bitCapIntOclPtr : list Z)
    (cmplx_ptr : list complex) : list complex :=
  let maxI := bitCapIntOclPtr !!! 0%nat in
  let qPower := bitCapIntOclPtr !!! 1%nat in
  let qMask := cap_sub qPower ONE_BCI in
  let savePower := bitCapIntOclPtr !!! 2%nat in
  let discardPower := Z.lxor qPower savePower in
  let nrm := cmplx_ptr !!! 0%nat in
  run_kernel
    (λ lcv stateVec,
       let iHigh := lcv in
       let iLow := Z.land iHigh qMask in
       let i := Z.lor iLow (cap_shl (Z.lxor iHigh iLow) ONE_BCI) in
       let stateVec :=
         <[ Z.to_nat (Z.lor i savePower) :=
              zmul nrm (stateVec !!! Z.to_nat (Z.lor i savePower)) ]> stateVec in
       <[ Z.to_nat (Z.lor i discardPower) := ZERO_CMPLX ]> stateVec)
    (NDRange Nthreads maxI) stateVec.

(** [kernel applymreg] *)
Definition applymreg (Nthreads : Z) (stateVec : list complex) (bitCapIntOclPtr : list Z)
    (cmplx_ptr : list complex) : list complex :=
  let maxI := bitCapIntOclPtr !!! 0%nat in
  let mask := bitCapIntOclPtr !!! 1%nat in
  let result := bitCapIntOclPtr !!! 2%nat in
  let nrm := cmplx_ptr !!! 0%nat in
  run_kernel
    (λ lcv stateVec,
       <[ Z.to_nat lcv :=
            if Z.land lcv mask =? result then zmul nrm (stateVec !!! Z.to_nat lcv)
            else ZERO_CMPLX ]> stateVec)
    (NDRange Nthreads maxI) stateVec.

(** [kernel cphaseflipifless] *)
Definition cphaseflipifless (Nthreads : Z) (stateVec : list complex) (bitCapIntOclPtr : list Z)
    : list complex :=
  let maxI := bitCapIntOclPtr !!! 0%nat in
  let regMask := bitCapIntOclPtr !!! 1%nat in
  let skipPower := bitCapIntOclPtr !!! 2%nat in
  let greaterPerm := bitCapIntOclPtr !!! 3%nat in
  let start := bitCapIntOclPtr !!! 4%nat in
  run_kernel
    (λ lcv stateVec,
       let iHigh := lcv in
       let iLow := Z.land iHigh (cap_sub skipPower ONE_BCI) in
       let i := Z.lor (Z.lor iLow (cap_shl (Z.lxor iHigh iLow) ONE_BCI)) skipPower in
       if Z.shiftr (Z.land i regMask) start <? greaterPerm
       then <[ Z.to_nat i := cneg (stateVec !!! Z.to_nat i) ]> stateVec
       else stateVec)
    (NDRange Nthreads maxI) stateVec.

(** [kernel phaseflipifless] *)
Definition phaseflipifless (Nthreads : Z) (stateVec : list complex) (bitCapIntOclPtr : list Z)
    : list complex :=
  let maxI := bitCapIntOclPtr !!! 0%nat in
  let regMask := bitCapIntOclPtr !!! 1%nat in
  let greaterPerm := bitCapIntOclPtr !!! 2%nat in
  let start := bitCapIntOclPtr !!! 3%nat in
  run_kernel
    (λ lcv stateVec,
       if Z.shiftr (Z.land lcv regMask) start <? greaterPerm
       then <[ Z.to_nat lcv := cneg (stateVec !!! Z.to_nat lcv) ]> stateVec
       else stateVec)
    (NDRange Nthreads maxI) stateVec.

End Kernels.
End KernelProject.

(** [QEngineOCL::CPhaseFlipIfLess] (opencl.cpp): the shifts are those of
    [int], which the qubit counts of [well_formed] engines keep in range. *)
Module OCLPhaseFlip.
Section Host.
Context {R1 : Real1}.
Import QEngineOCL.

Definition CPhaseFlipIfLess (greaterPerm start length flagIndex : Z) (e : t) : t :=
  let regMask := cap_shl (cap_sub (cap_shl 1 length) 1) start in
  let bciArgs :=
    [Z.shiftr (maxQPower e) 1; regMask; cap_shl 1 flagIndex; greaterPerm; start;
     0; 0; 0; 0; 0] in
  let maxI := bciArgs !!! 0%nat in
  let ngc := FixWorkItemCount maxI (nrmGroupCount e) in
  Build (qubitCount e) (maxQPower e) (runningNorm e)
    (KernelProject.cphaseflipifless ngc (stateVec e) bciArgs) (nrmGroupCount e).

End Host.
End OCLPhaseFlip.

(** A loop whose iteration [a] replaces the cell [f a] by a function of its
    content. *)
Definition update_at {A : Type} `{Inhabited A} (f : Z -> nat) (g : Z -> A -> A)
    (schedule : list Z) (sv : list A) : list A :=
  foldl (λ sv a, <[ f a := g a (sv !!! f a) ]> sv) sv schedule.

(** The amplitude after a conditional sign flip. *)
Definition flip_if {R1 : Real1} (b : bool) (amp : complex) : complex :=
  if b then cneg amp else amp.

(** ** Kernels that compose and dispose registers (qengine.cl) *)

Module KernelCompose.
Section Kernels.
Context {R1 : Real1}.

(** [kernel composewide]: one work item for each index, no loop. *)
Definition composewide (Nthreads : Z) (stateVec1 stateVec2 : list complex)
    (bitCapIntOclPtr : list Z) (nStateVec : list complex) : list complex :=
  let args_y := bitCapIntOclPtr !!! 1%nat in
  let args_z := bitCapIntOclPtr !!! 2%nat in
  let args_w := bitCapIntOclPtr !!! 3%nat in
  run_kernel
    (λ lcv nStateVec,
       <[ Z.to_nat lcv :=
            zmul (stateVec1 !!! Z.to_nat (Z.land lcv args_z))
                 (stateVec2 !!! Z.to_nat (Z.shiftr (Z.land lcv args_w) args_y)) ]> nStateVec)
    (KernelGates.wide_range Nthreads) nStateVec.

(** [kernel composemid] *)
Definition composemid (Nthreads : Z) (stateVec1 stateVec2 : list complex)
    (bitCapIntOclPtr : list Z) (nStateVec : list complex) : list complex :=
  let nMaxQPower := bitCapIntOclPtr !!! 0%nat in
  let oQubitCount := bitCapIntOclPtr !!! 2%nat in
  let startMask := bitCapIntOclPtr !!! 3%nat in
  let midMask := bitCapIntOclPtr !!! 4%nat in
  let endMask := bitCapIntOclPtr !!! 5%nat in
  let start := bitCapIntOclPtr !!! 6%nat in
  run_kernel
    (λ lcv nStateVec,
       <[ Z.to_nat lcv :=
            zmul (stateVec1 !!! Z.to_nat (Z.lor (Z.land lcv startMask)
                                            (Z.shiftr (Z.land lcv endMask) oQubitCount)))
                 (stateVec2 !!! Z.to_nat (Z.shiftr (Z.land lcv midMask) start)) ]> nStateVec)
    (NDRange Nthreads nMaxQPower) nStateVec.

(** [kernel dispose] *)
Definition dispose (Nthreads : Z) (stateVec : list complex) (bitCapIntOclPtr : list Z)
    (nStateVec : list complex) : list complex :=
  let remainderPower := bitCapIntOclPtr !!! 0%nat in
  let len := bitCapIntOclPtr !!! 1%nat in
  let skipMask := bitCapIntOclPtr !!! 2%nat in
  let disposedRes := bitCapIntOclPtr !!! 3%nat in
  run_kernel
    (λ lcv nStateVec,
       let iHigh := lcv in
       let iLow := Z.land iHigh skipMask in
       let i := Z.lor (Z.lor iLow (cap_shl (Z.lxor iHigh iLow) len)) disposedRes in
       <[ Z.to_nat lcv := stateVec !!! Z.to_nat i ]> nStateVec)
    (NDRange Nthreads remainderPower) nStateVec.

End Kernels.
End KernelCompose.

(** The arguments of [compose] for a register of [nb] qubits appended to
    [na] qubits, and of [composemid] for the register put in at [start]: the
    masks select the [start] low bits, the [nb] bits of the register and
    the bits above it. *)
Definition compose_args (na nb : Z) : list Z :=
  [2 ^ (na + nb); na; Z.ones na; regMask_of na nb].
Definition composemid_args (na nb start : Z) : list Z :=
  [2 ^ (na + nb); na; nb; Z.ones start; regMask_of start nb;
   regMask_of (start + nb) (na - start); start].

(** The arguments of [dispose] for the register [[start, start + len)] of
    [n] qubits, kept where it holds [perm]. *)
Definition dispose_args (n start len perm : Z) : list Z :=
  [2 ^ (n - len); len; Z.ones start; Z.shiftl perm start].

(** The diagonal gate with the multiplications by 1 left out, as the pager
    leaves them out. *)
Definition apply_phase_residual {R1 : Real1} (topLeft bottomRight : complex)
    (target : Z) (stateVec : list complex) : list complex :=
  imap (λ i amp,
          if Z.testbit (Z.of_nat i) target then residual bottomRight amp
          else residual topLeft amp)
       stateVec.



(** ** [Cohere] of a vector of engines (state.cpp) *)

Module CPUCohere.
Section Engine.
Context {R1 : Real1}.
Import QEngineCPU.

#[export] Instance engine_inhabited : Inhabited QEngineCPU.t := populate (Build 0 1 ONE_R1 []).

(** One pass of the loop over [toCopy]: the source is normalised where it
    stands when its running norm is not 1, and its mask and offset are
    recorded. *)
Definition layout_step (st : list QEngineCPU.t * list Z * list Z * Z) (i : Z)
    : list QEngineCPU.t * list Z * list Z * Z :=
  let '(toCopy, mask, offset, nQubitCount) := st in
  let src := normalize_if_needed (toCopy !!! Z.to_nat i) in
  let toCopy := <[ Z.to_nat i := src ]> toCopy in
  let mask :=
    <[ Z.to_nat i := cap_shl (cap_sub (cap_shl 1 (qubitCount src)) 1) nQubitCount ]> mask in
  let offset := <[ Z.to_nat i := wrapLen nQubitCount ]> offset in
  (toCopy, mask, offset, cap_add nQubitCount (qubitCount src)).

Definition layout (toCohereCount nQubitCount : Z) (toCopy : list QEngineCPU.t)
    : list QEngineCPU.t * list Z * list Z * Z :=
  foldl layout_step
        (toCopy, replicate (Z.to_nat toCohereCount) 0, replicate (Z.to_nat toCohereCount) 0,
         nQubitCount)
        (seqZ 0 toCohereCount).

(** [Cohere(std::vector<QInterfacePtr> toCopy)]: returns the offsets (the
    values of the map [ret] in the order of [toCopy], for a vector of
    distinct engines), this engine and the engines of [toCopy] as the call
    leaves them. The shifts of the literal [1] are taken at the width of
    [bitCapInt], as in [Cohere]. *)
Definition Cohere_vector (mem : list complex) (e : QEngineCPU.t) (toCopy : list QEngineCPU.t)
    : list Z * QEngineCPU.t * list QEngineCPU.t :=
  let toCohereCount := wrapLen (Z.of_nat (length toCopy)) in
  let startMask := cap_sub (maxQPower e) 1 in
  let nQubitCount := qubitCount e in
  let e := normalize_if_needed e in
  let '(toCopy, mask, offset, nQubitCount) := layout toCohereCount nQubitCount toCopy in
  let nMaxQPower := cap_shl 1 nQubitCount in
  let nStateVec := AllocStateVec mem nMaxQPower in
  let nStateVec :=
    par_for 0 nMaxQPower
      (λ lcv nStateVec,
         let nStateVec :=
           <[ Z.to_nat lcv := stateVec e !!! Z.to_nat (Z.land lcv startMask) ]> nStateVec in
         foldl (λ nStateVec j,
                  <[ Z.to_nat lcv :=
                       zmul (nStateVec !!! Z.to_nat lcv)
                            (stateVec (toCopy !!! Z.to_nat j)
                               !!! Z.to_nat (Z.shiftr (Z.land lcv (mask !!! Z.to_nat j))
                                               (offset !!! Z.to_nat j))) ]> nStateVec)
               nStateVec (seqZ 0 toCohereCount))
      nStateVec in
  (offset, Build (wrapLen nQubitCount) nMaxQPower (runningNorm e) nStateVec, toCopy).

(** [Cohere(toCopy[i])] called for one engine of the vector after the
    other. *)
Definition Cohere_each (mem : list complex) (e : QEngineCPU.t) (toCopy : list QEngineCPU.t)
    : list Z * QEngineCPU.t * list QEngineCPU.t :=
  foldl (λ '(ret, e, copied) src,
           let '(start, e, src) := Cohere mem e src in
           (ret ++ [start], e, copied ++ [src]))
        ([], e, []) toCopy.

(** The qubits of a list of engines, the offset of each engine after [n]
    qubits, and its mask. *)
Definition qubits (l : list QEngineCPU.t) : Z := foldr Z.add 0 (qubitCount <$> l).

Fixpoint offsets (n : Z) (l : list QEngineCPU.t) : list Z :=
  match l with
  | [] => []
  | src :: l => n :: offsets (n + qubitCount src) l
  end.

Fixpoint masks (n : Z) (l : list QEngineCPU.t) : list Z :=
  match l with
  | [] => []
  | src :: l => regMask_of n (qubitCount src) :: masks (n + qubitCount src) l
  end.

(** The amplitude of the combined state at [lcv]: the amplitude of the
    first engine times the amplitudes of the others, in their order. *)
Definition product_amplitude (a : list complex) (na : Z) (l : list QEngineCPU.t) (lcv : Z)
    : complex :=
  foldl (λ acc '(src, off),
           zmul acc (stateVec src !!! Z.to_nat (register_value off (qubitCount src) lcv)))
        (a !!! Z.to_nat (Z.land lcv (Z.ones na)))
        (zip l (offsets na l)).

(** The sources with their offsets. *)
Definition placed (n : Z) (l : list QEngineCPU.t) : list (QEngineCPU.t * Z) :=
  zip l (offsets n l).

(** The engine both ways of composing arrive at. *)
Definition composed (a : QEngineCPU.t) (l : list QEngineCPU.t) : QEngineCPU.t :=
  let n := qubitCount a + qubits l in
  Build n (2 ^ n) (runningNorm a)
    (product_amplitude (stateVec a) (qubitCount a) l <$> seqZ 0 (2 ^ n)).

End Engine.
End CPUCohere.

(** ** Rotations of [QInterface] (part_001) *)

(** The rotations are members of the interface that call its virtual
    [ApplySinglePhase]; the model takes that member as an argument. *)
Module QInterface.
Section Rotations.
Context {R1 : Real1} {LM : Libm R1}.
Context {T : Type} (ApplySinglePhase : complex -> complex -> Z -> T -> T).

(** [radians / 2] *)
Definition half_of (radians : real1) : real1 := (radians / (ONE_R1 + ONE_R1))%r1.

(** "Phase shift gate" - Rotates as e^(-i*\theta/2) around |1> state *)
Definition RT (radians : real1) (qubit : Z) (q : T) : T :=
  ApplySinglePhase (Complex ONE_R1 ZERO_R1)
    (Complex (r_cos (half_of radians)) (r_sin (half_of radians))) qubit q.

(** z axis rotation gate - Rotates as e^(-i*\theta/2) around Pauli z axis *)
Definition RZ (radians : real1) (qubit : Z) (q : T) : T :=
  let cosine := r_cos (half_of radians) in
  let sine := r_sin (half_of radians) in
  ApplySinglePhase (Complex cosine (- sine)%r1) (Complex cosine sine) qubit q.

(** Exponentiate identity operator *)
Definition Exp (radians : real1) (qubit : Z) (q : T) : T :=
  let phaseFac := Complex (r_cos radians) (r_sin radians) in
  ApplySinglePhase phaseFac phaseFac qubit q.

(** Exponentiate Pauli Z operator *)
Definition ExpZ (radians : real1) (qubit : Z) (q : T) : T :=
  let phaseFac := Complex (r_cos radians) (r_sin radians) in
  ApplySinglePhase phaseFac (cneg phaseFac) qubit q.

End Rotations.
End QInterface.
(** ** Gates and probabilities on a state vector *)

Section GateSpecs.
Context {R1 : Real1}.

(** Modelled from the spec: the gate [gate] under the controls [controls],
    "a gate applied only on basis states where every specified control bit
    is |1>". *)
Definition controlled_spec (controls : list Z) (gate : list complex -> list complex)
    (stateVec : list complex) : list complex :=
  imap (λ i amp,
          if forallb (Z.testbit (Z.of_nat i)) controls then gate stateVec !!! i else amp)
       stateVec.

(** Modelled from the spec: the X gate on qubit [target]; the amplitudes of the two indices that
    differ in bit [target] change places. *)
Definition X_spec (target : Z) (stateVec : list complex) : list complex :=
  imap (λ i _, stateVec !!! Z.to_nat (Z.lxor (Z.of_nat i) (2 ^ target))) stateVec.

(** Modelled from the spec: the Z gate on qubit [target]; the amplitudes of the indices with bit
    [target] set change sign. *)
Definition Z_spec (target : Z) (stateVec : list complex) : list complex :=
  imap (λ i amp, if Z.testbit (Z.of_nat i) target then cneg amp else amp) stateVec.

Definition CNOT_spec (control target : Z) : list complex -> list complex :=
  controlled_spec [control] (X_spec target).
Definition CZ_spec (control target : Z) : list complex -> list complex :=
  controlled_spec [control] (Z_spec target).
Definition CCNOT_spec (control1 control2 target : Z) : list complex -> list complex :=
  controlled_spec [control1; control2] (X_spec target).
Definition CCZ_spec (control1 control2 target : Z) : list complex -> list complex :=
  controlled_spec [control1; control2] (Z_spec target).

(** The sum of the squared magnitudes at the indices that [pick] selects. *)
Definition sum_where (pick : nat -> bool) (stateVec : list complex) : real1 :=
  foldr r_add ZERO_R1 (imap (λ i amp, if pick i then norm amp else ZERO_R1) stateVec).

(** Modelled from the spec: the probability of |1> at qubit [qubit], the sum
    of the squared magnitudes at the indices with bit [qubit] set; and the
    total probability of a state. *)
Definition prob_spec (qubit : Z) (stateVec : list complex) : real1 :=
  sum_where (λ i, Z.testbit (Z.of_nat i) qubit) stateVec.
Definition total_spec (stateVec : list complex) : real1 :=
  sum_where (λ _, true) stateVec.

End GateSpecs.

(** ** The contract of the header's probes and controlled gates *)

Section HeaderContract.
Context {R1 : Real1} {LM : Libm R1} {QStabilizer QEngine : Type}.
Context {SO : QStabilizerOps QStabilizer QEngine} {EO : QEngineOps QEngine}.
Context {HD : QStabilizerHybrid.Header QStabilizer QEngine}.
Import QStabilizerHybrid.

(** Modelled from the spec: what [Prob], [CNOT] and [CZ] of the layer, which
    its header defines, do while the layer holds a stabilizer.
    [amplitudes h] is the state vector the layer stands for. [Prob] is a
    read-only query: it returns the probability of |1> in that state and
    leaves the state and the stabilizer in place. [CNOT] and [CZ] on two
    qubits of the register are the controlled X and the controlled Z gate
    on that state. *)
Definition header_contract (amplitudes : t QStabilizer QEngine -> list complex) : Prop :=
  forall h : t QStabilizer QEngine,
    is_set (stabilizer h) = true ->
    (forall qubit, 0 <= qubit < qubitCount h ->
       (Prob qubit h).1 = prob_spec qubit (amplitudes h) /\
       amplitudes (Prob qubit h).2 = amplitudes h /\
       is_set (stabilizer (Prob qubit h).2) = true /\
       qubitCount (Prob qubit h).2 = qubitCount h) /\
    (forall control target,
       0 <= control < qubitCount h -> 0 <= target < qubitCount h -> control <> target ->
       amplitudes (CNOT control target h) = CNOT_spec control target (amplitudes h) /\
       amplitudes (CZ control target h) = CZ_spec control target (amplitudes h)).

End HeaderContract.


(** ** A realisation of the layer's engines on amplitudes

    [DenseRegister] keeps the state vector itself, for the stabilizer engine
    and for the state-vector engine, and realises the gates on it as the
    spec words them. Measurement and the separation of a part of the
    register are not realised: [M] and [MAll] find |0>, and [Dispose] and
    [Decompose] keep the amplitudes at the indices whose disposed bits are
    clear. As in [TrackedRegister], flushing the buffers drops them. *)

Module DenseRegister.
Section Register.
Context {R1 : Real1} {LM : Libm R1}.

Definition t : Type := list complex.

Definition of_perm (qubitCount perm : Z) : t :=
  (λ i, if i =? perm then ONE_CMPLX else ZERO_CMPLX) <$> seqZ 0 (2 ^ qubitCount).

Definition cadd (a b : complex) : complex :=
  Complex (real a + real b)%r1 (imag a + imag b)%r1.

(** The 2x2 matrix [mtrx] (row-major) on qubit [target]. *)
Definition gate2x2 (mtrx : list complex) (target : Z) (stateVec : t) : t :=
  imap (λ i amp,
          let i := Z.of_nat i in
          if Z.testbit i target
          then cadd (zmul (mtrx !!! 2%nat) (stateVec !!! Z.to_nat (Z.clearbit i target)))
                    (zmul (mtrx !!! 3%nat) amp)
          else cadd (zmul (mtrx !!! 0%nat) amp)
                    (zmul (mtrx !!! 1%nat) (stateVec !!! Z.to_nat (Z.setbit i target))))
       stateVec.

(** The gate under controls that are all |0>. *)
Definition anti_controlled_spec (controls : list Z) (gate : t -> t) (stateVec : t) : t :=
  imap (λ i amp,
          if forallb (λ c, negb (Z.testbit (Z.of_nat i) c)) controls
          then gate stateVec !!! i else amp)
       stateVec.

Definition half : real1 := (ONE_R1 / (ONE_R1 + ONE_R1))%r1.
Definition c (re im : real1) : complex := Complex re im.
Definition H_mtrx : list complex :=
  let s := r_sqrt half in [c s ZERO_R1; c s ZERO_R1; c s ZERO_R1; c (- s)%r1 ZERO_R1].
Definition Y_mtrx : list complex := [ZERO_CMPLX; cneg I_CMPLX; I_CMPLX; ZERO_CMPLX].
Definition SqrtX_mtrx : list complex :=
  [c half half; c half (- half)%r1; c half (- half)%r1; c half half].
Definition ISqrtX_mtrx : list complex :=
  [c half (- half)%r1; c half half; c half half; c half (- half)%r1].
Definition SqrtY_mtrx : list complex :=
  [c half half; c (- half)%r1 (- half)%r1; c half half; c half half].
Definition ISqrtY_mtrx : list complex :=
  [c half (- half)%r1; c half (- half)%r1; c (- half)%r1 half; c half (- half)%r1].

Definition qubits (stateVec : t) : Z := Z.log2 (Z.of_nat (length stateVec)).

(** The amplitudes at the indices whose bits [start, start + len) hold
    [perm]. *)
Definition dispose (start len perm : Z) (stateVec : t) : t :=
  (λ j, stateVec !!! Z.to_nat (Z.lor (insert_zeros start len j) (Z.shiftl perm start)))
    <$> seqZ 0 (2 ^ (qubits stateVec - len)).

Definition apply_gate (g : StabilizerGate) (stateVec : t) : t :=
  match g with
  | SX q => X_spec q stateVec
  | SY q => gate2x2 Y_mtrx q stateVec
  | SZ q => Z_spec q stateVec
  | SH q => gate2x2 H_mtrx q stateVec
  | SS q => apply_phase_spec ONE_CMPLX I_CMPLX q stateVec
  | SIS q => apply_phase_spec ONE_CMPLX (cneg I_CMPLX) q stateVec
  | SSqrtX q => gate2x2 SqrtX_mtrx q stateVec
  | SISqrtX q => gate2x2 ISqrtX_mtrx q stateVec
  | SSqrtY q => gate2x2 SqrtY_mtrx q stateVec
  | SISqrtY q => gate2x2 ISqrtY_mtrx q stateVec
  | SCNOT control q => CNOT_spec control q stateVec
  | SCZ control q => CZ_spec control q stateVec
  | SCY control q => controlled_spec [control] (gate2x2 Y_mtrx q) stateVec
  | SSetPermutation perm => of_perm (qubits stateVec) perm
  | SDispose start len => dispose start len 0 stateVec
  end.

Definition apply_engine_gate (g : EngineGate) (stateVec : t) : t :=
  match g with
  | ECCNOT c1 c2 q => CCNOT_spec c1 c2 q stateVec
  | ECCZ c1 c2 q => CCZ_spec c1 c2 q stateVec
  | ECCY c1 c2 q => controlled_spec [c1; c2] (gate2x2 Y_mtrx q) stateVec
  | ECH control q => controlled_spec [control] (gate2x2 H_mtrx q) stateVec
  | ECS control q =>
      controlled_spec [control] (apply_phase_spec ONE_CMPLX I_CMPLX q) stateVec
  | ECIS control q =>
      controlled_spec [control] (apply_phase_spec ONE_CMPLX (cneg I_CMPLX) q) stateVec
  | EApplySingleBit mtrx q => gate2x2 mtrx q stateVec
  | EApplySinglePhase a b q => apply_phase_spec a b q stateVec
  | EApplySingleInvert a b q => apply_invert_spec a b q stateVec
  | EApplyControlledSingleBit cs q mtrx => controlled_spec cs (gate2x2 mtrx q) stateVec
  | EApplyControlledSinglePhase cs q a b =>
      controlled_spec cs (apply_phase_spec a b q) stateVec
  | EApplyControlledSingleInvert cs q a b =>
      controlled_spec cs (apply_invert_spec a b q) stateVec
  | EApplyAntiControlledSingleBit cs q mtrx =>
      anti_controlled_spec cs (gate2x2 mtrx q) stateVec
  | EApplyAntiControlledSinglePhase cs q a b =>
      anti_controlled_spec cs (apply_phase_spec a b q) stateVec
  | EApplyAntiControlledSingleInvert cs q a b =>
      anti_controlled_spec cs (apply_invert_spec a b q) stateVec
  | EDispose start len => dispose start len 0 stateVec
  | EDisposePerm start len perm => dispose start len perm stateVec
  | ESetQuantumState inputState => inputState
  end.

(** The qubit is in a basis state. *)
Definition in_basis_state (q : Z) (stateVec : t) : bool :=
  r_eqb (prob_spec q stateVec) ZERO_R1 || r_eqb (prob_spec q stateVec) ONE_R1.

#[export] Instance stabilizer_ops : QStabilizerOps t t := {|
  new_QStabilizer := of_perm;
  stab_gate := apply_gate;
  IsSeparableZ := in_basis_state;
  IsSeparableX := λ _ _, false;
  IsSeparableY := λ _ _, false;
  CanDecomposeDispose := λ start len stateVec,
    forallb (λ q, in_basis_state q stateVec) (seqZ start len);
  stab_Decompose := λ start stateVec dest, (dispose start (qubits dest) 0 stateVec, dest);
  stab_GetQuantumState := λ stateVec _, stateVec;
  stab_GetProbs := fmap norm;
  stab_M := λ _ stateVec, (false, stateVec)
|}.

#[export] Instance engine_ops : QEngineOps t := {|
  new_QEngine := of_perm;
  engine_gate := apply_engine_gate;
  engine_Decompose := λ start stateVec dest, (dispose start (qubits dest) 0 stateVec, dest);
  engine_GetProbs := fmap norm;
  engine_MAll := λ stateVec, (0, stateVec)
|}.

Abbreviation hybrid := (QStabilizerHybrid.t t t).

(** The state vector the layer holds: the stabilizer's, or else the
    engine's. *)
Definition amplitudes (h : hybrid) : t :=
  match QStabilizerHybrid.stabilizer h, QStabilizerHybrid.engine h with
  | Some stateVec, _ => stateVec
  | None, Some stateVec => stateVec
  | None, None => []
  end.

Definition dispatch (s : StabilizerGate) (e : EngineGate) (h : hybrid) : hybrid :=
  if QStabilizerHybrid.is_set (QStabilizerHybrid.stabilizer h)
  then QStabilizerHybrid.on_stabilizer s h
  else QStabilizerHybrid.on_engine e h.

Definition DumpBuffers (h : hybrid) : hybrid :=
  QStabilizerHybrid.set_shards (replicate (length (QStabilizerHybrid.shards h)) None) h.

(** The controls at chance 1 are dropped ([anti]: at chance 0); a control
    at the other end makes the gate the identity. *)
Definition TrimControls (controls : list Z) (anti : bool) (h : hybrid)
    : bool * list Z * hybrid :=
  let p q := prob_spec q (amplitudes h) in
  let off := if anti then ONE_R1 else ZERO_R1 in
  let on := if anti then ZERO_R1 else ONE_R1 in
  (existsb (λ q, r_eqb (p q) off) controls,
   List.filter (λ q, negb (r_eqb (p q) on)) controls,
   h).

Definition SetPermutation (perm : Z) (h : hybrid) : hybrid :=
  let h := DumpBuffers h in
  QStabilizerHybrid.set_stabilizer
    (Some (of_perm (QStabilizerHybrid.qubitCount h) perm))
    (QStabilizerHybrid.set_engine None h).

#[export] Instance header : QStabilizerHybrid.Header t t := {|
  QStabilizerHybrid.Prob := λ q h, (prob_spec q (amplitudes h), h);
  QStabilizerHybrid.CNOT := λ control q,
    dispatch (SCNOT control q) (EApplyControlledSingleInvert [control] q ONE_CMPLX ONE_CMPLX);
  QStabilizerHybrid.CZ := λ control q,
    dispatch (SCZ control q)
             (EApplyControlledSinglePhase [control] q ONE_CMPLX (cneg ONE_CMPLX));
  QStabilizerHybrid.CY := λ control q,
    dispatch (SCY control q) (EApplyControlledSingleInvert [control] q (cneg I_CMPLX) I_CMPLX);
  QStabilizerHybrid.H := λ q, dispatch (SH q) (EApplySingleBit H_mtrx q);
  QStabilizerHybrid.S := λ q, dispatch (SS q) (EApplySinglePhase ONE_CMPLX I_CMPLX q);
  QStabilizerHybrid.IS := λ q,
    dispatch (SIS q) (EApplySinglePhase ONE_CMPLX (cneg I_CMPLX) q);
  QStabilizerHybrid.FlushBuffers := DumpBuffers;
  QStabilizerHybrid.DumpBuffers := DumpBuffers;
  QStabilizerHybrid.FlushIfBlocked := λ _ _ h, h;
  QStabilizerHybrid.TrimControls := TrimControls;
  QStabilizerHybrid.IsIdentity := λ mtrx _,
    TrackedRegister.IS_SAME (mtrx !!! 0%nat) (mtrx !!! 3%nat)
    && TrackedRegister.IS_SAME (mtrx !!! 1%nat) ZERO_CMPLX
    && TrackedRegister.IS_SAME (mtrx !!! 2%nat) ZERO_CMPLX;
  QStabilizerHybrid.IS_SAME := TrackedRegister.IS_SAME;
  QStabilizerHybrid.shard_Compose := λ shard lMtrx, TrackedRegister.mul2x2 lMtrx shard;
  QStabilizerHybrid.shard_IsInvert := λ shard,
    TrackedRegister.IS_SAME (shard !!! 0%nat) ZERO_CMPLX
    && TrackedRegister.IS_SAME (shard !!! 3%nat) ZERO_CMPLX;
  QStabilizerHybrid.shard_IsPhase := λ shard,
    TrackedRegister.IS_SAME (shard !!! 1%nat) ZERO_CMPLX
    && TrackedRegister.IS_SAME (shard !!! 2%nat) ZERO_CMPLX;
  QStabilizerHybrid.SQRT1_2_R1 := r_sqrt half;
  QStabilizerHybrid.SetPermutation := SetPermutation;
  QStabilizerHybrid.CollapseSeparableShard := λ q h, QStabilizerHybrid.set_shard q None h;
  QStabilizerHybrid.Finish := λ h, h
|}.

End Register.
End DenseRegister.

(** ** Gates that move and change amplitudes index by index *)

Section Pointwise.
Context {R1 : Real1}.

(** The amplitudes at the indices that [pick] selects are zero. *)
Definition zero_where (pick : nat -> bool) (stateVec : list complex) : Prop :=
  forall i amp, stateVec !! i = Some amp -> pick i = true -> amp = ZERO_CMPLX.

(** A gate that takes the amplitude of index [i] from index [source i],
    changed by [change i]. *)
Definition pointwise (source : Z -> Z) (change : Z -> complex -> complex)
    (stateVec : list complex) : list complex :=
  imap (λ i _, change (Z.of_nat i) (stateVec !!! Z.to_nat (source (Z.of_nat i)))) stateVec.

(** [source] keeps bit [c], and [change] keeps zero. *)
Definition keeps_bit (c : Z) (source : Z -> Z) : Prop :=
  forall i, 0 <= i -> 0 <= source i /\ Z.testbit (source i) c = Z.testbit i c.
Definition keeps_zero (change : Z -> complex -> complex) : Prop :=
  forall i, change i ZERO_CMPLX = ZERO_CMPLX.

End Pointwise.

(** * Properties of the execution model *)

Lemma elem_of_work_item Nthreads maxI ID x :
  0 < Nthreads -> 0 <= ID < Nthreads ->
  x ∈ work_item Nthreads maxI ID <-> (0 <= x < maxI /\ x mod Nthreads = ID).
Proof.
  intros HN HID. unfold work_item, work_item_count.
  rewrite list_elem_of_fmap. setoid_rewrite elem_of_seqZ.
  pose proof (Z.div_mod (maxI - ID + Nthreads - 1) Nthreads ltac:(lia)) as Hdm.
  pose proof (Z.mod_pos_bound (maxI - ID + Nthreads - 1) Nthreads HN) as Hmb.
  set (c := (maxI - ID + Nthreads - 1) `div` Nthreads) in *.
  split.
  - intros (k & -> & Hk). split.
    + split; [nia|]. assert (k + 1 <= c) by lia. nia.
    + rewrite Z.mod_add by lia. apply Z.mod_small. lia.
  - intros ([Hx0 Hx] & Hm). exists (x `div` Nthreads).
    pose proof (Z.div_mod x Nthreads ltac:(lia)) as Hx'.
    pose proof (Z.div_pos x Nthreads ltac:(lia) HN).
    split; [lia|]. split; [lia|].
    assert (x `div` Nthreads < c \/ c <= x `div` Nthreads) as [?|Hge] by lia; [lia|].
    exfalso. nia.
Qed.

Lemma elem_of_NDRange Nthreads maxI x :
  0 < Nthreads -> x ∈ NDRange Nthreads maxI <-> 0 <= x < maxI.
Proof.
  intros HN. unfold NDRange. rewrite list_elem_of_bind. split.
  - intros (ID & Hx & HID%elem_of_seqZ).
    apply elem_of_work_item in Hx; [tauto|lia|lia].
  - intros Hx. exists (x mod Nthreads).
    pose proof (Z.mod_pos_bound x Nthreads HN).
    split; [apply elem_of_work_item; auto with lia|apply elem_of_seqZ; lia].
Qed.

Lemma NoDup_NDRange Nthreads maxI : 0 < Nthreads -> NoDup (NDRange Nthreads maxI).
Proof.
  intros HN. unfold NDRange. apply NoDup_bind; [| |apply NoDup_seqZ].
  - intros a b y Ha%elem_of_seqZ Hb%elem_of_seqZ Hya Hyb.
    apply elem_of_work_item in Hya; [|lia..].
    apply elem_of_work_item in Hyb; [|lia..]. lia.
  - intros ID HID%elem_of_seqZ. unfold work_item.
    apply NoDup_fmap_2_strong; [|apply NoDup_seqZ].
    intros a b _ _ Hab. nia.
Qed.

(** Every schedule of the range visits each index below [maxI] once. *)
Lemma NDRange_Permutation Nthreads maxI :
  0 < Nthreads -> NDRange Nthreads maxI ≡ₚ seqZ 0 maxI.
Proof.
  intros HN. apply NoDup_Permutation; [by apply NoDup_NDRange|apply NoDup_seqZ|].
  intros x. rewrite elem_of_NDRange, elem_of_seqZ by done. lia.
Qed.

Section Scatter.
Context {A : Type}.

Lemma scatter_length dest (src : Z -> A) schedule (out : list A) :
  length (scatter dest src schedule out) = length out.
Proof.
  unfold scatter, run_kernel. revert out.
  induction schedule as [|i l IH]; intros out; simpl; [done|].
  by rewrite IH, length_insert.
Qed.

Lemma scatter_lookup_other dest (src : Z -> A) schedule (out : list A) (j : nat) :
  (forall i, i ∈ schedule -> Z.to_nat (dest i) <> j) ->
  scatter dest src schedule out !! j = out !! j.
Proof.
  unfold scatter, run_kernel. revert out.
  induction schedule as [|i l IH]; intros out Hj; simpl; [done|].
  rewrite IH by (intros; apply Hj; by right).
  apply list_lookup_insert_ne, Hj. by left.
Qed.

Lemma scatter_lookup dest (src : Z -> A) schedule (out : list A) i :
  NoDup schedule -> i ∈ schedule ->
  (forall a, a ∈ schedule -> Z.to_nat (dest a) = Z.to_nat (dest i) -> a = i) ->
  (Z.to_nat (dest i) < length out)%nat ->
  scatter dest src schedule out !! Z.to_nat (dest i) = Some (src i).
Proof.
  unfold scatter, run_kernel. revert out.
  induction schedule as [|a l IH]; intros out Hnd Hi Hinj Hlen; [by inv Hi|].
  apply NoDup_cons in Hnd as [Ha Hnd]. simpl.
  apply elem_of_cons in Hi as [->|Hi].
  - change (foldl _ ?o l) with (scatter dest src l o).
    rewrite scatter_lookup_other.
    + by apply list_lookup_insert_eq.
    + intros b Hb Hbi. apply Hinj in Hbi; [by subst|by right].
  - apply IH; [done|done| |by rewrite length_insert].
    intros b Hb. apply Hinj. by right.
Qed.

End Scatter.

(** * Properties of bit ranges *)

Lemma ones_eq n : Z.ones n = 2 ^ n - 1.
Proof. rewrite Z.ones_equiv. lia. Qed.

Lemma pow2_mono a b : 0 <= a <= b -> 0 < 2 ^ a <= 2 ^ b.
Proof. intros Hab. split; [apply Z.pow_pos_nonneg; lia|apply Z.pow_le_mono_r; lia]. Qed.

Lemma wrapCap_small z : 0 <= z < 2 ^ bitsInCap -> wrapCap z = z.
Proof. apply Z.mod_small. Qed.

Lemma wrapCap_land_ones z n :
  0 <= n <= bitsInCap -> Z.land (wrapCap z) (Z.ones n) = z mod 2 ^ n.
Proof.
  intros Hn. unfold wrapCap. rewrite Z.land_ones by lia.
  apply Z.mod_mod_divide.
  exists (2 ^ (bitsInCap - n)). rewrite <- Z.pow_add_r by lia. f_equal. lia.
Qed.

Lemma int_shift_below_cap : bitsInInt - 1 < bitsInCap.
Proof. done. Qed.

Lemma pow2_small n : 0 <= n < bitsInCap -> pow2 n = 2 ^ n.
Proof.
  intros Hn. unfold pow2, cap_shl, ONE_BCI. rewrite Z.shiftl_1_l.
  apply wrapCap_small. split; [lia|]. apply Z.pow_lt_mono_r; lia.
Qed.

Ltac bits_simpl :=
  repeat first
    [ rewrite Z.land_spec | rewrite Z.lor_spec | rewrite Z.lnot_spec by lia
    | rewrite Z.shiftl_spec by lia | rewrite Z.shiftr_spec by lia
    | rewrite Z.testbit_ones_nonneg by lia
    | rewrite Z.testbit_neg_r by lia ].

Ltac bits j := apply Z.bits_inj'; intros j ?; bits_simpl.

Ltac ltb_cases :=
  repeat match goal with
    | |- context [?a <? ?b] => destruct (Z.ltb_spec a b)
    end.

Ltac bool_cases :=
  repeat match goal with
    | |- context [Z.testbit ?a ?b] => destruct (Z.testbit a b)
    | |- context [?a <? ?b] => destruct (a <? b)
    end; simpl; try done.

Lemma testbit_above a n j : 0 <= a < 2 ^ n -> n <= j -> Z.testbit a j = false.
Proof.
  intros Ha Hj. destruct (Z.eq_dec a 0) as [->|]; [apply Z.bits_0|].
  assert (0 <= n) by (destruct (Z.le_gt_cases 0 n); [done|]; rewrite Z.pow_neg_r in Ha; lia).
  apply Z.bits_above_log2; [lia|]. apply Z.lt_le_trans with n; [|done].
  apply Z.log2_lt_pow2; lia.
Qed.

Lemma reg_field i start length :
  0 <= start -> 0 <= length ->
  Z.shiftr (Z.land i (regMask_of start length)) start = Z.land (Z.shiftr i start) (Z.ones length).
Proof.
  intros Hs Hl. unfold regMask_of. bits j.
  replace (j + start - start) with j by lia.
  done.
Qed.

Lemma reg_field_merge i v n start length :
  0 <= start -> 0 <= length -> start + length <= n -> 0 <= v < 2 ^ length ->
  let d := Z.lor (Z.shiftl v start) (Z.land i (otherMask_of n start length)) in
  Z.land (Z.shiftr d start) (Z.ones length) = v /\
  Z.land d (otherMask_of n start length) = Z.land i (otherMask_of n start length) /\
  0 <= d < 2 ^ n.
Proof.
  intros Hs Hl Hn Hv d.
  pose proof (fun j => testbit_above v length j Hv) as Hvb.
  assert (Hd : Z.land d (Z.ones n) = d).
  { subst d. unfold otherMask_of, regMask_of. bits j.
    destruct (Z.ltb_spec j n); [by rewrite andb_true_r|].
    destruct (Z.ltb_spec (j - start) 0).
    - bits_simpl. bool_cases.
    - rewrite Hvb by lia. bool_cases. }
  split_and!.
  - subst d. unfold otherMask_of, regMask_of. bits j.
    replace (j + start - start) with j by lia.
    bits_simpl.
    destruct (Z.ltb_spec j length); [bool_cases|].
    rewrite Hvb by lia. bool_cases.
  - subst d. unfold otherMask_of, regMask_of. bits j.
    destruct (Z.ltb_spec (j - start) 0); [bits_simpl; bool_cases|].
    bits_simpl.
    destruct (Z.ltb_spec (j - start) length); [bool_cases|].
    rewrite Hvb by lia. bool_cases.
  - subst d. apply Z.lor_nonneg. split; [apply Z.shiftl_nonneg; lia|].
    apply Z.land_nonneg. right. apply Z.land_nonneg. left.
    rewrite Z.ones_equiv. pose proof (Z.pow_pos_nonneg 2 n). lia.
  - rewrite <- Hd, Z.land_ones by lia. apply Z.mod_pos_bound. lia.
Qed.

Lemma reg_field_split i n start length :
  0 <= start -> 0 <= length -> start + length <= n -> 0 <= i < 2 ^ n ->
  Z.lor (Z.shiftl (Z.land (Z.shiftr i start) (Z.ones length)) start)
        (Z.land i (otherMask_of n start length)) = i.
Proof.
  intros Hs Hl Hn Hi. unfold otherMask_of, regMask_of.
  pose proof (fun j => testbit_above i n j Hi) as Hib.
  bits j.
  destruct (Z.ltb_spec (j - start) 0).
  { bits_simpl.
    destruct (Z.ltb_spec j n); [bool_cases|]. rewrite Hib by lia. bool_cases. }
  bits_simpl.
  replace (j - start + start) with j by lia.
  destruct (Z.ltb_spec j n); [|rewrite Hib by lia; bool_cases].
  destruct (Z.ltb_spec (j - start) length); bool_cases.
Qed.


(** * The increment kernel and its host code *)

Section INC_proofs.
Context {R1 : Real1}.
Import QEngineOCL.

Lemma double_until_ge d p w : 0 < p -> p <= double_until d p w.
Proof.
  revert p. induction d as [|d IH]; intros p Hp; simpl; [lia|].
  destruct (p <? w); [|lia]. specialize (IH (p * 2)). lia.
Qed.

(** The loop ends by its test, not by the bound on the doublings: the power
    it returns is at least [wic], and below [2 * wic], so no doubling leaves
    the range of [size_t] for [wic] up to [2 ^ 63]. *)
Lemma double_until_exit d p w :
  0 < p -> p < 2 * w -> w <= p * 2 ^ Z.of_nat d ->
  w <= double_until d p w < 2 * w.
Proof.
  revert p. induction d as [|d IH]; intros p Hp Hlow Hfuel.
  - simpl in *. lia.
  - cbn [double_until]. destruct (Z.ltb_spec p w); [|lia].
    apply IH; [lia|lia|].
    rewrite Nat2Z.inj_succ, Z.pow_succ_r in Hfuel by lia. lia.
Qed.

Lemma FixWorkItemCount_pos maxI wic : 0 < maxI -> 0 < FixWorkItemCount maxI wic.
Proof.
  intros H. unfold FixWorkItemCount. destruct (maxI <? wic); [done|].
  pose proof (double_until_ge (Z.to_nat bitsInCap) 2 wic ltac:(lia)) as Hp.
  cbv zeta. destruct (wic <? _); [|lia].
  rewrite Z.shiftr_div_pow2 by lia. change (2 ^ 1) with 2.
  apply Z.div_str_pos. lia.
Qed.

(** The arguments [INT] builds, simplified. *)
Lemma INT_masks n start length :
  0 <= start -> 0 <= length -> start + length <= n -> n < bitsInCap ->
  cap_shl 1 length = 2 ^ length /\
  cap_sub (cap_shl 1 length) 1 = Z.ones length /\
  cap_shl (cap_sub (cap_shl 1 length) 1) start = regMask_of start length /\
  Z.land (cap_sub (2 ^ n) 1) (cap_not (regMask_of start length)) = otherMask_of n start length.
Proof.
  intros Hs Hl Hn Hb.
  assert (H1 : cap_shl 1 length = 2 ^ length) by (apply pow2_small; lia).
  assert (H2 : cap_sub (cap_shl 1 length) 1 = Z.ones length).
  { rewrite H1, ones_eq. unfold cap_sub.
    apply wrapCap_small. pose proof (pow2_mono length bitsInCap). lia. }
  split_and!; [done|done|..].
  - rewrite H2. unfold cap_shl, regMask_of. apply wrapCap_small.
    rewrite Z.shiftl_mul_pow2, ones_eq by lia.
    pose proof (pow2_mono length length ltac:(lia)).
    pose proof (pow2_mono start start ltac:(lia)).
    split; [nia|].
    apply Z.lt_le_trans with (2 ^ (start + length)); [|apply pow2_mono; lia].
    rewrite Z.pow_add_r by lia. nia.
  - unfold otherMask_of, cap_sub, cap_not.
    rewrite (wrapCap_small (2 ^ n - 1)).
    2:{ pose proof (pow2_mono n bitsInCap). lia. }
    rewrite <- ones_eq.
    unfold wrapCap. rewrite <- Z.land_ones by done.
    bits j. destruct (Z.ltb_spec j n); [|bool_cases].
    destruct (Z.ltb_spec j bitsInCap); [|lia]. bool_cases.
Qed.

Definition INT_args (n toMod start length : Z) : list Z :=
  [2 ^ n; regMask_of start length; otherMask_of n start length; 2 ^ length; start; toMod; 0; 0; 0; 0].

Lemma inc_dest_spec n toAdd start length i :
  0 <= start -> 0 <= length -> start + length <= n -> n < bitsInCap ->
  Kernel.inc_dest (INT_args n toAdd start length) i =
  Z.lor (Z.shiftl ((Z.land (Z.shiftr i start) (Z.ones length) + toAdd) mod 2 ^ length) start)
        (Z.land i (otherMask_of n start length)).
Proof.
  intros Hs Hl Hn Hb. unfold Kernel.inc_dest, INT_args. cbn [lookup_total list_lookup_total].
  cbv zeta. f_equal.
  rewrite reg_field by done.
  destruct (INT_masks n start length) as (H1 & H2 & _); [done..|].
  rewrite H1 in H2. unfold ONE_BCI. rewrite H2. unfold cap_add. rewrite wrapCap_land_ones by lia.
  unfold cap_shl. apply wrapCap_small.
  pose proof (Z.mod_pos_bound (Z.land (Z.shiftr i start) (Z.ones length) + toAdd) (2 ^ length)
                ltac:(apply Z.pow_pos_nonneg; lia)) as Hv.
  rewrite Z.shiftl_mul_pow2 by lia.
  pose proof (pow2_mono start start ltac:(lia)).
  split; [nia|].
  apply Z.lt_le_trans with (2 ^ (start + length)); [|apply pow2_mono; lia].
  rewrite Z.pow_add_r by lia. nia.
Qed.

Lemma inc_dest_range n toAdd start length i :
  0 <= start -> 0 <= length -> start + length <= n -> n < bitsInCap ->
  0 <= Kernel.inc_dest (INT_args n toAdd start length) i < 2 ^ n.
Proof.
  intros Hs Hl Hn Hb. rewrite inc_dest_spec by done.
  apply reg_field_merge; [done..|].
  apply Z.mod_pos_bound, Z.pow_pos_nonneg; lia.
Qed.

Lemma inc_dest_inverse n toAdd toAdd' start length i :
  0 <= start -> 0 <= length -> start + length <= n -> n < bitsInCap ->
  (toAdd + toAdd') mod 2 ^ length = 0 -> 0 <= i < 2 ^ n ->
  Kernel.inc_dest (INT_args n toAdd' start length)
    (Kernel.inc_dest (INT_args n toAdd start length) i) = i.
Proof.
  intros Hs Hl Hn Hb Hk Hi.
  rewrite (inc_dest_spec n toAdd') by done.
  rewrite (inc_dest_spec n toAdd) by done.
  set (r := Z.land (Z.shiftr i start) (Z.ones length)).
  assert (Hlp : 0 < 2 ^ length) by (apply Z.pow_pos_nonneg; lia).
  destruct (reg_field_merge i ((r + toAdd) mod 2 ^ length) n start length)
    as (Hr & Ho & _); [done..|by apply Z.mod_pos_bound|].
  cbv zeta in Hr, Ho. rewrite Hr, Ho.
  rewrite Zplus_mod_idemp_l.
  replace (r + toAdd + toAdd') with (r + (toAdd + toAdd')) by lia.
  rewrite <- Zplus_mod_idemp_r, Hk, Z.add_0_r.
  assert (Hrr : r mod 2 ^ length = r).
  { subst r. rewrite <- Z.land_ones by done. rewrite <- Z.land_assoc, Z.land_diag. done. }
  rewrite Hrr. by apply reg_field_split.
Qed.

Lemma INT_DispatchCall api toMod start length (e : QEngineOCL.t) :
  well_formed e -> 0 <= start -> 0 <= length -> start + length <= qubitCount e ->
  INT api toMod start length e =
  DispatchCall api (INT_args (qubitCount e) toMod start length) e.
Proof.
  intros (Hq & Hm & _) Hs Hl Hn. pose proof int_shift_below_cap as Hic.
  unfold INT, INT_args. cbv zeta.
  destruct (INT_masks (qubitCount e) start length) as (H1 & H2 & H3 & H4); [done|done|done|lia|].
  by rewrite Hm, H3, H4, H1.
Qed.

Lemma inc_length N sv args out : length (Kernel.inc N sv args out) = length out.
Proof. apply (scatter_length (Kernel.inc_dest args) (λ i, sv !!! Z.to_nat i)). Qed.

Lemma inc_lookup N sv n toAdd toAdd' start length out j :
  0 < N -> 0 <= start -> 0 <= length -> start + length <= n -> n < bitsInCap ->
  (toAdd + toAdd') mod 2 ^ length = 0 ->
  List.length out = Z.to_nat (2 ^ n) -> 0 <= j < 2 ^ n ->
  Kernel.inc N sv (INT_args n toAdd start length) out !! Z.to_nat j =
  Some (sv !!! Z.to_nat (Kernel.inc_dest (INT_args n toAdd' start length) j)).
Proof.
  intros HN Hs Hl Hn Hb Hk Hlen Hj.
  set (args := INT_args n toAdd start length).
  set (args' := INT_args n toAdd' start length).
  assert (Hk' : (toAdd' + toAdd) mod 2 ^ length = 0) by (by rewrite Z.add_comm).
  pose proof (inc_dest_range n toAdd' start length j Hs Hl Hn Hb) as Hr.
  pose proof (inc_dest_inverse n toAdd' toAdd start length j Hs Hl Hn Hb Hk' Hj) as Hinv.
  fold args args' in Hr, Hinv.
  rewrite <- Hinv at 1.
  apply (scatter_lookup (Kernel.inc_dest args) (λ i, sv !!! Z.to_nat i)).
  - by apply NoDup_NDRange.
  - apply elem_of_NDRange; [done|]. by unfold args; simpl.
  - intros a Ha Heq. apply elem_of_NDRange in Ha; [|done].
    change (args !!! 0%nat) with (2 ^ n) in Ha.
    pose proof (inc_dest_range n toAdd start length a Hs Hl Hn Hb).
    pose proof (inc_dest_range n toAdd start length
                  (Kernel.inc_dest args' j) Hs Hl Hn Hb).
    fold args args' in H, H0, Heq.
    apply Z2Nat.inj in Heq; [|lia..].
    rewrite <- (inc_dest_inverse n toAdd toAdd' start length a) by done.
    fold args. rewrite Heq. by apply inc_dest_inverse.
  - rewrite Hinv, Hlen. lia.
Qed.

Lemma neg_cancel k length : 0 <= length <= bitsInCap -> (k + cap_neg k) mod 2 ^ length = 0.
Proof.
  intros Hl. unfold cap_neg, wrapCap.
  rewrite <- Zplus_mod_idemp_r. rewrite Z.mod_mod_divide.
  - rewrite Zplus_mod_idemp_r. by replace (k + - k) with 0 by lia.
  - exists (2 ^ (bitsInCap - length)). rewrite <- Z.pow_add_r by lia. f_equal. lia.
Qed.

Lemma lor_field x i n start length :
  0 <= start -> 0 <= length -> start + length <= n -> 0 <= x < 2 ^ length ->
  Z.lor (Z.shiftl x start) (Z.land i (otherMask_of n start length)) =
  x * 2 ^ start + Z.land i (otherMask_of n start length).
Proof.
  intros Hs Hl Hn Hx.
  assert (Hd : Z.land (Z.shiftl x start) (Z.land i (otherMask_of n start length)) = 0).
  { unfold otherMask_of, regMask_of. bits j. rewrite Z.bits_0.
    destruct (Z.ltb_spec (j - start) 0); [bits_simpl; bool_cases|].
    bits_simpl. destruct (Z.ltb_spec (j - start) length); [bool_cases|].
    rewrite (testbit_above x length) by done. bool_cases. }
  rewrite <- Z.lxor_lor, <- Z.add_nocarry_lxor by done.
  by rewrite Z.shiftl_mul_pow2.
Qed.

Lemma inc_dest_arith n toAdd start length i :
  0 <= start -> 0 <= length -> start + length <= n -> n < bitsInCap -> 0 <= i < 2 ^ n ->
  Kernel.inc_dest (INT_args n toAdd start length) i = add_to_register start length toAdd i.
Proof.
  intros Hs Hl Hn Hb Hi. rewrite inc_dest_spec by done.
  assert (Hlp : 0 < 2 ^ length) by (apply Z.pow_pos_nonneg; lia).
  unfold add_to_register, register_value.
  rewrite <- Z.shiftr_div_pow2, <- (Z.land_ones (Z.shiftr i start)) by done.
  set (r := Z.land (Z.shiftr i start) (Z.ones length)).
  rewrite lor_field with (n := n) by first [done|by apply Z.mod_pos_bound].
  pose proof (reg_field_split i n start length Hs Hl Hn Hi) as Hsplit. fold r in Hsplit.
  rewrite lor_field in Hsplit; [lia|done..|].
  subst r. rewrite Z.land_ones by done. by apply Z.mod_pos_bound.
Qed.
(** C4. [INC(k)] moves the amplitude of every index [i] to the index whose
    register field [[start, start + length)], read as an unsigned integer, is
    [k] greater modulo [2 ^ length] (every other bit unchanged), and
    [INC(k)] followed by [INC(-k)] (the negation taken at the width of
    [bitCapInt]) gives back the engine it started from. *)
Theorem INC_INC_neg_identity (e : QEngineOCL.t) (k start length : Z) :
  well_formed e -> 0 <= k < 2 ^ bitsInCap ->
  0 <= start -> 0 <= length -> start + length <= qubitCount e ->
  (forall i, 0 <= i < maxQPower e ->
     stateVec (INC k start length e) !! Z.to_nat (add_to_register start length k i) =
     stateVec e !! Z.to_nat i) /\
  INC (cap_neg k) start length (INC k start length e) = e.
Proof.
  intros Hwf Hk Hs Hl Hn. pose proof Hwf as (Hq & Hm & Hlen).
  pose proof int_shift_below_cap as Hic.
  assert (H2n : 0 < 2 ^ qubitCount e) by (apply Z.pow_pos_nonneg; lia).
  split.
  { intros i Hi. unfold INC. rewrite (INT_DispatchCall _ k) by done.
    unfold DispatchCall. cbn. rewrite Hm in *.
    rewrite <- (inc_dest_arith (qubitCount e)) by first [done|lia].
    erewrite inc_lookup;
      [|by apply FixWorkItemCount_pos|done|done|done|lia|apply (neg_cancel k); lia
       |by rewrite length_replicate|apply inc_dest_range; first [done|lia]].
    rewrite inc_dest_inverse by first [done|lia|apply neg_cancel; lia].
    symmetry. apply list_lookup_lookup_total_lt. lia. }
  unfold INC. rewrite (INT_DispatchCall _ k) by done.
  set (e1 := DispatchCall _ _ e).
  assert (Hwf1 : well_formed e1).
  { subst e1. unfold well_formed, DispatchCall. cbn. split_and!; [lia|lia|done|].
    by rewrite inc_length, length_replicate. }
  rewrite INT_DispatchCall by done.
  destruct e as [n mq rn sv gc]. cbn in *. subst mq.
  unfold DispatchCall. cbn. f_equal.
  apply list_eq. intros j.
  destruct (decide (j < Z.to_nat (2 ^ n))%nat) as [Hj|Hj].
  - rewrite <- (Nat2Z.id j).
    erewrite inc_lookup;
      [|by apply FixWorkItemCount_pos|done|done|done|lia| |by rewrite length_replicate|lia].
    2:{ rewrite Z.add_comm. apply neg_cancel. lia. }
    rewrite (list_lookup_total_alt _ (Z.to_nat _)).
    erewrite inc_lookup;
      [|by apply FixWorkItemCount_pos|done|done|done|lia|
        |by rewrite length_replicate|apply inc_dest_range; first [done|lia]].
    2:{ apply neg_cancel. lia. }
    cbn. rewrite inc_dest_inverse by first [done|lia|apply neg_cancel; lia].
    rewrite Nat2Z.id. symmetry. apply list_lookup_lookup_total_lt. lia.
  - rewrite !lookup_ge_None_2; [done|lia|].
    rewrite inc_length, length_replicate. lia.
Qed.

End INC_proofs.

(** * Loops that update cells in place *)

Section InPlace.
Context {A : Type} `{Inhabited A}.

Lemma in_place_length g schedule (sv : list A) : length (in_place g schedule sv) = length sv.
Proof.
  unfold in_place, run_kernel. revert sv.
  induction schedule as [|a l IH]; intros sv; simpl; [done|].
  by rewrite IH, length_insert.
Qed.

Lemma in_place_lookup_other g schedule (sv : list A) (j : nat) :
  (forall a, a ∈ schedule -> Z.to_nat a <> j) ->
  in_place g schedule sv !! j = sv !! j.
Proof.
  unfold in_place, run_kernel. revert sv.
  induction schedule as [|a l IH]; intros sv Hj; simpl; [done|].
  rewrite IH by (intros; apply Hj; by right).
  apply list_lookup_insert_ne, Hj. by left.
Qed.

Lemma in_place_lookup g schedule (sv : list A) i :
  NoDup schedule -> (forall a, a ∈ schedule -> 0 <= a) -> i ∈ schedule ->
  in_place g schedule sv !! Z.to_nat i = g i <$> sv !! Z.to_nat i.
Proof.
  unfold in_place, run_kernel. revert sv.
  induction schedule as [|a l IH]; intros sv Hnd Hpos Hi; [by inv Hi|].
  apply NoDup_cons in Hnd as [Ha Hnd]. simpl.
  assert (Hpos' : forall b, b ∈ l -> 0 <= b) by (intros; apply Hpos; by right).
  apply elem_of_cons in Hi as [->|Hi].
  - change (foldl _ ?o l) with (in_place g l o).
    rewrite in_place_lookup_other.
    + destruct (sv !! Z.to_nat a) as [x|] eqn:Hx.
      * rewrite list_lookup_insert_eq by (by eapply lookup_lt_Some).
        simpl. by rewrite (list_lookup_total_correct _ _ _ Hx).
      * rewrite list_insert_ge by (by apply lookup_ge_None). by rewrite Hx.
    + intros b Hb Hba. apply Z2Nat.inj in Hba; [by subst|auto|apply Hpos; by left].
  - rewrite IH by done.
    rewrite list_lookup_insert_ne; [done|].
    intros Hai. apply Z2Nat.inj in Hai; [by subst|apply Hpos; by left|auto].
Qed.

Lemma in_place_seqZ g n (sv : list A) :
  length sv = Z.to_nat n ->
  in_place g (seqZ 0 n) sv = imap (λ i a, g (Z.of_nat i) a) sv.
Proof.
  intros Hlen. apply list_eq. intros j. rewrite list_lookup_imap.
  destruct (decide (j < length sv)%nat) as [Hj|Hj].
  - replace j with (Z.to_nat (Z.of_nat j)) by lia.
    rewrite in_place_lookup; [by rewrite Nat2Z.id|apply NoDup_seqZ| |].
    + by intros a [??]%elem_of_seqZ.
    + apply elem_of_seqZ. lia.
  - rewrite !lookup_ge_None_2; [done|lia|]. rewrite in_place_length. lia.
Qed.
End InPlace.

(** * The CPU engine *)

Section CPU_proofs.
Context {R1 : Real1} {LM : Libm R1}.
Import QEngineCPU.

Lemma par_for_in_place (g : Z -> complex -> complex) n (sv : list complex) :
  par_for 0 n (λ lcv sv, <[ Z.to_nat lcv := g lcv (sv !!! Z.to_nat lcv) ]> sv) sv =
  in_place g (seqZ 0 n) sv.
Proof. unfold par_for, in_place, run_kernel. by rewrite Z.sub_0_r. Qed.

Lemma NormalizeState_stateVec (e : QEngineCPU.t) :
  List.length (stateVec e) = Z.to_nat (maxQPower e) ->
  stateVec (NormalizeState e) = normalized_amplitude (runningNorm e) <$> stateVec e.
Proof.
  intros Hlen. unfold NormalizeState. cbn.
  rewrite (par_for_in_place (λ _, normalized_amplitude (runningNorm e))).
  rewrite in_place_seqZ by done.
  apply list_eq. intros j. by rewrite list_lookup_imap, list_lookup_fmap.
Qed.

(** The test [(lcv & qPower) == qPower] of [Prob] reads bit [qubit]. *)
Lemma Prob_test lcv qubit :
  0 <= qubit < bitsInCap ->
  (Z.land lcv (cap_shl 1 qubit) =? cap_shl 1 qubit) = Z.testbit lcv qubit.
Proof.
  intros Hq. change (cap_shl 1 qubit) with (pow2 qubit). rewrite pow2_small by done.
  assert (0 < 2 ^ qubit) by (apply Z.pow_pos_nonneg; lia).
  assert (Z.land lcv (2 ^ qubit) = if Z.testbit lcv qubit then 2 ^ qubit else 0) as ->.
  { apply Z.bits_inj'. intros k Hk. rewrite Z.land_spec, Z.pow2_bits_eqb by lia.
    destruct (Z.eqb_spec qubit k) as [->|Hne].
    - destruct (Z.testbit lcv k); [by rewrite Z.pow2_bits_true|by rewrite Z.bits_0].
    - rewrite andb_false_r. destruct (Z.testbit lcv qubit); [|by rewrite Z.bits_0].
      rewrite Z.pow2_bits_false by lia. done. }
  destruct (Z.testbit lcv qubit); [apply Z.eqb_refl|]. apply Z.eqb_neq. lia.
Qed.

(** The loop of [Prob] adds up, in the order of the indices, the squared
    magnitudes at the indices with bit [qubit] set. *)
Lemma one_chance_sum qubit maxQPower (stateVec : list complex) :
  0 <= qubit < bitsInCap ->
  one_chance (cap_shl 1 qubit) maxQPower stateVec =
  foldl (λ sum lcv, (sum + norm (stateVec !!! Z.to_nat lcv))%r1) ZERO_R1
        (List.filter (λ lcv, Z.testbit lcv qubit) (seqZ 0 maxQPower)).
Proof.
  intros Hq. unfold one_chance. generalize ZERO_R1. generalize (seqZ 0 maxQPower).
  intros l. induction l as [|lcv l IH]; intros acc; [done|].
  cbn [foldl List.filter]. rewrite Prob_test by done.
  destruct (Z.testbit lcv qubit); cbn [foldl]; apply IH.
Qed.

(** C9. [Prob] and [ProbAll] are not pure reads. When the running norm
    differs from 1 they leave the engine renormalised, the same engine both:
    its running norm is 1, and every amplitude [amp] of the state is replaced
    by the quotient [amp / runningNorm], or by zero when the squared
    magnitude of the quotient is below [min_norm]. The values they return
    are read from that state: [Prob] the sum of the squared magnitudes at
    the indices with bit [qubit] set, [ProbAll] the squared magnitude at
    [fullRegister]. When the running norm is 1 the engine is left as it
    was. The qubit is one for which the shift [1 << qubit] of an [int] is
    defined, and [fullRegister] an index of the state vector. *)
Theorem Prob_ProbAll_normalize_first (e : QEngineCPU.t) (qubit fullRegister : Z) :
  List.length (stateVec e) = Z.to_nat (maxQPower e) ->
  0 <= qubit < bitsInInt - 1 -> 0 <= fullRegister < maxQPower e ->
  let after := (Prob qubit e).2 in
  (r_eqb (runningNorm e) ONE_R1 = false ->
     runningNorm after = ONE_R1 /\
     qubitCount after = qubitCount e /\ maxQPower after = maxQPower e /\
     List.length (stateVec after) = List.length (stateVec e) /\
     (forall i amp, stateVec e !! i = Some amp ->
        let quotient :=
          Complex (real amp / runningNorm e)%r1 (imag amp / runningNorm e)%r1 in
        stateVec after !! i =
        Some (if r_ltb (real quotient * real quotient + imag quotient * imag quotient)%r1
                       min_norm
              then Complex ZERO_R1 ZERO_R1 else quotient))) /\
  (r_eqb (runningNorm e) ONE_R1 = true -> after = e) /\
  (ProbAll fullRegister e).2 = after /\
  (Prob qubit e).1 =
    foldl (λ sum lcv, (sum + norm (stateVec after !!! Z.to_nat lcv))%r1) ZERO_R1
          (List.filter (λ lcv, Z.testbit lcv qubit) (seqZ 0 (maxQPower e))) /\
  (ProbAll fullRegister e).1 = norm (stateVec after !!! Z.to_nat fullRegister).
Proof.
  intros Hlen Hq' _ after.
  assert (Hq : 0 <= qubit < bitsInCap).
  { change bitsInInt with 32 in Hq'. change bitsInCap with 64. lia. }
  assert (Hafter : after = normalize_if_needed e) by done.
  assert (Hmax : maxQPower after = maxQPower e).
  { rewrite Hafter. unfold normalize_if_needed. by destruct (negb _). }
  split_and!.
  - intros Hrn. rewrite Hafter. unfold normalize_if_needed. rewrite Hrn. cbn [negb].
    split_and!; [done|done|done|..].
    + rewrite NormalizeState_stateVec by done. by rewrite length_fmap.
    + intros i amp Hi. rewrite NormalizeState_stateVec by done.
      rewrite list_lookup_fmap, Hi. done.
  - intros Hrn. rewrite Hafter. unfold normalize_if_needed. by rewrite Hrn.
  - done.
  - change ((Prob qubit e).1)
      with (one_chance (cap_shl 1 qubit) (maxQPower after) (stateVec after)).
    rewrite one_chance_sum by done. by rewrite Hmax.
  - done.
Qed.

Lemma par_for_scatter {A} (src : Z -> A) n (out : list A) :
  par_for 0 n (λ lcv out, <[ Z.to_nat lcv := src lcv ]> out) out = scatter (λ i, i) src (seqZ 0 n) out.
Proof. unfold par_for, scatter, run_kernel. by rewrite Z.sub_0_r. Qed.

Lemma scatter_id_lookup {A} (src : Z -> A) schedule (out : list A) i :
  NoDup schedule -> (forall a, a ∈ schedule -> 0 <= a) -> i ∈ schedule ->
  (Z.to_nat i < List.length out)%nat ->
  scatter (λ i, i) src schedule out !! Z.to_nat i = Some (src i).
Proof.
  intros Hnd Hpos Hi Hlen.
  apply (scatter_lookup (λ i, i) src); [done|done| |done].
  intros a Ha Hai. apply Z2Nat.inj in Hai; auto.
Qed.

Lemma normalize_if_needed_fields (e : QEngineCPU.t) :
  well_formed e ->
  qubitCount (normalize_if_needed e) = qubitCount e /\
  maxQPower (normalize_if_needed e) = maxQPower e /\
  List.length (stateVec (normalize_if_needed e)) = List.length (stateVec e).
Proof.
  intros (Hq & Hm & Hlen). unfold normalize_if_needed.
  destruct (negb _); [|done]. split_and!; [done|done|].
  unfold NormalizeState. cbn.
  unfold par_for, run_kernel.
  generalize (seqZ 0 (maxQPower e - 0)). intros l.
  generalize (stateVec e). induction l as [|x l IH]; intros sv; [done|].
  simpl. by rewrite IH, length_insert.
Qed.

(** The masks [Cohere] builds. *)
Lemma Cohere_masks na nb :
  0 <= na -> 0 <= nb -> na + nb < bitsInCap ->
  cap_add na nb = na + nb /\
  cap_shl 1 (na + nb) = 2 ^ (na + nb) /\
  cap_sub (cap_shl 1 na) 1 = Z.ones na /\
  cap_shl (cap_sub (cap_shl 1 nb) 1) na = Z.shiftl (Z.ones nb) na.
Proof.
  intros Ha Hb Hab.
  assert (H64 : bitsInCap < 2 ^ bitsInCap) by (by apply Z.pow_gt_lin_r).
  assert (Hc : forall n, 0 <= n < bitsInCap -> cap_sub (cap_shl 1 n) 1 = Z.ones n).
  { intros n Hn. change (cap_shl 1 n) with (pow2 n). rewrite (pow2_small n Hn), ones_eq. apply wrapCap_small.
    pose proof (pow2_mono n bitsInCap). lia. }
  split_and!.
  - apply wrapCap_small. lia.
  - apply pow2_small. lia.
  - apply Hc. lia.
  - rewrite Hc by lia. apply wrapCap_small.
    rewrite Z.shiftl_mul_pow2, ones_eq by lia.
    pose proof (pow2_mono nb nb ltac:(lia)). pose proof (pow2_mono na na ltac:(lia)).
    split; [nia|].
    apply Z.lt_le_trans with (2 ^ (na + nb)); [|apply pow2_mono; lia].
    rewrite Z.pow_add_r by lia. nia.
Qed.

(** Low and high part of a combined index. *)
Lemma index_split na nb i :
  0 <= na -> 0 <= nb -> 0 <= i < 2 ^ (na + nb) ->
  Z.land i (Z.ones na) = i mod 2 ^ na /\
  Z.shiftr (Z.land i (Z.shiftl (Z.ones nb) na)) na = i / 2 ^ na /\
  0 <= i mod 2 ^ na < 2 ^ na /\ 0 <= i / 2 ^ na < 2 ^ nb.
Proof.
  intros Ha Hb Hi.
  assert (0 < 2 ^ na) by (apply Z.pow_pos_nonneg; lia).
  assert (Hdiv : 0 <= i / 2 ^ na < 2 ^ nb).
  { split; [apply Z.div_pos; lia|]. apply Z.div_lt_upper_bound; [lia|].
    rewrite <- Z.pow_add_r by lia. lia. }
  split_and!; [by apply Z.land_ones| |by apply Z.mod_pos_bound|by apply Z.mod_pos_bound|lia|lia].
  change (Z.shiftl (Z.ones nb) na) with (regMask_of na nb).
  rewrite reg_field, Z.land_ones, Z.shiftr_div_pow2 by done.
  apply Z.mod_small. done.
Qed.

(** X6. The kernel [compose] writes, at every index below [nMaxQPower],
    the product the formula names, from the two state vectors as they are. *)
Lemma compose_amplitudes Nthreads (stateVec1 stateVec2 nStateVec : list complex)
    nMaxQPower qubitCount startMask endMask i :
  0 < Nthreads -> 0 <= i < nMaxQPower -> (Z.to_nat i < List.length nStateVec)%nat ->
  Kernel.compose Nthreads stateVec1 stateVec2 [nMaxQPower; qubitCount; startMask; endMask]
    nStateVec !! Z.to_nat i =
  Some (zmul (stateVec1 !!! Z.to_nat (Z.land i startMask))
             (stateVec2 !!! Z.to_nat (Z.shiftr (Z.land i endMask) qubitCount))).
Proof.
  intros HN Hi Hlen. unfold Kernel.compose. cbn [lookup_total list_lookup_total].
  pose (src := λ lcv, zmul (stateVec1 !!! Z.to_nat (Z.land lcv startMask))
                        (stateVec2 !!! Z.to_nat (Z.shiftr (Z.land lcv endMask) qubitCount))).
  change (run_kernel _ ?sch ?out) with (scatter (λ i, i) src sch out).
  apply (scatter_id_lookup src); [by apply NoDup_NDRange| | |done].
  - intros a Ha%elem_of_NDRange; lia.
  - apply elem_of_NDRange; lia.
Qed.

(** C5 (amended). [Cohere] first normalises each of the two engines whose
    running norm is not 1, the operand [toCopy] in place too. The combined
    engine has [n_a + n_b] qubits and its amplitude array is, at every index
    [i] below [2 ^ (n_a + n_b)], the product
    [a'[i & startMask] * b'[(i & endMask) >> n_a]] of the amplitudes of the
    engines so normalised, where [startMask] selects the low [n_a] bits and
    [endMask] the next [n_b]; both reads are in range. *)
Theorem Cohere_amplitudes (mem : list complex) (a b : QEngineCPU.t) :
  well_formed a -> well_formed b -> qubitCount a + qubitCount b < bitsInInt - 1 ->
  let a' := normalize_if_needed a in
  let b' := normalize_if_needed b in
  let na := qubitCount a in
  let nb := qubitCount b in
  let startMask := Z.ones na in
  let endMask := Z.shiftl (Z.ones nb) na in
  let new := (Cohere mem a b).1.2 in
  (Cohere mem a b).1.1 = na /\
  (Cohere mem a b).2 = b' /\
  qubitCount new = na + nb /\
  List.length (stateVec new) = Z.to_nat (2 ^ (na + nb)) /\
  forall i, 0 <= i < 2 ^ (na + nb) ->
    stateVec new !! Z.to_nat i =
      Some (zmul (stateVec a' !!! Z.to_nat (Z.land i startMask))
                 (stateVec b' !!! Z.to_nat (Z.shiftr (Z.land i endMask) na))) /\
    (Z.to_nat (Z.land i startMask) < List.length (stateVec a'))%nat /\
    (Z.to_nat (Z.shiftr (Z.land i endMask) na) < List.length (stateVec b'))%nat.
Proof.
  intros Ha Hb Hab a' b' na nb startMask endMask new.
  pose proof int_shift_below_cap as Hic.
  destruct (normalize_if_needed_fields a Ha) as (Hqa & Hma & Hla).
  destruct (normalize_if_needed_fields b Hb) as (Hqb & Hmb & Hlb).
  fold a' in Hqa, Hma, Hla. fold b' in Hqb, Hmb, Hlb.
  destruct Ha as (Hna & Hpa & Hlena), Hb as (Hnb & Hpb & Hlenb).
  fold na in Hna, Hqa, Hpa. fold nb in Hnb, Hqb, Hpb.
  destruct (Cohere_masks na nb) as (M1 & M2 & M3 & M4); [lia..|].
  pose (src := λ lcv, zmul (stateVec a' !!! Z.to_nat (Z.land lcv startMask))
                          (stateVec b' !!! Z.to_nat (Z.shiftr (Z.land lcv endMask) na))).
  assert (Hnew : stateVec new =
    scatter (λ i, i) src (seqZ 0 (2 ^ (na + nb))) (AllocStateVec mem (2 ^ (na + nb)))).
  { subst new. unfold Cohere. cbn. fold a' b'. rewrite Hqa, Hqb. fold na nb.
    rewrite M1, M2, M3, M4. apply par_for_scatter. }
  split_and!; [done|done|..].
  - subst new. unfold Cohere. cbn. fold a' b'. rewrite Hqa, Hqb. by fold na nb.
  - rewrite Hnew, scatter_length. unfold AllocStateVec. by rewrite length_resize.
  - intros i Hi. destruct (index_split na nb i) as (I1 & I2 & I3 & I4); [lia..|].
    split_and!.
    + rewrite Hnew. apply (scatter_id_lookup src).
      * apply NoDup_seqZ.
      * by intros x [??]%elem_of_seqZ.
      * apply elem_of_seqZ. lia.
      * unfold AllocStateVec. rewrite length_resize. lia.
    + subst startMask. rewrite I1, Hla, Hlena, Hpa. lia.
    + subst endMask. rewrite I2, Hlb, Hlenb, Hpb. lia.
Qed.

End CPU_proofs.

(** ** The parity rotation *)

Lemma Pos_popcount_pos p : 0 < Pos_popcount p.
Proof. induction p; simpl; lia. Qed.

Lemma popcount_nonneg z : 0 <= popcount z.
Proof. destruct z; simpl; try lia. pose proof (Pos_popcount_pos p). lia. Qed.

Lemma popcount_pos z : 0 < z -> 0 < popcount z.
Proof. destruct z; try lia. intros _. apply Pos_popcount_pos. Qed.

Lemma popcount_double a : 0 <= a -> popcount (2 * a) = popcount a.
Proof. destruct a; try lia; done. Qed.

Lemma popcount_succ_double a : 0 <= a -> popcount (2 * a + 1) = 1 + popcount a.
Proof. destruct a; try lia; done. Qed.

Lemma popcount_bound n z : 0 <= n -> 0 <= z < 2 ^ n -> popcount z <= n.
Proof.
  intros Hn. revert z. pattern n. apply natlike_ind; [| |done].
  - intros z Hz. assert (z = 0) as -> by lia. done.
  - clear n Hn. intros n Hn IH z Hz. rewrite Z.pow_succ_r in Hz by done.
    rewrite (Z.div_mod z 2) by lia.
    pose proof (Z.mod_pos_bound z 2).
    assert (0 <= z `div` 2 < 2 ^ n) as Hd by (split; [apply Z.div_pos; lia|apply Z.div_lt_upper_bound; lia]).
    specialize (IH _ Hd).
    assert (z `mod` 2 = 0 \/ z `mod` 2 = 1) as [->| ->] by lia.
    + rewrite Z.add_0_r, popcount_double by lia. lia.
    + rewrite popcount_succ_double by lia. lia.
Qed.

(** [perm & (perm - 1)] clears the lowest bit set. *)
Lemma popcount_clear_lowest z :
  0 < z -> popcount (Z.land z (z - 1)) = popcount z - 1.
Proof.
  intros Hz. assert (0 <= z) as Hz0 by lia. revert Hz.
  pattern z. apply Zlt_0_ind; [|done]. clear z Hz0.
  intros z IH _ Hz.
  pose proof (Z.div_mod z 2 ltac:(lia)) as Hdm.
  pose proof (Z.mod_pos_bound z 2 ltac:(lia)) as Hmod.
  set (a := z `div` 2) in *.
  assert (0 <= a) as Ha by (apply Z.div_pos; lia).
  assert (z `mod` 2 = 0 \/ z `mod` 2 = 1) as [Hb|Hb] by lia; rewrite Hb in Hdm.
  - assert (0 < a) as Ha' by lia.
    assert (Z.land z (z - 1) = 2 * Z.land a (a - 1)) as ->.
    { rewrite Hdm, Z.add_0_r.
      replace (2 * a - 1) with (2 * (a - 1) + 1) by lia.
      apply Z.bits_inj'. intros j Hj.
      destruct (decide (j = 0)) as [->|Hj0].
      - rewrite Z.land_spec, !Z.testbit_even_0. done.
      - replace j with (Z.succ (j - 1)) by lia.
        rewrite Z.land_spec, !Z.testbit_even_succ, Z.testbit_odd_succ, Z.land_spec by lia.
        done. }
    rewrite popcount_double by (apply Z.land_nonneg; lia).
    rewrite IH by lia.
    rewrite Hdm, Z.add_0_r, popcount_double by lia. done.
  - assert (Z.land z (z - 1) = 2 * a) as ->.
    { rewrite Hdm. replace (2 * a + 1 - 1) with (2 * a) by lia.
      apply Z.bits_inj'. intros j Hj.
      destruct (decide (j = 0)) as [->|Hj0].
      - rewrite Z.land_spec, Z.testbit_even_0, Z.testbit_odd_0. done.
      - replace j with (Z.succ (j - 1)) by lia.
        rewrite Z.land_spec, Z.testbit_even_succ, Z.testbit_odd_succ by lia.
        apply andb_diag. }
    rewrite Hdm, popcount_double, popcount_succ_double by lia. lia.
Qed.

Lemma land_le_l a b : 0 <= a -> 0 <= b -> Z.land a b <= a.
Proof.
  intros Ha Hb. rewrite <- (Z2N.id a), <- (Z2N.id b) by done.
  rewrite <- N2Z.inj_land. apply N2Z.inj_le, N.land_le_l.
Qed.

Lemma land_pred_range z : 0 < z -> 0 <= Z.land z (z - 1) < z.
Proof.
  intros Hz. split; [apply Z.land_nonneg; lia|].
  assert (Z.land z (z - 1) <= z - 1); [|lia].
  rewrite Z.land_comm. apply land_le_l; lia.
Qed.

Lemma count_bits_popcount passes perm c :
  0 <= perm < 2 ^ bitsInCap -> popcount perm <= Z.of_nat passes ->
  0 <= c -> c + popcount perm < 2 ^ bitsInByte ->
  Kernel.count_bits passes perm c = c + popcount perm.
Proof.
  revert perm c. induction passes as [|passes IH]; intros perm c Hp Hfuel Hc Hw.
  - simpl. destruct (decide (perm = 0)) as [->|Hne]; [simpl; lia|].
    pose proof (popcount_pos perm). lia.
  - simpl. destruct (Z.eqb_spec perm 0) as [->|Hne]; [simpl; lia|].
    assert (0 < perm) as Hpos by lia.
    pose proof (popcount_clear_lowest perm Hpos) as Hcl.
    pose proof (land_pred_range perm Hpos) as Hr.
    pose proof (popcount_pos perm Hpos) as Hpp.
    assert (cap_sub perm ONE_BCI = perm - 1) as ->.
    { unfold cap_sub, ONE_BCI. apply wrapCap_small. lia. }
    assert (wrapLen (c + 1) = c + 1) as ->.
    { unfold wrapLen. apply Z.mod_small. lia. }
    rewrite IH; lia.
Qed.

Section Parity.
Context {R1 : Real1}.

Lemma parity_phase_popcount qMask phaseFac phaseFacAdj i :
  0 <= i < 2 ^ bitsInCap -> 0 <= qMask ->
  Kernel.parity_phase qMask phaseFac phaseFacAdj i =
  if Z.odd (popcount (Z.land i qMask)) then phaseFac else phaseFacAdj.
Proof.
  intros Hi Hq. unfold Kernel.parity_phase.
  assert (0 <= Z.land i qMask < 2 ^ bitsInCap) as Hr.
  { split; [apply Z.land_nonneg; lia|].
    assert (Z.land i qMask <= i); [apply land_le_l; lia|lia]. }
  pose proof (popcount_bound bitsInCap _ ltac:(done) Hr) as Hb.
  pose proof (popcount_nonneg (Z.land i qMask)).
  rewrite count_bits_popcount; [|done|unfold bitsInCap in *; simpl in *; lia|done|].
  2: { unfold bitsInCap, sizeof_bitCapInt, bitsInByte in *. simpl in *. lia. }
  rewrite Z.add_0_l.
  change 1 with (Z.ones 1). rewrite Z.land_ones by lia. change (2 ^ 1) with 2.
  rewrite Zmod_odd. by destruct (Z.odd _).
Qed.

Lemma uniformparityrz_spec Nthreads (stateVec : list complex) maxI qMask phaseFac phaseFacAdj :
  0 < Nthreads -> 0 <= maxI <= 2 ^ bitsInCap -> 0 <= qMask ->
  let nStateVec :=
    Kernel.uniformparityrz Nthreads stateVec [maxI; qMask] [phaseFac; phaseFacAdj] in
  length nStateVec = length stateVec /\
  forall i : nat,
    nStateVec !! i =
    (λ amp, if Z.of_nat i <? maxI
            then zmul amp (if Z.odd (popcount (Z.land (Z.of_nat i) qMask))
                           then phaseFac else phaseFacAdj)
            else amp) <$> stateVec !! i.
Proof.
  intros HN Hmax Hq. cbv zeta. unfold Kernel.uniformparityrz.
  cbn [lookup_total list_lookup_total].
  change (run_kernel _ ?sch ?sv) with
    (in_place (λ lcv amp, zmul amp (Kernel.parity_phase qMask phaseFac phaseFacAdj lcv)) sch sv).
  split; [apply in_place_length|]. intros i.
  destruct (Z.ltb_spec (Z.of_nat i) maxI) as [Hi|Hi].
  - pose proof (in_place_lookup
                  (λ lcv amp, zmul amp (Kernel.parity_phase qMask phaseFac phaseFacAdj lcv))
                  (NDRange Nthreads maxI) stateVec (Z.of_nat i)) as Hl.
    rewrite Nat2Z.id in Hl. rewrite Hl.
    + rewrite parity_phase_popcount by lia. done.
    + by apply NoDup_NDRange.
    + intros a Ha%elem_of_NDRange; lia.
    + apply elem_of_NDRange; lia.
  - rewrite in_place_lookup_other.
    + by destruct (stateVec !! i).
    + intros a Ha%elem_of_NDRange; lia.
Qed.

(** X3. Without controls the controlled kernel is the plain one. *)
Lemma cuniformparityrz_no_controls Nthreads (stateVec : list complex) maxI qMask cmplx_ptr
    qPowers :
  Kernel.cuniformparityrz Nthreads stateVec [maxI; qMask; 0; 0] cmplx_ptr qPowers =
  Kernel.uniformparityrz Nthreads stateVec [maxI; qMask] cmplx_ptr.
Proof.
  unfold Kernel.cuniformparityrz, Kernel.uniformparityrz, run_kernel.
  cbn [lookup_total list_lookup_total].
  generalize (NDRange Nthreads maxI). intros schedule. revert stateVec.
  induction schedule as [|lcv schedule IH]; intros stateVec; [done|].
  cbn [foldl]. rewrite <- IH. f_equal.
  change (Z.to_nat 0) with 0%nat. rewrite take_0. cbn [Kernel.push_apart].
  by rewrite Z.lor_0_l, Z.lor_0_r.
Qed.

Lemma uniformparityrznorm_spec Nthreads (stateVec : list complex) maxI qMask
    phaseFac phaseFacAdj nrm :
  0 < Nthreads -> 0 <= maxI <= 2 ^ bitsInCap -> 0 <= qMask ->
  let nStateVec :=
    Kernel.uniformparityrznorm Nthreads stateVec [maxI; qMask] [phaseFac; phaseFacAdj; nrm] in
  length nStateVec = length stateVec /\
  forall i : nat,
    nStateVec !! i =
    (λ amp, if Z.of_nat i <? maxI
            then zmul nrm (zmul amp (if Z.odd (popcount (Z.land (Z.of_nat i) qMask))
                                     then phaseFac else phaseFacAdj))
            else amp) <$> stateVec !! i.
Proof.
  intros HN Hmax Hq. cbv zeta. unfold Kernel.uniformparityrznorm.
  cbn [lookup_total list_lookup_total].
  change (run_kernel _ ?sch ?sv) with
    (in_place (λ lcv amp,
                 zmul nrm (zmul amp (Kernel.parity_phase qMask phaseFac phaseFacAdj lcv)))
              sch sv).
  split; [apply in_place_length|]. intros i.
  destruct (Z.ltb_spec (Z.of_nat i) maxI) as [Hi|Hi].
  - pose proof (in_place_lookup
                  (λ lcv amp,
                     zmul nrm (zmul amp (Kernel.parity_phase qMask phaseFac phaseFacAdj lcv)))
                  (NDRange Nthreads maxI) stateVec (Z.of_nat i)) as Hl.
    rewrite Nat2Z.id in Hl. rewrite Hl.
    + rewrite parity_phase_popcount by lia. done.
    + by apply NoDup_NDRange.
    + intros a Ha%elem_of_NDRange; lia.
    + apply elem_of_NDRange; lia.
  - rewrite in_place_lookup_other.
    + by destruct (stateVec !! i).
    + intros a Ha%elem_of_NDRange; lia.
Qed.

(** X31. The kernels [uniformparityrz] and [uniformparityrznorm], for every
    number of work items and every pair of factors: the amplitude at an
    index below [maxI] is multiplied by [cmplx_ptr[0]] when the index has an
    odd number of bits set under [qMask] and by [cmplx_ptr[1]] when it has
    an even number; the second kernel multiplies the product by
    [cmplx_ptr[2]] as well. The cells from [maxI] on and the length of the
    vector are left as they were, and the result does not depend on the
    number of work items. *)
Theorem uniformparityrz_kernels_by_parity Nthreads (stateVec : list complex) maxI qMask
    phaseFac phaseFacAdj nrm :
  0 < Nthreads -> 0 <= maxI <= 2 ^ bitsInCap -> 0 <= qMask ->
  let factor (i : nat) :=
    if Z.odd (popcount (Z.land (Z.of_nat i) qMask)) then phaseFac else phaseFacAdj in
  Kernel.uniformparityrz Nthreads stateVec [maxI; qMask] [phaseFac; phaseFacAdj] =
    imap (λ i amp, if Z.of_nat i <? maxI then zmul amp (factor i) else amp) stateVec /\
  Kernel.uniformparityrznorm Nthreads stateVec [maxI; qMask] [phaseFac; phaseFacAdj; nrm] =
    imap (λ i amp, if Z.of_nat i <? maxI then zmul nrm (zmul amp (factor i)) else amp)
         stateVec.
Proof.
  intros HN Hmax Hq factor.
  destruct (uniformparityrz_spec Nthreads stateVec maxI qMask phaseFac phaseFacAdj HN Hmax Hq)
    as [_ H1].
  destruct (uniformparityrznorm_spec Nthreads stateVec maxI qMask phaseFac phaseFacAdj nrm
              HN Hmax Hq) as [_ H2].
  split; apply list_eq; intros i; rewrite list_lookup_imap.
  - rewrite H1. by destruct (stateVec !! i).
  - rewrite H2. by destruct (stateVec !! i).
Qed.

End Parity.

(** * Loops that rewrite the two cells of a pair *)

Section PairLoop_proofs.
Context {A : Type} `{Inhabited A}.

Lemma pair_step_length G F lo hi (l : list A) : length (pair_step G F lo hi l) = length l.
Proof. unfold pair_step. by rewrite !length_insert. Qed.

Lemma pair_loop_length G F lo hi schedule (l : list A) :
  length (pair_loop G F lo hi schedule l) = length l.
Proof.
  unfold pair_loop. revert l. induction schedule as [|a s IH]; intros l; simpl; [done|].
  by rewrite IH, pair_step_length.
Qed.

Lemma pair_loop_lookup_other G F lo hi schedule (l : list A) (j : nat) :
  (forall a, a ∈ schedule -> lo a <> j /\ hi a <> j) ->
  pair_loop G F lo hi schedule l !! j = l !! j.
Proof.
  unfold pair_loop. revert l. induction schedule as [|a s IH]; intros l Hj; simpl; [done|].
  rewrite IH by (intros; apply Hj; by right).
  destruct (Hj a ltac:(by left)) as [Hlo Hhi].
  unfold pair_step. by rewrite !list_lookup_insert_ne.
Qed.

Lemma pair_loop_lookup G F lo hi schedule (l : list A) a :
  NoDup schedule -> pairs_apart lo hi schedule -> a ∈ schedule ->
  (lo a < length l)%nat -> (hi a < length l)%nat ->
  pair_loop G F lo hi schedule l !! lo a = Some (G (l !!! lo a) (l !!! hi a)) /\
  pair_loop G F lo hi schedule l !! hi a = Some (F (l !!! lo a) (l !!! hi a)).
Proof.
  unfold pair_loop. revert l.
  induction schedule as [|b s IH]; intros l Hnd [Hself Hapart] Ha Hlo Hhi; [by inv Ha|].
  apply NoDup_cons in Hnd as [Hb Hnd]. simpl.
  assert (Hap' : pairs_apart lo hi s).
  { split; [intros; apply Hself; by right|intros; apply Hapart; by try right]. }
  apply elem_of_cons in Ha as [->|Ha].
  - change (foldl _ ?o s) with (pair_loop G F lo hi s o).
    rewrite !pair_loop_lookup_other.
    + unfold pair_step. pose proof (Hself b ltac:(by left)) as Hne.
      rewrite list_lookup_insert_ne by done.
      rewrite !list_lookup_insert_eq by (by rewrite ?length_insert). done.
    + intros c Hc. destruct (Hapart c b) as (? & ? & ?); [by right|by left|by intros ->|].
      destruct (Hapart b c) as (? & ? & ?); [by left|by right|by intros ->|]. done.
    + intros c Hc. destruct (Hapart c b) as (? & ? & ?); [by right|by left|by intros ->|].
      destruct (Hapart b c) as (? & ? & ?); [by left|by right|by intros ->|]. done.
  - assert (a <> b) as Hab by (by intros ->).
    destruct (Hapart a b) as (H1 & H2 & H3); [by right|by left|done|].
    destruct (Hapart b a) as (H4 & H5 & H6); [by left|by right|done|].
    destruct (IH (pair_step G F (lo b) (hi b) l) Hnd Hap' Ha) as [IHlo IHhi].
    { by rewrite pair_step_length. }
    { by rewrite pair_step_length. }
    rewrite IHlo, IHhi. unfold pair_step.
    rewrite !list_lookup_total_insert_ne by done. done.
Qed.
End PairLoop_proofs.

(** * A zero bit put in at position [m] *)

Lemma wrapCap_testbit z j :
  0 <= j -> Z.testbit (wrapCap z) j = (j <? bitsInCap) && Z.testbit z j.
Proof.
  intros Hj. unfold wrapCap. rewrite <- Z.land_ones by done.
  rewrite Z.land_spec, Z.testbit_ones_nonneg by done. apply andb_comm.
Qed.

Lemma PUSH_APART_1_testbit m lcv j :
  0 <= m -> 0 <= lcv < 2 ^ (bitsInCap - 1) -> 0 <= j ->
  Z.testbit (Kernel.PUSH_APART_1 (Z.ones m) lcv) j =
  if j <? m then Z.testbit lcv j
  else if j =? m then false else Z.testbit lcv (j - 1).
Proof.
  intros Hm Hlcv Hj. unfold Kernel.PUSH_APART_1, cap_shl, ONE_BCI.
  pose proof (fun k => testbit_above lcv (bitsInCap - 1) k Hlcv) as Hhigh.
  rewrite Z.lor_spec, Z.land_spec, wrapCap_testbit, Z.shiftl_spec by done.
  rewrite Z.testbit_ones_nonneg by done.
  destruct (decide (j = 0)) as [->|Hj0].
  - rewrite (Z.testbit_neg_r (Z.lxor lcv (Z.land lcv (Z.ones m))) (0 - 1)) by lia.
    rewrite andb_false_r, orb_false_r.
    destruct (Z.ltb_spec 0 m), (Z.eqb_spec 0 m); try lia; by rewrite ?andb_true_r, ?andb_false_r.
  - rewrite Z.lxor_spec, Z.land_spec, Z.testbit_ones_nonneg by lia.
    destruct (Z.ltb_spec j m), (Z.ltb_spec (j - 1) m), (Z.eqb_spec j m),
      (Z.ltb_spec j bitsInCap); try lia;
      rewrite ?andb_true_r, ?andb_false_r, ?xorb_nilpotent, ?xorb_false_r, ?orb_false_r;
      simpl; try done.
    symmetry. apply Hhigh. lia.
Qed.

Lemma PUSH_APART_1_range m lcv n :
  0 <= m < n -> n <= bitsInCap -> 0 <= lcv < 2 ^ (n - 1) ->
  0 <= Kernel.PUSH_APART_1 (Z.ones m) lcv < 2 ^ n.
Proof.
  intros Hm Hn Hlcv.
  assert (0 <= lcv < 2 ^ (bitsInCap - 1)) as Hlcv'.
  { pose proof (pow2_mono (n - 1) (bitsInCap - 1)). lia. }
  assert (0 <= Kernel.PUSH_APART_1 (Z.ones m) lcv) as H0.
  { unfold Kernel.PUSH_APART_1. apply Z.lor_nonneg. split.
    - apply Z.land_nonneg. lia.
    - unfold cap_shl, wrapCap. apply Z.mod_pos_bound. done. }
  split; [done|].
  destruct (decide (Kernel.PUSH_APART_1 (Z.ones m) lcv = 0)) as [->|Hne].
  { apply Z.pow_pos_nonneg; lia. }
  apply Z.log2_lt_pow2; [lia|].
  assert (Z.log2 (Kernel.PUSH_APART_1 (Z.ones m) lcv) < n \/
          n <= Z.log2 (Kernel.PUSH_APART_1 (Z.ones m) lcv)) as [|Hge] by lia; [done|].
  exfalso.
  pose proof (Z.bit_log2 (Kernel.PUSH_APART_1 (Z.ones m) lcv) ltac:(lia)) as Hbit.
  rewrite PUSH_APART_1_testbit in Hbit by first [lia|apply Z.log2_nonneg].
  set (k := Z.log2 _) in *.
  destruct (Z.ltb_spec k m); [lia|]. destruct (Z.eqb_spec k m); [lia|].
  rewrite (testbit_above lcv (n - 1)) in Hbit by first [done|lia]. done.
Qed.

Lemma remove_bit_testbit m j k :
  0 <= m -> 0 <= k ->
  Z.testbit (remove_bit m j) k = if k <? m then Z.testbit j k else Z.testbit j (k + 1).
Proof.
  intros Hm Hk. unfold remove_bit.
  rewrite Z.lor_spec, Z.land_spec, Z.testbit_ones_nonneg, Z.shiftl_spec by done.
  destruct (Z.ltb_spec k m).
  - rewrite (Z.testbit_neg_r _ (k - m)) by lia. by rewrite andb_true_r, orb_false_r.
  - rewrite Z.shiftr_spec by lia. rewrite andb_false_r, orb_false_l. f_equal. lia.
Qed.

Lemma remove_bit_PUSH_APART_1 m lcv :
  0 <= m -> 0 <= lcv < 2 ^ (bitsInCap - 1) ->
  remove_bit m (Kernel.PUSH_APART_1 (Z.ones m) lcv) = lcv.
Proof.
  intros Hm Hlcv. apply Z.bits_inj'. intros k Hk.
  rewrite remove_bit_testbit by done.
  destruct (Z.ltb_spec k m).
  - rewrite PUSH_APART_1_testbit by done. by destruct (Z.ltb_spec k m); [|lia].
  - rewrite PUSH_APART_1_testbit by first [done|lia].
    destruct (Z.ltb_spec (k + 1) m); [lia|]. destruct (Z.eqb_spec (k + 1) m); [lia|].
    f_equal. lia.
Qed.

Lemma PUSH_APART_1_remove_bit m j :
  0 <= m < bitsInCap -> 0 <= j < 2 ^ bitsInCap -> Z.testbit j m = false ->
  Kernel.PUSH_APART_1 (Z.ones m) (remove_bit m j) = j.
Proof.
  intros [Hm Hm'] Hj Hbit.
  assert (0 <= remove_bit m j < 2 ^ (bitsInCap - 1)) as Hr.
  { assert (0 <= remove_bit m j) as H0.
    { unfold remove_bit. apply Z.lor_nonneg. split.
      - apply Z.land_nonneg. lia.
      - apply Z.shiftl_nonneg, Z.shiftr_nonneg. lia. }
    split; [done|].
    destruct (decide (remove_bit m j = 0)) as [->|Hne]; [done|].
    apply Z.log2_lt_pow2; [lia|].
    assert (Z.log2 (remove_bit m j) < bitsInCap - 1 \/
            bitsInCap - 1 <= Z.log2 (remove_bit m j)) as [|Hge] by lia; [done|].
    exfalso. pose proof (Z.bit_log2 (remove_bit m j) ltac:(lia)) as Hb.
    rewrite remove_bit_testbit in Hb by first [done|apply Z.log2_nonneg].
    set (k := Z.log2 _) in *.
    destruct (Z.ltb_spec k m); [lia|].
    rewrite (testbit_above j bitsInCap) in Hb by first [done|lia]. done. }
  apply Z.bits_inj'. intros k Hk.
  rewrite PUSH_APART_1_testbit by done.
  destruct (Z.ltb_spec k m).
  - rewrite remove_bit_testbit by done. by destruct (Z.ltb_spec k m); [|lia].
  - destruct (Z.eqb_spec k m) as [->|Hne]; [done|].
    rewrite remove_bit_testbit by first [done|lia].
    destruct (Z.ltb_spec (k - 1) m); [lia|]. f_equal. lia.
Qed.

Lemma add_pow2_setbit x m : 0 <= m -> Z.testbit x m = false -> x + 2 ^ m = Z.setbit x m.
Proof.
  intros Hm Hbit.
  assert (Z.land x (2 ^ m) = 0) as Hland.
  { apply Z.bits_inj'. intros k Hk.
    rewrite Z.land_spec, Z.pow2_bits_eqb, Z.bits_0 by done.
    destruct (Z.eqb_spec m k) as [->|]; [by rewrite Hbit|by rewrite andb_false_r]. }
  rewrite Z.add_nocarry_lxor, Z.lxor_lor by done.
  rewrite Z.setbit_spec'. by rewrite ?Z.shiftl_1_l.
Qed.

Lemma remove_bit_range m j n :
  0 <= m < n -> 0 <= j < 2 ^ n -> 0 <= remove_bit m j < 2 ^ (n - 1).
Proof.
  intros Hm Hj.
  assert (0 <= remove_bit m j) as H0.
  { unfold remove_bit. apply Z.lor_nonneg. split.
    - apply Z.land_nonneg. lia.
    - apply Z.shiftl_nonneg, Z.shiftr_nonneg. lia. }
  split; [done|].
  destruct (decide (remove_bit m j = 0)) as [->|Hne]; [apply Z.pow_pos_nonneg; lia|].
  apply Z.log2_lt_pow2; [lia|].
  assert (Z.log2 (remove_bit m j) < n - 1 \/ n - 1 <= Z.log2 (remove_bit m j))
    as [|Hge] by lia; [done|].
  exfalso. pose proof (Z.bit_log2 (remove_bit m j) ltac:(lia)) as Hb.
  rewrite remove_bit_testbit in Hb by first [lia|apply Z.log2_nonneg].
  set (k := Z.log2 _) in *.
  destruct (Z.ltb_spec k m); [lia|].
  rewrite (testbit_above j n) in Hb by first [done|lia]. done.
Qed.

Lemma setbit_range x m n : 0 <= m < n -> 0 <= x < 2 ^ n -> 0 <= Z.setbit x m < 2 ^ n.
Proof.
  intros Hm Hx.
  assert (0 <= Z.setbit x m) as H0.
  { rewrite Z.setbit_spec'. apply Z.lor_nonneg. split; [lia|]. apply Z.pow_nonneg. lia. }
  split; [done|].
  assert (Z.setbit x m <> 0) as Hne.
  { intros Heq. pose proof (Z.setbit_eq x m ltac:(lia)) as Hb. rewrite Heq, Z.bits_0 in Hb. done. }
  apply Z.log2_lt_pow2; [lia|].
  assert (Z.log2 (Z.setbit x m) < n \/ n <= Z.log2 (Z.setbit x m)) as [|Hge] by lia; [done|].
  exfalso. pose proof (Z.bit_log2 (Z.setbit x m) ltac:(lia)) as Hb.
  rewrite Z.setbit_neq in Hb by lia.
  rewrite (testbit_above x n) in Hb by first [done|lia]. done.
Qed.

Lemma clearbit_range x m n : 0 <= m -> 0 <= x < 2 ^ n -> 0 <= Z.clearbit x m < 2 ^ n.
Proof.
  intros Hm Hx.
  assert (0 <= Z.clearbit x m) as H0.
  { rewrite Z.clearbit_spec'. apply Z.ldiff_nonneg. left. lia. }
  split; [done|].
  destruct (decide (Z.clearbit x m = 0)) as [->|Hne]; [lia|].
  assert (0 <= n) by (destruct (Z.le_gt_cases 0 n); [done|]; rewrite Z.pow_neg_r in Hx; lia).
  apply Z.log2_lt_pow2; [lia|].
  assert (Z.log2 (Z.clearbit x m) < n \/ n <= Z.log2 (Z.clearbit x m)) as [|Hge] by lia; [done|].
  exfalso. pose proof (Z.bit_log2 (Z.clearbit x m) ltac:(lia)) as Hb.
  destruct (decide (Z.log2 (Z.clearbit x m) = m)) as [Heq|Hneq].
  - rewrite Heq, Z.clearbit_eq in Hb by lia. done.
  - rewrite Z.clearbit_neq in Hb by lia.
    rewrite (testbit_above x n) in Hb by first [done|lia]. done.
Qed.

(** * The index pairs that differ in bit [t] *)

Section BitPairs.
Context {A : Type} `{Inhabited A}.
Variables (t n : Z) (schedule : list Z).
Hypothesis Ht : 0 <= t < n.
Hypothesis Hn : n <= bitsInCap.
Hypothesis Hnd : NoDup schedule.
Hypothesis Hsched : forall a, a ∈ schedule <-> 0 <= a < 2 ^ (n - 1).

Lemma schedule_cap a : a ∈ schedule -> 0 <= a < 2 ^ (bitsInCap - 1).
Proof.
  intros Ha%Hsched. pose proof (pow2_mono (n - 1) (bitsInCap - 1)). lia.
Qed.

Lemma pair_lo_bit a : a ∈ schedule -> Z.testbit (Kernel.PUSH_APART_1 (Z.ones t) a) t = false.
Proof.
  intros Ha%schedule_cap. rewrite PUSH_APART_1_testbit by lia.
  destruct (Z.ltb_spec t t); [lia|]. by rewrite Z.eqb_refl.
Qed.

Lemma pair_lo_range a :
  a ∈ schedule -> 0 <= Kernel.PUSH_APART_1 (Z.ones t) a < 2 ^ n.
Proof. intros Ha%Hsched. by apply PUSH_APART_1_range. Qed.

Lemma pair_lo_inj a b : a ∈ schedule -> b ∈ schedule -> pair_lo t a = pair_lo t b -> a = b.
Proof.
  intros Ha Hb Hab. unfold pair_lo in Hab.
  apply Z2Nat.inj in Hab; [|by apply pair_lo_range..].
  rewrite <- (remove_bit_PUSH_APART_1 t a), <- (remove_bit_PUSH_APART_1 t b), Hab;
    first [done|lia|by apply schedule_cap].
Qed.

Lemma bit_pairs_apart : pairs_apart (pair_lo t) (pair_hi t) schedule.
Proof.
  assert (Hbit : forall a, a ∈ schedule ->
            Z.testbit (Z.of_nat (pair_lo t a)) t = false /\
            Z.testbit (Z.of_nat (pair_hi t a)) t = true).
  { intros a Ha. unfold pair_lo, pair_hi.
    pose proof (pair_lo_range a Ha) as Hr.
    pose proof (setbit_range _ t n Ht Hr) as Hr'.
    rewrite !Z2Nat.id by lia. split; [by apply pair_lo_bit|apply Z.setbit_eq; lia]. }
  assert (Hclear : forall a, a ∈ schedule ->
            Z.clearbit (Z.of_nat (pair_hi t a)) t = Z.of_nat (pair_lo t a)).
  { intros a Ha. unfold pair_lo, pair_hi.
    pose proof (pair_lo_range a Ha) as Hr.
    pose proof (setbit_range _ t n Ht Hr) as Hr'.
    rewrite !Z2Nat.id by lia. apply Z.bits_inj'. intros k Hk.
    destruct (decide (k = t)) as [->|Hne].
    - rewrite Z.clearbit_eq by lia. symmetry. by apply pair_lo_bit.
    - rewrite Z.clearbit_neq, Z.setbit_neq by lia. done. }
  split.
  - intros a Ha Heq. destruct (Hbit a Ha) as [H0 H1]. rewrite Heq in H0. congruence.
  - intros a b Ha Hb Hab. split_and!.
    + intros Heq. by apply Hab, pair_lo_inj.
    + intros Heq. destruct (Hbit a Ha) as [H0 _], (Hbit b Hb) as [_ H1].
      rewrite Heq in H0. congruence.
    + intros Heq. apply Hab, pair_lo_inj; [done|done|].
      apply Nat2Z.inj. rewrite <- !Hclear by done. by rewrite Heq.
Qed.

(** What the loop leaves at index [g]. *)
Lemma bit_pair_loop_lookup (G F : A -> A -> A) (l : list A) (g : Z) :
  length l = Z.to_nat (2 ^ n) -> 0 <= g < 2 ^ n ->
  pair_loop G F (pair_lo t) (pair_hi t) schedule l !! Z.to_nat g =
  Some (if Z.testbit g t
        then F (l !!! Z.to_nat (Z.clearbit g t)) (l !!! Z.to_nat g)
        else G (l !!! Z.to_nat g) (l !!! Z.to_nat (Z.setbit g t))).
Proof.
  intros Hlen Hg.
  assert (n - 1 < bitsInCap) as Hn1 by lia.
  set (g0 := Z.clearbit g t).
  assert (0 <= g0 < 2 ^ n) as Hg0 by (apply clearbit_range; lia).
  assert (Z.testbit g0 t = false) as Hb0 by (apply Z.clearbit_eq; lia).
  set (a := remove_bit t g0).
  assert (a ∈ schedule) as Ha by (apply Hsched, remove_bit_range; lia).
  assert (Kernel.PUSH_APART_1 (Z.ones t) a = g0) as Hlo.
  { apply PUSH_APART_1_remove_bit; [lia| |done].
    pose proof (pow2_mono n bitsInCap). lia. }
  destruct (pair_loop_lookup G F (pair_lo t) (pair_hi t) schedule l a Hnd bit_pairs_apart Ha)
    as [Hl Hh].
  { unfold pair_lo. rewrite Hlo, Hlen. lia. }
  { unfold pair_hi. rewrite Hlo, Hlen. pose proof (setbit_range g0 t n Ht Hg0). lia. }
  unfold pair_lo, pair_hi in Hl, Hh. rewrite Hlo in Hl, Hh.
  destruct (Z.testbit g t) eqn:Hbit.
  - assert (Z.setbit g0 t = g) as Hset.
    { apply Z.bits_inj'. intros k Hk. destruct (decide (k = t)) as [->|Hne].
      - rewrite Z.setbit_eq by lia. done.
      - subst g0. rewrite Z.setbit_neq, Z.clearbit_neq by lia. done. }
    rewrite Hset in Hh. done.
  - assert (g0 = g) as Hg0g.
    { apply Z.bits_inj'. intros k Hk. destruct (decide (k = t)) as [->|Hne].
      - by rewrite Hb0.
      - subst g0. rewrite Z.clearbit_neq by lia. done. }
    rewrite Hg0g in Hl. done.
Qed.
End BitPairs.

Lemma foldl_ext_in {A B : Type} (f g : A -> B -> A) (P : A -> Prop) (l : list B) (a0 : A) :
  P a0 -> (forall a b, b ∈ l -> P a -> f a b = g a b /\ P (g a b)) ->
  foldl f a0 l = foldl g a0 l.
Proof.
  revert a0. induction l as [|b l IH]; intros a0 Ha0 Hfg; [done|]. simpl.
  destruct (Hfg a0 b ltac:(by left) Ha0) as [-> HP].
  apply IH; [done|]. intros a b' Hb'. apply Hfg. by right.
Qed.

Section EngineGates.
Context {R1 : Real1}.
Import QEngineOCL.

Lemma gate_args_eq target (e : QEngineOCL.t) :
  well_formed e -> 0 <= target < qubitCount e ->
  gate_args target e = [2 ^ target; 0; 2 ^ (qubitCount e - 1); Z.ones target].
Proof.
  intros (Hq & Hm & _) Ht. pose proof int_shift_below_cap as Hic.
  unfold gate_args. change (cap_shl 1 target) with (pow2 target).
  rewrite pow2_small by lia. rewrite Hm, Z.shiftr_div_pow2 by lia.
  f_equal. f_equal. f_equal.
  - f_equal. change 2 with (2 ^ 1) at 2. rewrite <- Z.pow_sub_r by lia. done.
  - f_equal. unfold cap_sub, ONE_BCI. rewrite ones_eq. apply wrapCap_small.
    pose proof (pow2_mono 0 target). pose proof (pow2_mono target bitsInCap). lia.
Qed.

Lemma NDRange_schedule N n :
  0 < N -> NoDup (NDRange N (2 ^ (n - 1))) /\
           forall a, a ∈ NDRange N (2 ^ (n - 1)) <-> 0 <= a < 2 ^ (n - 1).
Proof. intros HN. split; [by apply NoDup_NDRange|intros a; by apply elem_of_NDRange]. Qed.

Lemma invertsingle_pair_loop N (sv : list complex) tl tr bl br t n :
  0 <= t < n -> n <= bitsInCap -> 0 < N ->
  Kernel.invertsingle N sv [tl; tr; bl; br] [2 ^ t; 0; 2 ^ (n - 1); Z.ones t] =
  pair_loop (λ _ hi, zmul tr hi) (λ lo _, zmul bl lo) (pair_lo t) (pair_hi t)
    (NDRange N (2 ^ (n - 1))) sv.
Proof.
  intros Ht Hn HN. unfold Kernel.invertsingle, pair_loop, run_kernel.
  cbn [lookup_total list_lookup_total].
  apply (foldl_ext_in _ _ (λ _, True)); [done|].
  intros l a Ha _. split; [|done].
  unfold pair_step, pair_lo, pair_hi. by rewrite Z.setbit_spec'.
Qed.

Lemma phasesingle_pair_loop N (sv : list complex) tl tr bl br t n :
  0 <= t < n -> n <= bitsInCap -> 0 < N ->
  Kernel.phasesingle N sv [tl; tr; bl; br] [2 ^ t; 0; 2 ^ (n - 1); Z.ones t] =
  pair_loop (λ lo _, zmul tl lo) (λ _ hi, zmul br hi) (pair_lo t) (pair_hi t)
    (NDRange N (2 ^ (n - 1))) sv.
Proof.
  intros Ht Hn HN. unfold Kernel.phasesingle, pair_loop, run_kernel.
  cbn [lookup_total list_lookup_total].
  destruct (NDRange_schedule N n HN) as [Hnd Hs].
  destruct (bit_pairs_apart t n _ Ht Hn Hs) as [Hself _].
  apply (foldl_ext_in _ _ (λ _, True)); [done|].
  intros l a Ha _. split; [|done].
  unfold pair_step. rewrite <- Z.setbit_spec'.
  fold (pair_lo t a). fold (pair_hi t a).
  rewrite list_lookup_total_insert_ne by (by apply Hself). done.
Qed.

Lemma invertsingle_spec (e : QEngineOCL.t) tr bl target :
  well_formed e -> 0 <= target < qubitCount e ->
  stateVec (ApplySingleInvert tr bl target e) = apply_invert_spec tr bl target (stateVec e).
Proof.
  intros Hwf Ht. pose proof Hwf as (Hq & Hm & Hlen). pose proof int_shift_below_cap as Hic.
  unfold ApplySingleInvert. cbn [stateVec]. rewrite gate_args_eq by done.
  assert (0 < 2 ^ (qubitCount e - 1)) as Hpos by (apply Z.pow_pos_nonneg; lia).
  assert (0 < FixWorkItemCount (Z.shiftr (maxQPower e) 1) (nrmGroupCount e)) as HN.
  { apply FixWorkItemCount_pos. rewrite Hm, Z.shiftr_div_pow2 by lia.
    change (2 ^ 1) with 2. replace (qubitCount e) with (qubitCount e - 1 + 1) by lia.
    rewrite Z.pow_add_r by lia. change (2 ^ 1) with 2. rewrite Z.div_mul by lia. done. }
  rewrite (invertsingle_pair_loop _ _ _ _ _ _ target (qubitCount e)) by first [done|lia].
  destruct (NDRange_schedule _ (qubitCount e) HN) as [Hnd Hs].
  unfold apply_invert_spec. apply list_eq. intros j. rewrite list_lookup_imap.
  destruct (decide (j < length (stateVec e))%nat) as [Hj|Hj].
  - rewrite <- (Nat2Z.id j) at 1.
    rewrite (bit_pair_loop_lookup target (qubitCount e)); try done; try lia.
    all: try (rewrite Hlen, Hm; done).
    all: try (rewrite Hlen, Hm in Hj; lia).
    destruct (lookup_lt_is_Some_2 (stateVec e) j Hj) as [amp Hamp]. rewrite Hamp. cbn.
    by destruct (Z.testbit (Z.of_nat j) target).
  - rewrite !lookup_ge_None_2; [done|lia|]. rewrite pair_loop_length. lia.
Qed.

Lemma phasesingle_spec (e : QEngineOCL.t) tl br target :
  well_formed e -> 0 <= target < qubitCount e ->
  stateVec (ApplySinglePhase tl br target e) = apply_phase_spec tl br target (stateVec e).
Proof.
  intros Hwf Ht. pose proof Hwf as (Hq & Hm & Hlen). pose proof int_shift_below_cap as Hic.
  unfold ApplySinglePhase. cbn [stateVec]. rewrite gate_args_eq by done.
  assert (0 < 2 ^ (qubitCount e - 1)) as Hpos by (apply Z.pow_pos_nonneg; lia).
  assert (0 < FixWorkItemCount (Z.shiftr (maxQPower e) 1) (nrmGroupCount e)) as HN.
  { apply FixWorkItemCount_pos. rewrite Hm, Z.shiftr_div_pow2 by lia.
    change (2 ^ 1) with 2. replace (qubitCount e) with (qubitCount e - 1 + 1) by lia.
    rewrite Z.pow_add_r by lia. change (2 ^ 1) with 2. rewrite Z.div_mul by lia. done. }
  rewrite (phasesingle_pair_loop _ _ _ _ _ _ target (qubitCount e)) by first [done|lia].
  destruct (NDRange_schedule _ (qubitCount e) HN) as [Hnd Hs].
  unfold apply_phase_spec. apply list_eq. intros j. rewrite list_lookup_imap.
  destruct (decide (j < length (stateVec e))%nat) as [Hj|Hj].
  - rewrite <- (Nat2Z.id j) at 1.
    rewrite (bit_pair_loop_lookup target (qubitCount e)); try done; try lia.
    all: try (rewrite Hlen, Hm; done).
    all: try (rewrite Hlen, Hm in Hj; lia).
    destruct (lookup_lt_is_Some_2 (stateVec e) j Hj) as [amp Hamp]. rewrite Hamp. cbn.
    rewrite Nat2Z.id, (list_lookup_total_correct _ _ _ Hamp).
    by destruct (Z.testbit (Z.of_nat j) target).
  - rewrite !lookup_ge_None_2; [done|lia|]. rewrite pair_loop_length. lia.
Qed.
End EngineGates.

(** * Global indices and page indices *)

Lemma split_index qpp g :
  0 <= qpp -> 0 <= g ->
  Z.to_nat g =
    (Z.to_nat (Z.shiftr g qpp) * Z.to_nat (2 ^ qpp) + Z.to_nat (Z.land g (Z.ones qpp)))%nat /\
  0 <= Z.land g (Z.ones qpp) < 2 ^ qpp /\ 0 <= Z.shiftr g qpp.
Proof.
  intros Hq Hg. rewrite Z.shiftr_div_pow2, Z.land_ones by done.
  pose proof (Z.pow_pos_nonneg 2 qpp ltac:(lia) Hq) as Hpos.
  pose proof (Z.mod_pos_bound g (2 ^ qpp) Hpos) as Hmod.
  pose proof (Z.div_pos g (2 ^ qpp) Hg Hpos) as Hdiv.
  split_and!; try lia.
  rewrite <- Z2Nat.inj_mul, <- Z2Nat.inj_add by lia. f_equal.
  rewrite Z.mul_comm. apply Z.div_mod. lia.
Qed.

Lemma shiftr_range g qpp n : 0 <= qpp <= n -> 0 <= g < 2 ^ n -> 0 <= Z.shiftr g qpp < 2 ^ (n - qpp).
Proof.
  intros Hq Hg. rewrite Z.shiftr_div_pow2 by lia.
  pose proof (Z.pow_pos_nonneg 2 qpp ltac:(lia) ltac:(lia)) as Hpos.
  split; [apply Z.div_pos; lia|].
  apply Z.div_lt_upper_bound; [done|]. rewrite <- Z.pow_add_r by lia.
  replace (qpp + (n - qpp)) with n by lia. lia.
Qed.

Lemma page_of_setbit g t qpp :
  0 <= qpp <= t -> 0 <= g ->
  Z.shiftr (Z.setbit g t) qpp = Z.setbit (Z.shiftr g qpp) (t - qpp) /\
  Z.land (Z.setbit g t) (Z.ones qpp) = Z.land g (Z.ones qpp).
Proof.
  intros Hq Hg. split; apply Z.bits_inj'; intros k Hk.
  - rewrite Z.shiftr_spec by done.
    destruct (decide (k = t - qpp)) as [->|Hne].
    + replace (t - qpp + qpp) with t by lia. rewrite !Z.setbit_eq by lia. done.
    + rewrite !Z.setbit_neq, Z.shiftr_spec by lia. done.
  - rewrite !Z.land_spec, Z.testbit_ones_nonneg by lia.
    destruct (Z.ltb_spec k qpp); [|by rewrite !andb_false_r].
    rewrite Z.setbit_neq by lia. done.
Qed.

Lemma page_of_clearbit g t qpp :
  0 <= qpp <= t -> 0 <= g ->
  Z.shiftr (Z.clearbit g t) qpp = Z.clearbit (Z.shiftr g qpp) (t - qpp) /\
  Z.land (Z.clearbit g t) (Z.ones qpp) = Z.land g (Z.ones qpp).
Proof.
  intros Hq Hg. split; apply Z.bits_inj'; intros k Hk.
  - rewrite Z.shiftr_spec by done.
    destruct (decide (k = t - qpp)) as [->|Hne].
    + replace (t - qpp + qpp) with t by lia. rewrite !Z.clearbit_eq by lia. done.
    + rewrite !Z.clearbit_neq, Z.shiftr_spec by lia. done.
  - rewrite !Z.land_spec, Z.testbit_ones_nonneg by lia.
    destruct (Z.ltb_spec k qpp); [|by rewrite !andb_false_r].
    rewrite Z.clearbit_neq by lia. done.
Qed.

(** * The pager's anti-diagonal gate on a qubit across pages *)

Lemma bind_lookup_uniform {A B : Type} (f : A -> list B) (len : nat) (l : list A) (j k : nat) :
  Forall (λ a, length (f a) = len) l -> (k < len)%nat ->
  (l ≫= f) !! (j * len + k)%nat = l !! j ≫= λ a, f a !! k.
Proof.
  intros Hl Hk. revert j. induction Hl as [|a l Ha Hl IH]; intros j; [done|].
  cbn [mbind list_bind]. change (foldr _ _ _) with (l ≫= f) in *. destruct j as [|j].
  - cbn. rewrite lookup_app_l by lia. done.
  - rewrite lookup_app_r by (rewrite Ha; lia).
    replace (S j * len + k - length (f a))%nat with (j * len + k)%nat by (rewrite Ha; lia).
    apply IH.
Qed.

Lemma bind_length_uniform {A B : Type} (f : A -> list B) (len : nat) (l : list A) :
  Forall (λ a, length (f a) = len) l -> length (l ≫= f) = (length l * len)%nat.
Proof.
  induction 1 as [|a l Ha Hl IH]; [done|].
  cbn [mbind list_bind]. change (foldr _ _ _) with (l ≫= f) in *.
  rewrite length_app, IH, Ha. simpl. lia.
Qed.

Section PagerInvert.
Context {R1 : Real1}.

Lemma scale_page_stateVec c (page : QEngineOCL.t) :
  QEngineOCL.well_formed page -> 0 < QEngineOCL.qubitCount page ->
  QEngineOCL.stateVec (scale_page c page) = residual c <$> QEngineOCL.stateVec page.
Proof.
  intros Hwf Hq. unfold scale_page, residual.
  destruct (ceqb c ONE_CMPLX).
  - apply list_eq. intros j. rewrite list_lookup_fmap.
    generalize (QEngineOCL.stateVec page !! j). intros [x|]; reflexivity.
  - rewrite phasesingle_spec by first [done|lia]. unfold apply_phase_spec.
    apply list_eq. intros j. rewrite list_lookup_imap, list_lookup_fmap.
    destruct (QEngineOCL.stateVec page !! j); [|done]. cbn.
    by case_match.
Qed.

(** One pass of the pager's loop is a step on the pair of pages. *)
Lemma pager_step tr bl (i off : Z) (l : list QEngineOCL.t) :
  (Z.to_nat i < length l)%nat -> (Z.to_nat (i + off) < length l)%nat ->
  Z.to_nat i <> Z.to_nat (i + off) ->
  (let qPages := QPager.swap_pages i (i + off) l in
   let qPages :=
     if negb (ceqb tr ONE_CMPLX)
     then QPager.on_page i (QEngineOCL.ApplySinglePhase tr tr 0) qPages
     else qPages in
   if negb (ceqb bl ONE_CMPLX)
   then QPager.on_page (i + off) (QEngineOCL.ApplySinglePhase bl bl 0) qPages
   else qPages) =
  pair_step (λ _ hi, scale_page tr hi) (λ lo _, scale_page bl lo)
    (Z.to_nat i) (Z.to_nat (i + off)) l.
Proof.
  intros Hlo Hhi Hne. cbv zeta.
  set (lo := Z.to_nat i) in *. set (hi := Z.to_nat (i + off)) in *.
  destruct (lookup_lt_is_Some_2 l lo Hlo) as [x Hx].
  destruct (lookup_lt_is_Some_2 l hi Hhi) as [y Hy].
  unfold pair_step, scale_page.
  rewrite (list_lookup_total_correct _ _ _ Hx), (list_lookup_total_correct _ _ _ Hy).
  unfold QPager.swap_pages. fold lo hi. rewrite Hx, Hy.
  set (l1 := <[hi := x]> (<[lo := y]> l)).
  assert (l1 !! lo = Some y) as H1lo.
  { subst l1. rewrite list_lookup_insert_ne by done. by apply list_lookup_insert_eq. }
  assert (l1 !! hi = Some x) as H1hi.
  { subst l1. apply list_lookup_insert_eq. by rewrite length_insert. }
  destruct (ceqb tr ONE_CMPLX), (ceqb bl ONE_CMPLX); cbn [negb]; unfold QPager.on_page; fold lo hi.
  all: rewrite ?H1lo, ?H1hi; rewrite ?list_lookup_insert_ne by done; rewrite ?H1hi.
  all: subst l1; apply list_eq; intros k.
  all: destruct (decide (k = lo)) as [->|Hklo]; [|destruct (decide (k = hi)) as [->|Hkhi]].
  all: repeat first
         [ rewrite list_lookup_insert_ne by done
         | rewrite list_lookup_insert_eq by (rewrite ?length_insert; done) ].
  all: done.
Qed.

Lemma pages_lookup (pages : list QEngineOCL.t) qpp g :
  Forall (λ page, length (QEngineOCL.stateVec page) = Z.to_nat (2 ^ qpp)) pages ->
  0 <= qpp -> 0 <= g ->
  (pages ≫= QEngineOCL.stateVec) !! Z.to_nat g =
  pages !! Z.to_nat (Z.shiftr g qpp) ≫=
    λ page, QEngineOCL.stateVec page !! Z.to_nat (Z.land g (Z.ones qpp)).
Proof.
  intros Hl Hq Hg. destruct (split_index qpp g Hq Hg) as (-> & Hk & _).
  apply bind_lookup_uniform; [done|lia].
Qed.

(** The pages the loop leaves. *)
Lemma ApplySingleInvert_pages (p : QPager.t) tr bl target :
  QPager.well_formed p -> QPager.randGlobalPhase p = false ->
  QPager.qubitsPerPage p <= target < QPager.qubitCount p ->
  ceqb tr (cneg bl) && ceqb tr ONE_CMPLX = false ->
  let m := target - QPager.qubitsPerPage p in
  let N := QPager.qubitCount p - QPager.qubitsPerPage p in
  QPager.qPages (QPager.ApplySingleInvert tr bl target p) =
  pair_loop (λ _ hi, scale_page tr hi) (λ lo _, scale_page bl lo) (pair_lo m) (pair_hi m)
    (seqZ 0 (2 ^ (N - 1))) (QPager.qPages p).
Proof.
  intros (Hqpp & Hn & Hpm & Hpc & Hlen & Hpages) Hrgp Ht Hguard m N.
  unfold QPager.ApplySingleInvert. rewrite Hrgp. cbn [orb]. rewrite Hguard.
  destruct (Z.ltb_spec target (QPager.qubitsPerPage p)) as [|_]; [lia|].
  cbn [QPager.set_qPages QPager.qPages]. fold m.
  assert (0 <= m < N) as Hm by (subst m N; lia).
  assert (N <= bitsInCap) as HN by (subst N; lia).
  assert (wrapLen m = m) as ->.
  { unfold wrapLen. apply Z.mod_small. unfold bitsInCap, sizeof_bitCapInt, bitsInByte in *. lia. }
  rewrite pow2_small by lia.
  assert (cap_sub (2 ^ m) ONE_BCI = Z.ones m) as ->.
  { unfold cap_sub, ONE_BCI. rewrite ones_eq. apply wrapCap_small.
    pose proof (pow2_mono 0 m). pose proof (pow2_mono m bitsInCap). lia. }
  assert (Z.shiftr (QPager.qPageCount p) ONE_BCI = 2 ^ (N - 1)) as ->.
  { rewrite Hpc. fold N. unfold ONE_BCI. rewrite Z.shiftr_div_pow2 by lia.
    rewrite <- Z.pow_sub_r by lia. done. }
  unfold pair_loop.
  assert (Hs : forall a, a ∈ seqZ 0 (2 ^ (N - 1)) <-> 0 <= a < 2 ^ (N - 1)).
  { intros a. rewrite elem_of_seqZ. lia. }
  destruct (bit_pairs_apart m N _ Hm HN Hs) as [Hself _].
  apply (foldl_ext_in _ _ (λ l, length l = Z.to_nat (2 ^ N))).
  { by rewrite Hlen, Hpc. }
  intros l a Ha Hl. split; [|by rewrite pair_step_length].
  pose proof (pair_lo_range m N _ Hm HN Hs a Ha) as Hr.
  pose proof (pair_lo_bit m N _ Hm HN Hs a Ha) as Hb.
  change (QPager.pair_low (Z.ones m) a) with (Kernel.PUSH_APART_1 (Z.ones m) a).
  set (i := Kernel.PUSH_APART_1 (Z.ones m) a) in *.
  pose proof (setbit_range i m N Hm Hr) as Hr'.
  rewrite pager_step.
  - unfold pair_lo, pair_hi. fold i. by rewrite add_pow2_setbit by first [done|lia].
  - lia.
  - rewrite add_pow2_setbit by first [done|lia]. lia.
  - rewrite add_pow2_setbit by first [done|lia]. apply (Hself a Ha).
Qed.

(** The pager's anti-diagonal gate on a qubit across pages, when its first
    test does not fire and the global phase is kept: the pages read in
    order are the state vector the gate of the spec gives. *)
Theorem QPager_ApplySingleInvert_inter_page (p : QPager.t) tr bl target :
  QPager.well_formed p -> QPager.randGlobalPhase p = false ->
  QPager.qubitsPerPage p <= target < QPager.qubitCount p ->
  ceqb tr (cneg bl) && ceqb tr ONE_CMPLX = false ->
  QPager.GetQuantumState (QPager.ApplySingleInvert tr bl target p) =
  apply_invert_residual tr bl target (QPager.GetQuantumState p).
Proof.
  intros Hwf Hrgp Ht Hguard.
  pose proof (ApplySingleInvert_pages p tr bl target Hwf Hrgp Ht Hguard) as Hp.
  cbv zeta in Hp. destruct Hwf as (Hqpp & Hn & Hpm & Hpc & Hlen & Hpages).
  pose proof int_shift_below_cap as Hic.
  set (qpp := QPager.qubitsPerPage p) in *. set (n := QPager.qubitCount p) in *.
  set (m := target - qpp) in *. set (N := n - qpp) in *.
  assert (0 <= m < N) as Hm by (subst m N; lia).
  assert (N <= bitsInCap) as HN by (subst N; lia).
  assert (Hs : forall a, a ∈ seqZ 0 (2 ^ (N - 1)) <-> 0 <= a < 2 ^ (N - 1)).
  { intros a. rewrite elem_of_seqZ. lia. }
  set (pages := QPager.qPages p) in *.
  set (pages' := QPager.qPages (QPager.ApplySingleInvert tr bl target p)) in *.
  assert (Hlen' : length pages = Z.to_nat (2 ^ N)) by (by rewrite Hlen, Hpc).
  (* every page is well formed, with [qpp] qubits *)
  assert (Hpage : forall j, 0 <= j < 2 ^ N ->
            exists page, pages !! Z.to_nat j = Some page /\
              QEngineOCL.well_formed page /\ QEngineOCL.qubitCount page = qpp /\
              length (QEngineOCL.stateVec page) = Z.to_nat (2 ^ qpp)).
  { intros j Hj. destruct (lookup_lt_is_Some_2 pages (Z.to_nat j)) as [page Hpg]; [lia|].
    exists page. split; [done|].
    rewrite Forall_lookup in Hpages. destruct (Hpages _ _ Hpg) as [Hw Hq].
    split_and!; [done|done|]. destruct Hw as (_ & Hmq & Hl). by rewrite Hl, Hmq, Hq. }
  assert (Huni : Forall (λ page, length (QEngineOCL.stateVec page) = Z.to_nat (2 ^ qpp)) pages).
  { apply Forall_lookup. intros i page Hi.
    destruct (Hpage (Z.of_nat i)) as (page' & Hpg & _ & _ & Hl).
    { apply lookup_lt_Some in Hi. lia. }
    rewrite Nat2Z.id, Hi in Hpg. by simplify_eq. }
  (* the pages after the gate *)
  assert (Hres : forall j, 0 <= j < 2 ^ N ->
            pages' !! Z.to_nat j =
            Some (if Z.testbit j m
                  then scale_page bl (pages !!! Z.to_nat (Z.clearbit j m))
                  else scale_page tr (pages !!! Z.to_nat (Z.setbit j m)))).
  { intros j Hj. rewrite Hp.
    rewrite (bit_pair_loop_lookup m N); [|done|done|apply NoDup_seqZ|done|done|done].
    by destruct (Z.testbit j m). }
  assert (Hscale : forall c j, 0 <= j < 2 ^ N ->
            QEngineOCL.stateVec (scale_page c (pages !!! Z.to_nat j)) =
            residual c <$> QEngineOCL.stateVec (pages !!! Z.to_nat j) /\
            length (QEngineOCL.stateVec (pages !!! Z.to_nat j)) = Z.to_nat (2 ^ qpp)).
  { intros c j Hj. destruct (Hpage j Hj) as (page & Hpg & Hw & Hq & Hl).
    rewrite (list_lookup_total_correct _ _ _ Hpg). split; [|done].
    apply scale_page_stateVec; [done|lia]. }
  assert (Huni' : Forall (λ page, length (QEngineOCL.stateVec page) = Z.to_nat (2 ^ qpp)) pages').
  { apply Forall_lookup. intros i page Hi.
    assert (0 <= Z.of_nat i < 2 ^ N) as Hi'.
    { apply lookup_lt_Some in Hi. rewrite Hp, pair_loop_length in Hi. lia. }
    rewrite <- (Nat2Z.id i), (Hres _ Hi') in Hi. simplify_eq.
    destruct (Z.testbit (Z.of_nat i) m).
    - destruct (Hscale bl (Z.clearbit (Z.of_nat i) m)) as [-> Hl]; [by apply clearbit_range; lia|].
      by rewrite length_fmap.
    - destruct (Hscale tr (Z.setbit (Z.of_nat i) m)) as [-> Hl]; [by apply setbit_range|].
      by rewrite length_fmap. }
  assert (Hall : length (pages ≫= QEngineOCL.stateVec) = Z.to_nat (2 ^ n)).
  { rewrite (bind_length_uniform _ (Z.to_nat (2 ^ qpp))) by done.
    rewrite Hlen', <- Z2Nat.inj_mul, <- Z.pow_add_r by lia. f_equal. f_equal. subst N. lia. }
  (* amplitude by amplitude *)
  unfold QPager.GetQuantumState. fold pages pages'. unfold apply_invert_residual.
  apply list_eq. intros gi. rewrite list_lookup_imap.
  destruct (decide (gi < Z.to_nat (2 ^ n))%nat) as [Hgi|Hgi].
  2: { rewrite !lookup_ge_None_2; [done|lia|].
       rewrite (bind_length_uniform _ (Z.to_nat (2 ^ qpp))) by done.
       rewrite Hp, pair_loop_length, Hlen', <- Z2Nat.inj_mul, <- Z.pow_add_r by lia.
       replace (N + qpp) with n by (subst N; lia). lia. }
  set (g := Z.of_nat gi). assert (0 <= g < 2 ^ n) as Hg by (subst g; lia).
  destruct (lookup_lt_is_Some_2 (pages ≫= QEngineOCL.stateVec) gi) as [amp Hamp]; [lia|].
  rewrite Hamp. cbn [fmap option_fmap option_map].
  replace gi with (Z.to_nat g) at 1 by (subst g; lia).
  rewrite (pages_lookup pages' qpp g) by first [done|lia].
  pose proof (shiftr_range g qpp n ltac:(lia) Hg) as Hj. fold N in Hj.
  destruct (split_index qpp g ltac:(lia) ltac:(lia)) as (_ & Hk & _).
  rewrite (Hres _ Hj). cbn [mbind option_bind].
  assert (Z.testbit (Z.shiftr g qpp) m = Z.testbit g target) as ->.
  { rewrite Z.shiftr_spec by lia. f_equal. subst m. lia. }
  assert (Hread : forall g', 0 <= g' < 2 ^ n ->
            Z.land g' (Z.ones qpp) = Z.land g (Z.ones qpp) ->
            forall c,
            QEngineOCL.stateVec (scale_page c (pages !!! Z.to_nat (Z.shiftr g' qpp)))
              !! Z.to_nat (Z.land g (Z.ones qpp)) =
            Some (residual c ((pages ≫= QEngineOCL.stateVec) !!! Z.to_nat g'))).
  { intros g' Hg' Hlow c.
    pose proof (shiftr_range g' qpp n ltac:(lia) Hg') as Hj'. fold N in Hj'.
    destruct (Hscale c _ Hj') as [-> Hl]. rewrite list_lookup_fmap.
    rewrite (list_lookup_total_alt (pages ≫= QEngineOCL.stateVec)).
    rewrite (pages_lookup pages qpp g') by first [done|lia].
    destruct (Hpage _ Hj') as (page & Hpg & _ & _ & Hpl).
    rewrite Hpg, (list_lookup_total_correct _ _ _ Hpg). cbn [mbind option_bind].
    rewrite Hlow.
    destruct (lookup_lt_is_Some_2 (QEngineOCL.stateVec page)
                (Z.to_nat (Z.land g (Z.ones qpp)))) as [x Hx]; [lia|].
    by rewrite Hx. }
  destruct (Z.testbit g target).
  - destruct (page_of_clearbit g target qpp ltac:(lia) ltac:(lia)) as [Hhi Hlo].
    fold m in Hhi. rewrite <- Hhi.
    apply Hread; [by apply clearbit_range; lia|done].
  - destruct (page_of_setbit g target qpp ltac:(lia) ltac:(lia)) as [Hhi Hlo].
    fold m in Hhi. rewrite <- Hhi.
    apply Hread; [apply setbit_range; lia|done].
Qed.
End PagerInvert.

(** ** The same on the real numbers *)

Section PagerInvertReal.
#[local] Existing Instance Real1_R.

(** A factor that compares equal to 1 is 1: leaving the multiplication out
    changes nothing. *)
Lemma residual_exact (c amp : complex) : residual c amp = zmul c amp.
Proof.
  unfold residual, ceqb. destruct c as [cr ci], amp as [x y]. cbn.
  destruct (Req_dec_T cr 1) as [->|]; [|done].
  destruct (Req_dec_T ci 0) as [->|]; [|done].
  cbn. unfold zmul. cbn. f_equal; lra.
Qed.

Lemma apply_invert_residual_exact tr bl target (stateVec : list complex) :
  apply_invert_residual tr bl target stateVec = apply_invert_spec tr bl target stateVec.
Proof.
  unfold apply_invert_residual, apply_invert_spec.
  apply list_eq. intros i. rewrite !list_lookup_imap.
  destruct (stateVec !! i); [|done]. cbn. by rewrite !residual_exact.
Qed.

(** X5. Over the real numbers, with the global phase kept and the gate not
    one the first test takes for the identity, the pager's gate on a qubit
    across pages gives the state vector that the 2x2 anti-diagonal gate
    gives: as the spec words it, and as the engine's kernel computes it on
    the un-paged state. *)
Theorem QPager_ApplySingleInvert_refines_gate (p : QPager.t) tr bl target :
  QPager.well_formed p -> QPager.randGlobalPhase p = false ->
  QPager.qubitsPerPage p <= target < QPager.qubitCount p ->
  ceqb tr (cneg bl) && ceqb tr ONE_CMPLX = false ->
  QPager.GetQuantumState (QPager.ApplySingleInvert tr bl target p) =
    apply_invert_spec tr bl target (QPager.GetQuantumState p) /\
  forall e : QEngineOCL.t,
    QEngineOCL.well_formed e -> QEngineOCL.qubitCount e = QPager.qubitCount p ->
    QEngineOCL.stateVec e = QPager.GetQuantumState p ->
    QPager.GetQuantumState (QPager.ApplySingleInvert tr bl target p) =
    QEngineOCL.stateVec (QEngineOCL.ApplySingleInvert tr bl target e).
Proof.
  intros Hwf Hrgp Ht Hguard.
  pose proof (QPager_ApplySingleInvert_inter_page p tr bl target Hwf Hrgp Ht Hguard) as Hp.
  rewrite apply_invert_residual_exact in Hp. split; [done|].
  intros e Hwe Hq He. rewrite invertsingle_spec, He; [done|done|].
  destruct Hwf as (Hqpp & _). lia.
Qed.
End PagerInvertReal.

(** ** The stabilizer hybrid layer: modes *)

Module QSH := QStabilizerHybrid.

Section Hybrid_modes.
Context {R1 : Real1} {LM : Libm R1} {QStabilizer QEngine : Type}.
Context {SO : QStabilizerOps QStabilizer QEngine} {EO : QEngineOps QEngine}.
Context {HD : QSH.Header QStabilizer QEngine}.

#[local] Abbreviation hybrid := (QSH.t QStabilizer QEngine).

Lemma same_mode_refl (h : hybrid) : QSH.same_mode h h.
Proof. done. Qed.

Lemma same_mode_trans (h1 h2 h3 : hybrid) : QSH.same_mode h1 h2 -> QSH.same_mode h2 h3 -> QSH.same_mode h1 h3.
Proof. unfold QSH.same_mode. intros (?&?&?) (?&?&?). split_and!; congruence. Qed.

Lemma same_mode_on_engine g (h : hybrid) : QSH.same_mode h (QSH.on_engine g h).
Proof. unfold QSH.same_mode, QSH.on_engine. cbn. by destruct (QSH.engine h). Qed.

Lemma same_mode_on_stabilizer g (h : hybrid) : QSH.same_mode h (QSH.on_stabilizer g h).
Proof. unfold QSH.same_mode, QSH.on_stabilizer. cbn. by destruct (QSH.stabilizer h). Qed.

Lemma same_mode_on_stabilizer_seq gs (h : hybrid) : QSH.same_mode h (QSH.on_stabilizer_seq gs h).
Proof.
  unfold QSH.on_stabilizer_seq. revert h.
  induction gs as [|g gs IH]; intros h; [done|]. simpl.
  eapply same_mode_trans; [apply (same_mode_on_stabilizer g)|apply IH].
Qed.

Lemma same_mode_set_shard t s (h : hybrid) : QSH.same_mode h (QSH.set_shard t s h).
Proof. done. Qed.

Lemma same_mode_set_shardsEigenZ ez (h : hybrid) : QSH.same_mode h (QSH.set_shardsEigenZ ez h).
Proof. done. Qed.

Lemma same_mode_set_shards sh (h : hybrid) : QSH.same_mode h (QSH.set_shards sh h).
Proof. done. Qed.

Ltac peel :=
  lazymatch goal with
  | |- QSH.same_mode ?h ?h => apply same_mode_refl
  | |- QSH.same_mode ?h (QSH.on_stabilizer ?g ?x) =>
      apply (same_mode_trans h x _); [|apply same_mode_on_stabilizer]
  | |- QSH.same_mode ?h (QSH.on_stabilizer_seq ?g ?x) =>
      apply (same_mode_trans h x _); [|apply same_mode_on_stabilizer_seq]
  | |- QSH.same_mode ?h (QSH.on_engine ?g ?x) =>
      apply (same_mode_trans h x _); [|apply same_mode_on_engine]
  | |- QSH.same_mode ?h (QSH.set_shard ?t ?s ?x) =>
      apply (same_mode_trans h x _); [|apply same_mode_set_shard]
  | |- QSH.same_mode ?h (QSH.set_shards ?s ?x) =>
      apply (same_mode_trans h x _); [|apply same_mode_set_shards]
  | |- QSH.same_mode ?h (QSH.set_shardsEigenZ ?s ?x) =>
      apply (same_mode_trans h x _); [|apply same_mode_set_shardsEigenZ]
  end.

Ltac same_mode_tac := repeat first [ progress peel | case_match; simplify_eq ].

Lemma same_mode_ApplySinglePhase_with ASB tl br t (h : hybrid) :
  (forall m t h, QSH.same_mode h (ASB m t h)) ->
  QSH.same_mode h (QSH.ApplySinglePhase_with ASB tl br t h).
Proof.
  intros HASB. unfold QSH.ApplySinglePhase_with. cbv zeta.
  same_mode_tac; apply HASB.
Qed.

Lemma same_mode_ApplySingleInvert_with ASB tr bl t (h : hybrid) :
  (forall m t h, QSH.same_mode h (ASB m t h)) ->
  QSH.same_mode h (QSH.ApplySingleInvert_with ASB tr bl t h).
Proof.
  intros HASB. unfold QSH.ApplySingleInvert_with. cbv zeta.
  same_mode_tac; apply HASB.
Qed.

Lemma same_mode_buffer_shard wasCached mtrx t (h : hybrid) :
  QSH.same_mode h (QSH.buffer_shard wasCached mtrx t h).
Proof.
  unfold QSH.buffer_shard. cbv zeta. same_mode_tac.
Qed.

Lemma same_mode_ApplySingleBit_with ASP ASI m t (h : hybrid) :
  (forall a b t h, QSH.same_mode h (ASP a b t h)) ->
  (forall a b t h, QSH.same_mode h (ASI a b t h)) ->
  QSH.same_mode h (QSH.ApplySingleBit_with ASP ASI m t h).
Proof.
  intros HASP HASI. unfold QSH.ApplySingleBit_with.
  destruct (QSH.shard_at t h) as [shard|].
  all: repeat case_match; simplify_eq.
  all: try (eapply same_mode_trans; [|apply HASP]).
  all: try (eapply same_mode_trans; [|apply HASI]).
  all: try (eapply same_mode_trans; [|apply same_mode_buffer_shard]).
  all: same_mode_tac.
Qed.

Lemma shard_at_set_shard_None t (h : hybrid) : QSH.shard_at t (QSH.set_shard t None h) = None.
Proof.
  unfold QSH.shard_at, QSH.set_shard. cbn.
  destruct (decide (Z.to_nat t < length (QSH.shards h))%nat).
  - by rewrite list_lookup_insert_eq.
  - by rewrite lookup_ge_None_2 by (rewrite length_insert; lia).
Qed.

Lemma ApplySinglePhase_with_no_shard ASB ASB' tl br t (h : hybrid) :
  QSH.shard_at t h = None ->
  QSH.ApplySinglePhase_with ASB tl br t h = QSH.ApplySinglePhase_with ASB' tl br t h.
Proof. intros Hs. unfold QSH.ApplySinglePhase_with. by rewrite Hs. Qed.

Lemma ApplySingleInvert_with_no_shard ASB ASB' tr bl t (h : hybrid) :
  QSH.shard_at t h = None ->
  QSH.ApplySingleInvert_with ASB tr bl t h = QSH.ApplySingleInvert_with ASB' tr bl t h.
Proof. intros Hs. unfold QSH.ApplySingleInvert_with. by rewrite Hs. Qed.

Lemma ApplySingleBit_with_levels ASB ASB' m t (h : hybrid) :
  QSH.ApplySingleBit_with (QSH.ApplySinglePhase_with ASB) (QSH.ApplySingleInvert_with ASB) m t h =
  QSH.ApplySingleBit_with (QSH.ApplySinglePhase_with ASB') (QSH.ApplySingleInvert_with ASB') m t h.
Proof.
  unfold QSH.ApplySingleBit_with.
  destruct (QSH.shard_at t h) as [shard|] eqn:Hs.
  - pose proof (shard_at_set_shard_None t h) as Hn.
    repeat case_match; try done.
    + by apply ApplySinglePhase_with_no_shard.
    + by apply ApplySingleInvert_with_no_shard.
  - repeat case_match; try done.
    + by apply ApplySinglePhase_with_no_shard.
    + by apply ApplySingleInvert_with_no_shard.
Qed.

(** The three functions satisfy the mutually recursive equations of the
    source. *)
Lemma ApplySingleBit_unfold m t (h : hybrid) :
  QSH.ApplySingleBit m t h =
    QSH.ApplySingleBit_with QSH.ApplySinglePhase QSH.ApplySingleInvert m t h /\
  (forall tl br, QSH.ApplySinglePhase tl br t h =
     QSH.ApplySinglePhase_with QSH.ApplySingleBit tl br t h) /\
  (forall tr bl, QSH.ApplySingleInvert tr bl t h =
     QSH.ApplySingleInvert_with QSH.ApplySingleBit tr bl t h).
Proof.
  assert (Hinner : forall m t h, QSH.ApplySingleBit_inner m t h = QSH.ApplySingleBit m t h).
  { intros. apply ApplySingleBit_with_levels. }
  split_and!; [done|..]; intros.
  - unfold QSH.ApplySinglePhase, QSH.ApplySinglePhase_with.
    repeat case_match; first [done|apply Hinner].
  - unfold QSH.ApplySingleInvert, QSH.ApplySingleInvert_with.
    repeat case_match; first [done|apply Hinner].
Qed.

Lemma same_mode_ApplySingleBit_inner m t (h : hybrid) :
  QSH.same_mode h (QSH.ApplySingleBit_inner m t h).
Proof.
  apply same_mode_ApplySingleBit_with; intros.
  - by apply same_mode_ApplySinglePhase_with.
  - by apply same_mode_ApplySingleInvert_with.
Qed.

Lemma same_mode_ApplySinglePhase tl br t (h : hybrid) :
  QSH.same_mode h (QSH.ApplySinglePhase tl br t h).
Proof. apply same_mode_ApplySinglePhase_with, same_mode_ApplySingleBit_inner. Qed.

Lemma same_mode_ApplySingleInvert tr bl t (h : hybrid) :
  QSH.same_mode h (QSH.ApplySingleInvert tr bl t h).
Proof. apply same_mode_ApplySingleInvert_with, same_mode_ApplySingleBit_inner. Qed.

Lemma same_mode_ApplySingleBit m t (h : hybrid) :
  QSH.same_mode h (QSH.ApplySingleBit m t h).
Proof.
  apply same_mode_ApplySingleBit_with; intros.
  - apply same_mode_ApplySinglePhase.
  - apply same_mode_ApplySingleInvert.
Qed.

Lemma same_mode_engine (h h' : hybrid) :
  QSH.same_mode h h' -> QSH.in_engine_mode h -> QSH.in_engine_mode h'.
Proof. unfold QSH.same_mode, QSH.in_engine_mode. intros (?&?&?) (?&?). split; congruence. Qed.

Lemma same_mode_stabilizer (h h' : hybrid) :
  QSH.same_mode h h' -> QSH.in_stabilizer_mode h -> QSH.in_stabilizer_mode h'.
Proof. unfold QSH.same_mode, QSH.in_stabilizer_mode. intros (?&?&?) (?&?). split; congruence. Qed.

Lemma SwitchToEngine_engine_mode (h : hybrid) :
  QSH.in_engine_mode h -> QSH.SwitchToEngine h = h.
Proof.
  intros [He _]. unfold QSH.SwitchToEngine. by destruct (QSH.engine h).
Qed.

Lemma on_engine_keeps_engine_mode g (h : hybrid) :
  QSH.in_engine_mode h -> QSH.in_engine_mode (QSH.on_engine g h).
Proof. apply same_mode_engine, same_mode_on_engine. Qed.

Lemma engine_mode_stabilizer (h : hybrid) : QSH.in_engine_mode h -> QSH.stabilizer h = None.
Proof. intros [_ Hs]. by destruct (QSH.stabilizer h). Qed.

(** The controlled gates in engine mode, once the controls are trimmed. *)
Lemma controlled_keeps_engine_mode (h : hybrid) :
  QSH.header_keeps_engine_mode -> QSH.in_engine_mode h ->
  forall controls target,
    (forall a b, QSH.in_engine_mode (QSH.ApplyControlledSinglePhase controls target a b h)) /\
    (forall a b, QSH.in_engine_mode (QSH.ApplyControlledSingleInvert controls target a b h)) /\
    (forall m, QSH.in_engine_mode (QSH.ApplyControlledSingleBit controls target m h)) /\
    (forall a b, QSH.in_engine_mode (QSH.ApplyAntiControlledSinglePhase controls target a b h)) /\
    (forall a b, QSH.in_engine_mode (QSH.ApplyAntiControlledSingleInvert controls target a b h)) /\
    (forall m, QSH.in_engine_mode (QSH.ApplyAntiControlledSingleBit controls target m h)).
Proof.
  intros (HF & HFB & HT & HD' & HFin) Hm controls target.
  assert (Hgate : forall anti,
    let h1 := (QSH.TrimControls controls anti h).2 in
    QSH.in_engine_mode h1 /\ QSH.SwitchToEngine h1 = h1 /\
    (forall cs, QSH.in_engine_mode (QSH.FlushIfBlocked cs target h1) /\
                QSH.is_set (QSH.engine (QSH.FlushIfBlocked cs target h1)) = true /\
                QSH.SwitchToEngine (QSH.FlushIfBlocked cs target h1) =
                QSH.FlushIfBlocked cs target h1)).
  { intros anti h1. pose proof (HT controls anti h Hm) as Ht. fold h1 in Ht.
    split_and!; [done|by apply SwitchToEngine_engine_mode|].
    intros cs. pose proof (HFB cs target h1 Ht) as Hfb.
    split_and!; [done|by destruct Hfb|by apply SwitchToEngine_engine_mode]. }
  assert (Hphase : forall anti a b,
    let h1 := (QSH.TrimControls controls anti h).2 in
    QSH.in_engine_mode (QSH.ApplySinglePhase a b target h1) /\
    QSH.in_engine_mode (QSH.ApplySingleInvert a b target h1) /\
    (forall m, QSH.in_engine_mode (QSH.ApplySingleBit m target h1))).
  { intros anti a b h1. destruct (Hgate anti) as (Ht & _). fold h1 in Ht.
    split_and!; [..|intros m]; (eapply same_mode_engine; [|exact Ht]).
    - apply same_mode_ApplySinglePhase.
    - apply same_mode_ApplySingleInvert.
    - apply same_mode_ApplySingleBit. }
  assert (HCP : forall a b,
            QSH.in_engine_mode (QSH.ApplyControlledSinglePhase controls target a b h)).
  { intros a b. unfold QSH.ApplyControlledSinglePhase.
    destruct (Hgate false) as (Ht & Hsw & Hfb). destruct (Hphase false a b) as (Hp & _).
    destruct (QSH.TrimControls controls false h) as [[trimmed cs] h1]. cbn [snd] in *.
    destruct trimmed; [done|]. destruct (_ =? _)%nat; [done|].
    destruct (1 <? _)%nat; rewrite ?Hsw; destruct (Hfb cs) as (Hm1 & -> & _);
      by apply on_engine_keeps_engine_mode. }
  assert (HCI : forall a b,
            QSH.in_engine_mode (QSH.ApplyControlledSingleInvert controls target a b h)).
  { intros a b. unfold QSH.ApplyControlledSingleInvert.
    destruct (Hgate false) as (Ht & Hsw & Hfb). destruct (Hphase false a b) as (_ & Hp & _).
    destruct (QSH.TrimControls controls false h) as [[trimmed cs] h1]. cbn [snd] in *.
    destruct trimmed; [done|]. destruct (_ =? _)%nat; [done|].
    destruct (1 <? _)%nat; rewrite ?Hsw; destruct (Hfb cs) as (Hm1 & -> & _);
      by apply on_engine_keeps_engine_mode. }
  assert (HAP : forall a b,
            QSH.in_engine_mode (QSH.ApplyAntiControlledSinglePhase controls target a b h)).
  { intros a b. unfold QSH.ApplyAntiControlledSinglePhase.
    destruct (Hgate true) as (Ht & Hsw & Hfb). destruct (Hphase true a b) as (Hp & _).
    destruct (QSH.TrimControls controls true h) as [[trimmed cs] h1]. cbn [snd] in *.
    destruct trimmed; [done|]. destruct (_ =? _)%nat; [done|].
    destruct (1 <? _)%nat; rewrite ?Hsw; destruct (Hfb cs) as (Hm1 & -> & _);
      by apply on_engine_keeps_engine_mode. }
  assert (HAI : forall a b,
            QSH.in_engine_mode (QSH.ApplyAntiControlledSingleInvert controls target a b h)).
  { intros a b. unfold QSH.ApplyAntiControlledSingleInvert.
    destruct (Hgate true) as (Ht & Hsw & Hfb). destruct (Hphase true a b) as (_ & Hp & _).
    destruct (QSH.TrimControls controls true h) as [[trimmed cs] h1]. cbn [snd] in *.
    destruct trimmed; [done|]. destruct (_ =? _)%nat; [done|].
    destruct (Hfb cs) as (Hm1 & He1 & Hsw1).
    destruct (1 <? _)%nat; rewrite ?Hsw1, He1; by apply on_engine_keeps_engine_mode. }
  split_and!; [done|done| |done|done|].
  - intros m. unfold QSH.ApplyControlledSingleBit.
    destruct (_ && _); [apply HCP|]. destruct (_ && _); [apply HCI|].
    destruct (Hgate false) as (Ht & Hsw & _). destruct (Hphase false ONE_CMPLX ONE_CMPLX) as (_ & _ & Hb).
    destruct (QSH.TrimControls controls false h) as [[trimmed cs] h1]. cbn [snd] in *.
    destruct trimmed; [done|]. destruct (_ =? _)%nat; [apply Hb|].
    rewrite Hsw. by apply on_engine_keeps_engine_mode.
  - intros m. unfold QSH.ApplyAntiControlledSingleBit.
    destruct (_ && _); [apply HAP|]. destruct (_ && _); [apply HAI|].
    destruct (Hgate false) as (Ht & Hsw & _). destruct (Hphase false ONE_CMPLX ONE_CMPLX) as (_ & _ & Hb).
    destruct (QSH.TrimControls controls false h) as [[trimmed cs] h1]. cbn [snd] in *.
    destruct trimmed; [done|]. destruct (_ =? _)%nat; [apply Hb|].
    rewrite Hsw. by apply on_engine_keeps_engine_mode.
Qed.

(** [Decompose] of a part of the register in engine mode. *)
Lemma Decompose_keeps_engine_mode start (h dest : hybrid) :
  QSH.in_engine_mode h -> (QSH.qubitCount dest =? QSH.qubitCount h) = false ->
  QSH.in_engine_mode (QSH.Decompose start h dest).1.
Proof.
  intros [He Hs] Hq. unfold QSH.Decompose. rewrite Hq, He.
  destruct (QSH.engine h) as [e|] eqn:E; [|done].
  destruct (QSH.engine (QSH.SwitchToEngine dest)) as [d|].
  - destruct (engine_Decompose start e d) as [e' d']. by split.
  - split; cbn; [by rewrite E|done].
Qed.

Lemma step_keeps_engine_mode op (h : hybrid) :
  QSH.header_keeps_engine_mode ->
  QSH.in_engine_mode h -> QSH.resets op h = false -> QSH.ends_in_SetPermutation op = false ->
  QSH.in_engine_mode (QSH.step op h).
Proof.
  intros HH Hm Hr Hp. pose proof HH as (HF & HFB & HT & HD' & HFin).
  pose proof Hm as [He Hs].
  pose proof (engine_mode_stabilizer h Hm) as Hst.
  pose proof (controlled_keeps_engine_mode h HH Hm) as Hc.
  destruct op; cbn [QSH.step]; try discriminate Hp.
  - by rewrite SwitchToEngine_engine_mode.
  - unfold QSH.Clone. cbn [snd]. by apply HFin.
  - unfold QSH.CCNOT. rewrite Hs. by apply on_engine_keeps_engine_mode.
  - unfold QSH.CH. rewrite Hs. by apply on_engine_keeps_engine_mode.
  - unfold QSH.CS. rewrite Hs. by apply on_engine_keeps_engine_mode.
  - unfold QSH.CIS. rewrite Hs. by apply on_engine_keeps_engine_mode.
  - unfold QSH.CCZ. rewrite Hs. by apply on_engine_keeps_engine_mode.
  - unfold QSH.CCY. rewrite Hs. by apply on_engine_keeps_engine_mode.
  - cbn in Hr. by apply Decompose_keeps_engine_mode.
  - cbn in Hr. unfold QSH.Dispose, QSH.Dispose_with. rewrite Hr, Hst, He.
    pose proof (on_engine_keeps_engine_mode (EDispose start length) h Hm) as [? ?]. by split.
  - cbn in Hr. unfold QSH.Dispose_perm, QSH.Dispose_with. rewrite Hr, Hst, He.
    pose proof (on_engine_keeps_engine_mode (EDisposePerm start length disposedPerm) h Hm)
      as [? ?]. by split.
  - cbn in Hr. unfold QSH.SetQuantumState. rewrite Hr.
    pose proof (same_mode_engine _ _ (HD' h) Hm) as Hm'.
    rewrite SwitchToEngine_engine_mode by done. by apply on_engine_keeps_engine_mode.
  - unfold QSH.GetProbs. pose proof (HF h Hm) as [He' Hs'].
    destruct (QSH.stabilizer (QSH.FlushBuffers h)); [done|].
    destruct (QSH.engine (QSH.FlushBuffers h)); [|done]. by apply HF.
  - eapply same_mode_engine; [apply same_mode_ApplySingleBit|done].
  - eapply same_mode_engine; [apply same_mode_ApplySinglePhase|done].
  - eapply same_mode_engine; [apply same_mode_ApplySingleInvert|done].
  - apply Hc.
  - apply Hc.
  - apply Hc.
  - apply Hc.
  - apply Hc.
  - apply Hc.
Qed.

(** *** Giving up the whole register *)

Lemma Dispose_with_whole call start length (h : hybrid) :
  (forall h : hybrid, QSH.same_mode h (QSH.DumpBuffers h)) ->
  length = QSH.qubitCount h ->
  let h' := QSH.Dispose_with call start length h in
  QSH.qubitCount h' = 1 /\
  QSH.stabilizer h' = Some (new_QStabilizer 1 0) /\
  QSH.in_stabilizer_mode h'.
Proof.
  intros HD' ->. cbv zeta. unfold QSH.Dispose_with. rewrite Z.eqb_refl.
  split_and!; [done|done|]. split; [done|]. cbn.
  by destruct (HD' (QSH.set_engine None (QSH.set_stabilizer None h))) as (-> & _).
Qed.

Lemma Decompose_whole start (h dest : hybrid) :
  (forall h : hybrid, QSH.same_mode h (QSH.DumpBuffers h)) ->
  QSH.qubitCount dest = QSH.qubitCount h ->
  let h' := (QSH.Decompose start h dest).1 in
  let dest' := (QSH.Decompose start h dest).2 in
  (QSH.qubitCount h' = 1 /\
   QSH.stabilizer h' = Some (new_QStabilizer 1 0) /\
   QSH.in_stabilizer_mode h') /\
  QSH.stabilizer dest' = QSH.stabilizer h /\
  QSH.engine dest' = QSH.engine h /\
  QSH.shards dest' = QSH.shards h /\
  QSH.shardsEigenZ dest' = QSH.shardsEigenZ h /\
  QSH.qubitCount dest' = QSH.qubitCount dest.
Proof.
  intros HD' Hq. cbv zeta. unfold QSH.Decompose. rewrite Hq, Z.eqb_refl. cbn [fst snd].
  split_and!; try done. split; [done|]. cbn.
  by destruct (HD' (QSH.set_engine None (QSH.set_stabilizer None h))) as (-> & _).
Qed.

Lemma step_reset op (h : hybrid) :
  (forall h, QSH.same_mode h (QSH.DumpBuffers h)) ->
  QSH.resets op h = true ->
  QSH.in_stabilizer_mode (QSH.step op h) /\ QSH.qubitCount (QSH.step op h) = 1 /\
  (forall start dest, op = QSH.OpDecompose start dest ->
     QSH.stabilizer (QSH.Decompose start h dest).2 = QSH.stabilizer h /\
     QSH.engine (QSH.Decompose start h dest).2 = QSH.engine h).
Proof.
  intros HD' Hr.
  assert (Hfull : forall call start length,
            (length =? QSH.qubitCount h) = true ->
            QSH.in_stabilizer_mode (QSH.Dispose_with call start length h) /\
            QSH.qubitCount (QSH.Dispose_with call start length h) = 1 /\
            (forall start' dest, op = QSH.OpDecompose start' dest ->
               QSH.stabilizer (QSH.Decompose start' h dest).2 = QSH.stabilizer h /\
               QSH.engine (QSH.Decompose start' h dest).2 = QSH.engine h)).
  { intros call start length Hl%Z.eqb_eq.
    destruct (Dispose_with_whole call start length h HD' Hl) as (? & _ & ?).
    split_and!; [done|done|]. intros start' dest ->. cbn in Hr. apply Z.eqb_eq in Hr.
    by destruct (Decompose_whole start' h dest HD' Hr) as (_ & ? & ? & _). }
  destruct op; try discriminate Hr; cbn in Hr; cbn [QSH.step].
  - apply Z.eqb_eq in Hr.
    destruct (Decompose_whole start h dest HD' Hr) as ((? & _ & ?) & ? & ? & _).
    split_and!; [done|done|]. by intros ? ? [= <- <-].
  - by apply Hfull.
  - by apply Hfull.
  - unfold QSH.SetQuantumState. rewrite Hr.
    apply Z.eqb_eq in Hr.
    set (h1 := QSH.set_engine None (QSH.DumpBuffers h)).
    set (h2 := match QSH.stabilizer h1 with
               | Some _ => QSH.on_stabilizer (SSetPermutation 0) h1
               | None => QSH.set_stabilizer (Some (QSH.MakeStabilizer 0 h1)) h1
               end).
    assert (H2 : QSH.in_stabilizer_mode h2 /\ QSH.qubitCount h2 = 1).
    { subst h2. destruct (QSH.stabilizer h1) eqn:E.
      - unfold QSH.in_stabilizer_mode, QSH.on_stabilizer. cbn.
        unfold h1 in E. cbn in E. by rewrite E.
      - done. }
    destruct H2 as [Hm2 Hq2].
    match goal with |- context [QSH.ApplySingleBit ?m 0 h2] =>
      pose proof (same_mode_ApplySingleBit m 0 h2) as Hsm end.
    split_and!; [by eapply same_mode_stabilizer| |done].
    destruct Hsm as (_ & _ & ->). done.
Qed.

Lemma SwitchToEngine_from_stabilizer (h : hybrid) :
  (forall h, QSH.in_engine_mode h -> QSH.in_engine_mode (QSH.FlushBuffers h)) ->
  QSH.in_stabilizer_mode h -> QSH.in_engine_mode (QSH.SwitchToEngine h).
Proof.
  intros HF [Hs He]. unfold QSH.SwitchToEngine.
  destruct (QSH.engine h); [discriminate He|]. by apply HF.
Qed.

(** [SetQuantumState] on a register of more than one qubit asks for the
    engine. *)
Lemma SetQuantumState_switches inputState (h : hybrid) :
  QSH.header_keeps_engine_mode ->
  QSH.in_stabilizer_mode h \/ QSH.in_engine_mode h -> QSH.qubitCount h <> 1 ->
  QSH.in_engine_mode (QSH.SetQuantumState inputState h).
Proof.
  intros (HF & _ & _ & HD' & _) Hm Hq. unfold QSH.SetQuantumState.
  destruct (HD' h) as (He & Hs & Hqc). rewrite Hqc.
  destruct (Z.eqb_spec (QSH.qubitCount h) 1); [done|].
  apply on_engine_keeps_engine_mode.
  destruct Hm as [Hm|Hm].
  - apply SwitchToEngine_from_stabilizer; [done|]. by apply (same_mode_stabilizer h).
  - rewrite SwitchToEngine_engine_mode; by apply (same_mode_engine h).
Qed.

Lemma run_keeps_engine_mode ops (h : hybrid) :
  QSH.header_keeps_engine_mode ->
  QSH.in_engine_mode h -> QSH.never_resets ops h -> QSH.in_engine_mode (QSH.run ops h).
Proof.
  intros HH. unfold QSH.run. revert h.
  induction ops as [|op ops IH]; intros h Hm Hn; [done|].
  destruct Hn as (Hr & Hp & Hn). simpl. apply IH; [|done].
  by apply step_keeps_engine_mode.
Qed.

(** [MAll] in engine mode: the engine is measured and [SetPermutation] is
    called with what it found. *)
Lemma MAll_engine_mode (h : hybrid) e :
  QSH.in_engine_mode h -> QSH.engine h = Some e ->
  QSH.MAll h =
  ((engine_MAll e).1,
   QSH.SetPermutation (engine_MAll e).1 (QSH.set_engine (Some (engine_MAll e).2) h)).
Proof.
  intros Hm He. unfold QSH.MAll.
  rewrite (engine_mode_stabilizer h Hm). cbn [QSH.is_set].
  rewrite (engine_mode_stabilizer h Hm), He.
  by destruct (engine_MAll e).
Qed.


End Hybrid_modes.

(** The header of [TrackedRegister] keeps engine mode. *)
Lemma TrackedRegister_keeps_engine_mode {R1 : Real1} {LM : Libm R1} :
  @QSH.header_keeps_engine_mode R1 TrackedRegister.t TrackedRegister.t TrackedRegister.header.
Proof. by split_and!. Qed.

(** * Controls in a basis state *)

Section ZeroAmplitudes.
#[local] Existing Instance Real1_R.

Lemma norm_nonneg (amp : complex) : (0 <= norm amp)%R.
Proof. destruct amp as [a b]. unfold norm. cbn. nra. Qed.

Lemma norm_zero (amp : complex) : norm amp = 0%R -> amp = ZERO_CMPLX.
Proof.
  destruct amp as [a b]. unfold norm, ZERO_CMPLX. cbn. intros H.
  assert (a = 0)%R by nra. assert (b = 0)%R by nra. by subst.
Qed.

Lemma sum_where_cons pick amp (stateVec : list complex) :
  sum_where pick (amp :: stateVec) =
  ((if pick 0%nat then norm amp else 0) + sum_where (pick ∘ S) stateVec)%R.
Proof. done. Qed.

Lemma sum_where_nonneg pick (stateVec : list complex) : (0 <= sum_where pick stateVec)%R.
Proof.
  revert pick. induction stateVec as [|amp sv IH]; intros pick.
  - cbn. lra.
  - rewrite sum_where_cons. pose proof (IH (pick ∘ S)). pose proof (norm_nonneg amp).
    destruct (pick 0%nat); lra.
Qed.

Lemma sum_where_zero pick (stateVec : list complex) :
  sum_where pick stateVec = 0%R -> zero_where pick stateVec.
Proof.
  revert pick. induction stateVec as [|amp sv IH]; intros pick Hsum i a Hi Hsel.
  - done.
  - rewrite sum_where_cons in Hsum.
    pose proof (sum_where_nonneg (pick ∘ S) sv). pose proof (norm_nonneg amp).
    destruct i as [|i]; cbn in Hi.
    + simplify_eq. rewrite Hsel in Hsum. apply norm_zero. lra.
    + apply (IH (pick ∘ S)) with i; [|done|done].
      destruct (pick 0%nat); lra.
Qed.

Lemma sum_where_split pick (stateVec : list complex) :
  (sum_where pick stateVec + sum_where (negb ∘ pick) stateVec)%R = total_spec stateVec.
Proof.
  unfold total_spec. revert pick. induction stateVec as [|amp sv IH]; intros pick.
  - cbn. lra.
  - rewrite !sum_where_cons. specialize (IH (pick ∘ S)).
    change ((λ _ : nat, true) ∘ S) with (λ _ : nat, true).
    change ((negb ∘ pick) ∘ S) with (negb ∘ (pick ∘ S)).
    change ((negb ∘ pick) 0%nat) with (negb (pick 0%nat)).
    destruct (pick 0%nat); cbn [negb]; lra.
Qed.

(** A qubit whose chance of |1> is exactly 0 has no amplitude at the indices
    with its bit set; one whose chance is exactly 1, in a state of total
    probability 1, has none at the indices with its bit clear. *)
Lemma prob_zero_amplitudes qubit (stateVec : list complex) :
  prob_spec qubit stateVec = 0%R ->
  zero_where (λ i, Z.testbit (Z.of_nat i) qubit) stateVec.
Proof. apply sum_where_zero. Qed.

Lemma prob_one_amplitudes qubit (stateVec : list complex) :
  total_spec stateVec = 1%R -> prob_spec qubit stateVec = 1%R ->
  zero_where (λ i, negb (Z.testbit (Z.of_nat i) qubit)) stateVec.
Proof.
  intros Ht Hp. apply sum_where_zero.
  pose proof (sum_where_split (λ i, Z.testbit (Z.of_nat i) qubit) stateVec) as Hs.
  unfold prob_spec in Hp. rewrite Hp, Ht in Hs.
  change (negb ∘ _) with (λ i, negb (Z.testbit (Z.of_nat i) qubit)) in Hs. lra.
Qed.

Lemma zero_where_total pick (stateVec : list complex) (j : nat) :
  zero_where pick stateVec -> pick j = true -> stateVec !!! j = ZERO_CMPLX.
Proof.
  intros Hz Hs. destruct (stateVec !! j) as [amp|] eqn:E.
  - rewrite (list_lookup_total_correct _ _ _ E). by apply (Hz j).
  - by rewrite list_lookup_total_alt, E.
Qed.

Lemma X_spec_pointwise target stateVec :
  X_spec target stateVec = pointwise (λ i, Z.lxor i (2 ^ target)) (λ _ amp, amp) stateVec.
Proof. done. Qed.

Lemma Z_spec_pointwise target stateVec :
  Z_spec target stateVec =
  pointwise (λ i, i) (λ i amp, if Z.testbit i target then cneg amp else amp) stateVec.
Proof.
  unfold Z_spec, pointwise. apply list_eq. intros i. rewrite !list_lookup_imap.
  destruct (stateVec !! i) as [amp|] eqn:E; [|done]. cbn.
  by rewrite Nat2Z.id, (list_lookup_total_correct _ _ _ E).
Qed.


Lemma X_keeps_bit c target : c <> target -> keeps_bit c (λ i, Z.lxor i (2 ^ target)).
Proof.
  intros Hc i Hi. split.
  - apply Z.lxor_nonneg. split; intros _; [|done].
    destruct (Z.le_gt_cases 0 target); [apply Z.pow_nonneg; lia|].
    rewrite Z.pow_neg_r; lia.
  - rewrite Z.lxor_spec.
    destruct (Z.le_gt_cases 0 target) as [Ht|Ht].
    + rewrite Z.pow2_bits_eqb by done.
      destruct (Z.eqb_spec target c); [lia|]. apply xorb_false_r.
    + rewrite Z.pow_neg_r by lia. rewrite Z.bits_0. apply xorb_false_r.
Qed.

Lemma id_keeps_bit c : keeps_bit c (λ i, i).
Proof. by intros i Hi. Qed.

Lemma X_keeps_zero : keeps_zero (λ _ amp, amp).
Proof. done. Qed.

Lemma cneg_zero : cneg ZERO_CMPLX = ZERO_CMPLX.
Proof. unfold cneg, ZERO_CMPLX. cbn. f_equal; lra. Qed.

Lemma Z_keeps_zero target : keeps_zero (λ i amp, if Z.testbit i target then cneg amp else amp).
Proof. intros i. destruct (Z.testbit i target); [apply cneg_zero|done]. Qed.

Lemma controlled_pointwise_lookup controls source change (stateVec : list complex) i :
  controlled_spec controls (pointwise source change) stateVec !! i =
  (λ amp, if forallb (Z.testbit (Z.of_nat i)) controls
          then change (Z.of_nat i) (stateVec !!! Z.to_nat (source (Z.of_nat i)))
          else amp) <$> stateVec !! i.
Proof.
  unfold controlled_spec. rewrite list_lookup_imap.
  destruct (stateVec !! i) as [amp|] eqn:E; [|done]. cbn.
  destruct (forallb _ _); [|done]. f_equal.
  unfold pointwise. apply list_lookup_total_correct.
  by rewrite list_lookup_imap, E.
Qed.

(** With no amplitude where control [c] is set, the controlled gate changes
    nothing. *)
Lemma controlled_zero_control c controls source change (stateVec : list complex) :
  c ∈ controls -> keeps_bit c source -> keeps_zero change ->
  zero_where (λ i, Z.testbit (Z.of_nat i) c) stateVec ->
  controlled_spec controls (pointwise source change) stateVec = stateVec.
Proof.
  intros Hc Hs Hch Hz. apply list_eq. intros i.
  rewrite controlled_pointwise_lookup.
  destruct (stateVec !! i) as [amp|] eqn:E; [|done]. cbn. f_equal.
  destruct (forallb _ _) eqn:Hall; [|done].
  assert (Z.testbit (Z.of_nat i) c = true) as Hbit.
  { rewrite forallb_forall in Hall. apply Hall. by apply list_elem_of_In. }
  rewrite (Hz i amp E Hbit).
  destruct (Hs (Z.of_nat i) ltac:(lia)) as [Hnn Hb].
  rewrite (zero_where_total _ _ _ Hz); [apply Hch|].
  cbn. rewrite Z2Nat.id by done. by rewrite Hb.
Qed.

(** With no amplitude where control [c] is clear, the control [c] can be
    left out. *)
Lemma controlled_one_control c controls source change (stateVec : list complex) :
  keeps_bit c source -> keeps_zero change ->
  zero_where (λ i, negb (Z.testbit (Z.of_nat i) c)) stateVec ->
  controlled_spec (c :: controls) (pointwise source change) stateVec =
  controlled_spec controls (pointwise source change) stateVec.
Proof.
  intros Hs Hch Hz. apply list_eq. intros i.
  rewrite !controlled_pointwise_lookup.
  destruct (stateVec !! i) as [amp|] eqn:E; [|done]. cbn. f_equal.
  destruct (Z.testbit (Z.of_nat i) c) eqn:Hbit; [done|]. cbn.
  assert (amp = ZERO_CMPLX) as -> by (apply (Hz i amp E); by rewrite Hbit).
  destruct (forallb _ _); [|done].
  destruct (Hs (Z.of_nat i) ltac:(lia)) as [Hnn Hb].
  rewrite (zero_where_total _ _ _ Hz); [by rewrite Hch|].
  cbn. rewrite Z2Nat.id by done. by rewrite Hb, Hbit.
Qed.

Lemma controlled_spec_ext controls gate gate' (stateVec : list complex) :
  (forall stateVec, gate stateVec = gate' stateVec) ->
  controlled_spec controls gate stateVec = controlled_spec controls gate' stateVec.
Proof. intros Hg. unfold controlled_spec. by rewrite Hg. Qed.

Lemma controlled_swap c1 c2 gate (stateVec : list complex) :
  controlled_spec [c1; c2] gate stateVec = controlled_spec [c2; c1] gate stateVec.
Proof.
  unfold controlled_spec. apply imap_ext. intros i amp _. cbn.
  by rewrite !andb_true_r, andb_comm.
Qed.

End ZeroAmplitudes.

Section ControlElimination.
#[local] Existing Instance Real1_R.
#[local] Existing Instance Libm_R.
Context {QStabilizer QEngine : Type}.
Context {SO : QStabilizerOps QStabilizer QEngine} {EO : QEngineOps QEngine}.
Context {HD : QSH.Header QStabilizer QEngine}.
Variable amplitudes : QSH.t QStabilizer QEngine -> list complex.

#[local] Abbreviation hybrid := (QSH.t QStabilizer QEngine).

Lemma r_eqb_true (x y : R) : r_eqb x y = true <-> x = y.
Proof. cbn. destruct (Req_dec_T x y); split; done. Qed.

Lemma r_eqb_false (x y : R) : r_eqb x y = false <-> x <> y.
Proof. cbn. destruct (Req_dec_T x y); split; done. Qed.

(** What the probes of a gate find, and the layer they leave. *)
Lemma probe (h : hybrid) qubit :
  header_contract amplitudes -> QSH.is_set (QSH.stabilizer h) = true ->
  0 <= qubit < QSH.qubitCount h ->
  exists h', QSH.Prob qubit h = (prob_spec qubit (amplitudes h), h') /\
             amplitudes h' = amplitudes h /\
             QSH.is_set (QSH.stabilizer h') = true /\
             QSH.qubitCount h' = QSH.qubitCount h.
Proof.
  intros Hc Hs Hq. destruct (Hc h Hs) as [Hp _].
  destruct (Hp qubit Hq) as (H1 & H2 & H3 & H4).
  destruct (QSH.Prob qubit h) as [p h'] eqn:E. cbn in *. subst p. by exists h'.
Qed.

Lemma zero_is_not_one (x : R) : x = 1%R -> x <> 0%R.
Proof. lra. Qed.

(** The gate a shortcut of [CCNOT] or [CCZ] amounts to is the doubly
    controlled gate. [gate2] is the singly controlled gate of the header,
    [source] and [change] describe the gate on the target. *)
Lemma shortcut_is_doubly_controlled source change (c1 c2 : Z) (stateVec : list complex) :
  c1 <> c2 -> keeps_bit c1 source -> keeps_bit c2 source -> keeps_zero change ->
  total_spec stateVec = 1%R ->
  let p q := prob_spec q stateVec in
  let doubly := controlled_spec [c1; c2] (pointwise source change) stateVec in
  (p c1 = 0%R \/ p c2 = 0%R -> doubly = stateVec) /\
  (p c1 = 1%R -> doubly = controlled_spec [c2] (pointwise source change) stateVec) /\
  (p c2 = 1%R -> doubly = controlled_spec [c1] (pointwise source change) stateVec).
Proof.
  intros Hne Hk1 Hk2 Hz Ht p doubly. split_and!.
  - intros [H0|H0]; apply prob_zero_amplitudes in H0.
    + apply (controlled_zero_control c1); [apply elem_of_cons; by left|done|done|done].
    + apply (controlled_zero_control c2);
        [apply elem_of_cons; right; apply elem_of_cons; by left|done|done|done].
  - intros H1. apply (prob_one_amplitudes _ _ Ht) in H1.
    by apply controlled_one_control.
  - intros H1. apply (prob_one_amplitudes _ _ Ht) in H1.
    unfold doubly. rewrite controlled_swap. by apply controlled_one_control.
Qed.

(** C2. In stabilizer mode, for a header that keeps the contract
    [header_contract] and a state of total probability 1, on three different
    qubits of the register. When a control of [CCNOT] or of [CCZ] has a
    chance of |1> of exactly 0 the gate leaves the state the layer stands
    for as it was, on every path: [CCNOT(control1, control2, target)] with
    [control1] at chance 1 and [control2] at chance 0 calls
    [CNOT(control2, target)], which changes nothing in that state. When
    [control1] has a chance of exactly 1 the gate is the call of the singly
    controlled gate of the header on the other control and the target, and
    when either control has a chance of exactly 1 the state after the gate
    is the state the singly controlled gate on the other control gives. In
    all of these cases the state after the gate is the state the doubly
    controlled gate gives. *)
Theorem CCNOT_CCZ_control_elimination (control1 control2 target : Z) (h : hybrid) :
  header_contract amplitudes ->
  QSH.is_set (QSH.stabilizer h) = true ->
  0 <= control1 < QSH.qubitCount h -> 0 <= control2 < QSH.qubitCount h ->
  0 <= target < QSH.qubitCount h ->
  control1 <> control2 -> control1 <> target -> control2 <> target ->
  total_spec (amplitudes h) = 1%R ->
  let state := amplitudes h in
  let p qubit := prob_spec qubit state in
  let after_CCNOT := amplitudes (QSH.CCNOT control1 control2 target h) in
  let after_CCZ := amplitudes (QSH.CCZ control1 control2 target h) in
  (p control1 = 0%R \/ p control2 = 0%R -> after_CCNOT = state /\ after_CCZ = state) /\
  (p control1 = 1%R ->
     QSH.CCNOT control1 control2 target h =
       QSH.CNOT control2 target (QSH.Prob control1 h).2 /\
     QSH.CCZ control1 control2 target h =
       QSH.CZ control2 target (QSH.Prob control1 h).2 /\
     after_CCNOT = CNOT_spec control2 target state /\
     after_CCZ = CZ_spec control2 target state) /\
  (p control2 = 1%R ->
     after_CCNOT = CNOT_spec control1 target state /\
     after_CCZ = CZ_spec control1 target state) /\
  (p control1 = 0%R \/ p control1 = 1%R \/ p control2 = 0%R \/ p control2 = 1%R ->
     after_CCNOT = CCNOT_spec control1 control2 target state /\
     after_CCZ = CCZ_spec control1 control2 target state).
Proof.
  intros Hc Hs H1 H2 Ht N12 N1t N2t Htot state p after_CCNOT after_CCZ.
  (* the probes *)
  destruct (probe h control1 Hc Hs H1) as (h1 & E1 & A1 & S1 & Q1).
  destruct (probe h1 control2 Hc S1 ltac:(lia)) as (h2 & E2 & A2 & S2 & Q2).
  rewrite A1 in E2. rewrite A1 in A2.
  destruct (Hc h1 S1) as [_ G1]. destruct (Hc h2 S2) as [_ G2].
  destruct (G1 control2 target ltac:(lia) ltac:(lia) N2t) as [GX1 GZ1].
  destruct (G2 control1 target ltac:(lia) ltac:(lia) N1t) as [GX2 GZ2].
  rewrite A1 in GX1, GZ1. rewrite A2 in GX2, GZ2.
  fold state in E1, E2, GX1, GZ1, GX2, GZ2, A1, A2. fold (p control1) in E1. fold (p control2) in E2.
  (* the gates on the state *)
  destruct (shortcut_is_doubly_controlled (λ i, Z.lxor i (2 ^ target)) (λ _ amp, amp)
              control1 control2 state N12 (X_keeps_bit _ _ N1t) (X_keeps_bit _ _ N2t)
              X_keeps_zero Htot) as (XZ & XO1 & XO2).
  destruct (shortcut_is_doubly_controlled (λ i, i)
              (λ i amp, if Z.testbit i target then cneg amp else amp)
              control1 control2 state N12 (id_keeps_bit _) (id_keeps_bit _)
              (Z_keeps_zero target) Htot) as (ZZ & ZO1 & ZO2).
  cbv zeta in XZ, XO1, XO2, ZZ, ZO1, ZO2.
  change (pointwise (λ i, Z.lxor i (2 ^ target)) (λ _ amp, amp)) with (X_spec target)
    in XZ, XO1, XO2.
  rewrite <- (controlled_spec_ext [control1; control2] _ _ state (Z_spec_pointwise target))
    in ZZ, ZO1, ZO2.
  rewrite <- (controlled_spec_ext [control2] _ _ state (Z_spec_pointwise target)) in ZO1.
  rewrite <- (controlled_spec_ext [control1] _ _ state (Z_spec_pointwise target)) in ZO2.
  fold p in XZ, XO1, XO2, ZZ, ZO1, ZO2.
  fold (CCNOT_spec control1 control2 target state) in XZ, XO1, XO2.
  fold (CCZ_spec control1 control2 target state) in ZZ, ZO1, ZO2.
  fold (CNOT_spec control2 target state) in XO1. fold (CNOT_spec control1 target state) in XO2.
  fold (CZ_spec control2 target state) in ZO1. fold (CZ_spec control1 target state) in ZO2.
  (* the paths of the code *)
  assert (Hpaths :
    (p control1 = 0%R -> after_CCNOT = state /\ after_CCZ = state) /\
    (p control1 = 1%R ->
       QSH.CCNOT control1 control2 target h = QSH.CNOT control2 target h1 /\
       QSH.CCZ control1 control2 target h = QSH.CZ control2 target h1 /\
       after_CCNOT = CNOT_spec control2 target state /\
       after_CCZ = CZ_spec control2 target state) /\
    (p control1 <> 0%R -> p control1 <> 1%R -> p control2 = 0%R ->
       after_CCNOT = state /\ after_CCZ = state) /\
    (p control1 <> 0%R -> p control1 <> 1%R -> p control2 = 1%R ->
       after_CCNOT = CNOT_spec control1 target state /\
       after_CCZ = CZ_spec control1 target state)).
  { subst after_CCNOT after_CCZ. unfold QSH.CCNOT, QSH.CCZ. rewrite Hs, E1.
    change ZERO_R1 with 0%R. change ONE_R1 with 1%R.
    split_and!.
    - intros P0. apply r_eqb_true in P0. rewrite P0. done.
    - intros P1. pose proof (zero_is_not_one _ P1) as P0.
      apply r_eqb_false in P0. apply r_eqb_true in P1. rewrite P0, P1. done.
    - intros P0 P1 P20. apply r_eqb_false in P0, P1. apply r_eqb_true in P20.
      rewrite P0, P1, E2, P20. done.
    - intros P0 P1 P21. pose proof (zero_is_not_one _ P21) as P20.
      apply r_eqb_false in P0, P1, P20. apply r_eqb_true in P21.
      rewrite P0, P1, E2, P20, P21. done. }
  destruct Hpaths as (Pa & Pb & Pc & Pd).
  assert (Hh1 : (QSH.Prob control1 h).2 = h1) by (by rewrite E1).
  rewrite Hh1.
  assert (Hall : p control1 = 0%R \/ p control1 = 1%R \/ p control2 = 0%R \/ p control2 = 1%R ->
                 after_CCNOT = CCNOT_spec control1 control2 target state /\
                 after_CCZ = CCZ_spec control1 control2 target state).
  { intros Hcase.
    destruct (Req_dec_T (p control1) 0) as [P0|P0].
    { destruct (Pa P0) as [Ea Eb]. rewrite Ea, Eb.
      rewrite XZ, ZZ by (left; exact P0). done. }
    destruct (Req_dec_T (p control1) 1) as [P1|P1].
    { destruct (Pb P1) as (_ & _ & Ea & Eb). rewrite Ea, Eb.
      by rewrite (XO1 P1), (ZO1 P1). }
    destruct Hcase as [?|[?|[P20|P21]]]; [done|done|..].
    - destruct (Pc P0 P1 P20) as [Ea Eb]. rewrite Ea, Eb.
      rewrite XZ, ZZ by (right; exact P20). done.
    - destruct (Pd P0 P1 P21) as [Ea Eb]. rewrite Ea, Eb.
      by rewrite (XO2 P21), (ZO2 P21). }
  split_and!.
  - intros Hz. destruct Hall as [Ea Eb]; [destruct Hz; auto|].
    rewrite Ea, Eb. by rewrite XZ, ZZ.
  - intros P1. destruct (Pb P1) as (? & ? & ? & ?). done.
  - intros P21. destruct Hall as [Ea Eb]; [auto|].
    rewrite Ea, Eb. by rewrite (XO2 P21), (ZO2 P21).
  - done.
Qed.

End ControlElimination.

(** The header of [DenseRegister] keeps the contract. *)
Lemma DenseRegister_contract {R1 : Real1} {LM : Libm R1} :
  @header_contract R1 DenseRegister.t DenseRegister.t DenseRegister.header
    DenseRegister.amplitudes.
Proof.
  intros h Hs. split.
  - intros qubit Hq. by split_and!.
  - intros control target Hc Ht Hne.
    destruct h as [n [s|] [e|] sh ez]; try discriminate Hs; by split.
Qed.


(** ** The capacity guard of the constructors *)

Section Construct.
Context {R1 : Real1} {LM : Libm R1}.

(** A count above the number of bits of [bitCapInt] that a [bitLenInt]
    holds is not changed on its way into the constructor. *)
Lemma wrapLen_over_capacity (qBitCount : Z) :
  sizeof_bitCapInt * bitsInByte < qBitCount < 2 ^ bitsInByte ->
  wrapLen qBitCount = qBitCount.
Proof.
  intros Hq. unfold wrapLen. apply Z.mod_small.
  change (sizeof_bitCapInt * bitsInByte) with 64 in Hq. lia.
Qed.

(** [pow2 n] against the number of bits of [bitCapIntOcl]. *)
Lemma pow2_over_bits (n : Z) :
  0 <= n < bitsInCap -> (sizeof_bitCapIntOcl * bitsInByte < pow2 n <-> 6 < n).
Proof.
  intros Hn. change (sizeof_bitCapIntOcl * bitsInByte) with (2 ^ 6).
  rewrite (pow2_small n Hn). split; intros H.
  - apply Z.pow_lt_mono_r_iff in H; lia.
  - apply Z.pow_lt_mono_r; lia.
Qed.

Lemma CPU_construct_throws mem rand qBitCount initState phaseFac :
  QEngineCPU.construct mem rand qBitCount initState phaseFac = Throw CapacityExceeded <->
  sizeof_bitCapInt * bitsInByte < wrapLen qBitCount.
Proof.
  unfold QEngineCPU.construct. cbv zeta.
  destruct (Z.ltb_spec (sizeof_bitCapInt * bitsInByte) (wrapLen qBitCount)); split; try done; lia.
Qed.

Lemma OCL_construct_throws rand nrmGroupCount qBitCount initState phaseFac :
  QEngineOCL.construct rand nrmGroupCount qBitCount initState phaseFac = Throw CapacityExceeded <->
  sizeof_bitCapInt * bitsInByte < wrapLen qBitCount.
Proof.
  unfold QEngineOCL.construct. cbv zeta.
  destruct (Z.ltb_spec (sizeof_bitCapInt * bitsInByte) (wrapLen qBitCount)); split; try done; lia.
Qed.

Lemma QPager_construct_throws SetQubitCount MakeEngine SetAmplitude qBitCount initState :
  QPager.construct SetQubitCount MakeEngine SetAmplitude qBitCount initState =
    Throw CapacityExceeded <->
  sizeof_bitCapIntOcl * bitsInByte <
    pow2 (QPager.g_qubitsPerPage (SetQubitCount (wrapLen qBitCount))).
Proof.
  unfold QPager.construct. cbv zeta.
  destruct (Z.ltb_spec (sizeof_bitCapIntOcl * bitsInByte)
              (pow2 (QPager.g_qubitsPerPage (SetQubitCount (wrapLen qBitCount))))).
  - split; [lia|done].
  - split; [|lia]. by destruct (foldl _ _ _).
Qed.


End Construct.

(** ** [Decohere] and [Cohere] on two qubits *)

Section Decohere_two_qubits.
Context {R1 : Real1} {LM : Libm R1}.
Import QEngineCPU.

Lemma normalize_if_needed_unit (e : QEngineCPU.t) :
  r_eqb (runningNorm e) ONE_R1 = true -> normalize_if_needed e = e.
Proof. intros Hn. unfold normalize_if_needed. by rewrite Hn. Qed.

(** [Decohere] of the high qubit of a two-qubit engine, step by step. *)
Lemma Decohere_high_qubit (rn rn' : real1) (a0 a1 a2 a3 d0 d1 : complex)
    (mem : list complex) (partStateAngle0 remainderStateAngle0 : list real1) :
  r_eqb rn ONE_R1 = true ->
  let partStateAngle := resize 2 ZERO_R1 partStateAngle0 in
  Decohere mem partStateAngle0 remainderStateAngle0 1 1
    (Build 2 4 rn [a0; a1; a2; a3]) (Build 1 2 rn' [d0; d1]) =
  (Build 1 2 rn
     [from_polar (ZERO_R1 + norm a0 + norm a2)%r1 (arg a0);
      from_polar (ZERO_R1 + norm a1 + norm a3)%r1 (arg a2)],
   Build 1 2 rn'
     [from_polar (ZERO_R1 + norm a0 + norm a1)%r1 (partStateAngle !!! 0%nat);
      from_polar (ZERO_R1 + norm a2 + norm a3)%r1 (partStateAngle !!! 1%nat)]).
Proof.
  intros Hn. cbv zeta. unfold Decohere. cbn [Z.eqb].
  rewrite (normalize_if_needed_unit (Build 2 4 rn [a0; a1; a2; a3]) Hn).
  destruct mem as [|m0 [|m1 mem]];
    destruct partStateAngle0 as [|p0 [|p1 partStateAngle0]];
    destruct remainderStateAngle0 as [|r0 [|r1 remainderStateAngle0]].
  all: cbv -[norm arg from_polar r_add ZERO_R1].
  all: try destruct mem; try destruct partStateAngle0; try destruct remainderStateAngle0.
  all: reflexivity.
Qed.

(** [Cohere] of two one-qubit engines, step by step. *)
Lemma Cohere_one_qubit_each (rn rn' : real1) (r0 r1 e0 e1 : complex) (mem : list complex) :
  r_eqb rn ONE_R1 = true -> r_eqb rn' ONE_R1 = true ->
  Cohere mem (Build 1 2 rn [r0; r1]) (Build 1 2 rn' [e0; e1]) =
  (1, Build 2 4 rn [zmul r0 e0; zmul r1 e0; zmul r0 e1; zmul r1 e1], Build 1 2 rn' [e0; e1]).
Proof.
  intros Hn Hn'. unfold Cohere.
  rewrite (normalize_if_needed_unit (Build 1 2 rn [r0; r1]) Hn).
  rewrite (normalize_if_needed_unit (Build 1 2 rn' [e0; e1]) Hn').
  destruct mem as [|m0 [|m1 [|m2 [|m3 mem]]]]; cbv -[zmul]; try destruct mem; reflexivity.
Qed.
End Decohere_two_qubits.

(** * Work-group sizes *)

Section WorkGroup_proofs.
Import QEngineOCL WorkGroup.

Lemma double_until_pow2 d j w :
  0 <= j -> exists k, j <= k /\ double_until d (2 ^ j) w = 2 ^ k.
Proof.
  revert j. induction d as [|d IH]; intros j Hj; simpl.
  - exists j. lia.
  - destruct (2 ^ j <? w).
    + destruct (IH (j + 1) ltac:(lia)) as (k & Hk & E).
      exists k. split; [lia|]. rewrite <- E, Z.pow_add_r by lia. done.
    + exists j. lia.
Qed.

(** X8. [FixWorkItemCount(maxI, wic)] returns [maxI] when [wic] is greater,
    and otherwise the largest power of two that is not greater than [wic]
    (1 when [wic] is 0); no doubling of the loop leaves the range of
    [size_t]. *)
Theorem FixWorkItemCount_power_of_two (maxI wic : Z) :
  0 <= wic < 2 ^ (bitsInCap - 1) ->
  FixWorkItemCount maxI wic = (if maxI <? wic then maxI else 2 ^ Z.log2 wic) /\
  double_until (Z.to_nat bitsInCap) 2 wic < 2 ^ bitsInCap.
Proof.
  intros Hw. unfold FixWorkItemCount.
  assert (Hcap : 2 ^ (bitsInCap - 1) * 2 = 2 ^ bitsInCap) by reflexivity.
  destruct (Z.le_gt_cases wic 1) as [Hsmall|Hbig].
  - assert (E : double_until (Z.to_nat bitsInCap) 2 wic = 2).
    { change (Z.to_nat bitsInCap) with (S 63). cbn [double_until].
      destruct (Z.ltb_spec 2 wic); [lia|done]. }
    rewrite E. split; [|done].
    destruct (maxI <? wic); [done|].
    destruct (Z.ltb_spec wic 2); [|lia].
    assert (wic = 0 \/ wic = 1) as [-> | ->] by lia; reflexivity.
  - pose proof (double_until_exit (Z.to_nat bitsInCap) 2 wic ltac:(lia) ltac:(lia)) as Hex.
    assert (wic <= 2 * 2 ^ Z.of_nat (Z.to_nat bitsInCap)) as Hfuel.
    { change (2 ^ Z.of_nat (Z.to_nat bitsInCap)) with (2 ^ bitsInCap). lia. }
    specialize (Hex Hfuel).
    destruct (double_until_pow2 (Z.to_nat bitsInCap) 1 wic ltac:(lia)) as (k & Hk & E).
    change (2 ^ 1) with 2 in E. rewrite E in *.
    split; [|lia].
    destruct (maxI <? wic); [done|]. cbv zeta.
    destruct (Z.ltb_spec wic (2 ^ k)).
    + rewrite Z.shiftr_div_pow2 by lia. change (2 ^ 1) with 2.
      assert (2 ^ k = 2 ^ (k - 1) * 2) as Ek.
      { replace k with (Z.succ (k - 1)) at 1 by lia. rewrite Z.pow_succ_r by lia. lia. }
      rewrite Ek, Z.div_mul by lia.
      f_equal. symmetry. apply Z.log2_unique; [lia|].
      replace (Z.succ (k - 1)) with k by lia. lia.
    + assert (wic = 2 ^ k) as -> by lia. rewrite Z.log2_pow2 by lia. done.
Qed.

(** The loop ends by its test: from a group size that is positive and not
    above [wic] the result divides [wic], is the least divisor not below the
    start, and a larger bound on the passes changes nothing. *)
Lemma next_divisor_exit passes wic gs :
  0 < gs <= wic -> (Z.to_nat (wic - gs) <= passes)%nat ->
  let r := next_divisor passes wic gs in
  gs <= r <= wic /\ (r | wic) /\ (forall d, gs <= d < r -> ~ (d | wic)).
Proof.
  revert gs. induction passes as [|passes IH]; intros gs Hgs Hfuel; cbn [next_divisor].
  - assert (gs = wic) as -> by lia. cbv zeta. split_and!; [lia|lia|done|lia].
  - cbv zeta. destruct (Z.eqb_spec (wic `div` gs * gs) wic) as [E|E].
    + split_and!; [lia|lia| |lia]. exists (wic `div` gs). lia.
    + assert (~ (gs | wic)) as Hnd.
      { intros [q Hq]. apply E. rewrite Hq, Z.div_mul by lia. done. }
      assert (gs <> wic) by (intros ->; apply Hnd; done).
      destruct (IH (gs + 1) ltac:(lia) ltac:(lia)) as (Hr & Hd & Hleast).
      split_and!; [lia|lia|done|].
      intros d Hdr. destruct (decide (d = gs)) as [->|]; [done|]. apply Hleast. lia.
Qed.

Lemma next_divisor_stable passes passes' wic gs :
  0 < gs <= wic -> (Z.to_nat (wic - gs) <= passes)%nat -> (passes <= passes')%nat ->
  next_divisor passes' wic gs = next_divisor passes wic gs.
Proof.
  revert passes' gs. induction passes as [|passes IH]; intros passes' gs Hgs Hfuel Hle.
  - assert (gs = wic) as -> by lia. destruct passes'; cbn [next_divisor]; [done|].
    rewrite Z.div_same, Z.mul_1_l by lia. by rewrite Z.eqb_refl.
  - destruct passes' as [|passes']; [lia|]. cbn [next_divisor].
    destruct (Z.eqb_spec (wic `div` gs * gs) wic) as [E|E]; [done|].
    assert (gs <> wic).
    { intros ->. apply E. rewrite Z.div_same by lia. lia. }
    apply IH; lia.
Qed.

Lemma divisor_of_pow2 k r : 0 <= k -> 0 < r -> (r | 2 ^ k) -> exists j, 0 <= j <= k /\ r = 2 ^ j.
Proof.
  intros Hk. revert r. pattern k. apply natlike_ind; [| |done].
  - intros r Hr Hd. exists 0. split; [lia|].
    apply Z.divide_1_r_nonneg in Hd; lia.
  - clear k Hk. intros k Hk IH r Hr Hd.
    rewrite Z.pow_succ_r in Hd by done.
    destruct (Z.even r) eqn:Ev.
    + apply Z.even_spec in Ev as [r' ->].
      destruct (IH r' ltac:(lia)) as (j & Hj & ->).
      { destruct Hd as [q Hq]. exists q. lia. }
      exists (j + 1). split; [lia|]. rewrite Z.pow_add_r by lia. lia.
    + destruct Hd as [q Hq].
      assert (Z.even q = true) as Eq.
      { apply (f_equal Z.even) in Hq.
        rewrite !Z.even_mul, Ev, orb_false_r in Hq. done. }
      apply Z.even_spec in Eq as [q' ->].
      destruct (IH r Hr) as (j & Hj & ->); [exists q'; lia|]. exists j. lia.
Qed.

(** X9. For a device with at least one processing element and a positive
    group size, [FixGroupSize(wic, gs)] returns a group size that divides the
    number of work items [wic]: the least divisor of [wic] that is not below
    the requested size clamped to [wic / procElemCount] (and to 1). The loop
    ends by its test, and of a power of two the result is a power of two. *)
Theorem FixGroupSize_divides (procElemCount wic gs : Z) :
  0 < procElemCount -> 0 < gs -> 0 < wic ->
  let start := Z.max 1 (Z.min gs (wic `div` procElemCount)) in
  let r := FixGroupSize procElemCount wic gs in
  start <= r <= wic /\ (wic `div` r) * r = wic /\
  (forall d, start <= d < r -> ~ (d | wic)) /\
  (forall passes, (Z.to_nat wic <= passes)%nat -> next_divisor passes wic start = r) /\
  (forall k, 0 <= k -> wic = 2 ^ k -> exists j, 0 <= j <= k /\ r = 2 ^ j).
Proof.
  intros Hp Hgs Hwic start r.
  assert (0 <= wic `div` procElemCount <= wic) as Hq.
  { split; [apply Z.div_pos; lia|]. apply Z.div_le_upper_bound; nia. }
  assert (r = next_divisor (Z.to_nat wic) wic start) as Hr.
  { unfold r, FixGroupSize, start. f_equal.
    destruct (Z.ltb_spec (wic `div` procElemCount) gs);
      [destruct (Z.eqb_spec (wic `div` procElemCount) 0)|]; lia. }
  assert (0 < start <= wic) as Hs by (unfold start; lia).
  destruct (next_divisor_exit (Z.to_nat wic) wic start Hs ltac:(lia)) as (Hb & Hd & Hl).
  rewrite <- Hr in *.
  split_and!; [lia|lia| |done| |].
  - destruct Hd as [q Hq']. rewrite Hq' at 1. rewrite Z.div_mul by lia. lia.
  - intros passes Hpasses. rewrite Hr. apply next_divisor_stable; lia.
  - intros k Hk ->. apply divisor_of_pow2; [done|lia|done].
Qed.

End WorkGroup_proofs.

(** * Kernels that move buffers *)

Lemma elem_of_work_item_from Nthreads maxI first x :
  0 < Nthreads ->
  x ∈ work_item Nthreads maxI first <->
  (first <= x < maxI /\ (x - first) mod Nthreads = 0).
Proof.
  intros HN. unfold work_item, work_item_count. rewrite list_elem_of_fmap.
  setoid_rewrite elem_of_seqZ. split.
  - intros (k & -> & Hk).
    assert (k * Nthreads <= maxI - first - 1).
    { assert (k + 1 <= (maxI - first + Nthreads - 1) `div` Nthreads) as Hle by lia.
      pose proof (Z.mul_div_le (maxI - first + Nthreads - 1) Nthreads HN). nia. }
    split; [nia|].
    replace (first + k * Nthreads - first) with (k * Nthreads) by lia.
    apply Z.mod_mul. lia.
  - intros (Hx & Hm). exists ((x - first) `div` Nthreads).
    pose proof (Z.div_mod (x - first) Nthreads ltac:(lia)) as Hdm.
    rewrite Hm in Hdm. split; [lia|].
    split; [apply Z.div_pos; lia|].
    rewrite Z.add_0_l.
    apply Z.div_lt_upper_bound; [lia|].
    pose proof (Z.mul_succ_div_gt (maxI - first + Nthreads - 1) Nthreads HN). nia.
Qed.

Lemma NoDup_work_item Nthreads maxI first : 0 < Nthreads -> NoDup (work_item Nthreads maxI first).
Proof.
  intros HN. unfold work_item. apply NoDup_fmap_2_strong; [|apply NoDup_seqZ].
  intros a b _ _ Hab. nia.
Qed.

(** The work items of a loop that starts at [ID + offset] visit each index
    of [[offset, maxI)] once. *)
Lemma offset_schedule Nthreads maxI offset :
  0 < Nthreads -> 0 <= offset -> offset + Nthreads < 2 ^ bitsInCap ->
  let schedule := seqZ 0 Nthreads ≫= λ ID, work_item Nthreads maxI (cap_add ID offset) in
  NoDup schedule /\ forall x, x ∈ schedule <-> offset <= x < maxI.
Proof.
  intros HN Ho Hcap schedule.
  assert (Hadd : forall ID, 0 <= ID < Nthreads -> cap_add ID offset = ID + offset).
  { intros ID HID. unfold cap_add. apply wrapCap_small. lia. }
  assert (Hin : forall x, x ∈ schedule <-> offset <= x < maxI).
  { intros x. unfold schedule. rewrite list_elem_of_bind. split.
    - intros (ID & Hx & HID). apply elem_of_seqZ in HID.
      rewrite Hadd in Hx by lia. apply elem_of_work_item_from in Hx; lia.
    - intros Hx. exists ((x - offset) mod Nthreads).
      pose proof (Z.mod_pos_bound (x - offset) Nthreads HN).
      split; [|apply elem_of_seqZ; lia].
      rewrite Hadd by lia. apply elem_of_work_item_from; [done|].
      pose proof (Z.div_mod (x - offset) Nthreads ltac:(lia)).
      pose proof (Z.div_pos (x - offset) Nthreads ltac:(lia) HN).
      split; [nia|].
      replace (x - ((x - offset) mod Nthreads + offset))
        with (((x - offset) `div` Nthreads) * Nthreads) by lia.
      apply Z.mod_mul. lia. }
  split; [|done].
  unfold schedule. apply NoDup_bind; [| |apply NoDup_seqZ].
  - intros ID1 ID2 x H1 H2 Hx1 Hx2.
    apply elem_of_seqZ in H1, H2. rewrite Hadd in Hx1, Hx2 by lia.
    apply elem_of_work_item_from in Hx1 as [_ Hm1]; [|done].
    apply elem_of_work_item_from in Hx2 as [_ Hm2]; [|done].
    apply Z.mod_divide in Hm1 as [q1 Hq1]; [|lia].
    apply Z.mod_divide in Hm2 as [q2 Hq2]; [|lia].
    assert (ID1 - ID2 = (q2 - q1) * Nthreads) as Hd by lia.
    assert (q2 - q1 = 0) by nia. lia.
  - intros ID _. apply NoDup_work_item. done.
Qed.

Section Buffer_proofs.
Context {R1 : Real1}.
Import KernelBuffer.

Lemma shuffle_fold (h : Z) (schedule : list Z) (a b : list complex) :
  NoDup schedule -> (forall x, x ∈ schedule -> 0 <= x < h) ->
  length a = Z.to_nat (2 * h) -> length b = Z.to_nat (2 * h) ->
  let r :=
    foldl (λ '(stateVec1, stateVec2) lcv,
             (<[ Z.to_nat (lcv + h) := stateVec2 !!! Z.to_nat lcv ]> stateVec1,
              <[ Z.to_nat lcv := stateVec1 !!! Z.to_nat (lcv + h) ]> stateVec2))
          (a, b) schedule in
  length r.1 = length a /\ length r.2 = length b /\
  (forall j, 0 <= j < 2 * h ->
     r.1 !! Z.to_nat j =
       (if decide (j - h ∈ schedule) then b !! Z.to_nat (j - h) else a !! Z.to_nat j) /\
     r.2 !! Z.to_nat j =
       (if decide (j ∈ schedule) then a !! Z.to_nat (j + h) else b !! Z.to_nat j)).
Proof.
  revert a b. induction schedule as [|x schedule IH]; intros a b Hnd Hin Ha Hb.
  - simpl. split_and!; [done|done|]. intros j Hj.
    destruct (decide (j - h ∈ [])) as [Hx|_]; [by apply elem_of_nil in Hx|].
    destruct (decide (j ∈ [])) as [Hx|_]; [by apply elem_of_nil in Hx|]. done.
  - apply NoDup_cons in Hnd as [Hx Hnd].
    assert (0 <= x < h) as Hxh by (apply Hin; left).
    cbn [foldl].
    destruct (IH (<[ Z.to_nat (x + h) := b !!! Z.to_nat x ]> a)
                 (<[ Z.to_nat x := a !!! Z.to_nat (x + h) ]> b) Hnd) as (L1 & L2 & IHl).
    { intros y Hy. apply Hin. by right. }
    { by rewrite length_insert. }
    { by rewrite length_insert. }
    cbv zeta. rewrite L1, L2, !length_insert. split_and!; [done|done|].
    intros j Hj. destruct (IHl j Hj) as [I1 I2]. rewrite I1, I2. split.
    + destruct (decide (j - h ∈ schedule)) as [Hs|Hs].
      * rewrite decide_True by (by right).
        assert (0 <= j - h < h) by (apply Hin; by right).
        apply list_lookup_insert_ne. intros E. apply Hx.
        replace x with (j - h) by lia. done.
      * destruct (decide (j - h = x)) as [E|E].
        -- rewrite decide_True by (rewrite E; left).
           replace (Z.to_nat j) with (Z.to_nat (x + h)) by lia.
           rewrite list_lookup_insert_eq by lia.
           rewrite E. symmetry. apply list_lookup_lookup_total_lt. lia.
        -- rewrite decide_False.
           2:{ intros Hc. apply elem_of_cons in Hc as [?|?]; done. }
           apply list_lookup_insert_ne. lia.
    + destruct (decide (j ∈ schedule)) as [Hs|Hs].
      * rewrite decide_True by (by right).
        assert (0 <= j < h) by (apply Hin; by right).
        apply list_lookup_insert_ne. intros E. apply Hx.
        replace x with j by lia. done.
      * destruct (decide (j = x)) as [->|E].
        -- rewrite decide_True by left.
           rewrite list_lookup_insert_eq by lia.
           symmetry. apply list_lookup_lookup_total_lt. lia.
        -- rewrite decide_False.
           2:{ intros Hc. apply elem_of_cons in Hc as [?|?]; done. }
           apply list_lookup_insert_ne. lia.
Qed.

Lemma shufflebuffers_fold Nthreads (a b : list complex) h :
  0 < Nthreads -> 0 <= h -> 2 * h < 2 ^ bitsInCap ->
  shufflebuffers Nthreads a b [h] =
  foldl (λ '(stateVec1, stateVec2) lcv,
           (<[ Z.to_nat (lcv + h) := stateVec2 !!! Z.to_nat lcv ]> stateVec1,
            <[ Z.to_nat lcv := stateVec1 !!! Z.to_nat (lcv + h) ]> stateVec2))
        (a, b) (NDRange Nthreads h).
Proof.
  intros HN Hh Hcap. unfold shufflebuffers, run_kernel.
  change ([h] !!! 0%nat) with h.
  apply (foldl_ext_in _ _ (λ _, True)); [done|].
  intros [s1 s2] lcv Hl _. split; [|done].
  apply elem_of_NDRange in Hl; [|done].
  unfold cap_add. rewrite wrapCap_small by lia. done.
Qed.

(** X10. The kernel [shufflebuffers] exchanges the upper half of the first
    buffer with the lower half of the second one, for every number of work
    items; run twice it restores both buffers. *)
Theorem shufflebuffers_exchanges_halves Nthreads (stateVec1 stateVec2 : list complex) halfMaxI :
  0 < Nthreads -> 0 <= halfMaxI -> 2 * halfMaxI < 2 ^ bitsInCap ->
  length stateVec1 = Z.to_nat (2 * halfMaxI) -> length stateVec2 = Z.to_nat (2 * halfMaxI) ->
  let h := Z.to_nat halfMaxI in
  let r := shufflebuffers Nthreads stateVec1 stateVec2 [halfMaxI] in
  r = (take h stateVec1 ++ take h stateVec2, drop h stateVec1 ++ drop h stateVec2) /\
  shufflebuffers Nthreads r.1 r.2 [halfMaxI] = (stateVec1, stateVec2).
Proof.
  intros HN Hh Hcap L1 L2 h r.
  assert (Hgen : forall a b : list complex,
            length a = Z.to_nat (2 * halfMaxI) -> length b = Z.to_nat (2 * halfMaxI) ->
            shufflebuffers Nthreads a b [halfMaxI] = (take h a ++ take h b, drop h a ++ drop h b)).
  { intros a b La Lb. rewrite shufflebuffers_fold by done.
    pose proof (NoDup_NDRange Nthreads halfMaxI HN) as Hnd.
    destruct (shuffle_fold halfMaxI (NDRange Nthreads halfMaxI) a b Hnd) as (E1 & E2 & El);
      [by intros x Hx; apply elem_of_NDRange in Hx|done|done|].
    destruct (foldl _ _ _) as [r1 r2]. simpl in *.
    f_equal; apply list_eq; intros i.
    - destruct (decide (i < Z.to_nat (2 * halfMaxI))%nat) as [Hi|Hi].
      + destruct (El (Z.of_nat i) ltac:(lia)) as [I1 _]. rewrite Nat2Z.id in I1. rewrite I1.
        destruct (decide (Z.of_nat i - halfMaxI ∈ _)) as [Hs|Hs].
        * apply elem_of_NDRange in Hs; [|done].
          rewrite lookup_app_r by (rewrite length_take; lia).
          rewrite length_take, lookup_take_lt by (rewrite ?length_take; lia).
          f_equal. lia.
        * rewrite elem_of_NDRange in Hs by done.
          rewrite lookup_app_l by (rewrite length_take; lia).
          rewrite lookup_take_lt by lia. done.
      + rewrite !lookup_ge_None_2; [done| |lia].
        rewrite length_app, !length_take. lia.
    - destruct (decide (i < Z.to_nat (2 * halfMaxI))%nat) as [Hi|Hi].
      + destruct (El (Z.of_nat i) ltac:(lia)) as [_ I2]. rewrite Nat2Z.id in I2. rewrite I2.
        destruct (decide (Z.of_nat i ∈ _)) as [Hs|Hs].
        * apply elem_of_NDRange in Hs; [|done].
          rewrite lookup_app_l by (rewrite length_drop; lia).
          rewrite lookup_drop. f_equal. lia.
        * rewrite elem_of_NDRange in Hs by done.
          rewrite lookup_app_r by (rewrite length_drop; lia).
          rewrite length_drop, lookup_drop. f_equal. lia.
      + rewrite !lookup_ge_None_2; [done| |lia].
        rewrite length_app, !length_drop. lia. }
  assert (Hr : r = (take h stateVec1 ++ take h stateVec2, drop h stateVec1 ++ drop h stateVec2))
    by (apply Hgen; done).
  split; [done|]. rewrite Hr. cbn [fst snd].
  rewrite Hgen by (rewrite length_app, ?length_take, ?length_drop; lia).
  rewrite take_app_length' by (rewrite length_take; lia).
  rewrite drop_app_length' by (rewrite length_take; lia).
  rewrite take_app_length' by (rewrite length_drop; lia).
  rewrite drop_app_length' by (rewrite length_drop; lia).
  by rewrite !take_drop.
Qed.

(** X11. The kernels [copypage] and [clearbuffer] write their window and
    nothing else, for every number of work items: [copypage] leaves in the
    destination the [len] amplitudes of the source from [srcOffset] on at
    [destOffset], and [clearbuffer] leaves zeros in the [maxI] cells from
    [offset] on. *)
Theorem copypage_clearbuffer_window Nthreads (src dest : list complex) srcOffset destOffset len :
  0 < Nthreads -> Nthreads < 2 ^ (bitsInCap - 1) ->
  0 <= srcOffset -> 0 <= destOffset -> 0 <= len ->
  (Z.to_nat (srcOffset + len) <= length src)%nat ->
  (Z.to_nat (destOffset + len) <= length dest)%nat ->
  destOffset + len < 2 ^ (bitsInCap - 1) -> srcOffset + len < 2 ^ (bitsInCap - 1) ->
  copypage Nthreads src dest [srcOffset; destOffset; len] =
    take (Z.to_nat destOffset) dest ++
    take (Z.to_nat len) (drop (Z.to_nat srcOffset) src) ++
    drop (Z.to_nat (destOffset + len)) dest /\
  clearbuffer Nthreads dest [len; destOffset] =
    take (Z.to_nat destOffset) dest ++
    replicate (Z.to_nat len) ZERO_CMPLX ++
    drop (Z.to_nat (destOffset + len)) dest.
Proof.
  intros HN HNc Hs Hd Hl Ls Ld Lcd Lcs.
  assert (Hcap : 2 ^ (bitsInCap - 1) * 2 = 2 ^ bitsInCap) by reflexivity.
  split.
  - unfold copypage.
    change ([srcOffset; destOffset; len] !!! 0%nat) with srcOffset.
    change ([srcOffset; destOffset; len] !!! 1%nat) with destOffset.
    change ([srcOffset; destOffset; len] !!! 2%nat) with len.
    cbv zeta.
    change (run_kernel ?f ?s ?d) with
      (scatter (λ lcv, cap_add lcv destOffset)
               (λ lcv, src !!! Z.to_nat (cap_add lcv srcOffset)) s d).
    pose proof (NoDup_NDRange Nthreads len HN) as Hnd.
    assert (Hadd : forall x o, 0 <= x < len -> 0 <= o -> o + len < 2 ^ bitsInCap ->
                     cap_add x o = x + o).
    { intros x o Hx Ho Hb. unfold cap_add. apply wrapCap_small. lia. }
    apply list_eq. intros i.
    destruct (decide (Z.to_nat destOffset <= i < Z.to_nat (destOffset + len))%nat) as [Hi|Hi].
    + assert (Z.of_nat i - destOffset ∈ NDRange Nthreads len) as Hin
        by (apply elem_of_NDRange; [done|lia]).
      pose proof (scatter_lookup (λ lcv, cap_add lcv destOffset)
        (λ lcv, src !!! Z.to_nat (cap_add lcv srcOffset)) _ dest _ Hnd Hin) as Hsc.
      cbv beta in Hsc. rewrite (Hadd _ destOffset) in Hsc by lia.
      replace (Z.to_nat (Z.of_nat i - destOffset + destOffset)) with i in Hsc by lia.
      rewrite Hsc; [|intros a Ha; apply elem_of_NDRange in Ha; [|done];
                     rewrite Hadd by lia; lia|lia].
      rewrite Hadd by lia.
      rewrite lookup_app_r by (rewrite length_take; lia).
      rewrite length_take, lookup_app_l by (rewrite ?length_take, ?length_drop; lia).
      rewrite lookup_take_lt, lookup_drop by lia.
      symmetry. rewrite (list_lookup_lookup_total_lt src) by lia. do 2 f_equal. lia.
    + rewrite scatter_lookup_other.
      2:{ intros a Ha. apply elem_of_NDRange in Ha; [|done]. rewrite Hadd by lia. lia. }
      destruct (decide (i < Z.to_nat destOffset)%nat).
      * rewrite lookup_app_l by (rewrite length_take; lia).
        rewrite lookup_take_lt by lia. done.
      * rewrite lookup_app_r by (rewrite length_take; lia).
        rewrite lookup_app_r by (rewrite !length_take, length_drop; lia).
        rewrite !length_take, length_drop, lookup_drop. f_equal. lia.
  - unfold clearbuffer.
    change ([len; destOffset] !!! 0%nat) with len.
    change ([len; destOffset] !!! 1%nat) with destOffset.
    cbv zeta.
    assert (cap_add len destOffset = destOffset + len) as ->.
    { unfold cap_add. rewrite wrapCap_small by lia. lia. }
    change (run_kernel ?f ?s ?d) with (scatter (λ lcv, lcv) (λ _, ZERO_CMPLX) s d).
    destruct (offset_schedule Nthreads (destOffset + len) destOffset HN Hd ltac:(lia))
      as [Hnd Hin].
    apply list_eq. intros i.
    destruct (decide (Z.to_nat destOffset <= i < Z.to_nat (destOffset + len))%nat) as [Hi|Hi].
    + assert (Z.of_nat i ∈ (seqZ 0 Nthreads ≫=
                 λ ID, work_item Nthreads (destOffset + len) (cap_add ID destOffset))) as Hi'
        by (apply Hin; lia).
      pose proof (scatter_lookup (λ lcv, lcv) (λ _, ZERO_CMPLX) _ dest _ Hnd Hi') as Hsc.
      cbv beta in Hsc. rewrite Nat2Z.id in Hsc.
      rewrite Hsc; [|intros a Ha; apply Hin in Ha; lia|lia].
      rewrite lookup_app_r by (rewrite length_take; lia).
      rewrite length_take, lookup_app_l by (rewrite ?length_replicate; lia).
      symmetry. apply lookup_replicate_2. lia.
    + rewrite scatter_lookup_other.
      2:{ intros a Ha. apply Hin in Ha. lia. }
      destruct (decide (i < Z.to_nat destOffset)%nat).
      * rewrite lookup_app_l by (rewrite length_take; lia).
        rewrite lookup_take_lt by lia. done.
      * rewrite lookup_app_r by (rewrite length_take; lia).
        rewrite lookup_app_r by (rewrite !length_take, length_replicate; lia).
        rewrite !length_take, length_replicate, lookup_drop. f_equal. lia.
Qed.

End Buffer_proofs.

(** * Setting and reading the state of a pager *)

Section QuantumState_proofs.
Context {R1 : Real1}.
Import QuantumState.

Lemma seqZ_snoc (k : nat) : seqZ 0 (Z.of_nat (S k)) = seqZ 0 (Z.of_nat k) ++ [Z.of_nat k].
Proof.
  rewrite Nat2Z.inj_succ. unfold Z.succ. rewrite seqZ_app by lia. done.
Qed.

(** The pages after the first [k] passes of the loop. *)
Lemma SetQuantumState_pages (f : Z -> QEngineOCL.t -> QEngineOCL.t) (pm : Z)
    (pages : list QEngineOCL.t) (k : nat) :
  0 <= pm -> Z.of_nat k * pm < 2 ^ bitsInCap -> (k <= length pages)%nat ->
  let r := foldl (λ '(qPages, pagePerm) i,
                    (QPager.on_page i (f pagePerm) qPages, cap_add pagePerm pm))
                 (pages, 0) (seqZ 0 (Z.of_nat k)) in
  r.2 = Z.of_nat k * pm /\ length r.1 = length pages /\
  forall j, r.1 !! j = if decide (j < k)%nat then f (Z.of_nat j * pm) <$> pages !! j
                       else pages !! j.
Proof.
  intros Hpm. induction k as [|k IH]; intros Hcap Hk.
  - simpl. split_and!; [done|done|]. intros j.
    first [done | destruct (decide _); [lia|done]].
  - rewrite seqZ_snoc, foldl_app. cbn [foldl].
    destruct IH as (E2 & El & Ej); [nia|lia|].
    destruct (foldl _ _ _) as [qs perm]. cbn [fst snd] in *. subst perm.
    cbv zeta. cbn [fst snd].
    split_and!.
    + unfold cap_add. rewrite wrapCap_small by nia. lia.
    + unfold QPager.on_page. destruct (qs !! _); [by rewrite length_insert|done].
    + intros j. unfold QPager.on_page. rewrite Nat2Z.id.
      destruct (qs !! k) as [page|] eqn:Ek.
      2:{ apply lookup_ge_None in Ek. lia. }
      rewrite Ej in Ek. rewrite decide_False in Ek by lia.
      destruct (decide (j = k)) as [->|Hne].
      * rewrite list_lookup_insert_eq by lia. rewrite decide_True by lia.
        by rewrite Ek.
      * rewrite list_lookup_insert_ne by done. rewrite Ej.
        destruct (decide (j < k)%nat); [rewrite decide_True by lia|rewrite decide_False by lia];
          done.
Qed.

(** X12. [QPager::SetQuantumState] followed by [GetQuantumState] returns the
    state that was set: the pages take consecutive slices of the input, each
    page with running norm 1, and the geometry of the pager is unchanged. *)
Theorem QPager_SetQuantumState_GetQuantumState (inputState : list complex) (p : QPager.t) :
  QPager.well_formed p -> length inputState = Z.to_nat (2 ^ QPager.qubitCount p) ->
  let p' := QPager_SetQuantumState inputState p in
  QPager.GetQuantumState p' = inputState /\
  QPager.well_formed p' /\
  Forall (λ page, QEngineOCL.runningNorm page = ONE_R1) (QPager.qPages p').
Proof.
  intros (Hqpp & Hn & Hpm & Hpc & Hlen & Hpages) Hin p'.
  set (qpp := QPager.qubitsPerPage p) in *.
  set (n := QPager.qubitCount p) in *.
  assert (Hcount : 0 < QPager.qPageCount p) by (rewrite Hpc; apply Z.pow_pos_nonneg; lia).
  assert (Hpow : 2 ^ n = QPager.qPageCount p * 2 ^ qpp).
  { rewrite Hpc, <- Z.pow_add_r by lia. f_equal. lia. }
  assert (2 ^ n < 2 ^ bitsInCap) by (apply Z.pow_lt_mono_r; lia).
  assert (0 < 2 ^ qpp) by (apply Z.pow_pos_nonneg; lia).
  pose proof (SetQuantumState_pages
    (λ perm, SetQuantumState (drop (Z.to_nat perm) inputState)) (QPager.qPageMaxQPower p)
    (QPager.qPages p) (Z.to_nat (QPager.qPageCount p))) as Hfold.
  rewrite Z2Nat.id in Hfold by lia.
  destruct Hfold as (_ & Hl & Hj); [lia|rewrite Hpm; lia|lia|].
  assert (Hp' : QPager.qPages p' = (foldl (λ '(qPages, pagePerm) i,
       (QPager.on_page i (SetQuantumState (drop (Z.to_nat pagePerm) inputState)) qPages,
        cap_add pagePerm (QPager.qPageMaxQPower p)))
       (QPager.qPages p, 0) (seqZ 0 (QPager.qPageCount p))).1).
  { unfold p', QPager_SetQuantumState. destruct (foldl _ _ _). done. }
  rewrite <- Hp' in Hl, Hj.
  assert (Hnew : forall j page', QPager.qPages p' !! j = Some page' ->
            exists page, QPager.qPages p !! j = Some page /\
              page' = SetQuantumState (drop (Z.to_nat (Z.of_nat j * 2 ^ qpp)) inputState) page).
  { intros j page' Hj'. rewrite Hj in Hj'.
    assert (j < length (QPager.qPages p))%nat
      by (rewrite <- Hl; apply lookup_lt_is_Some; rewrite Hj; eauto).
    rewrite decide_True in Hj' by lia.
    destruct (QPager.qPages p !! j) as [page|]; [|done].
    injection Hj' as <-. exists page. rewrite Hpm. done. }
  assert (Hsv : forall j page', QPager.qPages p' !! j = Some page' ->
            QEngineOCL.qubitCount page' = qpp /\ QEngineOCL.well_formed page' /\
            QEngineOCL.runningNorm page' = ONE_R1 /\
            QEngineOCL.stateVec page' =
              take (Z.to_nat (2 ^ qpp)) (drop (Z.to_nat (Z.of_nat j * 2 ^ qpp)) inputState)).
  { intros j page' Hj'. destruct (Hnew j page' Hj') as (page & Hpage & ->).
    assert (j < Z.to_nat (QPager.qPageCount p))%nat
      by (rewrite <- Hlen; apply lookup_lt_is_Some; eauto).
    rewrite Forall_lookup in Hpages. destruct (Hpages j page Hpage) as [(Hq & Hm & Hsl) Hqc].
    unfold SetQuantumState, QEngineOCL.well_formed. cbn.
    rewrite Hqc in Hm. rewrite Hm in *.
    assert (drop (Z.to_nat (2 ^ qpp)) (QEngineOCL.stateVec page) = []) as ->
      by (apply drop_ge; lia).
    rewrite app_nil_r. split_and!; [done|lia|lia|by rewrite Hqc| |done|done].
    rewrite length_take, length_drop. nia. }
  split_and!.
  - unfold QPager.GetQuantumState. apply list_eq. intros i.
    destruct (decide (i < Z.to_nat (2 ^ n))%nat) as [Hi|Hi].
    + replace i with (Z.to_nat (Z.of_nat i)) at 1 by lia.
      rewrite (pages_lookup (QPager.qPages p') qpp) by
        (try lia; apply Forall_lookup; intros j page' Hj';
         destruct (Hsv j page' Hj') as (_ & (_ & Hm & Hsl) & _);
         destruct (Hsv j page' Hj') as (Hq & _); rewrite Hsl, Hm, Hq; done).
      destruct (split_index qpp (Z.of_nat i) ltac:(lia) ltac:(lia)) as (Hsplit & Hlo & Hhi).
      pose proof (shiftr_range (Z.of_nat i) qpp n ltac:(lia) ltac:(lia)) as Hpg.
      rewrite <- Hpc in Hpg.
      destruct (QPager.qPages p' !! Z.to_nat (Z.shiftr (Z.of_nat i) qpp)) as [page'|] eqn:Ep.
      2:{ apply lookup_ge_None in Ep. lia. }
      cbn. destruct (Hsv _ _ Ep) as (_ & _ & _ & ->).
      rewrite lookup_take_lt, lookup_drop by lia. f_equal.
      rewrite Z2Nat.id by lia. rewrite Nat2Z.id in Hsplit.
      rewrite Z2Nat.inj_mul by lia. lia.
    + rewrite !lookup_ge_None_2; [done|lia|].
      rewrite (bind_length_uniform _ (Z.to_nat (2 ^ qpp))).
      2:{ apply Forall_lookup. intros j page' Hj'.
          destruct (Hsv j page' Hj') as (Hq & (_ & Hm & Hsl) & _). rewrite Hsl, Hm, Hq. done. }
      rewrite Hl, Hlen. nia.
  - unfold QPager.well_formed.
    assert (QPager.qubitCount p' = n /\ QPager.qubitsPerPage p' = qpp /\
            QPager.qPageMaxQPower p' = QPager.qPageMaxQPower p /\
            QPager.qPageCount p' = QPager.qPageCount p) as (-> & -> & -> & ->).
    { unfold p', QPager_SetQuantumState. destruct (foldl _ _ _). done. }
    split_and!; [done|lia|lia|done|done|lia|].
    apply Forall_lookup. intros j page' Hj'. destruct (Hsv j page' Hj') as (? & ? & _). done.
  - apply Forall_lookup. intros j page' Hj'. destruct (Hsv j page' Hj') as (_ & _ & ? & _). done.
Qed.

End QuantumState_proofs.

(** * The multi-device engine *)

Section Multi_proofs.
Context {R1 : Real1}.
Import QEngineOCLMulti.

Lemma log2_loop_spec passes p pow :
  0 <= p < 2 ^ Z.of_nat passes -> 0 <= pow -> pow + Z.of_nat passes < 2 ^ bitsInByte ->
  log2_loop passes p pow = pow + (if p =? 0 then 0 else Z.log2 p + 1).
Proof.
  revert p pow. induction passes as [|passes IH]; intros p pow Hp Hpow Hb.
  - simpl in *. assert (p = 0) as -> by lia. simpl. lia.
  - cbn [log2_loop]. destruct (Z.eqb_spec p 0) as [->|Hne]; [lia|].
    rewrite Nat2Z.inj_succ, Z.pow_succ_r in Hp by lia.
    rewrite Nat2Z.inj_succ in Hb.
    assert (wrapLen (pow + 1) = pow + 1) as -> by (unfold wrapLen; apply Z.mod_small; lia).
    rewrite Z.shiftr_div_pow2 by lia. change (2 ^ 1) with 2.
    rewrite IH; [| |lia|lia].
    2:{ split; [apply Z.div_pos; lia|]. apply Z.div_lt_upper_bound; lia. }
    destruct (Z.eqb_spec (p `div` 2) 0) as [E|E].
    + assert (p = 1) as -> by (pose proof (Z.div_mod p 2); pose proof (Z.mod_pos_bound p 2); lia).
      change (Z.log2 1) with 0. lia.
    + assert (2 <= p) by (destruct (Z.le_gt_cases 2 p); [done|];
                           exfalso; apply E; apply Z.div_small; lia).
      replace (p `div` 2) with (Z.shiftr p 1) by (rewrite Z.shiftr_div_pow2 by lia; done).
      rewrite Z.log2_shiftr by lia.
      pose proof (Z.log2_le_mono 2 p ltac:(lia)) as Hl. change (Z.log2 2) with 1 in Hl. lia.
Qed.

Lemma log2_spec n :
  0 <= n -> log2 n = Z.log2 (n mod 2 ^ (bitsInByte + 1)).
Proof.
  intros Hn. unfold log2. cbv zeta.
  assert (Hp : wrapLen (Z.shiftr n 1) = (n mod 2 ^ (bitsInByte + 1)) `div` 2).
  { unfold wrapLen. rewrite Z.shiftr_div_pow2 by lia. change (2 ^ 1) with 2.
    change (2 ^ (bitsInByte + 1)) with (2 * 2 ^ bitsInByte).
    rewrite Z.rem_mul_r by first [lia | reflexivity].
    rewrite Z.mul_comm, Z.div_add by lia.
    rewrite (Z.div_small (n mod 2) 2) by (apply Z.mod_pos_bound; lia). lia. }
  rewrite Hp. set (m := n mod 2 ^ (bitsInByte + 1)).
  assert (0 <= m < 2 ^ (bitsInByte + 1)) as Hm by (apply Z.mod_pos_bound; reflexivity).
  change (2 ^ (bitsInByte + 1)) with (2 * 2 ^ bitsInByte) in Hm.
  rewrite log2_loop_spec; [| |lia|reflexivity].
  2:{ split; [apply Z.div_pos; lia|]. apply Z.div_lt_upper_bound; [lia|].
      change (2 ^ Z.of_nat (Z.to_nat bitsInByte)) with (2 ^ bitsInByte). lia. }
  destruct (Z.eqb_spec (m `div` 2) 0) as [E|E].
  - assert (m = 0 \/ m = 1) as [-> | ->]
      by (pose proof (Z.div_mod m 2); pose proof (Z.mod_pos_bound m 2); lia); reflexivity.
  - assert (2 <= m) by (destruct (Z.le_gt_cases 2 m); [done|];
                         exfalso; apply E; apply Z.div_small; lia).
    replace (m `div` 2) with (Z.shiftr m 1) by (rewrite Z.shiftr_div_pow2 by lia; done).
    rewrite Z.log2_shiftr by lia.
    pose proof (Z.log2_le_mono 2 m ltac:(lia)) as Hl. change (Z.log2 2) with 1 in Hl. lia.
Qed.

(** X13. [log2] of the multi-device engine is the integer logarithm of its
    argument cut to nine bits: its shifted argument is held in a
    [bitLenInt]. Below 512 it is the integer logarithm (0 for 0), and an
    argument that is a multiple of 512 gives 0. *)
Theorem log2_cut_to_nine_bits (n : Z) :
  0 <= n ->
  log2 n = Z.log2 (n mod 2 ^ (bitsInByte + 1)) /\
  (n < 2 ^ (bitsInByte + 1) -> log2 n = Z.log2 n) /\
  (n mod 2 ^ (bitsInByte + 1) = 0 -> log2 n = 0).
Proof.
  intros Hn. rewrite log2_spec by done. split_and!; [done| |].
  - intros Hlt. rewrite Z.mod_small by lia. done.
  - intros ->. reflexivity.
Qed.

(** X14. [SetQubitCount] of the multi-device engine splits the state evenly
    when the number of sub-engines is a power of two that fits a
    [bitLenInt]: [2 ^ k] sub-engines hold [2 ^ (qb - k)] amplitudes each, which
    together are the [2 ^ qb] amplitudes of the register. *)
Theorem SetQubitCount_splits_evenly (sizeof_complex qb k : Z) (e : QEngineOCLMulti.t) :
  0 <= k <= qb -> qb < bitsInInt - 1 -> k < bitsInByte ->
  0 < sizeof_complex < 2 ^ bitsInInt ->
  Z.of_nat (length (substateEngines e)) = 2 ^ k ->
  let e' := SetQubitCount sizeof_complex qb e in
  qubitCount e' = qb /\ maxQPower e' = 2 ^ qb /\
  subEngineCount e' = 2 ^ k /\ subQubitCount e' = qb - k /\
  subMaxQPower e' = 2 ^ (qb - k) /\
  subEngineCount e' * subMaxQPower e' = maxQPower e' /\
  subBufferSize e' = (sizeof_complex * 2 ^ (qb - k)) `div` 2 /\
  substateEngines e' = substateEngines e.
Proof.
  intros Hk Hqb Hkb Hsz Hlen e'. unfold e', SetQubitCount. cbn.
  rewrite Hlen.
  pose proof int_shift_below_cap as Hic.
  assert (0 < 2 ^ k < 2 ^ bitsInByte) as Hpk
    by (split; [apply Z.pow_pos_nonneg; lia|apply Z.pow_lt_mono_r; lia]).
  assert (wrapLen (2 ^ k) = 2 ^ k) as -> by (unfold wrapLen; apply Z.mod_small; lia).
  assert (log2 (2 ^ k) = k) as ->.
  { rewrite log2_spec by lia. rewrite Z.mod_small.
    - apply Z.log2_pow2. lia.
    - split; [lia|]. apply Z.lt_trans with (2 ^ bitsInByte); [lia|reflexivity]. }
  assert (wrapLen (qb - k) = qb - k) as ->.
  { unfold wrapLen. apply Z.mod_small. unfold bitsInInt in *. change (2 ^ bitsInByte) with 256. lia. }
  unfold bitsInInt in *.
  rewrite !(pow2_small) by (unfold bitsInCap, sizeof_bitCapInt, bitsInByte; lia).
  assert (0 < 2 ^ (qb - k) <= 2 ^ 30)
    by (split; [apply Z.pow_pos_nonneg; lia|apply Z.pow_le_mono_r; lia]).
  split_and!; [done|done|done|done|done| | |done].
  - rewrite <- Z.pow_add_r by lia. f_equal. lia.
  - rewrite wrapCap_small, Z.shiftr_div_pow2 by (try lia; unfold bitsInCap, sizeof_bitCapInt, bitsInByte; nia).
    done.
Qed.

End Multi_proofs.

(** * Bit fields of an index *)

(** Bit of an expression, with the side conditions on the positions
    settled by [lia] occurrence by occurrence. *)
Ltac bit_specs :=
  repeat first
    [ rewrite Z.land_spec | rewrite Z.lor_spec | rewrite Z.lxor_spec
    | rewrite Z.bits_0
    | match goal with
      | |- context [Z.testbit (Z.lnot ?a) ?k] => rewrite (Z.lnot_spec a k) by lia
      | |- context [Z.testbit (Z.shiftl ?a ?n) ?k] => rewrite (Z.shiftl_spec a n k) by lia
      | |- context [Z.testbit (Z.shiftr ?a ?n) ?k] => rewrite (Z.shiftr_spec a n k) by lia
      | |- context [Z.testbit (Z.ones ?n) ?k] => rewrite (Z.testbit_ones_nonneg n k) by lia
      | |- context [Z.testbit ?a ?k] => rewrite (Z.testbit_neg_r a k) by lia
      end ].

Lemma register_value_land i start length :
  0 <= start -> 0 <= length ->
  register_value start length i = Z.land (Z.shiftr i start) (Z.ones length).
Proof.
  intros Hs Hl. unfold register_value.
  by rewrite Z.land_ones, Z.shiftr_div_pow2.
Qed.

Lemma register_value_testbit i start length j :
  0 <= start -> 0 <= length -> 0 <= j ->
  Z.testbit (register_value start length i) j = (j <? length) && Z.testbit i (j + start).
Proof.
  intros Hs Hl Hj. rewrite register_value_land by done. bits_simpl.
  destruct (j <? length); [by rewrite andb_true_r|by rewrite andb_false_r].
Qed.

Lemma register_value_range i start length :
  0 <= start -> 0 <= length -> 0 <= register_value start length i < 2 ^ length.
Proof.
  intros Hs Hl. unfold register_value. apply Z.mod_pos_bound, Z.pow_pos_nonneg; lia.
Qed.

(** An index below [2 ^ n] is determined by its bits below [n]. *)
Lemma index_eq n a b :
  0 <= a < 2 ^ n -> 0 <= b < 2 ^ n ->
  (forall j, 0 <= j < n -> Z.testbit a j = Z.testbit b j) -> a = b.
Proof.
  intros Ha Hb Hbits. apply Z.bits_inj'. intros j Hj.
  destruct (Z.lt_ge_cases j n); [apply Hbits; lia|].
  by rewrite (testbit_above a n), (testbit_above b n).
Qed.

Lemma with_register_spec n start length v i :
  0 <= start -> 0 <= length -> start + length <= n -> 0 <= v < 2 ^ length -> 0 <= i < 2 ^ n ->
  with_register start length v i =
  Z.lor (Z.shiftl v start) (Z.land i (otherMask_of n start length)).
Proof.
  intros Hs Hl Hn Hv Hi. unfold with_register.
  rewrite (lor_field v i n) by done.
  pose proof (reg_field_split i n start length Hs Hl Hn Hi) as Hsplit.
  rewrite <- register_value_land in Hsplit by done.
  rewrite lor_field in Hsplit by (try done; by apply register_value_range).
  lia.
Qed.

Lemma with_register_testbit n start length v i j :
  0 <= start -> 0 <= length -> start + length <= n -> 0 <= v < 2 ^ length -> 0 <= i < 2 ^ n ->
  0 <= j ->
  Z.testbit (with_register start length v i) j =
  if (start <=? j) && (j <? start + length) then Z.testbit v (j - start) else Z.testbit i j.
Proof.
  intros Hs Hl Hn Hv Hi Hj. rewrite (with_register_spec n) by done.
  unfold otherMask_of, regMask_of.
  pose proof (fun j => testbit_above i n j Hi) as Hib.
  pose proof (fun j => testbit_above v length j Hv) as Hvb.
  destruct (Z.leb_spec start j); cbn [andb].
  - bits_simpl. destruct (Z.ltb_spec j (start + length)).
    + destruct (Z.ltb_spec (j - start) length); [|lia]. bool_cases.
    + rewrite Hvb by lia. destruct (Z.ltb_spec (j - start) length); [lia|].
      destruct (Z.ltb_spec j n); [bool_cases|]. rewrite Hib by lia. done.
  - rewrite Z.lor_spec, !Z.land_spec, Z.lnot_spec, !Z.shiftl_spec by lia.
    rewrite (Z.testbit_neg_r v (j - start)), (Z.testbit_neg_r (Z.ones length) (j - start)) by lia.
    rewrite Z.testbit_ones_nonneg by lia.
    destruct (Z.ltb_spec j n); [|lia]. cbn. by rewrite andb_true_r.
Qed.

Lemma with_register_range n start length v i :
  0 <= start -> 0 <= length -> start + length <= n -> 0 <= v < 2 ^ length -> 0 <= i < 2 ^ n ->
  0 <= with_register start length v i < 2 ^ n.
Proof.
  intros Hs Hl Hn Hv Hi. rewrite (with_register_spec n) by done.
  by apply reg_field_merge.
Qed.

(** * Rotation *)

Lemma rotate_right_testbit length shift v j :
  0 <= shift <= length -> 0 <= v < 2 ^ length -> 0 <= j ->
  Z.testbit (rotate_right length shift v) j =
  if j <? length - shift then Z.testbit v (j + shift)
  else if j <? length then Z.testbit v (j + shift - length) else false.
Proof.
  intros Hs Hv Hj. unfold rotate_right.
  pose proof (fun j => testbit_above v length j Hv) as Hvb.
  assert (E : v `div` 2 ^ shift + (v mod 2 ^ shift) * 2 ^ (length - shift) =
              Z.lor (Z.shiftr v shift) (Z.shiftl (Z.land v (Z.ones shift)) (length - shift))).
  { assert (Z.land (Z.shiftr v shift)
                   (Z.shiftl (Z.land v (Z.ones shift)) (length - shift)) = 0) as Hd.
    { apply Z.bits_inj'. intros k Hk. rewrite Z.bits_0, Z.land_spec, Z.shiftr_spec by lia.
      destruct (Z.ltb_spec (k - (length - shift)) 0).
      - rewrite Z.shiftl_spec, (Z.testbit_neg_r _ (k - (length - shift))) by lia.
        apply andb_false_r.
      - rewrite Hvb by lia. done. }
    rewrite <- Z.lxor_lor, <- Z.add_nocarry_lxor by done.
    by rewrite Z.shiftr_div_pow2, Z.shiftl_mul_pow2, Z.land_ones by lia. }
  rewrite E. rewrite Z.lor_spec, Z.shiftr_spec by lia.
  destruct (Z.ltb_spec j (length - shift)).
  - rewrite Z.shiftl_spec, (Z.testbit_neg_r _ (j - (length - shift))) by lia.
    by rewrite orb_false_r.
  - rewrite Hvb by lia. cbn. rewrite Z.shiftl_spec by lia. bit_specs.
    replace (j - (length - shift)) with (j + shift - length) by lia.
    destruct (Z.ltb_spec j length).
    + destruct (Z.ltb_spec (j + shift - length) shift); [|lia]. by rewrite andb_true_r.
    + destruct (Z.ltb_spec (j + shift - length) shift); [lia|]. by rewrite andb_false_r.
Qed.

Lemma rotate_right_range length shift v :
  0 <= shift <= length -> 0 <= v < 2 ^ length -> 0 <= rotate_right length shift v < 2 ^ length.
Proof.
  intros Hs Hv. unfold rotate_right.
  pose proof (Z.mod_pos_bound v (2 ^ shift) ltac:(apply Z.pow_pos_nonneg; lia)).
  pose proof (Z.div_mod v (2 ^ shift) ltac:(apply Z.pow_nonzero; lia)).
  assert (2 ^ length = 2 ^ shift * 2 ^ (length - shift)) as E
    by (rewrite <- Z.pow_add_r by lia; f_equal; lia).
  pose proof (pow2_mono 0 shift ltac:(lia)).
  pose proof (pow2_mono 0 (length - shift) ltac:(lia)).
  assert (0 <= v `div` 2 ^ shift < 2 ^ (length - shift)).
  { split; [apply Z.div_pos; lia|]. apply Z.div_lt_upper_bound; lia. }
  nia.
Qed.

Lemma rotate_left_right length shift v :
  0 <= shift <= length -> 0 <= v < 2 ^ length ->
  rotate_right length shift (rotate_left length shift v) = v /\
  rotate_left length shift (rotate_right length shift v) = v.
Proof.
  intros Hs Hv. unfold rotate_left.
  assert (forall s, 0 <= s <= length ->
            rotate_right length s (rotate_right length (length - s) v) = v) as H.
  { intros s Hs'.
    pose proof (rotate_right_range length (length - s) v ltac:(lia) Hv).
    apply (index_eq length); [by apply rotate_right_range|done|].
    intros j Hj. rewrite rotate_right_testbit by (try done; lia).
    destruct (Z.ltb_spec j (length - s)).
    - rewrite rotate_right_testbit by (try done; lia).
      destruct (Z.ltb_spec (j + s) (length - (length - s))); [lia|].
      destruct (Z.ltb_spec (j + s) length); [|lia]. f_equal. lia.
    - destruct (Z.ltb_spec j length); [|lia].
      rewrite rotate_right_testbit by (try done; lia).
      destruct (Z.ltb_spec (j + s - length) (length - (length - s))); [|lia]. f_equal. lia. }
  split; [by apply H|].
  replace shift with (length - (length - shift)) at 2 by lia. apply H. lia.
Qed.

Section ROL_proofs.
Context {R1 : Real1}.
Import QEngineOCL OCLArith.

Lemma ROx_DispatchCall api shift start length (e : QEngineOCL.t) :
  well_formed e -> 0 <= start -> 0 <= length -> start + length <= qubitCount e ->
  ROx api shift start length e = DispatchCall api (ROx_args (qubitCount e) shift start length) e.
Proof.
  intros (Hq & Hm & _) Hs Hl Hn. pose proof int_shift_below_cap as Hic.
  unfold ROx, ROx_args. cbv zeta.
  destruct (INT_masks (qubitCount e) start length) as (H1 & H2 & H3 & H4); [done|done|done|lia|].
  by rewrite Hm, H3, H4, H1.
Qed.

Lemma rol_src_spec n shift start length lcv :
  0 <= start -> 0 <= shift <= length -> start + length <= n -> n < bitsInCap ->
  0 <= lcv < 2 ^ n ->
  KernelArith.rol_src (ROx_args n shift start length) lcv =
  with_register start length (rotate_right length shift (register_value start length lcv)) lcv.
Proof.
  intros Hs Hsh Hn Hb Hl. unfold KernelArith.rol_src, ROx_args.
  cbn [lookup_total list_lookup_total]. cbv zeta.
  pose proof (register_value_range lcv start length Hs ltac:(lia)) as Hv.
  pose proof (rotate_right_range length shift _ Hsh Hv) as Hr.
  rewrite (with_register_spec n) by (try done; lia).
  f_equal. rewrite reg_field by lia.
  rewrite <- register_value_land by lia.
  set (v := register_value start length lcv) in *.
  destruct (INT_masks n start length) as (H1 & H2 & _); [lia..|].
  rewrite H1 in H2. unfold ONE_BCI. rewrite H2.
  assert (Hin : Z.land (Z.lor (Z.shiftr v shift) (cap_shl v (cap_sub length shift)))
                  (Z.ones length) = rotate_right length shift v).
  { pose proof (fun j => testbit_above v length j Hv) as Hvb.
    unfold cap_sub. rewrite (wrapCap_small (length - shift)).
    2:{ split; [lia|]. apply Z.lt_trans with bitsInCap; [lia|reflexivity]. }
    apply Z.bits_inj'. intros j Hj.
    rewrite rotate_right_testbit by done.
    rewrite Z.land_spec, Z.lor_spec, Z.shiftr_spec, Z.testbit_ones_nonneg by lia.
    unfold cap_shl. rewrite wrapCap_testbit by done.
    destruct (Z.ltb_spec j (length - shift)).
    - rewrite Z.shiftl_spec by lia. rewrite (Z.testbit_neg_r _ (j - (length - shift))) by lia.
      rewrite andb_false_r, orb_false_r.
      destruct (Z.ltb_spec j length); [|lia]. by rewrite andb_true_r.
    - rewrite (Hvb (j + shift)) by lia. cbn [orb].
      rewrite Z.shiftl_spec by lia.
      replace (j - (length - shift)) with (j + shift - length) by lia.
      destruct (Z.ltb_spec j length).
      + destruct (Z.ltb_spec j bitsInCap); [|lia]. cbn. by rewrite andb_true_r.
      + by rewrite andb_false_r. }
  rewrite Hin. unfold cap_shl. apply wrapCap_small.
  rewrite Z.shiftl_mul_pow2 by lia.
  pose proof (pow2_mono start start ltac:(lia)).
  split; [nia|].
  apply Z.lt_le_trans with (2 ^ (start + length)); [|apply pow2_mono; lia].
  rewrite Z.pow_add_r by lia. nia.
Qed.

Lemma rol_lookup N (sv out : list complex) n shift start length lcv :
  0 < N -> 0 <= lcv < 2 ^ n -> List.length out = Z.to_nat (2 ^ n) ->
  KernelArith.rol N sv (ROx_args n shift start length) out !! Z.to_nat lcv =
  Some (sv !!! Z.to_nat (KernelArith.rol_src (ROx_args n shift start length) lcv)).
Proof.
  intros HN Hl Hlen. unfold KernelArith.rol.
  apply (scatter_id_lookup
    (λ lcv, sv !!! Z.to_nat (KernelArith.rol_src (ROx_args n shift start length) lcv))).
  - by apply NoDup_NDRange.
  - intros a Ha. apply elem_of_NDRange in Ha; [lia|done].
  - apply elem_of_NDRange; [done|]. done.
  - lia.
Qed.

Lemma rol_length N (sv out : list complex) args :
  length (KernelArith.rol N sv args out) = length out.
Proof.
  apply (scatter_length (λ i, i) (λ lcv, sv !!! Z.to_nat (KernelArith.rol_src args lcv))).
Qed.

Lemma register_with_register n start length v i :
  0 <= start -> 0 <= length -> start + length <= n -> 0 <= v < 2 ^ length -> 0 <= i < 2 ^ n ->
  register_value start length (with_register start length v i) = v /\
  forall w, 0 <= w < 2 ^ length ->
    with_register start length w (with_register start length v i) =
    with_register start length w i.
Proof.
  intros Hs Hl Hn Hv Hi.
  pose proof (with_register_range n start length v i Hs Hl Hn Hv Hi) as Hr.
  split.
  - apply (index_eq length); [by apply register_value_range|done|].
    intros j Hj. rewrite register_value_testbit by lia.
    rewrite (with_register_testbit n) by (try done; lia).
    destruct (Z.ltb_spec j length); [|lia].
    destruct (Z.leb_spec start (j + start)); [|lia].
    destruct (Z.ltb_spec (j + start) (start + length)); [|lia].
    cbn. f_equal. lia.
  - intros w Hw.
    apply (index_eq n); [by apply with_register_range..|].
    intros j Hj. rewrite !(with_register_testbit n) by (try done; lia).
    by destruct (_ && _).
Qed.

Lemma with_register_same n start length i :
  0 <= start -> 0 <= length -> start + length <= n -> 0 <= i < 2 ^ n ->
  with_register start length (register_value start length i) i = i.
Proof. intros. unfold with_register. lia. Qed.

(** X15. [ROL(shift)] rotates the register [[start, start + length)] left
    by [shift] bits in every basis state: the amplitude the result holds at an
    index is the one the engine held at the index whose register is that
    register rotated right (every other bit the same). [ROL(shift)] followed
    by [ROL(length - shift)] gives back the engine it started from. *)
Theorem ROL_rotates_register (e : QEngineOCL.t) (shift start length : Z) :
  well_formed e -> 0 <= start -> 0 <= shift <= length -> start + length <= qubitCount e ->
  (forall i, 0 <= i < maxQPower e ->
     stateVec (ROL shift start length e) !! Z.to_nat i =
     stateVec e !! Z.to_nat
       (with_register start length
          (rotate_right length shift (register_value start length i)) i)) /\
  (forall i, 0 <= i < maxQPower e ->
     stateVec (ROL shift start length e) !! Z.to_nat
       (with_register start length
          (rotate_left length shift (register_value start length i)) i) =
     stateVec e !! Z.to_nat i) /\
  ROL (length - shift) start length (ROL shift start length e) = e.
Proof.
  intros Hwf Hs Hsh Hn. pose proof Hwf as (Hq & Hm & Hlen).
  pose proof int_shift_below_cap as Hic.
  assert (Hgather : forall (e : QEngineOCL.t) shift, well_formed e ->
            0 <= shift <= length -> start + length <= qubitCount e ->
            forall i, 0 <= i < maxQPower e ->
            stateVec (ROL shift start length e) !! Z.to_nat i =
            stateVec e !! Z.to_nat
              (with_register start length
                 (rotate_right length shift (register_value start length i)) i)).
  { clear - Hs. intros e shift (Hq & Hm & Hlen) Hsh Hn i Hi.
    pose proof int_shift_below_cap as Hic.
    unfold ROL. rewrite ROx_DispatchCall by (try done; lia).
    unfold DispatchCall. cbn. rewrite Hm in *.
    rewrite rol_lookup;
      [|apply FixWorkItemCount_pos, Z.pow_pos_nonneg; lia|done|by rewrite length_replicate].
    rewrite rol_src_spec by (try done; lia).
    symmetry. apply list_lookup_lookup_total_lt. rewrite Hlen.
    pose proof (register_value_range i start length ltac:(lia) ltac:(lia)).
    pose proof (with_register_range (qubitCount e) start length
      (rotate_right length shift (register_value start length i)) i
      ltac:(lia) ltac:(lia) Hn ltac:(by apply rotate_right_range) Hi). lia. }
  assert (Hfields : forall (e : QEngineOCL.t) shift,
            well_formed e -> start + length <= qubitCount e -> 0 <= start -> 0 <= length ->
            let e' := ROL shift start length e in
            qubitCount e' = qubitCount e /\ maxQPower e' = maxQPower e /\
            runningNorm e' = runningNorm e /\ nrmGroupCount e' = nrmGroupCount e /\
            List.length (stateVec e') = List.length (stateVec e)).
  { clear. intros e shift (Hq & Hm & Hlen) Hn Hs Hl. cbv zeta.
    unfold ROL. rewrite ROx_DispatchCall by (try done; lia).
    unfold DispatchCall. cbn. rewrite rol_length, length_replicate. split_and!; done. }
  split_and!.
  - by apply Hgather.
  - intros i Hi. rewrite Hm in Hi.
    pose proof (register_value_range i start length Hs ltac:(lia)) as Hv.
    pose proof (rotate_right_range length (length - shift) _ ltac:(lia) Hv) as Hr.
    fold (rotate_left length shift (register_value start length i)) in Hr.
    pose proof (with_register_range (qubitCount e) start length _ i
                  Hs ltac:(lia) Hn Hr Hi) as Hd.
    rewrite Hgather by (try done; lia).
    destruct (register_with_register (qubitCount e) start length
                (rotate_left length shift (register_value start length i)) i)
      as [-> Hw]; [done|lia|done|done|done|].
    destruct (rotate_left_right length shift (register_value start length i)) as [-> _];
      [done|done|].
    rewrite Hw by done. by rewrite (with_register_same (qubitCount e)) by (try done; lia).
  - destruct (Hfields e shift Hwf Hn Hs ltac:(lia)) as (F1 & F2 & F3 & F4 & F5).
    set (e1 := ROL shift start length e) in *.
    assert (Hwf1 : well_formed e1) by (unfold well_formed; rewrite F1, F2, F5; done).
    destruct (Hfields e1 (length - shift) Hwf1 ltac:(lia) Hs ltac:(lia))
      as (G1 & G2 & G3 & G4 & G5).
    set (e2 := ROL (length - shift) start length e1) in *.
    assert (stateVec e2 = stateVec e) as Hsv.
    { apply list_eq. intros j.
      destruct (decide (j < Z.to_nat (2 ^ qubitCount e))%nat) as [Hj|Hj].
      - assert (0 <= Z.of_nat j < 2 ^ qubitCount e) as Hj' by lia.
        pose proof (register_value_range (Z.of_nat j) start length Hs ltac:(lia)) as Hv.
        pose proof (rotate_right_range length (length - shift) _ ltac:(lia) Hv) as Hr.
        pose proof (with_register_range (qubitCount e) start length _ (Z.of_nat j)
                      Hs ltac:(lia) Hn Hr Hj') as Hd.
        rewrite <- (Nat2Z.id j). unfold e2.
        rewrite Hgather by (try done; lia).
        unfold e1. rewrite Hgather by (try done; lia).
        destruct (register_with_register (qubitCount e) start length
                (rotate_right length (length - shift) (register_value start length (Z.of_nat j)))
                (Z.of_nat j)) as [-> Hw]; [done|lia|done|done|done|].
        destruct (rotate_left_right length shift (register_value start length (Z.of_nat j)))
          as [Hrr _]; [done|done|].
        unfold rotate_left in Hrr. rewrite Hrr, Hw by done.
        by rewrite (with_register_same (qubitCount e)) by (try done; lia).
      - rewrite !lookup_ge_None_2; [done|lia|lia]. }
    destruct e as [n mq rn sv gc], e2 as [n2 mq2 rn2 sv2 gc2]. cbn in *.
    congruence.
Qed.

End ROL_proofs.

(** * Addition with carry *)

Ltac cmp_cases :=
  repeat match goal with
    | |- context [?a <? ?b] => destruct (Z.ltb_spec a b)
    | |- context [?a <=? ?b] => destruct (Z.leb_spec a b)
    | |- context [?a =? ?b] => destruct (Z.eqb_spec a b)
    end; cbn [andb orb negb]; try lia.

Ltac testbit_cases :=
  repeat match goal with
    | |- context [Z.testbit ?a ?b] => destruct (Z.testbit a b)
    end; cbn [andb orb negb]; try done.

Lemma with_bit_testbit c b i j :
  0 <= c -> 0 <= j ->
  Z.testbit (with_bit c b i) j = if j =? c then b else Z.testbit i j.
Proof.
  intros Hc Hj. unfold with_bit. destruct b.
  - rewrite Z.setbit_eqb by done. rewrite (Z.eqb_sym c j). by destruct (j =? c).
  - rewrite Z.clearbit_eqb by done. rewrite (Z.eqb_sym c j).
    destruct (j =? c); cbn; [by rewrite andb_false_r|by rewrite andb_true_r].
Qed.

Lemma with_bit_range n c b i :
  0 <= c < n -> 0 <= i < 2 ^ n -> 0 <= with_bit c b i < 2 ^ n.
Proof.
  intros Hc Hi. unfold with_bit. destruct b; [by apply setbit_range|apply clearbit_range; lia].
Qed.

Section INTC_proofs.
Context {R1 : Real1}.
Import QEngineOCL OCLArith.

Lemma INTC_DispatchCall api toMod start length carryIndex (e : QEngineOCL.t) :
  well_formed e -> 0 <= start -> 0 <= length -> start + length <= qubitCount e ->
  0 <= carryIndex < qubitCount e ->
  INTC api toMod start length carryIndex e =
  DispatchCall api (INTC_args (qubitCount e) toMod start length carryIndex) e.
Proof.
  intros (Hq & Hm & _) Hs Hl Hn Hc. pose proof int_shift_below_cap as Hic.
  unfold INTC, INTC_args. cbv zeta.
  destruct (INT_masks (qubitCount e) start length) as (H1 & H2 & H3 & _); [done|done|done|lia|].
  rewrite Hm, H3, H1.
  change (cap_shl 1 carryIndex) with (pow2 carryIndex). rewrite pow2_small by lia.
  rewrite Z.shiftr_div_pow2 by lia.
  assert (2 ^ qubitCount e `div` 2 ^ 1 = 2 ^ (qubitCount e - 1)) as ->.
  { rewrite <- Z.pow_sub_r by lia. done. }
  assert (Z.land (cap_sub (2 ^ qubitCount e) 1)
            (cap_not (Z.lor (regMask_of start length) (2 ^ carryIndex))) =
          Z.land (Z.ones (qubitCount e))
            (Z.lnot (Z.lor (regMask_of start length) (2 ^ carryIndex)))) as ->; [|done].
  unfold cap_sub, cap_not. rewrite (wrapCap_small (2 ^ qubitCount e - 1)).
  2:{ pose proof (pow2_mono (qubitCount e) bitsInCap). lia. }
  rewrite <- ones_eq. unfold wrapCap. rewrite <- Z.land_ones by done.
  apply Z.bits_inj'. intros j Hj. rewrite !Z.land_spec, !Z.testbit_ones_nonneg by lia.
  cmp_cases. by rewrite andb_true_r.
Qed.

Lemma incdecc_src_spec n toMod start length c lcv :
  0 <= c < bitsInCap ->
  KernelArith.incdecc_src (INTC_args n toMod start length c) lcv =
  Kernel.PUSH_APART_1 (Z.ones c) lcv.
Proof.
  intros Hc. unfold KernelArith.incdecc_src, INTC_args, Kernel.PUSH_APART_1.
  cbn [lookup_total list_lookup_total]. cbv zeta.
  assert (cap_sub (2 ^ c) ONE_BCI = Z.ones c) as ->; [|done].
  unfold cap_sub, ONE_BCI. rewrite ones_eq. apply wrapCap_small.
  pose proof (pow2_mono c bitsInCap). pose proof (pow2_mono 0 c). lia.
Qed.

Lemma incdecc_dest_testbit n toMod start length c i j :
  0 <= start -> 0 <= length -> start + length <= n -> n < bitsInCap - 1 ->
  0 <= c < n -> ~ (start <= c < start + length) ->
  0 <= toMod <= 2 ^ length -> 0 <= i < 2 ^ n -> 0 <= j ->
  let sum := register_value start length i + toMod in
  Z.testbit (KernelArith.incdecc_dest (INTC_args n toMod start length c) i) j =
  if (start <=? j) && (j <? start + length) then Z.testbit (sum mod 2 ^ length) (j - start)
  else if j =? c then 2 ^ length <=? sum
  else Z.testbit i j.
Proof.
  intros Hs Hl Hn Hb Hc Hout Ht Hi Hj sum.
  unfold KernelArith.incdecc_dest, INTC_args. cbn [lookup_total list_lookup_total]. cbv zeta.
  rewrite reg_field by done. rewrite <- register_value_land by done.
  pose proof (register_value_range i start length Hs Hl) as Hv.
  pose proof (pow2_mono length (bitsInCap - 2) ltac:(lia)) as Hlp.
  assert (2 ^ (bitsInCap - 2) * 4 = 2 ^ bitsInCap) as Hcap by reflexivity.
  assert (cap_add (register_value start length i) toMod = sum) as ->.
  { unfold cap_add. apply wrapCap_small. unfold sum. lia. }
  assert (cap_sub (2 ^ length) ONE_BCI = Z.ones length) as ->.
  { unfold cap_sub, ONE_BCI. rewrite ones_eq. apply wrapCap_small. lia. }
  pose proof (Z.mod_pos_bound sum (2 ^ length) ltac:(lia)) as Hm.
  pose proof (fun j => testbit_above (sum mod 2 ^ length) length j Hm) as Hmb.
  pose proof (fun j => testbit_above i n j Hi) as Hib.
  assert (Hshl : forall x, 0 <= x < 2 ^ length -> cap_shl x start = Z.shiftl x start).
  { intros x Hx. unfold cap_shl. apply wrapCap_small.
    rewrite Z.shiftl_mul_pow2 by lia.
    pose proof (pow2_mono start start ltac:(lia)).
    split; [nia|].
    apply Z.lt_le_trans with (2 ^ (start + length)); [|apply pow2_mono; lia].
    rewrite Z.pow_add_r by lia. nia. }
  assert (Hone : forall k, 0 <= k -> Z.testbit (2 ^ c) k = (k =? c)).
  { intros k Hk. rewrite Z.pow2_bits_eqb by lia. apply Z.eqb_sym. }
  rewrite ones_eq.
  destruct (Z.ltb_spec (2 ^ length - 1) sum) as [Hov|Hov].
  - rewrite <- ones_eq, Z.land_ones by done. rewrite Hshl by done.
    destruct (Z.leb_spec (2 ^ length) sum); [|lia].
    rewrite !Z.lor_spec, !Z.land_spec, Z.lnot_spec, Z.lor_spec, Hone by lia.
    unfold regMask_of. rewrite Z.testbit_ones_nonneg by lia.
    destruct (Z.leb_spec start j).
    + rewrite !Z.shiftl_spec by lia. rewrite Z.testbit_ones_nonneg by lia.
      destruct (Z.ltb_spec j (start + length)); destruct (Z.ltb_spec (j - start) length);
        try lia; destruct (Z.eqb_spec j c); try lia; destruct (Z.ltb_spec j n);
        rewrite ?Hmb by lia; rewrite ?Hib by lia; testbit_cases.
    + rewrite !Z.shiftl_spec by lia.
      rewrite (Z.testbit_neg_r _ (j - start)), (Z.testbit_neg_r (Z.ones length) (j - start)) by lia.
      destruct (Z.ltb_spec j (start + length)); try lia;
        destruct (Z.eqb_spec j c); try lia; destruct (Z.ltb_spec j n);
        rewrite ?Hib by lia; testbit_cases.
  - assert (sum mod 2 ^ length = sum) as Hsm by (apply Z.mod_small; unfold sum; lia).
    rewrite Hsm in *. rewrite Hshl by lia.
    destruct (Z.leb_spec (2 ^ length) sum); [lia|].
    rewrite !Z.lor_spec, !Z.land_spec, Z.lnot_spec, Z.lor_spec, Hone, Z.bits_0 by lia.
    unfold regMask_of. rewrite Z.testbit_ones_nonneg by lia.
    destruct (Z.leb_spec start j).
    + rewrite !Z.shiftl_spec by lia. rewrite Z.testbit_ones_nonneg by lia.
      destruct (Z.ltb_spec j (start + length)); destruct (Z.ltb_spec (j - start) length);
        try lia; destruct (Z.eqb_spec j c); try lia; destruct (Z.ltb_spec j n);
        rewrite ?Hmb by lia; rewrite ?Hib by lia; testbit_cases.
    + rewrite !Z.shiftl_spec by lia.
      rewrite (Z.testbit_neg_r _ (j - start)), (Z.testbit_neg_r (Z.ones length) (j - start)) by lia.
      destruct (Z.ltb_spec j (start + length)); try lia;
        destruct (Z.eqb_spec j c); try lia; destruct (Z.ltb_spec j n);
        rewrite ?Hib by lia; testbit_cases.
Qed.

Lemma add_with_carry_testbit n toMod start length c i j :
  0 <= start -> 0 <= length -> start + length <= n ->
  0 <= c < n -> ~ (start <= c < start + length) -> 0 <= i < 2 ^ n -> 0 <= j ->
  let sum := register_value start length i + toMod in
  Z.testbit (add_with_carry start length c toMod i) j =
  if (start <=? j) && (j <? start + length) then Z.testbit (sum mod 2 ^ length) (j - start)
  else if j =? c then 2 ^ length <=? sum
  else Z.testbit i j.
Proof.
  intros Hs Hl Hn Hc Hout Hi Hj sum. unfold add_with_carry. fold sum.
  pose proof (Z.mod_pos_bound sum (2 ^ length) ltac:(apply Z.pow_pos_nonneg; lia)) as Hm.
  rewrite with_bit_testbit by lia.
  rewrite (with_register_testbit n) by done.
  destruct (Z.eqb_spec j c) as [->|]; [|done].
  destruct (Z.leb_spec start c), (Z.ltb_spec c (start + length)); cbn; try done. lia.
Qed.

Lemma add_with_carry_range n toMod start length c i :
  0 <= start -> 0 <= length -> start + length <= n ->
  0 <= c < n -> 0 <= i < 2 ^ n ->
  0 <= add_with_carry start length c toMod i < 2 ^ n.
Proof.
  intros Hs Hl Hn Hc Hi. unfold add_with_carry. apply with_bit_range; [done|].
  apply with_register_range; try done.
  apply Z.mod_pos_bound, Z.pow_pos_nonneg; lia.
Qed.

Lemma incdecc_dest_spec n toMod start length c i :
  0 <= start -> 0 <= length -> start + length <= n -> n < bitsInCap - 1 ->
  0 <= c < n -> ~ (start <= c < start + length) ->
  0 <= toMod <= 2 ^ length -> 0 <= i < 2 ^ n ->
  KernelArith.incdecc_dest (INTC_args n toMod start length c) i =
  add_with_carry start length c toMod i.
Proof.
  intros Hs Hl Hn Hb Hc Hout Ht Hi. apply Z.bits_inj'. intros j Hj.
  rewrite incdecc_dest_testbit, (add_with_carry_testbit n) by done. done.
Qed.

(** The sum is read back from the register and the carry bit. *)
Lemma add_with_carry_inj n toMod start length c a b :
  0 <= start -> 0 <= length -> start + length <= n ->
  0 <= c < n -> ~ (start <= c < start + length) -> 0 <= toMod <= 2 ^ length ->
  0 <= a < 2 ^ n -> 0 <= b < 2 ^ n ->
  Z.testbit a c = false -> Z.testbit b c = false ->
  add_with_carry start length c toMod a = add_with_carry start length c toMod b -> a = b.
Proof.
  intros Hs Hl Hn Hc Hout Ht Ha Hb Hac Hbc E.
  pose proof (register_value_range a start length Hs Hl) as Hva.
  pose proof (register_value_range b start length Hs Hl) as Hvb.
  assert (Hbits : forall j, 0 <= j ->
            Z.testbit (add_with_carry start length c toMod a) j =
            Z.testbit (add_with_carry start length c toMod b) j) by (by rewrite E).
  set (sa := register_value start length a + toMod) in *.
  set (sb := register_value start length b + toMod) in *.
  pose proof (Z.mod_pos_bound sa (2 ^ length) ltac:(lia)) as Hma.
  pose proof (Z.mod_pos_bound sb (2 ^ length) ltac:(lia)) as Hmb.
  assert (Hmod : sa mod 2 ^ length = sb mod 2 ^ length).
  { apply (index_eq length); [done|done|]. intros j Hj.
    specialize (Hbits (j + start) ltac:(lia)).
    rewrite !(add_with_carry_testbit n) in Hbits by (try done; lia).
    fold sa sb in Hbits.
    destruct (Z.leb_spec start (j + start)); [|lia].
    destruct (Z.ltb_spec (j + start) (start + length)); [|lia].
    cbn in Hbits. replace (j + start - start) with j in Hbits by lia. done. }
  assert (Hcarry : (2 ^ length <=? sa) = (2 ^ length <=? sb)).
  { specialize (Hbits c ltac:(lia)).
    rewrite !(add_with_carry_testbit n) in Hbits by (try done; lia).
    fold sa sb in Hbits.
    destruct (Z.leb_spec start c), (Z.ltb_spec c (start + length)); cbn in Hbits; try lia;
      by rewrite Z.eqb_refl in Hbits. }
  assert (sa = sb) as Hsum.
  { pose proof (Z.div_mod sa (2 ^ length) ltac:(lia)) as Da.
    pose proof (Z.div_mod sb (2 ^ length) ltac:(lia)) as Db.
    assert (forall s, 0 <= s < 2 * 2 ^ length ->
              s `div` 2 ^ length = if 2 ^ length <=? s then 1 else 0) as Hq.
    { intros s Hs'. destruct (Z.leb_spec (2 ^ length) s).
      - symmetry. apply (Z.div_unique s (2 ^ length) 1 (s - 2 ^ length)); lia.
      - apply Z.div_small. lia. }
    rewrite Hq in Da, Db by (unfold sa, sb; lia). rewrite Hcarry, Hmod in Da. lia. }
  assert (register_value start length a = register_value start length b) as Hreg
    by (unfold sa, sb in Hsum; lia).
  apply (index_eq n); [done|done|]. intros j Hj.
  destruct (decide (start <= j < start + length)) as [Hin|Hnin].
  - apply (f_equal (λ v, Z.testbit v (j - start))) in Hreg.
    rewrite !register_value_testbit in Hreg by lia.
    destruct (Z.ltb_spec (j - start) length); [|lia].
    replace (j - start + start) with j in Hreg by lia. done.
  - destruct (decide (j = c)) as [->|Hjc]; [congruence|].
    specialize (Hbits j ltac:(lia)).
    rewrite !(add_with_carry_testbit n) in Hbits by (try done; lia).
    destruct (Z.eqb_spec j c); [done|].
    destruct (Z.leb_spec start j), (Z.ltb_spec j (start + length)); cbn in Hbits; try lia; done.
Qed.

Lemma incdecc_length N (sv out : list complex) args :
  List.length (KernelArith.incdecc N sv args out) = List.length out.
Proof.
  apply (scatter_length (λ lcv, KernelArith.incdecc_dest args (KernelArith.incdecc_src args lcv))
           (λ lcv, sv !!! Z.to_nat (KernelArith.incdecc_src args lcv))).
Qed.

(** X16. Addition with carry on the OpenCL engine: [INTC] moves the
    amplitude of every index whose carry bit is clear to the index whose
    register [[start, start + length)] holds the sum of the register and
    [toMod] modulo [2 ^ length] and whose carry bit tells whether the sum
    passed [2 ^ length]; every other bit is unchanged. The amplitudes of the
    indices whose carry bit is set are not read. *)
Theorem INTC_adds_with_carry (e : QEngineOCL.t) (toMod start length carryIndex : Z) :
  well_formed e -> 0 <= start -> 0 <= length -> start + length <= qubitCount e ->
  0 <= carryIndex < qubitCount e -> ~ (start <= carryIndex < start + length) ->
  0 <= toMod <= 2 ^ length ->
  (forall i, 0 <= i < maxQPower e -> Z.testbit i carryIndex = false ->
     stateVec (INTC OCL_API_INCC toMod start length carryIndex e)
       !! Z.to_nat (add_with_carry start length carryIndex toMod i) =
     stateVec e !! Z.to_nat i) /\
  (forall e2 : QEngineOCL.t,
     maxQPower e2 = maxQPower e -> nrmGroupCount e2 = nrmGroupCount e ->
     (forall i, 0 <= i < maxQPower e -> Z.testbit i carryIndex = false ->
        stateVec e2 !!! Z.to_nat i = stateVec e !!! Z.to_nat i) ->
     stateVec (INTC OCL_API_INCC toMod start length carryIndex e2) =
     stateVec (INTC OCL_API_INCC toMod start length carryIndex e)).
Proof.
  intros Hwf Hs Hl Hn Hc Hout Ht. pose proof Hwf as (Hq & Hm & Hlen).
  pose proof int_shift_below_cap as Hic.
  assert (Hb : qubitCount e < bitsInCap - 1).
  { unfold bitsInInt, bitsInCap, sizeof_bitCapInt, bitsInByte in *. lia. }
  set (n := qubitCount e) in *.
  set (args := INTC_args n toMod start length carryIndex).
  assert (H2n : 2 ^ n = 2 * 2 ^ (n - 1)).
  { rewrite <- Z.pow_succ_r by lia. f_equal. lia. }
  assert (Hsched : forall N a, 0 < N -> a ∈ NDRange N (2 ^ (n - 1)) ->
            0 <= a < 2 ^ (n - 1) /\
            0 <= Kernel.PUSH_APART_1 (Z.ones carryIndex) a < 2 ^ n /\
            Z.testbit (Kernel.PUSH_APART_1 (Z.ones carryIndex) a) carryIndex = false).
  { intros N a HN Ha. apply elem_of_NDRange in Ha; [|done].
    split; [done|]. split.
    - apply PUSH_APART_1_range; lia.
    - rewrite PUSH_APART_1_testbit; [|lia| |lia].
      + destruct (Z.ltb_spec carryIndex carryIndex); [lia|]. by rewrite Z.eqb_refl.
      + split; [lia|]. apply Z.lt_le_trans with (2 ^ (n - 1)); [lia|].
        apply Z.pow_le_mono_r; lia. }
  split.
  - intros i Hi Hbit. rewrite Hm in Hi.
    rewrite INTC_DispatchCall by done. unfold DispatchCall. cbn. fold n args.
    set (N := FixWorkItemCount _ _).
    assert (HN : 0 < N) by (apply FixWorkItemCount_pos; cbn; apply Z.pow_pos_nonneg; lia).
    unfold KernelArith.incdecc. cbv zeta.
    change (args !!! 0%nat) with (2 ^ (n - 1)).
    change (run_kernel ?f ?s ?d) with
      (scatter (λ lcv, KernelArith.incdecc_dest args (KernelArith.incdecc_src args lcv))
               (λ lcv, stateVec e !!! Z.to_nat (KernelArith.incdecc_src args lcv)) s d).
    set (a := remove_bit carryIndex i).
    assert (Ha : 0 <= a < 2 ^ (n - 1)) by (apply remove_bit_range; lia).
    assert (Hsrc : KernelArith.incdecc_src args a = i).
    { unfold args. rewrite incdecc_src_spec by lia.
      apply PUSH_APART_1_remove_bit; [lia| |done].
      split; [lia|]. apply Z.lt_le_trans with (2 ^ n); [lia|]. apply Z.pow_le_mono_r; lia. }
    assert (Hdest : forall x, 0 <= x < 2 ^ n ->
              KernelArith.incdecc_dest args x = add_with_carry start length carryIndex toMod x).
    { intros x Hx. apply incdecc_dest_spec; done. }
    pose proof (scatter_lookup
      (λ lcv, KernelArith.incdecc_dest args (KernelArith.incdecc_src args lcv))
      (λ lcv, stateVec e !!! Z.to_nat (KernelArith.incdecc_src args lcv))
      (NDRange N (2 ^ (n - 1))) (replicate (Z.to_nat (maxQPower e)) ZERO_CMPLX) a
      (NoDup_NDRange _ _ HN)) as Hsc.
    cbv beta in Hsc. rewrite Hsrc, Hdest in Hsc by done.
    rewrite Hsc.
    + symmetry. apply list_lookup_lookup_total_lt. lia.
    + apply elem_of_NDRange; done.
    + intros b Hb' Heq.
      destruct (Hsched N b HN Hb') as (Hbr & Hpr & Hpb).
      unfold args in Heq. rewrite incdecc_src_spec in Heq by lia. fold args in Heq.
      rewrite Hdest in Heq by done.
      apply Z2Nat.inj in Heq;
        [|apply (add_with_carry_range n); lia|apply (add_with_carry_range n); lia].
      apply (add_with_carry_inj n) in Heq; try done.
      apply (f_equal (remove_bit carryIndex)) in Heq.
      rewrite remove_bit_PUSH_APART_1 in Heq; [done|lia|].
      split; [lia|]. apply Z.lt_le_trans with (2 ^ (n - 1)); [lia|].
      apply Z.pow_le_mono_r; lia.
    + rewrite length_replicate, Hm.
      pose proof (add_with_carry_range n toMod start length carryIndex i). lia.
  - intros e2 E2 E3 Hsame.
    unfold INTC, DispatchCall. cbn. rewrite E2, E3.
    unfold KernelArith.incdecc, run_kernel. cbv zeta.
    set (args' := [_; _; _; _; _; _; _; _; _; _]).
    set (N := FixWorkItemCount _ _).
    assert (Eargs : args' = args).
    { unfold args', args, INTC_args.
      destruct (INT_masks n start length) as (H1 & H2 & H3 & _); [done|done|done|lia|].
      fold n. rewrite Hm, H3, H1.
      change (cap_shl 1 carryIndex) with (pow2 carryIndex). rewrite pow2_small by lia.
      rewrite Z.shiftr_div_pow2 by lia.
      assert (2 ^ n `div` 2 ^ 1 = 2 ^ (n - 1)) as -> by (rewrite <- Z.pow_sub_r by lia; done).
      do 2 f_equal. f_equal.
      unfold cap_sub, cap_not. rewrite (wrapCap_small (2 ^ n - 1)).
      2:{ pose proof (pow2_mono n bitsInCap). lia. }
      rewrite <- ones_eq. unfold wrapCap. rewrite <- Z.land_ones by done.
      apply Z.bits_inj'. intros j Hj. rewrite !Z.land_spec, !Z.testbit_ones_nonneg by lia.
      cmp_cases. by rewrite andb_true_r. }
    assert (HN : 0 < N).
    { apply FixWorkItemCount_pos. unfold args'. cbn. rewrite Hm, Z.shiftr_div_pow2 by lia.
      apply Z.div_str_pos. change (2 ^ 1) with 2. lia. }
    apply (foldl_ext_in _ _ (λ _, True)); [done|].
    intros sv lcv Hl' _. split; [|done].
    rewrite Eargs in *. change (args !!! 0%nat) with (2 ^ (n - 1)) in Hl'.
    destruct (Hsched N lcv HN Hl') as (Hbr & Hpr & Hpb).
    assert (KernelArith.incdecc_src args lcv = Kernel.PUSH_APART_1 (Z.ones carryIndex) lcv)
      as -> by (apply incdecc_src_spec; lia).
    rewrite Hsame by (rewrite ?Hm; done). done.
Qed.

End INTC_proofs.

(** * Multiplication and division *)

Lemma bits_below n x :
  0 <= n -> 0 <= x -> (forall j, n <= j -> Z.testbit x j = false) -> x < 2 ^ n.
Proof.
  intros Hn Hx Hb.
  destruct (Z.eq_dec x 0) as [->|Hne]; [apply Z.pow_pos_nonneg; lia|].
  apply Z.log2_lt_pow2; [lia|].
  destruct (Z.lt_ge_cases (Z.log2 x) n) as [|Hge]; [done|].
  pose proof (Z.bit_log2 x ltac:(lia)) as Hbit. rewrite Hb in Hbit by done. done.
Qed.

Lemma high_part_nonneg lcv m : 0 <= lcv -> 0 <= Z.lxor lcv (Z.land lcv (Z.ones m)).
Proof.
  intros H. apply Z.lxor_nonneg. split; intros _; [|done]. apply Z.land_nonneg. lia.
Qed.

Lemma insert_zeros_nonneg m len lcv : 0 <= lcv -> 0 <= insert_zeros m len lcv.
Proof.
  intros H. unfold insert_zeros. apply Z.lor_nonneg. split.
  - apply Z.land_nonneg. lia.
  - apply Z.shiftl_nonneg, high_part_nonneg. done.
Qed.

Lemma remove_bits_nonneg m len i : 0 <= i -> 0 <= remove_bits m len i.
Proof.
  intros H. unfold remove_bits. apply Z.lor_nonneg. split.
  - apply Z.land_nonneg. lia.
  - apply Z.shiftl_nonneg, Z.shiftr_nonneg. lia.
Qed.

Lemma insert_zeros_testbit m len lcv j :
  0 <= m -> 0 <= len -> 0 <= lcv -> 0 <= j ->
  Z.testbit (insert_zeros m len lcv) j =
  if j <? m then Z.testbit lcv j
  else if j <? m + len then false else Z.testbit lcv (j - len).
Proof.
  intros Hm Hl Hlcv Hj. unfold insert_zeros.
  rewrite Z.lor_spec, Z.land_spec, Z.testbit_ones_nonneg by lia.
  destruct (Z.ltb_spec j m).
  - destruct (Z.ltb_spec (j - len) 0).
    + rewrite Z.shiftl_spec, (Z.testbit_neg_r _ (j - len)) by lia. testbit_cases.
    + rewrite Z.shiftl_spec, Z.lxor_spec, Z.land_spec, Z.testbit_ones_nonneg by lia.
      destruct (Z.ltb_spec (j - len) m); [|lia]. testbit_cases.
  - rewrite andb_false_r. cbn [orb].
    destruct (Z.ltb_spec j (m + len)).
    + destruct (Z.ltb_spec (j - len) 0).
      * rewrite Z.shiftl_spec, (Z.testbit_neg_r _ (j - len)) by lia. done.
      * rewrite Z.shiftl_spec, Z.lxor_spec, Z.land_spec, Z.testbit_ones_nonneg by lia.
        destruct (Z.ltb_spec (j - len) m); [|lia]. testbit_cases.
    + rewrite Z.shiftl_spec, Z.lxor_spec, Z.land_spec, Z.testbit_ones_nonneg by lia.
      destruct (Z.ltb_spec (j - len) m); [lia|]. testbit_cases.
Qed.

Lemma remove_bits_testbit m len i j :
  0 <= m -> 0 <= len -> 0 <= j ->
  Z.testbit (remove_bits m len i) j =
  if j <? m then Z.testbit i j else Z.testbit i (j + len).
Proof.
  intros Hm Hl Hj. unfold remove_bits.
  rewrite Z.lor_spec, Z.land_spec, Z.testbit_ones_nonneg by lia.
  destruct (Z.ltb_spec j m).
  - rewrite Z.shiftl_spec, (Z.testbit_neg_r _ (j - m)) by lia. testbit_cases.
  - rewrite Z.shiftl_spec, Z.shiftr_spec by lia.
    replace (j - m + (m + len)) with (j + len) by lia. testbit_cases.
Qed.

Lemma insert_zeros_range m len lcv n :
  0 <= m -> 0 <= len -> m + len <= n -> 0 <= lcv < 2 ^ (n - len) ->
  0 <= insert_zeros m len lcv < 2 ^ n.
Proof.
  intros Hm Hl Hn Hlcv. split; [apply insert_zeros_nonneg; lia|].
  apply bits_below; [lia|apply insert_zeros_nonneg; lia|].
  intros j Hj. rewrite insert_zeros_testbit by lia.
  destruct (Z.ltb_spec j m); [lia|]. destruct (Z.ltb_spec j (m + len)); [done|].
  apply (testbit_above lcv (n - len)); [done|lia].
Qed.

Lemma remove_bits_range m len i n :
  0 <= m -> 0 <= len -> m + len <= n -> 0 <= i < 2 ^ n ->
  0 <= remove_bits m len i < 2 ^ (n - len).
Proof.
  intros Hm Hl Hn Hi. split; [apply remove_bits_nonneg; lia|].
  apply bits_below; [lia|apply remove_bits_nonneg; lia|].
  intros j Hj. rewrite remove_bits_testbit by lia.
  destruct (Z.ltb_spec j m); [lia|]. apply (testbit_above i n); [done|lia].
Qed.

Lemma remove_insert_zeros m len lcv :
  0 <= m -> 0 <= len -> 0 <= lcv -> remove_bits m len (insert_zeros m len lcv) = lcv.
Proof.
  intros Hm Hl Hlcv. apply Z.bits_inj'. intros j Hj.
  rewrite remove_bits_testbit by done.
  destruct (Z.ltb_spec j m).
  - rewrite insert_zeros_testbit by done. destruct (Z.ltb_spec j m); [done|lia].
  - rewrite insert_zeros_testbit by lia.
    destruct (Z.ltb_spec (j + len) m); [lia|].
    destruct (Z.ltb_spec (j + len) (m + len)); [lia|]. f_equal. lia.
Qed.

Lemma insert_remove_bits m len i :
  0 <= m -> 0 <= len -> 0 <= i -> register_value m len i = 0 ->
  insert_zeros m len (remove_bits m len i) = i.
Proof.
  intros Hm Hl Hi Hz. apply Z.bits_inj'. intros j Hj.
  rewrite insert_zeros_testbit by (try done; by apply remove_bits_nonneg).
  destruct (Z.ltb_spec j m).
  - rewrite remove_bits_testbit by done. destruct (Z.ltb_spec j m); [done|lia].
  - destruct (Z.ltb_spec j (m + len)).
    + apply (f_equal (λ v, Z.testbit v (j - m))) in Hz.
      rewrite register_value_testbit, Z.bits_0 in Hz by lia.
      destruct (Z.ltb_spec (j - m) len); [|lia].
      replace (j - m + m) with j in Hz by lia. done.
    + rewrite remove_bits_testbit by lia.
      destruct (Z.ltb_spec (j - len) m); [lia|]. f_equal. lia.
Qed.

Lemma insert_zeros_register m len lcv :
  0 <= m -> 0 <= len -> 0 <= lcv -> register_value m len (insert_zeros m len lcv) = 0.
Proof.
  intros Hm Hl Hlcv. apply Z.bits_inj'. intros j Hj.
  rewrite register_value_testbit, Z.bits_0 by done.
  destruct (Z.ltb_spec j len); [|done]. cbn.
  rewrite insert_zeros_testbit by lia.
  destruct (Z.ltb_spec (j + m) m); [lia|].
  destruct (Z.ltb_spec (j + m) (m + len)); [done|lia].
Qed.

Section MUL_proofs.
Context {R1 : Real1}.
Import QEngineOCL OCLArith.

Lemma MULx_DispatchCall api toMod inOutStart carryStart length (e : QEngineOCL.t) :
  well_formed e -> 0 <= inOutStart -> 0 <= carryStart -> 0 <= length ->
  inOutStart + length <= qubitCount e -> carryStart + length <= qubitCount e ->
  MULx api toMod inOutStart carryStart length e =
  DispatchCall api (MULx_args (qubitCount e) toMod inOutStart carryStart length) e.
Proof.
  intros (Hq & Hm & _) Hs Hc Hl Hn1 Hn2. pose proof int_shift_below_cap as Hic.
  unfold MULx, MULx_args. cbv zeta.
  destruct (INT_masks (qubitCount e) inOutStart length) as (H1 & H2 & H3 & _);
    [done|done|done|lia|].
  destruct (INT_masks (qubitCount e) carryStart length) as (_ & _ & H3' & _);
    [done|done|done|lia|].
  destruct (INT_masks (qubitCount e) 0 carryStart) as (_ & H2' & _ & _); [done|done|lia|lia|].
  rewrite Hm, H3, H3', H2'.
  rewrite Z.shiftr_div_pow2, <- Z.pow_sub_r by lia.
  unfold cap_sub. rewrite (wrapCap_small (2 ^ qubitCount e - 1)).
  2:{ pose proof (pow2_mono (qubitCount e) bitsInCap). lia. }
  by rewrite <- ones_eq.
Qed.

Lemma mul_src_spec n toMod inOutStart carryStart length lcv :
  0 <= carryStart -> 0 <= length -> carryStart + length <= n -> n < bitsInCap ->
  0 <= lcv < 2 ^ (n - length) ->
  KernelArith.mul_src (MULx_args n toMod inOutStart carryStart length) lcv =
  insert_zeros carryStart length lcv.
Proof.
  intros Hc Hl Hn Hb Hlcv. unfold KernelArith.mul_src, MULx_args, insert_zeros.
  cbn [lookup_total list_lookup_total]. cbv zeta. f_equal.
  unfold cap_shl. apply wrapCap_small.
  pose proof (high_part_nonneg lcv carryStart ltac:(lia)) as H0.
  assert (Z.lxor lcv (Z.land lcv (Z.ones carryStart)) < 2 ^ (n - length)) as H1.
  { apply bits_below; [lia|done|]. intros j Hj.
    rewrite Z.lxor_spec, Z.land_spec, (testbit_above lcv (n - length)) by (try done; lia).
    done. }
  rewrite Z.shiftl_mul_pow2 by lia.
  pose proof (pow2_mono length length ltac:(lia)).
  split; [nia|].
  apply Z.lt_le_trans with (2 ^ n); [|apply Z.pow_le_mono_r; lia].
  assert (2 ^ n = 2 ^ (n - length) * 2 ^ length) as ->
    by (rewrite <- Z.pow_add_r by lia; f_equal; lia).
  nia.
Qed.

Section Registers.
Variables (n toMul inOutStart carryStart length : Z).
Hypothesis Hs : 0 <= inOutStart.
Hypothesis Hc : 0 <= carryStart.
Hypothesis Hl : 0 <= length.
Hypothesis Hn1 : inOutStart + length <= n.
Hypothesis Hn2 : carryStart + length <= n.
Hypothesis Hdisj : inOutStart + length <= carryStart \/ carryStart + length <= inOutStart.
Hypothesis Hb : n < bitsInInt - 1.
Hypothesis Ht : 0 < toMul < 2 ^ length.

Let args := MULx_args n toMul inOutStart carryStart length.

Lemma product_halves i :
  let product := register_value inOutStart length i * toMul in
  0 <= product < 2 ^ length * 2 ^ length /\
  0 <= product mod 2 ^ length < 2 ^ length /\
  0 <= product `div` 2 ^ length < 2 ^ length /\
  product < 2 ^ bitsInCap.
Proof.
  intros product.
  pose proof (register_value_range i inOutStart length Hs Hl) as Hv.
  assert (0 <= product < 2 ^ length * 2 ^ length) as Hp by (unfold product; nia).
  pose proof (pow2_mono 0 length ltac:(lia)).
  pose proof (Z.mod_pos_bound product (2 ^ length) ltac:(lia)).
  assert (0 <= product `div` 2 ^ length < 2 ^ length).
  { split; [apply Z.div_pos; lia|apply Z.div_lt_upper_bound; lia]. }
  split_and!; try lia.
  apply Z.lt_le_trans with (2 ^ (length + length)); [rewrite Z.pow_add_r by lia; lia|].
  apply Z.pow_le_mono_r; [lia|]. unfold bitsInInt, bitsInCap, sizeof_bitCapInt, bitsInByte in *.
  lia.
Qed.

Lemma mul_index_testbit i j :
  0 <= i < 2 ^ n -> 0 <= j ->
  let product := register_value inOutStart length i * toMul in
  Z.testbit (mul_index inOutStart carryStart length toMul i) j =
  if (inOutStart <=? j) && (j <? inOutStart + length)
  then Z.testbit (product mod 2 ^ length) (j - inOutStart)
  else if (carryStart <=? j) && (j <? carryStart + length)
  then Z.testbit (product `div` 2 ^ length) (j - carryStart)
  else Z.testbit i j.
Proof.
  intros Hi Hj product. unfold mul_index. fold product.
  destruct (product_halves i) as (_ & Hlo & Hhi & _). fold product in Hlo, Hhi.
  rewrite (with_register_testbit n); [|done|done|done|done| |done].
  2:{ by apply with_register_range. }
  rewrite (with_register_testbit n) by done.
  destruct (Z.leb_spec carryStart j), (Z.ltb_spec j (carryStart + length)),
           (Z.leb_spec inOutStart j), (Z.ltb_spec j (inOutStart + length));
    cbn [andb]; try done; lia.
Qed.

Lemma mul_index_range i :
  0 <= i < 2 ^ n -> 0 <= mul_index inOutStart carryStart length toMul i < 2 ^ n.
Proof.
  intros Hi. unfold mul_index.
  destruct (product_halves i) as (_ & Hlo & Hhi & _).
  apply with_register_range; try done. by apply with_register_range.
Qed.

Lemma mul_dest_spec i :
  0 <= i < 2 ^ n ->
  KernelArith.mul_dest args i = mul_index inOutStart carryStart length toMul i.
Proof.
  intros Hi. apply Z.bits_inj'. intros j Hj. rewrite mul_index_testbit by done.
  unfold KernelArith.mul_dest, args, MULx_args. cbn [lookup_total list_lookup_total].
  cbv zeta.
  pose proof int_shift_below_cap as Hic.
  rewrite reg_field by done. rewrite <- register_value_land by done.
  destruct (product_halves i) as (Hp & Hlo & Hhi & Hpc).
  set (product := register_value inOutStart length i * toMul) in *.
  rewrite (wrapCap_small product) by lia.
  destruct (INT_masks n 0 length) as (_ & H2 & _ & _); [done|done|lia|lia|].
  unfold ONE_BCI. rewrite H2.
  assert (cap_shl (Z.ones length) length = Z.shiftl (Z.ones length) length) as ->.
  { unfold cap_shl. apply wrapCap_small. rewrite Z.shiftl_mul_pow2, ones_eq by lia.
    pose proof (pow2_mono 0 length ltac:(lia)).
    split; [nia|].
    apply Z.lt_le_trans with (2 ^ (length + length)); [rewrite Z.pow_add_r by lia; nia|].
    apply Z.pow_le_mono_r; [lia|]. unfold bitsInInt, bitsInCap, sizeof_bitCapInt, bitsInByte in *.
    lia. }
  assert (Z.land product (Z.ones length) = product mod 2 ^ length) as ->
    by (by rewrite Z.land_ones).
  assert (Z.shiftr (Z.land product (Z.shiftl (Z.ones length) length)) length =
          product `div` 2 ^ length) as ->.
  { rewrite <- Z.shiftr_div_pow2 by done.
    pose proof (fun j => testbit_above product (length + length) j
                  ltac:(rewrite Z.pow_add_r by lia; lia)) as Hpb.
    apply Z.bits_inj'. intros k Hk.
    rewrite !Z.shiftr_spec, Z.land_spec, Z.shiftl_spec by lia.
    replace (k + length - length) with k by lia.
    rewrite Z.testbit_ones_nonneg by lia.
    destruct (Z.ltb_spec k length); [by rewrite andb_true_r|].
    rewrite Hpb by lia. done. }
  assert (Hshl : forall x s, 0 <= s -> s + length <= n -> 0 <= x < 2 ^ length ->
            cap_shl x s = Z.shiftl x s).
  { intros x s Hs' Hsn Hx. unfold cap_shl. apply wrapCap_small.
    rewrite Z.shiftl_mul_pow2 by lia.
    pose proof (pow2_mono s s ltac:(lia)).
    split; [nia|].
    apply Z.lt_le_trans with (2 ^ (s + length)); [|apply pow2_mono; lia].
    rewrite Z.pow_add_r by lia. nia. }
  rewrite !Hshl by done.
  pose proof (fun j => testbit_above _ length j Hlo) as Hlob.
  pose proof (fun j => testbit_above _ length j Hhi) as Hhib.
  pose proof (fun j => testbit_above i n j Hi) as Hib.
  unfold regMask_of.
  rewrite !Z.lor_spec, Z.land_spec, Z.lxor_spec, Z.lor_spec, Z.testbit_ones_nonneg by lia.
  destruct (Z.leb_spec inOutStart j), (Z.leb_spec carryStart j).
  - rewrite !Z.shiftl_spec by lia. rewrite !Z.testbit_ones_nonneg by lia.
    destruct (Z.ltb_spec j (inOutStart + length)), (Z.ltb_spec j (carryStart + length)),
             (Z.ltb_spec (j - inOutStart) length), (Z.ltb_spec (j - carryStart) length),
             (Z.ltb_spec j n); try lia;
      rewrite ?Hlob by lia; rewrite ?Hhib by lia; rewrite ?Hib by lia; testbit_cases.
  - rewrite !Z.shiftl_spec by lia.
    rewrite (Z.testbit_neg_r _ (j - carryStart)),
            (Z.testbit_neg_r (Z.ones length) (j - carryStart)) by lia.
    rewrite !Z.testbit_ones_nonneg by lia.
    destruct (Z.ltb_spec j (inOutStart + length)),
             (Z.ltb_spec (j - inOutStart) length), (Z.ltb_spec j n); try lia;
      rewrite ?Hlob by lia; rewrite ?Hib by lia; testbit_cases.
  - rewrite !Z.shiftl_spec by lia.
    rewrite (Z.testbit_neg_r _ (j - inOutStart)),
            (Z.testbit_neg_r (Z.ones length) (j - inOutStart)) by lia.
    rewrite !Z.testbit_ones_nonneg by lia.
    destruct (Z.ltb_spec j (carryStart + length)),
             (Z.ltb_spec (j - carryStart) length), (Z.ltb_spec j n); try lia;
      rewrite ?Hhib by lia; rewrite ?Hib by lia; testbit_cases.
  - rewrite !Z.shiftl_spec by lia.
    rewrite (Z.testbit_neg_r _ (j - inOutStart)),
            (Z.testbit_neg_r (Z.ones length) (j - inOutStart)),
            (Z.testbit_neg_r _ (j - carryStart)),
            (Z.testbit_neg_r (Z.ones length) (j - carryStart)) by lia.
    destruct (Z.ltb_spec j n); try lia; testbit_cases.
Qed.

Lemma mul_index_inj a b :
  0 <= a < 2 ^ n -> 0 <= b < 2 ^ n ->
  register_value carryStart length a = 0 -> register_value carryStart length b = 0 ->
  mul_index inOutStart carryStart length toMul a =
  mul_index inOutStart carryStart length toMul b -> a = b.
Proof.
  intros Ha Hb' Hca Hcb E.
  assert (Hbits : forall j, 0 <= j ->
            Z.testbit (mul_index inOutStart carryStart length toMul a) j =
            Z.testbit (mul_index inOutStart carryStart length toMul b) j) by (by rewrite E).
  destruct (product_halves a) as (Hpa & Hloa & Hhia & _).
  destruct (product_halves b) as (Hpb & Hlob & Hhib & _).
  set (pa := register_value inOutStart length a * toMul) in *.
  set (pb := register_value inOutStart length b * toMul) in *.
  assert (pa mod 2 ^ length = pb mod 2 ^ length) as Hlo.
  { apply (index_eq length); [done|done|]. intros j Hj.
    specialize (Hbits (j + inOutStart) ltac:(lia)).
    rewrite !mul_index_testbit in Hbits by (try done; lia). fold pa pb in Hbits.
    destruct (Z.leb_spec inOutStart (j + inOutStart)); [|lia].
    destruct (Z.ltb_spec (j + inOutStart) (inOutStart + length)); [|lia].
    cbn in Hbits. replace (j + inOutStart - inOutStart) with j in Hbits by lia. done. }
  assert (pa `div` 2 ^ length = pb `div` 2 ^ length) as Hhi.
  { apply (index_eq length); [done|done|]. intros j Hj.
    specialize (Hbits (j + carryStart) ltac:(lia)).
    rewrite !mul_index_testbit in Hbits by (try done; lia). fold pa pb in Hbits.
    destruct (Z.leb_spec inOutStart (j + carryStart)),
             (Z.ltb_spec (j + carryStart) (inOutStart + length)); cbn [andb] in Hbits; try lia;
      (destruct (Z.leb_spec carryStart (j + carryStart)); [|lia]);
      (destruct (Z.ltb_spec (j + carryStart) (carryStart + length)); [|lia]);
      cbn in Hbits; replace (j + carryStart - carryStart) with j in Hbits by lia; done. }
  assert (pa = pb) as Hp.
  { pose proof (pow2_mono 0 length ltac:(lia)).
    rewrite (Z.div_mod pa (2 ^ length)), (Z.div_mod pb (2 ^ length)) by lia.
    by rewrite Hlo, Hhi. }
  assert (register_value inOutStart length a = register_value inOutStart length b) as Hreg
    by (unfold pa, pb in Hp; nia).
  apply (index_eq n); [done|done|]. intros j Hj.
  destruct (decide (inOutStart <= j < inOutStart + length)) as [Hin|Hnin].
  - apply (f_equal (λ v, Z.testbit v (j - inOutStart))) in Hreg.
    rewrite !register_value_testbit in Hreg by lia.
    destruct (Z.ltb_spec (j - inOutStart) length); [|lia].
    replace (j - inOutStart + inOutStart) with j in Hreg by lia. done.
  - destruct (decide (carryStart <= j < carryStart + length)) as [Hin2|Hnin2].
    + apply (f_equal (λ v, Z.testbit v (j - carryStart))) in Hca, Hcb.
      rewrite register_value_testbit, Z.bits_0 in Hca, Hcb by lia.
      destruct (Z.ltb_spec (j - carryStart) length); [|lia].
      replace (j - carryStart + carryStart) with j in Hca, Hcb by lia. cbn in *. congruence.
    + specialize (Hbits j ltac:(lia)).
      rewrite !mul_index_testbit in Hbits by (try done; lia).
      destruct (Z.leb_spec inOutStart j), (Z.ltb_spec j (inOutStart + length)),
               (Z.leb_spec carryStart j), (Z.ltb_spec j (carryStart + length));
        cbn [andb] in Hbits; try lia; done.
Qed.

End Registers.

Lemma mul_div_length N (sv out : list complex) args :
  List.length (KernelArith.mul N sv args out) = List.length out /\
  List.length (KernelArith.div N sv args out) = List.length out.
Proof.
  split.
  - apply (scatter_length (λ lcv, KernelArith.mul_dest args (KernelArith.mul_src args lcv))
             (λ lcv, sv !!! Z.to_nat (KernelArith.mul_src args lcv))).
  - apply (scatter_length (λ lcv, KernelArith.mul_src args lcv)
             (λ lcv, sv !!! Z.to_nat (KernelArith.mul_dest args (KernelArith.mul_src args lcv)))).
Qed.

(** X17. Multiplication and division on the OpenCL engine ([MULx] with
    the kernels [mul] and [div]), for a multiplier from 1 to
    [2 ^ length - 1] and two registers apart from one another. Of the
    indices whose carry register is zero, [mul] moves the amplitude to the
    index that holds the product (low half in the in-out register, high half
    in the carry register, every other bit unchanged) and [div] fetches it
    back from there. On an engine whose amplitudes are zero wherever the
    carry register is not, division after multiplication gives back the
    engine it started from. *)
Theorem MUL_DIV_round_trip (e : QEngineOCL.t) (toMul inOutStart carryStart length : Z) :
  well_formed e -> 0 <= inOutStart -> 0 <= carryStart -> 0 <= length ->
  inOutStart + length <= qubitCount e -> carryStart + length <= qubitCount e ->
  inOutStart + length <= carryStart \/ carryStart + length <= inOutStart ->
  0 < toMul < 2 ^ length ->
  (forall i, 0 <= i < maxQPower e -> register_value carryStart length i = 0 ->
     stateVec (MULx OCL_API_MUL toMul inOutStart carryStart length e)
       !! Z.to_nat (mul_index inOutStart carryStart length toMul i) =
     stateVec e !! Z.to_nat i /\
     stateVec (MULx OCL_API_DIV toMul inOutStart carryStart length e) !! Z.to_nat i =
     stateVec e !! Z.to_nat (mul_index inOutStart carryStart length toMul i)) /\
  ((forall i, 0 <= i < maxQPower e -> register_value carryStart length i <> 0 ->
      stateVec e !! Z.to_nat i = Some ZERO_CMPLX) ->
   MULx OCL_API_DIV toMul inOutStart carryStart length
     (MULx OCL_API_MUL toMul inOutStart carryStart length e) = e).
Proof.
  intros Hwf Hs Hc Hl Hn1 Hn2 Hdisj Ht.
  pose proof int_shift_below_cap as Hic.
  assert (Hmain : forall e : QEngineOCL.t, well_formed e ->
            inOutStart + length <= qubitCount e -> carryStart + length <= qubitCount e ->
            forall i, 0 <= i < maxQPower e -> register_value carryStart length i = 0 ->
     stateVec (MULx OCL_API_MUL toMul inOutStart carryStart length e)
       !! Z.to_nat (mul_index inOutStart carryStart length toMul i) =
     stateVec e !! Z.to_nat i /\
     stateVec (MULx OCL_API_DIV toMul inOutStart carryStart length e) !! Z.to_nat i =
     stateVec e !! Z.to_nat (mul_index inOutStart carryStart length toMul i)).
  { clear e Hwf Hn1 Hn2. intros e Hwf Hn1 Hn2 i Hi Hz.
    pose proof Hwf as (Hq & Hm & Hlen). rewrite Hm in Hi.
    set (n := qubitCount e) in *.
    set (args := MULx_args n toMul inOutStart carryStart length).
    assert (Hsrc : forall a, 0 <= a < 2 ^ (n - length) ->
              KernelArith.mul_src args a = insert_zeros carryStart length a).
    { intros a Ha. apply mul_src_spec; lia. }
    assert (Hdst : forall x, 0 <= x < 2 ^ n ->
              KernelArith.mul_dest args x = mul_index inOutStart carryStart length toMul x).
    { intros x Hx. apply (mul_dest_spec n); try done; lia. }
    set (a := remove_bits carryStart length i).
    assert (Ha : 0 <= a < 2 ^ (n - length)) by (apply remove_bits_range; lia).
    assert (Hai : insert_zeros carryStart length a = i) by (apply insert_remove_bits; lia).
    assert (0 <= mul_index inOutStart carryStart length toMul i < 2 ^ n) as Hmr
      by (apply (mul_index_range n); try done; lia).
    rewrite !MULx_DispatchCall by done. unfold DispatchCall. cbn. fold n args.
    set (N := FixWorkItemCount _ _).
    assert (HN : 0 < N) by (apply FixWorkItemCount_pos; cbn; apply Z.pow_pos_nonneg; lia).
    assert (Hin : forall b, b ∈ NDRange N (2 ^ (n - length)) ->
              0 <= b < 2 ^ (n - length) /\
              0 <= insert_zeros carryStart length b < 2 ^ n /\
              register_value carryStart length (insert_zeros carryStart length b) = 0).
    { intros b Hb. apply elem_of_NDRange in Hb; [|done].
      split; [done|]. split; [apply insert_zeros_range; lia|].
      apply insert_zeros_register; lia. }
    split.
    - unfold KernelArith.mul. cbv zeta. change (args !!! 0%nat) with (2 ^ (n - length)).
      change (run_kernel ?f ?s ?d) with
        (scatter (λ lcv, KernelArith.mul_dest args (KernelArith.mul_src args lcv))
                 (λ lcv, stateVec e !!! Z.to_nat (KernelArith.mul_src args lcv)) s d).
      pose proof (scatter_lookup
        (λ lcv, KernelArith.mul_dest args (KernelArith.mul_src args lcv))
        (λ lcv, stateVec e !!! Z.to_nat (KernelArith.mul_src args lcv))
        (NDRange N (2 ^ (n - length))) (replicate (Z.to_nat (maxQPower e)) ZERO_CMPLX) a
        (NoDup_NDRange _ _ HN)) as Hsc.
      cbv beta in Hsc. rewrite Hsrc, Hai, Hdst in Hsc by done.
      rewrite Hsc.
      + symmetry. apply list_lookup_lookup_total_lt. lia.
      + apply elem_of_NDRange; done.
      + intros b Hb Heq. destruct (Hin b Hb) as (Hbr & Hir & Hreg).
        rewrite Hsrc, Hdst in Heq by done.
        apply Z2Nat.inj in Heq;
          [|apply (mul_index_range n); try done; lia|lia].
        apply (mul_index_inj n) in Heq; try done; [|lia].
        rewrite <- Heq in Hai. apply (f_equal (remove_bits carryStart length)) in Hai.
        rewrite !remove_insert_zeros in Hai by lia. done.
      + rewrite length_replicate, Hm. lia.
    - unfold KernelArith.div. cbv zeta. change (args !!! 0%nat) with (2 ^ (n - length)).
      change (run_kernel ?f ?s ?d) with
        (scatter (λ lcv, KernelArith.mul_src args lcv)
           (λ lcv, stateVec e !!! Z.to_nat (KernelArith.mul_dest args (KernelArith.mul_src args lcv)))
           s d).
      pose proof (scatter_lookup
        (λ lcv, KernelArith.mul_src args lcv)
        (λ lcv, stateVec e !!! Z.to_nat (KernelArith.mul_dest args (KernelArith.mul_src args lcv)))
        (NDRange N (2 ^ (n - length))) (replicate (Z.to_nat (maxQPower e)) ZERO_CMPLX) a
        (NoDup_NDRange _ _ HN)) as Hsc.
      cbv beta in Hsc. rewrite Hsrc, Hai, Hdst in Hsc by done.
      rewrite Hsc.
      + symmetry. apply list_lookup_lookup_total_lt. lia.
      + apply elem_of_NDRange; done.
      + intros b Hb Heq. destruct (Hin b Hb) as (Hbr & Hir & Hreg).
        rewrite Hsrc in Heq by done.
        apply Z2Nat.inj in Heq; [|lia|lia].
        rewrite <- Heq in Hai. apply (f_equal (remove_bits carryStart length)) in Hai.
        rewrite !remove_insert_zeros in Hai by lia. done.
      + rewrite length_replicate, Hm. lia. }
  split; [by apply Hmain|].
  intros Hzero. pose proof Hwf as (Hq & Hm & Hlen).
  assert (Hfields : forall api (e : QEngineOCL.t),
            let e' := MULx api toMul inOutStart carryStart length e in
            qubitCount e' = qubitCount e /\ maxQPower e' = maxQPower e /\
            runningNorm e' = runningNorm e /\ nrmGroupCount e' = nrmGroupCount e /\
            List.length (stateVec e') = Z.to_nat (maxQPower e)).
  { intros api e0. unfold MULx, DispatchCall. cbn.
    split_and!; try done.
    destruct api.
    - rewrite rol_length. by rewrite length_replicate.
    - rewrite incdecc_length. by rewrite length_replicate.
    - rewrite (proj1 (mul_div_length _ _ _ _)). by rewrite length_replicate.
    - rewrite (proj2 (mul_div_length _ _ _ _)). by rewrite length_replicate. }
  destruct (Hfields OCL_API_MUL e) as (F1 & F2 & F3 & F4 & F5).
  set (e1 := MULx OCL_API_MUL toMul inOutStart carryStart length e) in *.
  assert (Hwf1 : well_formed e1) by (unfold well_formed; rewrite F1, F2, F5; done).
  destruct (Hfields OCL_API_DIV e1) as (G1 & G2 & G3 & G4 & G5).
  set (e2 := MULx OCL_API_DIV toMul inOutStart carryStart length e1) in *.
  assert (stateVec e2 = stateVec e) as Hsv.
  { apply list_eq. intros j.
    destruct (decide (j < Z.to_nat (2 ^ qubitCount e))%nat) as [Hj|Hj].
    2:{ rewrite !lookup_ge_None_2; [done|lia|lia]. }
    assert (0 <= Z.of_nat j < maxQPower e) as Hj' by lia.
    rewrite <- (Nat2Z.id j).
    destruct (decide (register_value carryStart length (Z.of_nat j) = 0)) as [Hz|Hnz].
    - destruct (Hmain e1 Hwf1 ltac:(lia) ltac:(lia) (Z.of_nat j) ltac:(lia) Hz) as [_ Hd].
      fold e2 in Hd. rewrite Hd.
      destruct (Hmain e Hwf Hn1 Hn2 (Z.of_nat j) Hj' Hz) as [Hmu _]. fold e1 in Hmu.
      by rewrite Hmu.
    - rewrite Hzero by done.
      unfold e2. rewrite MULx_DispatchCall by (try done; lia). unfold DispatchCall. cbn.
      unfold KernelArith.div. cbv zeta.
      set (args := MULx_args (qubitCount e1) toMul inOutStart carryStart length).
      change (args !!! 0%nat) with (2 ^ (qubitCount e1 - length)).
      change (run_kernel ?f ?s ?d) with
        (scatter (λ lcv, KernelArith.mul_src args lcv)
           (λ lcv, stateVec e1 !!! Z.to_nat (KernelArith.mul_dest args (KernelArith.mul_src args lcv)))
           s d).
      rewrite scatter_lookup_other.
      + apply lookup_replicate_2. lia.
      + intros a Ha. apply elem_of_NDRange in Ha.
        2:{ apply FixWorkItemCount_pos, Z.pow_pos_nonneg; lia. }
        unfold MULx_args in Ha. cbn [lookup_total list_lookup_total] in Ha.
        unfold args. rewrite F1, mul_src_spec by lia.
        intros Heq. apply Hnz.
        assert (Z.of_nat j = insert_zeros carryStart length a) as ->.
        { pose proof (insert_zeros_nonneg carryStart length a ltac:(lia)). lia. }
        apply insert_zeros_register; lia. }
  destruct e as [n mq rn sv gc], e2 as [n2 mq2 rn2 sv2 gc2]. cbn in *. congruence.
Qed.

End MUL_proofs.

(** * Single-qubit gate kernels *)

Lemma insert_lookup_total_id {A} `{Inhabited A} (l : list A) (i : nat) :
  <[ i := l !!! i ]> l = l.
Proof.
  destruct (l !! i) as [x|] eqn:E.
  - apply list_insert_id. by rewrite (list_lookup_total_correct _ _ _ E).
  - apply list_insert_ge. by apply lookup_ge_None.
Qed.

Lemma setbit_id g t : 0 <= t -> Z.testbit g t = true -> Z.setbit g t = g.
Proof.
  intros Ht Hb. apply Z.bits_inj'. intros k Hk. destruct (decide (k = t)) as [->|Hne].
  - by rewrite Z.setbit_eq.
  - by rewrite Z.setbit_neq by lia.
Qed.

Lemma clearbit_id g t : 0 <= t -> Z.testbit g t = false -> Z.clearbit g t = g.
Proof.
  intros Ht Hb. apply Z.bits_inj'. intros k Hk. destruct (decide (k = t)) as [->|Hne].
  - by rewrite Z.clearbit_eq.
  - by rewrite Z.clearbit_neq by lia.
Qed.

Lemma lxor_pow2 g t :
  0 <= t -> Z.lxor g (2 ^ t) = if Z.testbit g t then Z.clearbit g t else Z.setbit g t.
Proof.
  intros Ht. apply Z.bits_inj'. intros k Hk. rewrite Z.lxor_spec, Z.pow2_bits_eqb by done.
  destruct (Z.testbit g t) eqn:Hb; destruct (Z.eqb_spec t k) as [->|Hne].
  - rewrite Z.clearbit_eq, Hb by done. done.
  - rewrite Z.clearbit_neq by lia. apply xorb_false_r.
  - rewrite Z.setbit_eq, Hb by done. done.
  - rewrite Z.setbit_neq by lia. apply xorb_false_r.
Qed.

Section GateKernels.
Context {R1 : Real1}.
Import KernelGates.
Variables (t n : Z).
Hypothesis Ht : 0 <= t < n.
Hypothesis Hn : n <= bitsInCap.

Lemma NDRange_covers N : 0 < N -> covers n (NDRange N (2 ^ (n - 1))).
Proof. intros HN. split; [by apply NoDup_NDRange|intros a; by apply elem_of_NDRange]. Qed.

Lemma wide_range_covers : covers n (wide_range (2 ^ (n - 1))).
Proof.
  split; [apply NoDup_seqZ|]. intros a. unfold wide_range. rewrite elem_of_seqZ. lia.
Qed.

Lemma lor_offset i : Z.to_nat (Z.lor (Kernel.PUSH_APART_1 (Z.ones t) i) (2 ^ t)) = pair_hi t i.
Proof. unfold pair_hi. by rewrite Z.setbit_spec'. Qed.

Lemma AND_OUT_pair_loop nrm mtrx schedule (sv : list complex) :
  run_kernel (λ lcv sv, APPLY_AND_OUT nrm mtrx 0 (2 ^ t) (Kernel.PUSH_APART_1 (Z.ones t) lcv) sv)
    schedule sv =
  pair_loop (λ lo hi, (zmatrixmul nrm mtrx (lo, hi)).1) (λ lo hi, (zmatrixmul nrm mtrx (lo, hi)).2)
    (pair_lo t) (pair_hi t) schedule sv.
Proof.
  unfold pair_loop, run_kernel.
  apply (foldl_ext_in _ _ (λ _, True)); [done|].
  intros l a Ha _. split; [|done].
  unfold APPLY_AND_OUT, pair_step. rewrite Z.lor_0_r, lor_offset. done.
Qed.

Lemma X_pair_loop schedule (sv : list complex) :
  run_kernel (λ lcv sv, APPLY_X (2 ^ t) (Kernel.PUSH_APART_1 (Z.ones t) lcv) sv) schedule sv =
  pair_loop (λ _ hi, hi) (λ lo _, lo) (pair_lo t) (pair_hi t) schedule sv.
Proof.
  unfold pair_loop, run_kernel.
  apply (foldl_ext_in _ _ (λ _, True)); [done|].
  intros l a Ha _. split; [|done].
  unfold APPLY_X, pair_step. rewrite lor_offset. done.
Qed.

Lemma Z_pair_loop schedule (sv : list complex) :
  run_kernel (λ lcv sv, APPLY_Z (2 ^ t) (Kernel.PUSH_APART_1 (Z.ones t) lcv) sv) schedule sv =
  pair_loop (λ lo _, lo) (λ _ hi, cneg hi) (pair_lo t) (pair_hi t) schedule sv.
Proof.
  unfold pair_loop, run_kernel.
  apply (foldl_ext_in _ _ (λ _, True)); [done|].
  intros l a Ha _. split; [|done].
  unfold APPLY_Z, pair_step. rewrite lor_offset, insert_lookup_total_id. done.
Qed.

Lemma PHASE_pair_loop topLeft bottomRight schedule (sv : list complex) :
  covers n schedule ->
  run_kernel (λ lcv sv, APPLY_PHASE topLeft bottomRight (2 ^ t)
                          (Kernel.PUSH_APART_1 (Z.ones t) lcv) sv) schedule sv =
  pair_loop (λ lo _, zmul topLeft lo) (λ _ hi, zmul bottomRight hi)
    (pair_lo t) (pair_hi t) schedule sv.
Proof.
  intros [Hnd Hs]. unfold pair_loop, run_kernel.
  destruct (bit_pairs_apart t n _ Ht Hn Hs) as [Hself _].
  apply (foldl_ext_in _ _ (λ _, True)); [done|].
  intros l a Ha _. split; [|done].
  unfold APPLY_PHASE, pair_step. rewrite lor_offset.
  fold (pair_lo t a).
  rewrite list_lookup_total_insert_ne by (by apply Hself). done.
Qed.

Lemma INVERT_pair_loop topRight bottomLeft schedule (sv : list complex) :
  run_kernel (λ lcv sv, APPLY_INVERT topRight bottomLeft (2 ^ t)
                          (Kernel.PUSH_APART_1 (Z.ones t) lcv) sv) schedule sv =
  pair_loop (λ _ hi, zmul topRight hi) (λ lo _, zmul bottomLeft lo)
    (pair_lo t) (pair_hi t) schedule sv.
Proof.
  unfold pair_loop, run_kernel.
  apply (foldl_ext_in _ _ (λ _, True)); [done|].
  intros l a Ha _. split; [|done].
  unfold APPLY_INVERT, pair_step. rewrite lor_offset. done.
Qed.

(** What a loop over the pairs leaves does not depend on the schedule. *)
Lemma pair_loop_lookup_covers (G F : complex -> complex -> complex) schedule
    (sv : list complex) (g : Z) :
  covers n schedule -> length sv = Z.to_nat (2 ^ n) -> 0 <= g < 2 ^ n ->
  pair_loop G F (pair_lo t) (pair_hi t) schedule sv !! Z.to_nat g =
  Some (if Z.testbit g t
        then F (sv !!! Z.to_nat (Z.clearbit g t)) (sv !!! Z.to_nat g)
        else G (sv !!! Z.to_nat g) (sv !!! Z.to_nat (Z.setbit g t))).
Proof. intros [Hnd Hs] Hlen Hg. by apply (bit_pair_loop_lookup t n). Qed.

Lemma pair_loop_covers_eq (G F : complex -> complex -> complex) s1 s2 (sv : list complex) :
  covers n s1 -> covers n s2 -> length sv = Z.to_nat (2 ^ n) ->
  pair_loop G F (pair_lo t) (pair_hi t) s1 sv = pair_loop G F (pair_lo t) (pair_hi t) s2 sv.
Proof.
  intros H1 H2 Hlen. apply list_eq. intros j.
  assert (0 < 2 ^ n) by (apply Z.pow_pos_nonneg; lia).
  destruct (decide (j < length sv)%nat) as [Hj|Hj].
  - rewrite <- (Nat2Z.id j).
    rewrite !pair_loop_lookup_covers; first [done|lia].
  - rewrite !lookup_ge_None_2; [done| |]; rewrite pair_loop_length; lia.
Qed.

End GateKernels.

Section GateKernel_theorems.
Context {R1 : Real1}.
Import KernelGates.

Lemma single_kernels_unfold N (sv : list complex) t n :
  (forall cmplxPtr,
     apply2x2single N sv cmplxPtr (single_args t n) =
     run_kernel (λ lcv sv, APPLY_AND_OUT (cmplxPtr !!! 8%nat) cmplxPtr 0 (2 ^ t)
                             (Kernel.PUSH_APART_1 (Z.ones t) lcv) sv)
       (NDRange N (2 ^ (n - 1))) sv) /\
  xsingle N sv (single_args t n) =
    run_kernel (λ lcv sv, APPLY_X (2 ^ t) (Kernel.PUSH_APART_1 (Z.ones t) lcv) sv)
      (NDRange N (2 ^ (n - 1))) sv /\
  zsingle N sv (single_args t n) =
    run_kernel (λ lcv sv, APPLY_Z (2 ^ t) (Kernel.PUSH_APART_1 (Z.ones t) lcv) sv)
      (NDRange N (2 ^ (n - 1))) sv /\
  (forall cmplxPtr,
     Kernel.phasesingle N sv cmplxPtr (single_args t n) =
     run_kernel (λ lcv sv, APPLY_PHASE (cmplxPtr !!! 0%nat) (cmplxPtr !!! 3%nat) (2 ^ t)
                             (Kernel.PUSH_APART_1 (Z.ones t) lcv) sv)
       (NDRange N (2 ^ (n - 1))) sv) /\
  (forall cmplxPtr,
     Kernel.invertsingle N sv cmplxPtr (single_args t n) =
     run_kernel (λ lcv sv, APPLY_INVERT (cmplxPtr !!! 1%nat) (cmplxPtr !!! 2%nat) (2 ^ t)
                             (Kernel.PUSH_APART_1 (Z.ones t) lcv) sv)
       (NDRange N (2 ^ (n - 1))) sv).
Proof. split_and!; try intros cmplxPtr; reflexivity. Qed.

Lemma wide_kernels_unfold N (sv : list complex) t :
  (forall cmplxPtr,
     apply2x2singlewide N sv cmplxPtr (single_wide_args t) =
     run_kernel (λ lcv sv, APPLY_AND_OUT (cmplxPtr !!! 8%nat) cmplxPtr 0 (2 ^ t)
                             (Kernel.PUSH_APART_1 (Z.ones t) lcv) sv)
       (wide_range N) sv) /\
  xsinglewide N sv (single_wide_args t) =
    run_kernel (λ lcv sv, APPLY_X (2 ^ t) (Kernel.PUSH_APART_1 (Z.ones t) lcv) sv)
      (wide_range N) sv /\
  zsinglewide N sv (single_wide_args t) =
    run_kernel (λ lcv sv, APPLY_Z (2 ^ t) (Kernel.PUSH_APART_1 (Z.ones t) lcv) sv)
      (wide_range N) sv /\
  (forall cmplxPtr,
     phasesinglewide N sv cmplxPtr (single_wide_args t) =
     run_kernel (λ lcv sv, APPLY_PHASE (cmplxPtr !!! 0%nat) (cmplxPtr !!! 3%nat) (2 ^ t)
                             (Kernel.PUSH_APART_1 (Z.ones t) lcv) sv)
       (wide_range N) sv) /\
  (forall cmplxPtr,
     invertsinglewide N sv cmplxPtr (single_wide_args t) =
     run_kernel (λ lcv sv, APPLY_INVERT (cmplxPtr !!! 1%nat) (cmplxPtr !!! 2%nat) (2 ^ t)
                             (Kernel.PUSH_APART_1 (Z.ones t) lcv) sv)
       (wide_range N) sv).
Proof. split_and!; try intros cmplxPtr; reflexivity. Qed.

Lemma apply2x2single_lookup N (sv : list complex) (cmplxPtr : list real1) t n g :
  0 <= t < n -> n <= bitsInCap -> 0 < N -> length sv = Z.to_nat (2 ^ n) -> 0 <= g < 2 ^ n ->
  let r := zmatrixmul (cmplxPtr !!! 8%nat) cmplxPtr
             (sv !!! Z.to_nat (Z.clearbit g t), sv !!! Z.to_nat (Z.setbit g t)) in
  apply2x2single N sv cmplxPtr (single_args t n) !! Z.to_nat g =
    Some (if Z.testbit g t then r.2 else r.1).
Proof.
  intros Ht Hn HN Hlen Hg r.
  destruct (single_kernels_unfold N sv t n) as (-> & _).
  rewrite (AND_OUT_pair_loop t).
  rewrite (pair_loop_lookup_covers t n) by first [done|by apply NDRange_covers].
  unfold r. destruct (Z.testbit g t) eqn:Hb.
  - by rewrite (setbit_id g t) by first [lia|done].
  - by rewrite (clearbit_id g t) by first [lia|done].
Qed.

(** X18. The kernel [apply2x2single] applies the 2x2 matrix to every pair
    of amplitudes whose indices differ in the target bit only, for every
    number of work items: the amplitude of an index whose target bit is clear
    becomes the first component of [zmatrixmul] on its pair, the amplitude of
    an index whose target bit is set the second one. *)
Theorem apply2x2single_applies_matrix N (sv : list complex) (cmplxPtr : list real1) t n :
  0 <= t < n -> n <= bitsInCap -> 0 < N -> length sv = Z.to_nat (2 ^ n) ->
  length (apply2x2single N sv cmplxPtr (single_args t n)) = length sv /\
  forall g, 0 <= g < 2 ^ n ->
    let r := zmatrixmul (cmplxPtr !!! 8%nat) cmplxPtr
               (sv !!! Z.to_nat (Z.clearbit g t), sv !!! Z.to_nat (Z.setbit g t)) in
    apply2x2single N sv cmplxPtr (single_args t n) !! Z.to_nat g =
      Some (if Z.testbit g t then r.2 else r.1).
Proof.
  intros Ht Hn HN Hlen. split.
  - destruct (single_kernels_unfold N sv t n) as (-> & _).
    by rewrite (AND_OUT_pair_loop t), pair_loop_length.
  - intros g Hg. by apply apply2x2single_lookup.
Qed.

Lemma xsingle_lookup N (sv : list complex) t n g :
  0 <= t < n -> n <= bitsInCap -> 0 < N -> length sv = Z.to_nat (2 ^ n) -> 0 <= g < 2 ^ n ->
  xsingle N sv (single_args t n) !! Z.to_nat g = sv !! Z.to_nat (Z.lxor g (2 ^ t)) /\
  0 <= Z.lxor g (2 ^ t) < 2 ^ n.
Proof.
  intros Ht Hn HN Hlen Hg.
  destruct (single_kernels_unfold N sv t n) as (_ & -> & _).
  rewrite (X_pair_loop t).
  rewrite (pair_loop_lookup_covers t n) by first [done|by apply NDRange_covers].
  rewrite lxor_pow2 by lia.
  pose proof (clearbit_range g t n ltac:(lia) Hg).
  pose proof (setbit_range g t n Ht Hg).
  destruct (Z.testbit g t); (split; [|done]);
    symmetry; apply list_lookup_lookup_total_lt; rewrite Hlen; lia.
Qed.

Lemma xsingle_length N (sv : list complex) t n :
  length (xsingle N sv (single_args t n)) = length sv.
Proof.
  destruct (single_kernels_unfold N sv t n) as (_ & -> & _).
  by rewrite (X_pair_loop t), pair_loop_length.
Qed.

(** X19. The Pauli kernels, for every number of work items: [xsingle]
    exchanges the amplitudes of the two indices of every pair (the amplitude
    it leaves at an index is the one of the index with the target bit
    flipped), and run twice it restores the state vector; [zsingle] negates
    the amplitudes of the indices whose target bit is set and leaves the
    others. *)
Theorem xsingle_zsingle_pauli N (sv : list complex) t n :
  0 <= t < n -> n <= bitsInCap -> 0 < N -> length sv = Z.to_nat (2 ^ n) ->
  (forall g, 0 <= g < 2 ^ n ->
     xsingle N sv (single_args t n) !! Z.to_nat g = sv !! Z.to_nat (Z.lxor g (2 ^ t))) /\
  xsingle N (xsingle N sv (single_args t n)) (single_args t n) = sv /\
  (forall g, 0 <= g < 2 ^ n ->
     zsingle N sv (single_args t n) !! Z.to_nat g =
     Some (if Z.testbit g t then cneg (sv !!! Z.to_nat g) else sv !!! Z.to_nat g)).
Proof.
  intros Ht Hn HN Hlen. split_and!.
  - intros g Hg. by apply xsingle_lookup.
  - apply list_eq. intros j.
    assert (0 < 2 ^ n) by (apply Z.pow_pos_nonneg; lia).
    destruct (decide (j < length sv)%nat) as [Hj|Hj].
    + rewrite <- (Nat2Z.id j).
      destruct (xsingle_lookup N (xsingle N sv (single_args t n)) t n (Z.of_nat j))
        as [-> Hr]; try done; try lia.
      { by rewrite xsingle_length. }
      destruct (xsingle_lookup N sv t n (Z.lxor (Z.of_nat j) (2 ^ t))) as [-> _];
        try done.
      by rewrite Z.lxor_assoc, Z.lxor_nilpotent, Z.lxor_0_r.
    + rewrite !lookup_ge_None_2; [done|lia|]. rewrite !xsingle_length. lia.
  - intros g Hg.
    destruct (single_kernels_unfold N sv t n) as (_ & _ & -> & _).
    rewrite (Z_pair_loop t).
    rewrite (pair_loop_lookup_covers t n) by first [done|by apply NDRange_covers].
    done.
Qed.

(** X20. A wide kernel, run by one work item for each pair of amplitudes,
    computes what the kernel with the loop computes with any number of work
    items: so for [apply2x2single], [xsingle], [zsingle], [phasesingle] and
    [invertsingle]. *)
Theorem wide_kernels_agree N (sv : list complex) t n :
  0 <= t < n -> n <= bitsInCap -> 0 < N -> length sv = Z.to_nat (2 ^ n) ->
  (forall cmplxPtr,
     apply2x2singlewide (2 ^ (n - 1)) sv cmplxPtr (single_wide_args t) =
     apply2x2single N sv cmplxPtr (single_args t n)) /\
  xsinglewide (2 ^ (n - 1)) sv (single_wide_args t) = xsingle N sv (single_args t n) /\
  zsinglewide (2 ^ (n - 1)) sv (single_wide_args t) = zsingle N sv (single_args t n) /\
  (forall cmplxPtr,
     phasesinglewide (2 ^ (n - 1)) sv cmplxPtr (single_wide_args t) =
     Kernel.phasesingle N sv cmplxPtr (single_args t n)) /\
  (forall cmplxPtr,
     invertsinglewide (2 ^ (n - 1)) sv cmplxPtr (single_wide_args t) =
     Kernel.invertsingle N sv cmplxPtr (single_args t n)).
Proof.
  intros Ht Hn HN Hlen.
  pose proof (NDRange_covers n N HN) as Hc1.
  pose proof (wide_range_covers n) as Hc2.
  destruct (single_kernels_unfold N sv t n) as (E1 & E2 & E3 & E4 & E5).
  destruct (wide_kernels_unfold (2 ^ (n - 1)) sv t) as (W1 & W2 & W3 & W4 & W5).
  split_and!.
  - intros c. rewrite E1, W1, !(AND_OUT_pair_loop t). by apply (pair_loop_covers_eq t n).
  - rewrite E2, W2, !(X_pair_loop t). by apply (pair_loop_covers_eq t n).
  - rewrite E3, W3, !(Z_pair_loop t). by apply (pair_loop_covers_eq t n).
  - intros c. rewrite E4, W4, !(PHASE_pair_loop t n) by done.
    by apply (pair_loop_covers_eq t n).
  - intros c. rewrite E5, W5, !(INVERT_pair_loop t). by apply (pair_loop_covers_eq t n).
Qed.

End GateKernel_theorems.

Section RealGates.
#[local] Existing Instance Real1_R.
Import KernelGates.

Lemma zmatrixmul_real (m00 m01 m10 m11 lo hi : complex) :
  zmatrixmul ONE_R1 (mtrx_ptr m00 m01 m10 m11) (lo, hi) =
  (Complex (real (zmul m00 lo) + real (zmul m01 hi))%R (imag (zmul m00 lo) + imag (zmul m01 hi))%R,
   Complex (real (zmul m10 lo) + real (zmul m11 hi))%R (imag (zmul m10 lo) + imag (zmul m11 hi))%R).
Proof.
  destruct m00, m01, m10, m11, lo, hi. unfold zmatrixmul, mtrx_ptr. cbn.
  f_equal; f_equal; lra.
Qed.

(** X21. On exact real numbers the special kernels compute what the
    general kernel [apply2x2single] computes with their matrix and [nrm = 1],
    for every two numbers of work items: [phasesingle] with the diagonal
    matrix, [invertsingle] with the anti-diagonal one, [xsingle] with Pauli X
    and [zsingle] with Pauli Z. *)
Theorem special_kernels_refine_apply2x2single N N' (sv : list complex) t n
    (topLeft topRight bottomLeft bottomRight : complex) :
  0 <= t < n -> n <= bitsInCap -> 0 < N -> 0 < N' -> length sv = Z.to_nat (2 ^ n) ->
  Kernel.phasesingle N sv [topLeft; topRight; bottomLeft; bottomRight] (single_args t n) =
    apply2x2single N' sv (mtrx_ptr topLeft ZERO_CMPLX ZERO_CMPLX bottomRight) (single_args t n) /\
  Kernel.invertsingle N sv [topLeft; topRight; bottomLeft; bottomRight] (single_args t n) =
    apply2x2single N' sv (mtrx_ptr ZERO_CMPLX topRight bottomLeft ZERO_CMPLX) (single_args t n) /\
  xsingle N sv (single_args t n) =
    apply2x2single N' sv (mtrx_ptr ZERO_CMPLX ONE_CMPLX ONE_CMPLX ZERO_CMPLX) (single_args t n) /\
  zsingle N sv (single_args t n) =
    apply2x2single N' sv (mtrx_ptr ONE_CMPLX ZERO_CMPLX ZERO_CMPLX (cneg ONE_CMPLX))
      (single_args t n).
Proof.
  intros Ht Hn HN HN' Hlen.
  pose proof (NDRange_covers n N HN) as Hc.
  assert (0 < 2 ^ n) as Hpow by (apply Z.pow_pos_nonneg; lia).
  destruct (single_kernels_unfold N sv t n) as (_ & E2 & E3 & E4 & E5).
  assert (Hgen : forall (G F : complex -> complex -> complex) m00 m01 m10 m11,
            (forall lo hi, G lo hi = (zmatrixmul ONE_R1 (mtrx_ptr m00 m01 m10 m11) (lo, hi)).1) ->
            (forall lo hi, F lo hi = (zmatrixmul ONE_R1 (mtrx_ptr m00 m01 m10 m11) (lo, hi)).2) ->
            pair_loop G F (pair_lo t) (pair_hi t) (NDRange N (2 ^ (n - 1))) sv =
            apply2x2single N' sv (mtrx_ptr m00 m01 m10 m11) (single_args t n)).
  { intros G F m00 m01 m10 m11 HG HF. apply list_eq. intros j.
    destruct (decide (j < length sv)%nat) as [Hj|Hj].
    - rewrite <- (Nat2Z.id j).
      rewrite (pair_loop_lookup_covers t n) by first [done|lia].
      rewrite apply2x2single_lookup by first [done|lia].
      change (mtrx_ptr m00 m01 m10 m11 !!! 8%nat) with ONE_R1.
      f_equal. destruct (Z.testbit (Z.of_nat j) t) eqn:Hb.
      + rewrite HF. by rewrite (setbit_id _ t) by first [lia|done].
      + rewrite HG. by rewrite (clearbit_id _ t) by first [lia|done].
    - rewrite !lookup_ge_None_2; [done| |].
      + destruct (single_kernels_unfold N' sv t n) as (-> & _).
        rewrite (AND_OUT_pair_loop t), pair_loop_length. lia.
      + rewrite pair_loop_length. lia. }
  split_and!.
  - rewrite E4, (PHASE_pair_loop t n) by done. apply Hgen.
    + intros [a b] [c d]. rewrite zmatrixmul_real. destruct topLeft. unfold zmul, cneg. cbn. f_equal; lra.
    + intros [a b] [c d]. rewrite zmatrixmul_real. destruct bottomRight. unfold zmul, cneg. cbn. f_equal; lra.
  - rewrite E5, (INVERT_pair_loop t). apply Hgen.
    + intros [a b] [c d]. rewrite zmatrixmul_real. destruct topRight. unfold zmul, cneg. cbn. f_equal; lra.
    + intros [a b] [c d]. rewrite zmatrixmul_real. destruct bottomLeft. unfold zmul, cneg. cbn. f_equal; lra.
  - rewrite E2, (X_pair_loop t). apply Hgen.
    + intros [a b] [c d]. rewrite zmatrixmul_real. unfold zmul, cneg. cbn. f_equal; lra.
    + intros [a b] [c d]. rewrite zmatrixmul_real. unfold zmul, cneg. cbn. f_equal; lra.
  - rewrite E3, (Z_pair_loop t). apply Hgen.
    + intros [a b] [c d]. rewrite zmatrixmul_real. unfold zmul, cneg. cbn. f_equal; lra.
    + intros [a b] [c d]. rewrite zmatrixmul_real. unfold zmul, cneg. cbn. f_equal; lra.
Qed.

End RealGates.

(** * Projection and phase-flip kernels *)

Section UpdateAt.
Context {A : Type} `{Inhabited A}.

Lemma update_at_length f g schedule (sv : list A) :
  length (update_at f g schedule sv) = length sv.
Proof.
  unfold update_at. revert sv.
  induction schedule as [|a l IH]; intros sv; simpl; [done|].
  by rewrite IH, length_insert.
Qed.

Lemma update_at_lookup_other f g schedule (sv : list A) (j : nat) :
  (forall a, a ∈ schedule -> f a <> j) ->
  update_at f g schedule sv !! j = sv !! j.
Proof.
  unfold update_at. revert sv.
  induction schedule as [|a l IH]; intros sv Hj; simpl; [done|].
  rewrite IH by (intros; apply Hj; by right).
  apply list_lookup_insert_ne, Hj. by left.
Qed.

Lemma update_at_lookup f g schedule (sv : list A) i :
  NoDup schedule -> (forall a, a ∈ schedule -> f a = f i -> a = i) -> i ∈ schedule ->
  update_at f g schedule sv !! f i = g i <$> sv !! f i.
Proof.
  unfold update_at. revert sv.
  induction schedule as [|a l IH]; intros sv Hnd Hinj Hi; [by inv Hi|].
  apply NoDup_cons in Hnd as [Ha Hnd]. simpl.
  apply elem_of_cons in Hi as [->|Hi].
  - change (foldl _ ?o l) with (update_at f g l o).
    rewrite update_at_lookup_other.
    + destruct (sv !! f a) as [x|] eqn:Hx.
      * rewrite list_lookup_insert_eq by (by eapply lookup_lt_Some).
        simpl. by rewrite (list_lookup_total_correct _ _ _ Hx).
      * rewrite list_insert_ge by (by apply lookup_ge_None). by rewrite Hx.
    + intros b Hb Hba. apply Hinj in Hba; [by subst|by right].
  - rewrite IH; [|done|intros b Hb; apply Hinj; by right|done].
    rewrite list_lookup_insert_ne; [done|].
    intros Hai. apply Hinj in Hai; [by subst|by left].
Qed.

End UpdateAt.

Section Project.
Context {R1 : Real1}.
Import KernelProject.

Lemma applym_pair_loop N (sv : list complex) (cmplx_ptr : list complex) t n (result : bool) :
  0 <= t < n -> n <= bitsInCap -> 0 < N ->
  applym N sv [2 ^ (n - 1); 2 ^ t; if result then 2 ^ t else 0] cmplx_ptr =
  pair_loop (λ lo _, if result then ZERO_CMPLX else zmul (cmplx_ptr !!! 0%nat) lo)
            (λ _ hi, if result then zmul (cmplx_ptr !!! 0%nat) hi else ZERO_CMPLX)
            (pair_lo t) (pair_hi t) (NDRange N (2 ^ (n - 1))) sv.
Proof.
  intros Ht Hn HN. unfold applym, pair_loop, run_kernel.
  cbn [lookup_total list_lookup_total].
  destruct (NDRange_covers n N HN) as [Hnd Hs].
  destruct (bit_pairs_apart t n _ Ht Hn Hs) as [Hself _].
  assert (cap_sub (2 ^ t) ONE_BCI = Z.ones t) as ->.
  { unfold cap_sub, ONE_BCI. rewrite ones_eq. apply wrapCap_small.
    pose proof (pow2_mono 0 t). pose proof (pow2_mono t bitsInCap). lia. }
  apply (foldl_ext_in _ _ (λ _, True)); [done|].
  intros l a Ha _. split; [|done].
  change (Z.lor (Z.land a (Z.ones t)) (cap_shl (Z.lxor a (Z.land a (Z.ones t))) ONE_BCI))
    with (Kernel.PUSH_APART_1 (Z.ones t) a).
  unfold pair_step. specialize (Hself a Ha).
  destruct result.
  - rewrite Z.lxor_nilpotent, Z.lor_0_r, (lor_offset t).
    fold (pair_lo t a).
    by rewrite list_insert_insert_ne by done.
  - rewrite Z.lxor_0_r, Z.lor_0_r, (lor_offset t). done.
Qed.

Lemma applymreg_in_place N (sv : list complex) (cmplx_ptr : list complex) maxI mask result :
  applymreg N sv [maxI; mask; result] cmplx_ptr =
  in_place (λ lcv amp, if Z.land lcv mask =? result then zmul (cmplx_ptr !!! 0%nat) amp
                       else ZERO_CMPLX) (NDRange N maxI) sv.
Proof. reflexivity. Qed.

Lemma land_pow2 g t : 0 <= t -> Z.land g (2 ^ t) = if Z.testbit g t then 2 ^ t else 0.
Proof.
  intros Ht. apply Z.bits_inj'. intros k Hk. rewrite Z.land_spec, Z.pow2_bits_eqb by done.
  destruct (Z.eqb_spec t k) as [->|Hne].
  - destruct (Z.testbit g k); [by rewrite Z.pow2_bits_true|by rewrite Z.bits_0].
  - rewrite andb_false_r. destruct (Z.testbit g t); [|by rewrite Z.bits_0].
    rewrite Z.pow2_bits_false by lia. done.
Qed.

(** X22. The measurement kernels, for every number of work items:
    [applym] on the bit of [qPower = 2 ^ t] multiplies by [nrm] the amplitude
    of every index whose bit [t] is the measured result and sets every other
    amplitude to zero; it computes what [applymreg] computes with the
    one-bit mask [2 ^ t]. *)
Theorem applym_projects N N' (sv : list complex) (cmplx_ptr : list complex) t n
    (result : bool) :
  0 <= t < n -> n <= bitsInCap -> 0 < N -> 0 < N' -> length sv = Z.to_nat (2 ^ n) ->
  let savePower := if result then 2 ^ t else 0 in
  (forall g, 0 <= g < 2 ^ n ->
     applym N sv [2 ^ (n - 1); 2 ^ t; savePower] cmplx_ptr !! Z.to_nat g =
     Some (if Bool.eqb (Z.testbit g t) result
           then zmul (cmplx_ptr !!! 0%nat) (sv !!! Z.to_nat g) else ZERO_CMPLX)) /\
  applym N sv [2 ^ (n - 1); 2 ^ t; savePower] cmplx_ptr =
  applymreg N' sv [2 ^ n; 2 ^ t; savePower] cmplx_ptr.
Proof.
  intros Ht Hn HN HN' Hlen savePower.
  assert (0 < 2 ^ n) as Hpow by (apply Z.pow_pos_nonneg; lia).
  assert (Hlook : forall g, 0 <= g < 2 ^ n ->
     applym N sv [2 ^ (n - 1); 2 ^ t; savePower] cmplx_ptr !! Z.to_nat g =
     Some (if Bool.eqb (Z.testbit g t) result
           then zmul (cmplx_ptr !!! 0%nat) (sv !!! Z.to_nat g) else ZERO_CMPLX)).
  { intros g Hg. unfold savePower. rewrite (applym_pair_loop N sv cmplx_ptr t n) by done.
    rewrite (pair_loop_lookup_covers t n) by first [done|by apply NDRange_covers].
    by destruct (Z.testbit g t), result. }
  split; [done|].
  apply list_eq. intros j.
  destruct (decide (j < length sv)%nat) as [Hj|Hj].
  - rewrite <- (Nat2Z.id j). rewrite Hlook by lia.
    rewrite applymreg_in_place, in_place_lookup.
    + destruct (lookup_lt_is_Some_2 sv (Z.to_nat (Z.of_nat j)) ltac:(lia)) as [amp Hamp].
      rewrite Hamp, (list_lookup_total_correct _ _ _ Hamp). cbn. f_equal.
      rewrite land_pow2 by lia. unfold savePower.
      pose proof (Z.pow_pos_nonneg 2 t ltac:(lia) ltac:(lia)).
      destruct (Z.testbit (Z.of_nat j) t), result; cbn [Bool.eqb];
        rewrite ?Z.eqb_refl; try done.
      * destruct (Z.eqb_spec (2 ^ t) 0); [lia|done].
      * destruct (Z.eqb_spec 0 (2 ^ t)); [lia|done].
    + by apply NoDup_NDRange.
    + intros a Ha%elem_of_NDRange; lia.
    + apply elem_of_NDRange; lia.
  - rewrite !lookup_ge_None_2; [done| |].
    + rewrite applymreg_in_place, in_place_length. lia.
    + unfold savePower. rewrite (applym_pair_loop N sv cmplx_ptr t n) by done.
      rewrite pair_loop_length. lia.
Qed.

End Project.

Section PhaseFlip.
Context {R1 : Real1}.
Import KernelProject QEngineOCL OCLPhaseFlip.

Lemma phaseflipifless_in_place N (sv : list complex) maxI regMask greaterPerm start :
  phaseflipifless N sv [maxI; regMask; greaterPerm; start] =
  in_place (λ lcv, flip_if (Z.shiftr (Z.land lcv regMask) start <? greaterPerm))
    (NDRange N maxI) sv.
Proof.
  unfold phaseflipifless, in_place, run_kernel. cbn [lookup_total list_lookup_total].
  apply (foldl_ext_in _ _ (λ _, True)); [done|].
  intros l a Ha _. split; [|done]. unfold flip_if.
  destruct (_ <? _); [done|]. by rewrite insert_lookup_total_id.
Qed.

Lemma cphaseflipifless_update_at N (sv : list complex) t n regMask greaterPerm start :
  0 <= t < n -> n <= bitsInCap ->
  cphaseflipifless N sv [2 ^ (n - 1); regMask; 2 ^ t; greaterPerm; start] =
  update_at (pair_hi t)
    (λ a, flip_if (Z.shiftr (Z.land (Z.setbit (Kernel.PUSH_APART_1 (Z.ones t) a) t) regMask)
                     start <? greaterPerm))
    (NDRange N (2 ^ (n - 1))) sv.
Proof.
  intros Ht Hn. unfold cphaseflipifless, update_at, run_kernel.
  cbn [lookup_total list_lookup_total].
  assert (cap_sub (2 ^ t) ONE_BCI = Z.ones t) as ->.
  { unfold cap_sub, ONE_BCI. rewrite ones_eq. apply wrapCap_small.
    pose proof (pow2_mono 0 t). pose proof (pow2_mono t bitsInCap). lia. }
  apply (foldl_ext_in _ _ (λ _, True)); [done|].
  intros l a Ha _. split; [|done].
  change (Z.lor (Z.land a (Z.ones t)) (cap_shl (Z.lxor a (Z.land a (Z.ones t))) ONE_BCI))
    with (Kernel.PUSH_APART_1 (Z.ones t) a).
  rewrite <- Z.setbit_spec'. fold (pair_hi t a). unfold flip_if.
  destruct (_ <? _); [done|]. by rewrite insert_lookup_total_id.
Qed.

Lemma register_of_masked g start length :
  0 <= start -> 0 <= length ->
  Z.shiftr (Z.land g (regMask_of start length)) start = register_value start length g.
Proof. intros Hs Hl. by rewrite reg_field, register_value_land. Qed.

(** X23. The comparison kernels, for every number of work items.
    [phaseflipifless] negates the amplitude of every index below [maxI] whose
    register [[start, start + length)] holds a value less than [greaterPerm],
    and leaves every other amplitude, those at and above [maxI] too.
    [CPhaseFlipIfLess] of the OpenCL engine negates the amplitude of every
    index whose flag bit is set and whose register holds a value less than
    [greaterPerm], and leaves every other amplitude. *)
Theorem PhaseFlipIfLess_flips (e : QEngineOCL.t) (greaterPerm start length flagIndex : Z) :
  well_formed e -> 0 <= start -> 0 <= length -> start + length <= qubitCount e ->
  0 <= flagIndex < qubitCount e ->
  (forall N maxI (sv : list complex) g, 0 < N -> 0 <= g ->
     phaseflipifless N sv [maxI; regMask_of start length; greaterPerm; start] !! Z.to_nat g =
     flip_if ((g <? maxI) && (register_value start length g <? greaterPerm))
       <$> sv !! Z.to_nat g) /\
  (forall g, 0 <= g < maxQPower e ->
     stateVec (CPhaseFlipIfLess greaterPerm start length flagIndex e) !! Z.to_nat g =
     Some (flip_if (Z.testbit g flagIndex && (register_value start length g <? greaterPerm))
             (stateVec e !!! Z.to_nat g))) /\
  List.length (stateVec (CPhaseFlipIfLess greaterPerm start length flagIndex e)) =
    List.length (stateVec e).
Proof.
  intros Hwf Hs Hl Hn Hf. pose proof Hwf as (Hq & Hm & Hlen).
  pose proof int_shift_below_cap as Hic.
  split.
  { intros N maxI sv g HN Hg. rewrite phaseflipifless_in_place.
    destruct (Z.ltb_spec g maxI); cbn [andb].
    - rewrite in_place_lookup.
      + by rewrite register_of_masked.
      + by apply NoDup_NDRange.
      + intros a Ha%elem_of_NDRange; lia.
      + apply elem_of_NDRange; lia.
    - rewrite in_place_lookup_other.
      + unfold flip_if. by destruct (sv !! Z.to_nat g).
      + intros a Ha%elem_of_NDRange; lia. }
  set (n := qubitCount e) in *.
  assert (Hargs : stateVec (CPhaseFlipIfLess greaterPerm start length flagIndex e) =
            cphaseflipifless (FixWorkItemCount (2 ^ (n - 1)) (nrmGroupCount e)) (stateVec e)
              [2 ^ (n - 1); regMask_of start length; 2 ^ flagIndex; greaterPerm; start]).
  { unfold CPhaseFlipIfLess. cbn [stateVec lookup_total list_lookup_total].
    assert (Z.shiftr (maxQPower e) 1 = 2 ^ (n - 1)) as ->.
    { rewrite Hm, Z.shiftr_div_pow2 by lia. fold n.
      change (2 ^ 1) with 2. replace n with (n - 1 + 1) at 1 by lia.
      rewrite Z.pow_add_r by lia. change (2 ^ 1) with 2. by rewrite Z.div_mul by lia. }
    destruct (INT_masks n start length) as (_ & _ & -> & _); [lia..|].
    change (cap_shl 1 flagIndex) with (pow2 flagIndex). rewrite pow2_small by lia.
    reflexivity. }
  assert (0 < 2 ^ (n - 1)) as Hpos by (apply Z.pow_pos_nonneg; lia).
  assert (0 < FixWorkItemCount (2 ^ (n - 1)) (nrmGroupCount e)) as HN
    by (by apply FixWorkItemCount_pos).
  rewrite Hargs, (cphaseflipifless_update_at _ _ flagIndex n) by lia.
  split; [|by rewrite update_at_length].
  intros g Hg. rewrite Hm in Hg. fold n in Hg.
  destruct (NDRange_covers n _ HN) as [Hnd Hsched].
  assert (Hsv : stateVec e !! Z.to_nat g = Some (stateVec e !!! Z.to_nat g)).
  { apply list_lookup_lookup_total_lt. rewrite Hlen, Hm. fold n. lia. }
  destruct (Z.testbit g flagIndex) eqn:Hbit; cbn [andb].
  - set (g0 := Z.clearbit g flagIndex).
    assert (0 <= g0 < 2 ^ n) as Hg0 by (apply clearbit_range; lia).
    assert (Z.testbit g0 flagIndex = false) as Hb0 by (apply Z.clearbit_eq; lia).
    set (a := remove_bit flagIndex g0).
    assert (a ∈ NDRange (FixWorkItemCount (2 ^ (n - 1)) (nrmGroupCount e)) (2 ^ (n - 1)))
      as Ha by (apply Hsched, remove_bit_range; lia).
    assert (Kernel.PUSH_APART_1 (Z.ones flagIndex) a = g0) as Hlo.
    { apply PUSH_APART_1_remove_bit; [lia| |done].
      pose proof (pow2_mono n bitsInCap). lia. }
    assert (Z.setbit g0 flagIndex = g) as Hset.
    { apply Z.bits_inj'. intros k Hk. destruct (decide (k = flagIndex)) as [->|Hne].
      - rewrite Z.setbit_eq by lia. done.
      - unfold g0. rewrite Z.setbit_neq, Z.clearbit_neq by lia. done. }
    assert (pair_hi flagIndex a = Z.to_nat g) as Hhi by (unfold pair_hi; by rewrite Hlo, Hset).
    rewrite <- Hhi.
    rewrite update_at_lookup; [|done| |done].
    + rewrite Hhi, Hsv. cbn. by rewrite Hlo, Hset, register_of_masked.
    + intros b Hb Hbi.
      destruct (bit_pairs_apart flagIndex n _ Hf ltac:(lia) Hsched) as [_ Hap].
      destruct (decide (b = a)) as [|Hne]; [done|].
      destruct (Hap b a Hb Ha Hne) as (_ & _ & Hhh). done.
  - rewrite update_at_lookup_other; [by rewrite Hsv|].
    intros b Hb Hbg.
    assert (Z.testbit (Z.of_nat (pair_hi flagIndex b)) flagIndex = true) as Hset.
    { unfold pair_hi.
      pose proof (pair_lo_range flagIndex n _ Hf ltac:(lia) Hsched b Hb) as Hr.
      pose proof (setbit_range _ flagIndex n Hf Hr).
      rewrite Z2Nat.id by lia. apply Z.setbit_eq; lia. }
    rewrite Hbg, Z2Nat.id in Hset by lia. congruence.
Qed.

End PhaseFlip.

(** * Composing and disposing registers *)

Section Compose.
Context {R1 : Real1}.
Import KernelCompose.

Lemma composemid_src na nb start i :
  0 <= start <= na -> 0 <= nb -> 0 <= i < 2 ^ (na + nb) ->
  Z.lor (Z.land i (Z.ones start)) (Z.shiftr (Z.land i (regMask_of (start + nb) (na - start))) nb) =
  remove_bits start nb i.
Proof.
  intros Hs Hb Hi. apply Z.bits_inj'. intros j Hj.
  rewrite remove_bits_testbit by lia. unfold regMask_of.
  pose proof (fun j => testbit_above i (na + nb) j Hi) as Hib.
  rewrite Z.lor_spec, !Z.land_spec, Z.shiftr_spec, Z.land_spec, Z.testbit_ones_nonneg by lia.
  destruct (Z.ltb_spec j start).
  - rewrite Z.shiftl_spec by lia.
    rewrite (Z.testbit_neg_r _ (j + nb - (start + nb))) by lia.
    rewrite andb_true_r, andb_false_r, orb_false_r. done.
  - rewrite andb_false_r. cbn [orb].
    rewrite Z.shiftl_spec, Z.testbit_ones_nonneg by lia.
    destruct (Z.ltb_spec (j + nb - (start + nb)) (na - start)).
    + by rewrite andb_true_r.
    + rewrite Hib by lia. done.
Qed.

Lemma composemid_lookup N (a b out : list complex) na nb start i :
  0 <= start <= na -> 0 <= nb -> 0 < N -> 0 <= i < 2 ^ (na + nb) ->
  (Z.to_nat i < length out)%nat ->
  composemid N a b (composemid_args na nb start) out !! Z.to_nat i =
  Some (zmul (a !!! Z.to_nat (remove_bits start nb i))
             (b !!! Z.to_nat (register_value start nb i))).
Proof.
  intros Hs Hb HN Hi Hlen. unfold composemid, composemid_args.
  cbn [lookup_total list_lookup_total].
  pose (src := λ lcv,
          zmul (a !!! Z.to_nat (Z.lor (Z.land lcv (Z.ones start))
                                  (Z.shiftr (Z.land lcv (regMask_of (start + nb) (na - start))) nb)))
               (b !!! Z.to_nat (Z.shiftr (Z.land lcv (regMask_of start nb)) start))).
  change (run_kernel _ ?sch ?o) with (scatter (λ i, i) src sch o).
  rewrite (scatter_id_lookup src); [|by apply NoDup_NDRange| | |done].
  - unfold src. by rewrite composemid_src, register_of_masked by lia.
  - intros x Hx%elem_of_NDRange; lia.
  - apply elem_of_NDRange; lia.
Qed.

Lemma compose_lookup schedule (a b out : list complex) na nb i :
  0 <= na -> 0 <= nb -> NoDup schedule -> (forall x, x ∈ schedule <-> 0 <= x < 2 ^ (na + nb)) ->
  0 <= i < 2 ^ (na + nb) -> (Z.to_nat i < length out)%nat ->
  run_kernel
    (λ lcv nStateVec,
       <[ Z.to_nat lcv :=
            zmul (a !!! Z.to_nat (Z.land lcv (Z.ones na)))
                 (b !!! Z.to_nat (Z.shiftr (Z.land lcv (regMask_of na nb)) na)) ]> nStateVec)
    schedule out !! Z.to_nat i =
  Some (zmul (a !!! Z.to_nat (remove_bits na nb i))
             (b !!! Z.to_nat (register_value na nb i))).
Proof.
  intros Ha Hb Hnd Hs Hi Hlen.
  pose (src := λ lcv,
          zmul (a !!! Z.to_nat (Z.land lcv (Z.ones na)))
               (b !!! Z.to_nat (Z.shiftr (Z.land lcv (regMask_of na nb)) na))).
  change (run_kernel _ ?sch ?o) with (scatter (λ i, i) src sch o).
  rewrite (scatter_id_lookup src); [|done| | |done].
  - unfold src. rewrite register_of_masked by lia.
    assert (remove_bits na nb i = Z.land i (Z.ones na)) as ->; [|done].
    apply Z.bits_inj'. intros j Hj.
    rewrite remove_bits_testbit, Z.land_spec, Z.testbit_ones_nonneg by lia.
    destruct (Z.ltb_spec j na); [by rewrite andb_true_r|].
    rewrite andb_false_r. apply (testbit_above i (na + nb)); [done|lia].
  - intros x Hx%Hs; lia.
  - by apply Hs.
Qed.

Lemma compose_kernels_length N (a b out : list complex) args :
  length (composemid N a b args out) = length out /\
  length (Kernel.compose N a b args out) = length out /\
  length (composewide N a b args out) = length out.
Proof. split_and!; exact (scatter_length (λ i, i) _ _ _). Qed.

(** X24. The kernel [composemid] puts a register of [nb] qubits in at
    position [start] of a state of [na] qubits: the amplitude at an index of
    the combined state is the product of the first state's amplitude at the
    index without the bits of the register and of the second state's
    amplitude at the value of the register. With [start = na] it computes what
    [compose] computes, as does [composewide] run by one work item for each
    index. *)
Theorem composemid_inserts_register N N' (a b out : list complex) na nb start :
  0 <= start <= na -> 0 <= nb -> 0 < N -> 0 < N' ->
  length out = Z.to_nat (2 ^ (na + nb)) ->
  (forall i, 0 <= i < 2 ^ (na + nb) ->
     composemid N a b (composemid_args na nb start) out !! Z.to_nat i =
     Some (zmul (a !!! Z.to_nat (remove_bits start nb i))
                (b !!! Z.to_nat (register_value start nb i)))) /\
  composemid N a b (composemid_args na nb na) out =
    Kernel.compose N' a b (compose_args na nb) out /\
  composewide (2 ^ (na + nb)) a b (compose_args na nb) out =
    Kernel.compose N' a b (compose_args na nb) out.
Proof.
  intros Hs Hb HN HN' Hlen.
  assert (0 < 2 ^ (na + nb)) as Hpow by (apply Z.pow_pos_nonneg; lia).
  split_and!.
  - intros i Hi. apply composemid_lookup; try done. rewrite Hlen. lia.
  - apply list_eq. intros j.
    destruct (decide (j < length out)%nat) as [Hj|Hj].
    + rewrite <- (Nat2Z.id j).
      rewrite composemid_lookup by (try done; try lia; rewrite Nat2Z.id; done).
      unfold Kernel.compose, compose_args. cbn [lookup_total list_lookup_total].
      rewrite (compose_lookup _ a b out na nb); try done; try lia.
      * by apply NoDup_NDRange.
      * intros x. by apply elem_of_NDRange.
    + rewrite !lookup_ge_None_2; [done| |].
      * destruct (compose_kernels_length N' a b out (compose_args na nb)) as (_ & -> & _). lia.
      * destruct (compose_kernels_length N a b out (composemid_args na nb na)) as (-> & _). lia.
  - apply list_eq. intros j.
    destruct (compose_kernels_length N' a b out (compose_args na nb)) as (_ & L2 & _).
    destruct (compose_kernels_length (2 ^ (na + nb)) a b out (compose_args na nb))
      as (_ & _ & L3).
    destruct (decide (j < length out)%nat) as [Hj|Hj].
    + rewrite <- (Nat2Z.id j).
      unfold composewide, Kernel.compose, compose_args. cbn [lookup_total list_lookup_total].
      rewrite !(compose_lookup _ a b out na nb); try done; try lia.
      * by apply NoDup_NDRange.
      * intros x. by apply elem_of_NDRange.
      * apply NoDup_seqZ.
      * intros x. unfold KernelGates.wide_range. rewrite elem_of_seqZ. lia.
    + rewrite !lookup_ge_None_2; [done|lia|lia].
Qed.

Lemma dispose_src n start len perm lcv :
  0 <= start -> 0 <= len -> start + len <= n -> n <= bitsInCap ->
  0 <= perm < 2 ^ len -> 0 <= lcv < 2 ^ (n - len) ->
  let i := Z.lor (Z.lor (Z.land lcv (Z.ones start))
                    (cap_shl (Z.lxor lcv (Z.land lcv (Z.ones start))) len))
                 (Z.shiftl perm start) in
  i = Z.lor (insert_zeros start len lcv) (Z.shiftl perm start) /\
  0 <= i < 2 ^ n /\
  remove_bits start len i = lcv /\
  register_value start len i = perm.
Proof.
  intros Hs Hl Hn Hb Hp Hlcv i.
  assert (Hi : i = Z.lor (insert_zeros start len lcv) (Z.shiftl perm start)).
  { unfold i, insert_zeros. do 2 f_equal.
    unfold cap_shl. apply wrapCap_small.
    pose proof (high_part_nonneg lcv start ltac:(lia)) as H0.
    assert (Z.lxor lcv (Z.land lcv (Z.ones start)) < 2 ^ (n - len)) as H1.
    { apply bits_below; [lia|done|]. intros j Hj.
      rewrite Z.lxor_spec, Z.land_spec, (testbit_above lcv (n - len)) by (try done; lia).
      done. }
    rewrite Z.shiftl_mul_pow2 by lia.
    pose proof (pow2_mono len len ltac:(lia)).
    split; [nia|].
    apply Z.lt_le_trans with (2 ^ n); [|apply Z.pow_le_mono_r; lia].
    assert (2 ^ n = 2 ^ (n - len) * 2 ^ len) as ->
      by (rewrite <- Z.pow_add_r by lia; f_equal; lia).
    nia. }
  pose proof (fun j => testbit_above perm len j Hp) as Hpb.
  pose proof (fun j => testbit_above lcv (n - len) j Hlcv) as Hlb.
  assert (Hbit : forall j, 0 <= j ->
            Z.testbit i j =
            if j <? start then Z.testbit lcv j
            else if j <? start + len then Z.testbit perm (j - start)
                 else Z.testbit lcv (j - len)).
  { intros j Hj. rewrite Hi, Z.lor_spec, insert_zeros_testbit by lia.
    destruct (Z.ltb_spec j start).
    - rewrite Z.shiftl_spec, (Z.testbit_neg_r perm (j - start)) by lia. apply orb_false_r.
    - rewrite Z.shiftl_spec by lia. destruct (Z.ltb_spec j (start + len)); [done|].
      rewrite Hpb by lia. apply orb_false_r. }
  assert (0 <= i) as Hi0.
  { rewrite Hi. apply Z.lor_nonneg. split; [apply insert_zeros_nonneg; lia|].
    apply Z.shiftl_nonneg. lia. }
  split_and!; [done|done| | |].
  - apply bits_below; [lia|done|]. intros j Hj. rewrite Hbit by lia.
    destruct (Z.ltb_spec j start); [lia|]. destruct (Z.ltb_spec j (start + len)); [lia|].
    apply Hlb. lia.
  - apply Z.bits_inj'. intros j Hj. rewrite remove_bits_testbit, !Hbit by lia.
    destruct (Z.ltb_spec j start); [done|].
    destruct (Z.ltb_spec (j + len) start); [lia|].
    destruct (Z.ltb_spec (j + len) (start + len)); [lia|]. f_equal. lia.
  - apply Z.bits_inj'. intros j Hj. rewrite register_value_testbit, Hbit by lia.
    destruct (Z.ltb_spec j len); cbn [andb].
    + destruct (Z.ltb_spec (j + start) start); [lia|].
      destruct (Z.ltb_spec (j + start) (start + len)); [|lia]. f_equal. lia.
    + symmetry. apply Hpb. lia.
Qed.

Lemma dispose_lookup N (sv out : list complex) n start len perm lcv :
  0 <= start -> 0 <= len -> start + len <= n -> n <= bitsInCap ->
  0 <= perm < 2 ^ len -> 0 < N -> 0 <= lcv < 2 ^ (n - len) ->
  (Z.to_nat lcv < length out)%nat ->
  dispose N sv (dispose_args n start len perm) out !! Z.to_nat lcv =
  Some (sv !!! Z.to_nat (Z.lor (insert_zeros start len lcv) (Z.shiftl perm start))).
Proof.
  intros Hs Hl Hn Hb Hp HN Hlcv Hlen. unfold dispose, dispose_args.
  cbn [lookup_total list_lookup_total].
  pose (src := λ lcv,
          sv !!! Z.to_nat (Z.lor (Z.lor (Z.land lcv (Z.ones start))
                                    (cap_shl (Z.lxor lcv (Z.land lcv (Z.ones start))) len))
                             (Z.shiftl perm start))).
  change (run_kernel _ ?sch ?o) with (scatter (λ i, i) src sch o).
  rewrite (scatter_id_lookup src); [|by apply NoDup_NDRange| | |done].
  - unfold src. destruct (dispose_src n start len perm lcv) as (-> & _); done.
  - intros x Hx%elem_of_NDRange; lia.
  - apply elem_of_NDRange; lia.
Qed.

(** X25. The kernel [dispose] keeps, of a state of [n] qubits, the
    amplitudes of the indices whose register [[start, start + len)] holds
    [perm], in the order of the other bits. Run on what [composemid] made of
    two states it gives the first state back, every amplitude multiplied by
    the second state's amplitude at [perm]. *)
Theorem dispose_after_composemid N N' (a b out out' : list complex) na nb start perm :
  0 <= start <= na -> 0 <= nb -> na + nb <= bitsInCap -> 0 <= perm < 2 ^ nb ->
  0 < N -> 0 < N' ->
  length out = Z.to_nat (2 ^ (na + nb)) -> length out' = Z.to_nat (2 ^ na) ->
  forall lcv, 0 <= lcv < 2 ^ na ->
    let i := Z.lor (insert_zeros start nb lcv) (Z.shiftl perm start) in
    (0 <= i < 2 ^ (na + nb) /\ remove_bits start nb i = lcv /\
     register_value start nb i = perm) /\
    (forall sv : list complex,
       dispose N' sv (dispose_args (na + nb) start nb perm) out' !! Z.to_nat lcv =
       Some (sv !!! Z.to_nat i)) /\
    dispose N' (composemid N a b (composemid_args na nb start) out)
      (dispose_args (na + nb) start nb perm) out' !! Z.to_nat lcv =
    Some (zmul (a !!! Z.to_nat lcv) (b !!! Z.to_nat perm)).
Proof.
  intros Hs Hb Hcap Hp HN HN' Hlen Hlen' lcv Hlcv i.
  assert (Hlcv' : 0 <= lcv < 2 ^ (na + nb - nb)) by (by replace (na + nb - nb) with na by lia).
  pose proof (dispose_src (na + nb) start nb perm lcv ltac:(lia) Hb ltac:(lia) Hcap Hp Hlcv')
    as Hsrc.
  cbv zeta in Hsrc. destruct Hsrc as (Hi & Hr & Hrem & Hreg).
  rewrite Hi in Hr, Hrem, Hreg. fold i in Hr, Hrem, Hreg.
  assert (Hd : forall sv : list complex,
       dispose N' sv (dispose_args (na + nb) start nb perm) out' !! Z.to_nat lcv =
       Some (sv !!! Z.to_nat i)).
  { intros sv. apply dispose_lookup; first [done|lia|rewrite Hlen'; lia]. }
  split_and!; [lia|lia|done|done|done|].
  rewrite Hd.
  assert (composemid N a b (composemid_args na nb start) out !! Z.to_nat i =
          Some (zmul (a !!! Z.to_nat lcv) (b !!! Z.to_nat perm))) as Hc.
  { rewrite composemid_lookup; first [done|lia|rewrite Hlen; lia|idtac].
    by rewrite Hrem, Hreg. }
  by rewrite (list_lookup_total_correct _ _ _ Hc).
Qed.

End Compose.

(** * The pager's gates on a qubit inside the pages *)

Lemma low_setbit g t qpp :
  0 <= t < qpp -> 0 <= g ->
  Z.shiftr (Z.setbit g t) qpp = Z.shiftr g qpp /\
  Z.land (Z.setbit g t) (Z.ones qpp) = Z.setbit (Z.land g (Z.ones qpp)) t.
Proof.
  intros Ht Hg. split; apply Z.bits_inj'; intros k Hk.
  - rewrite !Z.shiftr_spec by done. rewrite Z.setbit_neq by lia. done.
  - rewrite Z.land_spec, Z.testbit_ones_nonneg by lia.
    destruct (decide (k = t)) as [->|Hne].
    + rewrite !Z.setbit_eq by lia. destruct (Z.ltb_spec t qpp); [done|lia].
    + rewrite !Z.setbit_neq by lia.
      by rewrite Z.land_spec, Z.testbit_ones_nonneg by lia.
Qed.

Lemma low_clearbit g t qpp :
  0 <= t < qpp -> 0 <= g ->
  Z.shiftr (Z.clearbit g t) qpp = Z.shiftr g qpp /\
  Z.land (Z.clearbit g t) (Z.ones qpp) = Z.clearbit (Z.land g (Z.ones qpp)) t.
Proof.
  intros Ht Hg. split; apply Z.bits_inj'; intros k Hk.
  - rewrite !Z.shiftr_spec by done. rewrite Z.clearbit_neq by lia. done.
  - rewrite Z.land_spec, Z.testbit_ones_nonneg by lia.
    destruct (decide (k = t)) as [->|Hne].
    + rewrite !Z.clearbit_eq by lia. done.
    + rewrite !Z.clearbit_neq by lia.
      by rewrite Z.land_spec, Z.testbit_ones_nonneg by lia.
Qed.

Section PagerWithin.
Context {R1 : Real1}.

(** The loop [for (i = 0; i < qPageCount; i++) qPages[i]->f()]. *)
Lemma on_every_page (f : QEngineOCL.t -> QEngineOCL.t) (pages : list QEngineOCL.t) :
  foldl (λ qPages i, QPager.on_page i f qPages) pages (seqZ 0 (Z.of_nat (length pages))) =
  f <$> pages.
Proof.
  assert (Hk : forall k, (k <= length pages)%nat ->
            foldl (λ qPages i, QPager.on_page i f qPages) pages (seqZ 0 (Z.of_nat k)) =
            (f <$> take k pages) ++ drop k pages).
  { induction k as [|k IH]; intros Hk; [by rewrite take_0, drop_0|].
    rewrite seqZ_snoc, foldl_app, IH by lia. cbn [foldl].
    unfold QPager.on_page. rewrite Nat2Z.id.
    destruct (lookup_lt_is_Some_2 pages k ltac:(lia)) as [page Hpage].
    assert (length (f <$> take k pages) = k) as Hl by (rewrite length_fmap, length_take; lia).
    rewrite lookup_app_r by lia. rewrite Hl, Nat.sub_diag, lookup_drop, Nat.add_0_r, Hpage.
    rewrite insert_app_r_alt by lia. rewrite Hl, Nat.sub_diag.
    rewrite (drop_S _ _ _ Hpage). cbn [insert list_insert].
    rewrite (take_S_r _ _ _ Hpage), fmap_app. cbn. by rewrite <- app_assoc. }
  rewrite Hk by done. by rewrite firstn_all, drop_all, app_nil_r.
Qed.

(** Reading a state vector page by page. *)
Lemma paged_eq (pages pages' : list QEngineOCL.t) qpp n
    (F : nat -> complex -> complex) :
  0 <= qpp <= n -> length pages = Z.to_nat (2 ^ (n - qpp)) -> length pages' = length pages ->
  Forall (λ page, length (QEngineOCL.stateVec page) = Z.to_nat (2 ^ qpp)) pages ->
  Forall (λ page, length (QEngineOCL.stateVec page) = Z.to_nat (2 ^ qpp)) pages' ->
  (forall g page page', 0 <= g < 2 ^ n ->
     pages !! Z.to_nat (Z.shiftr g qpp) = Some page ->
     pages' !! Z.to_nat (Z.shiftr g qpp) = Some page' ->
     QEngineOCL.stateVec page' !! Z.to_nat (Z.land g (Z.ones qpp)) =
     F (Z.to_nat g) <$> QEngineOCL.stateVec page !! Z.to_nat (Z.land g (Z.ones qpp))) ->
  pages' ≫= QEngineOCL.stateVec = imap F (pages ≫= QEngineOCL.stateVec).
Proof.
  intros Hq Hlen Hlen' Huni Huni' Hcell.
  assert (0 < 2 ^ qpp) by (apply Z.pow_pos_nonneg; lia).
  assert (0 < 2 ^ (n - qpp)) by (apply Z.pow_pos_nonneg; lia).
  assert (Hall : forall l : list QEngineOCL.t, length l = length pages ->
            Forall (λ page, length (QEngineOCL.stateVec page) = Z.to_nat (2 ^ qpp)) l ->
            length (l ≫= QEngineOCL.stateVec) = Z.to_nat (2 ^ n)).
  { intros l Hl Hu. rewrite (bind_length_uniform _ (Z.to_nat (2 ^ qpp))) by done.
    rewrite Hl, Hlen, <- Z2Nat.inj_mul, <- Z.pow_add_r by lia. do 2 f_equal. lia. }
  apply list_eq. intros gi. rewrite list_lookup_imap.
  destruct (decide (gi < Z.to_nat (2 ^ n))%nat) as [Hgi|Hgi].
  2:{ rewrite !lookup_ge_None_2; [done| |]; rewrite Hall; first [done|lia]. }
  set (g := Z.of_nat gi). assert (0 <= g < 2 ^ n) as Hg by (subst g; lia).
  replace gi with (Z.to_nat g) by (subst g; lia).
  rewrite !(pages_lookup _ qpp) by first [done|lia].
  pose proof (shiftr_range g qpp n ltac:(lia) Hg) as Hj.
  destruct (lookup_lt_is_Some_2 pages (Z.to_nat (Z.shiftr g qpp)) ltac:(lia)) as [page Hp].
  destruct (lookup_lt_is_Some_2 pages' (Z.to_nat (Z.shiftr g qpp)) ltac:(lia)) as [page' Hp'].
  rewrite Hp, Hp'. cbn [mbind option_bind]. by apply Hcell.
Qed.

Lemma gate_within_pages (p : QPager.t) (c1 c2 : complex) target :
  QPager.well_formed p -> 0 <= target < QPager.qubitsPerPage p ->
  (ceqb c1 c2 && (QPager.randGlobalPhase p || ceqb c1 ONE_CMPLX) = false ->
   QPager.GetQuantumState (QPager.ApplySinglePhase c1 c2 target p) =
     apply_phase_spec c1 c2 target (QPager.GetQuantumState p)) /\
  (ceqb c1 (cneg c2) && (QPager.randGlobalPhase p || ceqb c1 ONE_CMPLX) = false ->
   QPager.GetQuantumState (QPager.ApplySingleInvert c1 c2 target p) =
     apply_invert_spec c1 c2 target (QPager.GetQuantumState p)).
Proof.
  intros (Hqpp & Hn & Hpm & Hpc & Hlen & Hpages) Ht.
  set (qpp := QPager.qubitsPerPage p) in *. set (n := QPager.qubitCount p) in *.
  set (pages := QPager.qPages p) in *.
  assert (0 < 2 ^ (n - qpp)) as Hcount by (apply Z.pow_pos_nonneg; lia).
  assert (Hseq : seqZ 0 (QPager.qPageCount p) = seqZ 0 (Z.of_nat (length pages))).
  { f_equal. rewrite Hlen. lia. }
  assert (Hwf : forall j page, pages !! j = Some page ->
            QEngineOCL.well_formed page /\ 0 <= target < QEngineOCL.qubitCount page /\
            length (QEngineOCL.stateVec page) = Z.to_nat (2 ^ qpp)).
  { intros j page Hj. rewrite Forall_lookup in Hpages. destruct (Hpages _ _ Hj) as [Hw Hq].
    split_and!; [done|lia|lia|]. destruct Hw as (_ & Hmq & Hl). by rewrite Hl, Hmq, Hq. }
  assert (Huni : Forall (λ page, length (QEngineOCL.stateVec page) = Z.to_nat (2 ^ qpp)) pages).
  { apply Forall_lookup. intros j page Hj. by destruct (Hwf j page Hj) as (_ & _ & ?). }
  assert (Hlenp : length pages = Z.to_nat (2 ^ (n - qpp))) by (by rewrite Hlen, Hpc).
  assert (Hread : forall g g' page, 0 <= g < 2 ^ n -> 0 <= g' ->
            Z.shiftr g' qpp = Z.shiftr g qpp ->
            pages !! Z.to_nat (Z.shiftr g qpp) = Some page ->
            (pages ≫= QEngineOCL.stateVec) !!! Z.to_nat g' =
            QEngineOCL.stateVec page !!! Z.to_nat (Z.land g' (Z.ones qpp))).
  { intros g g' page Hg Hg' Hsame Hp.
    rewrite !list_lookup_total_alt, (pages_lookup pages qpp g') by first [done|lia].
    by rewrite Hsame, Hp. }
  split.
  - intros Hguard. unfold QPager.ApplySinglePhase. rewrite Hguard.
    destruct (Z.ltb_spec target (QPager.qubitsPerPage p)) as [_|]; [|unfold qpp in *; lia].
    unfold QPager.GetQuantumState. cbn [QPager.set_qPages QPager.qPages]. fold pages.
    rewrite Hseq, on_every_page. unfold apply_phase_spec.
    apply (paged_eq pages _ qpp n); try done; try lia.
    + by rewrite length_fmap.
    + apply Forall_fmap, Forall_lookup. intros j page Hj. unfold compose.
      destruct (Hwf j page Hj) as (Hw & Htq & Hl).
      rewrite phasesingle_spec by done. unfold apply_phase_spec. by rewrite length_imap.
    + intros g page page' Hg Hp Hp'. rewrite list_lookup_fmap, Hp in Hp'. cbn [fmap option_fmap option_map] in Hp'. simplify_eq.
      destruct (Hwf _ page Hp) as (Hw & Htq & Hl).
      rewrite phasesingle_spec by done. unfold apply_phase_spec. rewrite list_lookup_imap.
      destruct (split_index qpp g ltac:(lia) ltac:(lia)) as (_ & Hk & _).
      rewrite !Z2Nat.id by lia.
      assert (Z.testbit (Z.land g (Z.ones qpp)) target = Z.testbit g target) as ->; [|done].
      rewrite Z.land_spec, Z.testbit_ones_nonneg by lia.
      destruct (Z.ltb_spec target qpp); [by rewrite andb_true_r|lia].
  - intros Hguard. unfold QPager.ApplySingleInvert. rewrite Hguard.
    destruct (Z.ltb_spec target (QPager.qubitsPerPage p)) as [_|]; [|unfold qpp in *; lia].
    unfold QPager.GetQuantumState. cbn [QPager.set_qPages QPager.qPages]. fold pages.
    rewrite Hseq, on_every_page. unfold apply_invert_spec.
    apply (paged_eq pages _ qpp n); try done; try lia.
    + by rewrite length_fmap.
    + apply Forall_fmap, Forall_lookup. intros j page Hj. unfold compose.
      destruct (Hwf j page Hj) as (Hw & Htq & Hl).
      rewrite invertsingle_spec by done. unfold apply_invert_spec. by rewrite length_imap.
    + intros g page page' Hg Hp Hp'. rewrite list_lookup_fmap, Hp in Hp'. cbn [fmap option_fmap option_map] in Hp'. simplify_eq.
      destruct (Hwf _ page Hp) as (Hw & Htq & Hl).
      rewrite invertsingle_spec by done. unfold apply_invert_spec. rewrite list_lookup_imap.
      destruct (split_index qpp g ltac:(lia) ltac:(lia)) as (_ & Hk & _).
      rewrite !Z2Nat.id by lia.
      assert (Z.testbit (Z.land g (Z.ones qpp)) target = Z.testbit g target) as ->.
      { rewrite Z.land_spec, Z.testbit_ones_nonneg by lia.
        destruct (Z.ltb_spec target qpp); [by rewrite andb_true_r|lia]. }
      destruct (low_setbit g target qpp ltac:(lia) ltac:(lia)) as [Hs1 Hs2].
      destruct (low_clearbit g target qpp ltac:(lia) ltac:(lia)) as [Hc1 Hc2].
      rewrite (Hread g (Z.clearbit g target) page), (Hread g (Z.setbit g target) page);
        try done.
      * by rewrite Hs2, Hc2.
      * pose proof (setbit_range g target n ltac:(lia) Hg). lia.
      * pose proof (clearbit_range g target n ltac:(lia) Hg). lia.
Qed.


(** X26. A gate of the pager on a qubit inside the pages, when the first
    test does not take it for the identity: every page runs the engine's
    gate, and the pages read in order are the state vector the gate gives on
    the un-paged state. So for the diagonal and for the anti-diagonal
    gate. *)
Theorem QPager_gate_within_pages (p : QPager.t) (c1 c2 : complex) target :
  QPager.well_formed p -> 0 <= target < QPager.qubitsPerPage p ->
  (ceqb c1 c2 && (QPager.randGlobalPhase p || ceqb c1 ONE_CMPLX) = false ->
   QPager.GetQuantumState (QPager.ApplySinglePhase c1 c2 target p) =
     apply_phase_spec c1 c2 target (QPager.GetQuantumState p)) /\
  (ceqb c1 (cneg c2) && (QPager.randGlobalPhase p || ceqb c1 ONE_CMPLX) = false ->
   QPager.GetQuantumState (QPager.ApplySingleInvert c1 c2 target p) =
     apply_invert_spec c1 c2 target (QPager.GetQuantumState p)).
Proof. apply gate_within_pages. Qed.

End PagerWithin.

(** * The pager's diagonal gate on a qubit across pages *)

Section PagerPhase.
Context {R1 : Real1}.

(** One pass of the pager's loop is a step on the pair of pages. *)
Lemma phase_step tl br (i off : Z) (l : list QEngineOCL.t) :
  (Z.to_nat i < length l)%nat -> (Z.to_nat (i + off) < length l)%nat ->
  Z.to_nat i <> Z.to_nat (i + off) ->
  (let qPages :=
     if negb (ceqb tl ONE_CMPLX)
     then QPager.on_page i (QEngineOCL.ApplySinglePhase tl tl 0) l
     else l in
   if negb (ceqb br ONE_CMPLX)
   then QPager.on_page (i + off) (QEngineOCL.ApplySinglePhase br br 0) qPages
   else qPages) =
  pair_step (λ lo _, scale_page tl lo) (λ _ hi, scale_page br hi)
    (Z.to_nat i) (Z.to_nat (i + off)) l.
Proof.
  intros Hlo Hhi Hne. cbv zeta.
  set (lo := Z.to_nat i) in *. set (hi := Z.to_nat (i + off)) in *.
  destruct (lookup_lt_is_Some_2 l lo Hlo) as [x Hx].
  destruct (lookup_lt_is_Some_2 l hi Hhi) as [y Hy].
  unfold pair_step, scale_page.
  rewrite (list_lookup_total_correct _ _ _ Hx), (list_lookup_total_correct _ _ _ Hy).
  destruct (ceqb tl ONE_CMPLX), (ceqb br ONE_CMPLX); cbn [negb]; unfold QPager.on_page; fold lo hi.
  all: rewrite ?Hx, ?Hy; rewrite ?list_lookup_insert_ne by done; rewrite ?Hy.
  all: apply list_eq; intros k.
  all: destruct (decide (k = lo)) as [->|Hklo]; [|destruct (decide (k = hi)) as [->|Hkhi]].
  all: repeat first
         [ rewrite list_lookup_insert_ne by done
         | rewrite list_lookup_insert_eq by (rewrite ?length_insert; done) ].
  all: done.
Qed.

(** The pages the loop leaves. *)
Lemma ApplySinglePhase_pages (p : QPager.t) tl br target :
  QPager.well_formed p -> QPager.randGlobalPhase p = false ->
  QPager.qubitsPerPage p <= target < QPager.qubitCount p ->
  ceqb tl br && ceqb tl ONE_CMPLX = false ->
  let m := target - QPager.qubitsPerPage p in
  let N := QPager.qubitCount p - QPager.qubitsPerPage p in
  QPager.qPages (QPager.ApplySinglePhase tl br target p) =
  pair_loop (λ lo _, scale_page tl lo) (λ _ hi, scale_page br hi) (pair_lo m) (pair_hi m)
    (seqZ 0 (2 ^ (N - 1))) (QPager.qPages p).
Proof.
  intros (Hqpp & Hn & Hpm & Hpc & Hlen & Hpages) Hrgp Ht Hguard m N.
  unfold QPager.ApplySinglePhase. rewrite Hrgp. cbn [orb]. rewrite Hguard.
  destruct (Z.ltb_spec target (QPager.qubitsPerPage p)) as [|_]; [lia|].
  cbn [QPager.set_qPages QPager.qPages]. fold m.
  assert (0 <= m < N) as Hm by (subst m N; lia).
  assert (N <= bitsInCap) as HN by (subst N; lia).
  assert (wrapLen m = m) as ->.
  { unfold wrapLen. apply Z.mod_small. unfold bitsInCap, sizeof_bitCapInt, bitsInByte in *. lia. }
  rewrite pow2_small by lia.
  assert (cap_sub (2 ^ m) ONE_BCI = Z.ones m) as ->.
  { unfold cap_sub, ONE_BCI. rewrite ones_eq. apply wrapCap_small.
    pose proof (pow2_mono 0 m). pose proof (pow2_mono m bitsInCap). lia. }
  assert (Z.shiftr (QPager.qPageCount p) ONE_BCI = 2 ^ (N - 1)) as ->.
  { rewrite Hpc. fold N. unfold ONE_BCI. rewrite Z.shiftr_div_pow2 by lia.
    rewrite <- Z.pow_sub_r by lia. done. }
  unfold pair_loop.
  assert (Hs : forall a, a ∈ seqZ 0 (2 ^ (N - 1)) <-> 0 <= a < 2 ^ (N - 1)).
  { intros a. rewrite elem_of_seqZ. lia. }
  destruct (bit_pairs_apart m N _ Hm HN Hs) as [Hself _].
  apply (foldl_ext_in _ _ (λ l, length l = Z.to_nat (2 ^ N))).
  { by rewrite Hlen, Hpc. }
  intros l a Ha Hl. split; [|by rewrite pair_step_length].
  pose proof (pair_lo_range m N _ Hm HN Hs a Ha) as Hr.
  pose proof (pair_lo_bit m N _ Hm HN Hs a Ha) as Hb.
  change (QPager.pair_low (Z.ones m) a) with (Kernel.PUSH_APART_1 (Z.ones m) a).
  set (i := Kernel.PUSH_APART_1 (Z.ones m) a) in *.
  pose proof (setbit_range i m N Hm Hr) as Hr'.
  rewrite phase_step.
  - unfold pair_lo, pair_hi. fold i. by rewrite add_pow2_setbit by first [done|lia].
  - lia.
  - rewrite add_pow2_setbit by first [done|lia]. lia.
  - rewrite add_pow2_setbit by first [done|lia]. apply (Hself a Ha).
Qed.

(** The pager's diagonal gate on a qubit across pages, when its first test
    does not fire and the global phase is kept: page by page, the factor of
    the page's half is applied unless it is 1. *)
Lemma ApplySinglePhase_inter_page (p : QPager.t) tl br target :
  QPager.well_formed p -> QPager.randGlobalPhase p = false ->
  QPager.qubitsPerPage p <= target < QPager.qubitCount p ->
  ceqb tl br && ceqb tl ONE_CMPLX = false ->
  QPager.GetQuantumState (QPager.ApplySinglePhase tl br target p) =
  apply_phase_residual tl br target (QPager.GetQuantumState p).
Proof.
  intros Hwf Hrgp Ht Hguard.
  pose proof (ApplySinglePhase_pages p tl br target Hwf Hrgp Ht Hguard) as Hp.
  cbv zeta in Hp. destruct Hwf as (Hqpp & Hn & Hpm & Hpc & Hlen & Hpages).
  set (qpp := QPager.qubitsPerPage p) in *. set (n := QPager.qubitCount p) in *.
  set (m := target - qpp) in *. set (N := n - qpp) in *.
  assert (0 <= m < N) as Hm by (subst m N; lia).
  assert (N <= bitsInCap) as HN by (subst N; lia).
  assert (Hs : forall a, a ∈ seqZ 0 (2 ^ (N - 1)) <-> 0 <= a < 2 ^ (N - 1)).
  { intros a. rewrite elem_of_seqZ. lia. }
  set (pages := QPager.qPages p) in *.
  set (pages' := QPager.qPages (QPager.ApplySinglePhase tl br target p)) in *.
  assert (Hlen' : length pages = Z.to_nat (2 ^ N)) by (by rewrite Hlen, Hpc).
  assert (Hwp : forall j page, pages !! j = Some page ->
            QEngineOCL.well_formed page /\ 0 < QEngineOCL.qubitCount page /\
            length (QEngineOCL.stateVec page) = Z.to_nat (2 ^ qpp)).
  { intros j page Hj. rewrite Forall_lookup in Hpages. destruct (Hpages _ _ Hj) as [Hw Hq].
    split_and!; [done|lia|]. destruct Hw as (_ & Hmq & Hl). by rewrite Hl, Hmq, Hq. }
  assert (Huni : Forall (λ page, length (QEngineOCL.stateVec page) = Z.to_nat (2 ^ qpp)) pages).
  { apply Forall_lookup. intros j page Hj. by destruct (Hwp j page Hj) as (_ & _ & ?). }
  assert (Hres : forall j, 0 <= j < 2 ^ N ->
            pages' !! Z.to_nat j =
            Some (scale_page (if Z.testbit j m then br else tl) (pages !!! Z.to_nat j))).
  { intros j Hj. rewrite Hp.
    rewrite (bit_pair_loop_lookup m N); [|done|done|apply NoDup_seqZ|done|done|done].
    by destruct (Z.testbit j m). }
  assert (Hpage' : forall j page page', 0 <= j < 2 ^ N ->
            pages !! Z.to_nat j = Some page -> pages' !! Z.to_nat j = Some page' ->
            QEngineOCL.stateVec page' =
            residual (if Z.testbit j m then br else tl) <$> QEngineOCL.stateVec page).
  { intros j page page' Hj Hpg Hpg'. rewrite (Hres j Hj) in Hpg'. simplify_eq.
    rewrite (list_lookup_total_correct _ _ _ Hpg).
    destruct (Hwp _ page Hpg) as (Hw & Hq & _). by apply scale_page_stateVec. }
  unfold QPager.GetQuantumState. fold pages pages'. unfold apply_phase_residual.
  apply (paged_eq pages pages' qpp n); try done; try lia.
  - subst pages'. by rewrite Hp, pair_loop_length.
  - apply Forall_lookup. intros j page' Hj'.
    assert (0 <= Z.of_nat j < 2 ^ N) as Hj.
    { apply lookup_lt_Some in Hj'. subst pages'. rewrite Hp, pair_loop_length in Hj'. lia. }
    destruct (lookup_lt_is_Some_2 pages j ltac:(lia)) as [page Hpg].
    rewrite <- (Nat2Z.id j) in Hj', Hpg.
    rewrite (Hpage' _ page page' Hj Hpg Hj'), length_fmap.
    by destruct (Hwp _ page Hpg) as (_ & _ & ?).
  - intros g page page' Hg Hpg Hpg'.
    pose proof (shiftr_range g qpp n ltac:(lia) Hg) as Hj. fold N in Hj.
    rewrite (Hpage' _ page page' Hj Hpg Hpg'), list_lookup_fmap.
    rewrite Z2Nat.id by lia.
    assert (Z.testbit (Z.shiftr g qpp) m = Z.testbit g target) as ->.
    { rewrite Z.shiftr_spec by lia. f_equal. subst m. lia. }
    destruct (QEngineOCL.stateVec page !! _); [|done]. cbn.
    by destruct (Z.testbit g target).
Qed.

End PagerPhase.

Section PagerPhaseReal.
#[local] Existing Instance Real1_R.

Lemma apply_phase_residual_exact tl br target (stateVec : list complex) :
  apply_phase_residual tl br target stateVec = apply_phase_spec tl br target stateVec.
Proof.
  unfold apply_phase_residual, apply_phase_spec.
  apply list_eq. intros i. rewrite !list_lookup_imap.
  destruct (stateVec !! i); [|done]. cbn. by rewrite !residual_exact.
Qed.

Lemma ceqb_eq (c1 c2 : complex) : ceqb c1 c2 = true -> c1 = c2.
Proof.
  destruct c1 as [a b], c2 as [c d]. unfold ceqb. cbn.
  destruct (Req_dec_T a c) as [->|]; [|done].
  destruct (Req_dec_T b d) as [->|]; done.
Qed.

Lemma apply_phase_spec_one target (stateVec : list complex) :
  apply_phase_spec ONE_CMPLX ONE_CMPLX target stateVec = stateVec.
Proof.
  unfold apply_phase_spec. apply list_eq. intros i. rewrite list_lookup_imap.
  destruct (stateVec !! i) as [[x y]|]; [|done]. cbn.
  destruct (Z.testbit _ _); unfold zmul; cbn; do 2 f_equal; lra.
Qed.

(** The pager's diagonal gate on any qubit is the gate on the un-paged
    state. *)
Lemma pager_phase_gate (p : QPager.t) tl br target :
  QPager.well_formed p -> QPager.randGlobalPhase p = false ->
  0 <= target < QPager.qubitCount p ->
  QPager.GetQuantumState (QPager.ApplySinglePhase tl br target p) =
  apply_phase_spec tl br target (QPager.GetQuantumState p).
Proof.
  intros Hwf Hrgp Ht.
  destruct (ceqb tl br && ceqb tl ONE_CMPLX) eqn:Hguard.
  - apply andb_prop in Hguard as [E1%ceqb_eq E2%ceqb_eq]. subst br tl.
    rewrite apply_phase_spec_one. unfold QPager.ApplySinglePhase.
    rewrite Hrgp. cbn [orb].
    assert (ceqb ONE_CMPLX ONE_CMPLX = true) as ->; [|done].
    unfold ceqb. cbn. by destruct (Req_dec_T 1 1), (Req_dec_T 0 0).
  - destruct (Z.lt_ge_cases target (QPager.qubitsPerPage p)).
    + destruct (gate_within_pages p tl br target Hwf ltac:(lia)) as [H1 _].
      apply H1. by rewrite Hrgp.
    + rewrite ApplySinglePhase_inter_page by first [done|lia].
      apply apply_phase_residual_exact.
Qed.

(** X27. Over the real numbers, with the global phase kept, the pager's
    diagonal gate on any qubit, inside the pages or across them, gives the
    state vector that the 2x2 diagonal gate gives: as the gate is defined
    entry by entry, and as the engine's kernel computes it on the un-paged
    state. *)
Theorem QPager_ApplySinglePhase_refines_gate (p : QPager.t) tl br target :
  QPager.well_formed p -> QPager.randGlobalPhase p = false ->
  0 <= target < QPager.qubitCount p ->
  QPager.GetQuantumState (QPager.ApplySinglePhase tl br target p) =
    apply_phase_spec tl br target (QPager.GetQuantumState p) /\
  forall e : QEngineOCL.t,
    QEngineOCL.well_formed e -> QEngineOCL.qubitCount e = QPager.qubitCount p ->
    QEngineOCL.stateVec e = QPager.GetQuantumState p ->
    QPager.GetQuantumState (QPager.ApplySinglePhase tl br target p) =
    QEngineOCL.stateVec (QEngineOCL.ApplySinglePhase tl br target e).
Proof.
  intros Hwf Hrgp Ht. rewrite pager_phase_gate by done. split; [done|].
  intros e Hwe Hq He. rewrite phasesingle_spec, He; [done|done|lia].
Qed.

End PagerPhaseReal.

(** * [Cohere] of a vector of engines *)

Section CohereVector.
Context {R1 : Real1}.
Import QEngineCPU CPUCohere.

Lemma qubits_app l1 l2 : qubits (l1 ++ l2) = qubits l1 + qubits l2.
Proof.
  unfold qubits. induction l1 as [|b l1 IH]; [done|]. cbn in *. rewrite IH. lia.
Qed.

Lemma offsets_app n l1 l2 :
  offsets n (l1 ++ l2) = offsets n l1 ++ offsets (n + qubits l1) l2.
Proof.
  revert n. induction l1 as [|b l1 IH]; intros n.
  - cbn. by rewrite Z.add_0_r.
  - cbn [app offsets]. rewrite IH. cbn. do 3 f_equal. unfold qubits. cbn. lia.
Qed.

Lemma masks_app n l1 l2 :
  masks n (l1 ++ l2) = masks n l1 ++ masks (n + qubits l1) l2.
Proof.
  revert n. induction l1 as [|b l1 IH]; intros n.
  - cbn. by rewrite Z.add_0_r.
  - cbn [app masks]. rewrite IH. cbn. do 3 f_equal. unfold qubits. cbn. lia.
Qed.

Lemma offsets_length n l : length (offsets n l) = length l.
Proof. revert n. induction l as [|b l IH]; intros n; [done|]. cbn. by rewrite IH. Qed.

Lemma masks_length n l : length (masks n l) = length l.
Proof. revert n. induction l as [|b l IH]; intros n; [done|]. cbn. by rewrite IH. Qed.

Lemma qubits_nonneg l : Forall well_formed l -> 0 <= qubits l.
Proof.
  induction 1 as [|b l Hb Hl IH]; [done|]. unfold qubits in *. cbn.
  destruct Hb as (Hq & _). lia.
Qed.

Lemma normalize_qubitCount (b : QEngineCPU.t) :
  qubitCount (normalize_if_needed b) = qubitCount b.
Proof. unfold normalize_if_needed. by destruct (negb _). Qed.

Lemma qubits_normalize l : qubits (normalize_if_needed <$> l) = qubits l.
Proof.
  unfold qubits. induction l as [|b l IH]; [done|]. cbn. by rewrite IH, normalize_qubitCount.
Qed.

Lemma offsets_normalize n l : offsets n (normalize_if_needed <$> l) = offsets n l.
Proof.
  revert n. induction l as [|b l IH]; intros n; [done|].
  cbn. by rewrite normalize_qubitCount, IH.
Qed.

(** Writing a cell and then multiplying into it, pass by pass, is one
    write of the product. *)
Lemma multiply_into (i : nat) (x : complex) (c : Z -> complex) (js : list Z)
    (out : list complex) :
  foldl (λ out j, <[ i := zmul (out !!! i) (c j) ]> out) (<[ i := x ]> out) js =
  <[ i := foldl (λ acc j, zmul acc (c j)) x js ]> out.
Proof.
  destruct (decide (i < length out)%nat) as [Hi|Hi].
  - revert x. induction js as [|j js IH]; intros x; [done|]. cbn [foldl].
    rewrite list_lookup_total_insert_eq by done.
    rewrite list_insert_insert_eq. apply IH.
  - rewrite !(list_insert_ge out) by lia.
    induction js as [|j js IH]; [done|]. cbn [foldl].
    by rewrite (list_insert_ge out) by lia.
Qed.

Lemma qubits_take_le (l : list QEngineCPU.t) k :
  Forall well_formed l -> 0 <= qubits (take k l) <= qubits l.
Proof.
  intros Hl. rewrite <- (take_drop k l) at 3. rewrite qubits_app.
  pose proof (qubits_nonneg (take k l) (Forall_take _ _ _ Hl)).
  pose proof (qubits_nonneg (drop k l) (Forall_drop _ _ _ Hl)). lia.
Qed.

(** The layout after the first [k] passes. *)
Lemma layout_prefix (na : Z) (toCopy : list QEngineCPU.t) (k : nat) :
  Forall well_formed toCopy -> 0 <= na -> na + qubits toCopy < bitsInInt - 1 ->
  (k <= length toCopy)%nat ->
  foldl layout_step
    (toCopy, replicate (length toCopy) 0, replicate (length toCopy) 0, na)
    (seqZ 0 (Z.of_nat k)) =
  ((normalize_if_needed <$> take k toCopy) ++ drop k toCopy,
   masks na (take k toCopy) ++ replicate (length toCopy - k) 0,
   offsets na (take k toCopy) ++ replicate (length toCopy - k) 0,
   na + qubits (take k toCopy)).
Proof.
  intros Hwf Hna Hsum. pose proof int_shift_below_cap as Hic.
  induction k as [|k IH]; intros Hk.
  - cbn. rewrite Nat.sub_0_r, drop_0. unfold qubits. cbn. by rewrite Z.add_0_r.
  - rewrite seqZ_snoc, foldl_app, IH by lia. cbn [foldl]. unfold layout_step.
    rewrite Nat2Z.id.
    destruct (lookup_lt_is_Some_2 toCopy k ltac:(lia)) as [b Hb].
    assert (well_formed b) as Hwb by (by eapply Forall_lookup_1).
    pose proof (qubits_take_le toCopy k Hwf) as Hqk.
    pose proof (qubits_take_le toCopy (S k) Hwf) as Hqk'.
    rewrite (take_S_r _ _ _ Hb), qubits_app in Hqk'.
    assert (qubits [b] = qubitCount b) as Hq1 by (unfold qubits; cbn; lia).
    rewrite Hq1 in Hqk'. destruct Hwb as (Hqb & _).
    assert (length (normalize_if_needed <$> take k toCopy) = k) as L1
      by (rewrite length_fmap, length_take; lia).
    assert (length (masks na (take k toCopy)) = k) as L2
      by (rewrite masks_length, length_take; lia).
    assert (length (offsets na (take k toCopy)) = k) as L3
      by (rewrite offsets_length, length_take; lia).
    assert (((normalize_if_needed <$> take k toCopy) ++ drop k toCopy) !!! k = b) as ->.
    { apply list_lookup_total_correct. rewrite lookup_app_r by lia.
      by rewrite L1, Nat.sub_diag, lookup_drop, Nat.add_0_r. }
    rewrite normalize_qubitCount.
    rewrite !insert_app_r_alt by lia. rewrite L1, L2, L3, Nat.sub_diag.
    rewrite (drop_S _ _ _ Hb).
    replace (length toCopy - k)%nat with (S (length toCopy - S k)) by lia.
    cbn [replicate insert list_insert].
    rewrite (take_S_r _ _ _ Hb), fmap_app, masks_app, offsets_app, qubits_app, Hq1.
    cbn [fmap list_fmap masks offsets].
    rewrite <- !app_assoc. cbn [app].
    destruct (INT_masks (na + qubits (take k toCopy) + qubitCount b)
                (na + qubits (take k toCopy)) (qubitCount b)) as (_ & _ & -> & _); [lia..|].
    assert (wrapLen (na + qubits (take k toCopy)) = na + qubits (take k toCopy)) as ->.
    { unfold wrapLen. apply Z.mod_small.
      unfold bitsInInt, bitsInByte in *. lia. }
    assert (cap_add (na + qubits (take k toCopy)) (qubitCount b) =
            na + (qubits (take k toCopy) + qubitCount b)) as ->.
    { unfold cap_add. rewrite wrapCap_small; [lia|].
      split; [lia|]. apply Z.lt_trans with (2 ^ 5); [|done].
      unfold bitsInInt in *. lia. }
    done.
Qed.

(** A loop over the indices of a list is a loop over the list. *)
Lemma foldl_seqZ_lookup {A B} `{Inhabited B} (g : A -> B -> A) (l : list B) (x : A) :
  foldl (λ acc j, g acc (l !!! Z.to_nat j)) x (seqZ 0 (Z.of_nat (length l))) = foldl g x l.
Proof.
  revert x. induction l as [|b l IH] using rev_ind; intros x; [done|].
  rewrite length_app, Nat.add_1_r, seqZ_snoc, !foldl_app. cbn [foldl].
  rewrite Nat2Z.id, <- IH. f_equal.
  - apply (foldl_ext_in _ _ (λ _, True)); [done|].
    intros acc j Hj%elem_of_seqZ _. split; [|done].
    f_equal. apply list_lookup_total_correct.
    rewrite lookup_app_l by lia. apply list_lookup_lookup_total_lt. lia.
  - apply list_lookup_total_correct. rewrite lookup_app_r by lia.
    by rewrite Nat.sub_diag.
Qed.

(** Every cell written once, in order. *)
Lemma scatter_all {A} (src : Z -> A) n (out : list A) :
  length out = Z.to_nat n ->
  scatter (λ i, i) src (seqZ 0 n) out = src <$> seqZ 0 n.
Proof.
  intros Hlen. apply list_eq. intros j. rewrite list_lookup_fmap.
  destruct (decide (j < Z.to_nat n)%nat) as [Hj|Hj].
  - rewrite <- (Nat2Z.id j) at 1. rewrite (scatter_id_lookup src).
    + rewrite lookup_seqZ_lt by lia. cbn. f_equal.
    + apply NoDup_seqZ.
    + by intros a [??]%elem_of_seqZ.
    + apply elem_of_seqZ. lia.
    + lia.
  - rewrite !lookup_ge_None_2; [done| |].
    + rewrite length_seqZ. lia.
    + rewrite scatter_length. lia.
Qed.

Lemma placed_fst n l : (placed n l).*1 = l.
Proof. apply fst_zip. by rewrite offsets_length. Qed.

Lemma placed_snd n l : (placed n l).*2 = offsets n l.
Proof. apply snd_zip. by rewrite offsets_length. Qed.

Lemma placed_masks n l :
  (λ so : QEngineCPU.t * Z, regMask_of so.2 (qubitCount so.1)) <$> placed n l = masks n l.
Proof.
  unfold placed. revert n. induction l as [|b l IH]; intros n; [done|].
  cbn. by rewrite IH.
Qed.

Lemma placed_length n l : length (placed n l) = length l.
Proof. unfold placed. rewrite length_zip, offsets_length. lia. Qed.

Lemma placed_app n l b :
  placed n (l ++ [b]) = placed n l ++ [(b, n + qubits l)].
Proof.
  unfold placed. rewrite offsets_app. cbn.
  rewrite zip_with_app by (by rewrite offsets_length). done.
Qed.

Lemma placed_bounds n l src off :
  Forall well_formed l -> 0 <= n -> (src, off) ∈ placed n l ->
  0 <= off /\ 0 <= qubitCount src /\ off + qubitCount src <= n + qubits l.
Proof.
  intros Hl. revert n. induction Hl as [|b l Hb Hl IH]; intros n Hn Hin.
  - by apply elem_of_nil in Hin.
  - unfold placed in Hin. cbn in Hin. apply elem_of_cons in Hin as [Heq|Hin].
    + simplify_eq. pose proof (qubits_nonneg l Hl). destruct Hb as (Hq & _).
      unfold qubits in *. cbn. lia.
    + destruct Hb as (Hq & _).
      destruct (IH (n + qubitCount b) ltac:(lia) Hin) as (H1 & H2 & H3).
      unfold qubits in *. cbn. lia.
Qed.

Lemma product_amplitude_snoc (a : list complex) na l b lcv :
  product_amplitude a na (l ++ [b]) lcv =
  zmul (product_amplitude a na l lcv)
       (stateVec b !!! Z.to_nat (register_value (na + qubits l) (qubitCount b) lcv)).
Proof.
  unfold product_amplitude. fold (placed na (l ++ [b])). fold (placed na l).
  by rewrite placed_app, foldl_app.
Qed.

Lemma register_value_low off len n lcv :
  0 <= off -> 0 <= len -> off + len <= n ->
  register_value off len (Z.land lcv (Z.ones n)) = register_value off len lcv.
Proof.
  intros Ho Hl Hn. apply Z.bits_inj'. intros j Hj.
  rewrite !register_value_testbit by lia.
  destruct (Z.ltb_spec j len); [|done]. cbn.
  rewrite Z.land_spec, Z.testbit_ones_nonneg by lia.
  destruct (Z.ltb_spec (j + off) n); [by rewrite andb_true_r|lia].
Qed.

Lemma product_amplitude_low (a : list complex) na l n lcv :
  Forall well_formed l -> 0 <= na -> na + qubits l <= n ->
  product_amplitude a na l (Z.land lcv (Z.ones n)) = product_amplitude a na l lcv.
Proof.
  intros Hl Hna Hn. unfold product_amplitude. fold (placed na l).
  assert (Z.land (Z.land lcv (Z.ones n)) (Z.ones na) = Z.land lcv (Z.ones na)) as ->.
  { pose proof (qubits_nonneg l Hl).
    rewrite <- Z.land_assoc. f_equal. apply Z.bits_inj'. intros j Hj.
    rewrite Z.land_spec, !Z.testbit_ones_nonneg by lia.
    destruct (Z.ltb_spec j na), (Z.ltb_spec j n); try done. lia. }
  generalize (a !!! Z.to_nat (Z.land lcv (Z.ones na))). intros x.
  apply (foldl_ext_in _ _ (λ _, True)); [done|].
  intros acc [src off] Hin _. split; [|done].
  destruct (placed_bounds na l src off Hl Hna Hin) as (H1 & H2 & H3).
  by rewrite register_value_low by lia.
Qed.

(** [Cohere(vector)] amplitude by amplitude. *)
Lemma Cohere_vector_composed (mem : list complex) (e : QEngineCPU.t)
    (toCopy : list QEngineCPU.t) :
  well_formed e -> Forall well_formed toCopy ->
  Z.of_nat (length toCopy) < 2 ^ bitsInByte ->
  qubitCount e + qubits toCopy < bitsInInt - 1 ->
  Cohere_vector mem e toCopy =
  (offsets (qubitCount e) toCopy,
   composed (normalize_if_needed e) (normalize_if_needed <$> toCopy),
   normalize_if_needed <$> toCopy).
Proof.
  intros He Hl Hcount Hsum. pose proof int_shift_below_cap as Hic.
  destruct (normalize_if_needed_fields e He) as (Hqa & Hma & Hla).
  destruct He as (Hna & Hpa & Hlena).
  set (na := qubitCount e) in *.
  pose proof (qubits_nonneg toCopy Hl) as Hq0.
  set (n := na + qubits toCopy) in *.
  unfold Cohere_vector.
  assert (wrapLen (Z.of_nat (length toCopy)) = Z.of_nat (length toCopy)) as ->.
  { unfold wrapLen. apply Z.mod_small. lia. }
  unfold layout. rewrite Nat2Z.id. fold na.
  rewrite (layout_prefix na toCopy (length toCopy)) by first [done|lia].
  rewrite firstn_all, drop_all, Nat.sub_diag. cbn [replicate].
  rewrite !app_nil_r. fold n.
  assert (cap_shl 1 n = 2 ^ n) as -> by (apply pow2_small; lia).
  assert (wrapLen n = n) as ->.
  { unfold wrapLen. apply Z.mod_small. unfold bitsInInt, bitsInByte in *. lia. }
  assert (cap_sub (maxQPower e) 1 = Z.ones na) as ->.
  { rewrite Hpa. unfold cap_sub. rewrite ones_eq. apply wrapCap_small.
    pose proof (pow2_mono 0 na). pose proof (pow2_mono na bitsInCap). lia. }
  f_equal. f_equal. unfold composed.
  rewrite Hqa, qubits_normalize. fold na n. f_equal.
  set (l' := normalize_if_needed <$> toCopy).
  set (a' := stateVec (normalize_if_needed e)).
  assert (Hl' : Forall well_formed l').
  { subst l'. apply Forall_fmap. eapply Forall_impl; [exact Hl|].
    intros b Hb. unfold compose.
    destruct (normalize_if_needed_fields b Hb) as (E1 & E2 & E3).
    unfold well_formed. by rewrite E1, E2, E3. }
  assert (Hbody : forall lcv (out : list complex),
    foldl (λ nStateVec j,
             <[ Z.to_nat lcv :=
                  zmul (nStateVec !!! Z.to_nat lcv)
                       (stateVec (l' !!! Z.to_nat j)
                          !!! Z.to_nat (Z.shiftr (Z.land lcv (masks na toCopy !!! Z.to_nat j))
                                          (offsets na toCopy !!! Z.to_nat j))) ]> nStateVec)
          (<[ Z.to_nat lcv := a' !!! Z.to_nat (Z.land lcv (Z.ones na)) ]> out)
          (seqZ 0 (Z.of_nat (length toCopy))) =
    <[ Z.to_nat lcv := product_amplitude a' na l' lcv ]> out).
  { intros lcv out.
    rewrite (multiply_into (Z.to_nat lcv) _
               (λ j, stateVec (l' !!! Z.to_nat j)
                       !!! Z.to_nat (Z.shiftr (Z.land lcv (masks na toCopy !!! Z.to_nat j))
                                       (offsets na toCopy !!! Z.to_nat j)))).
    f_equal. unfold product_amplitude. fold (placed na l').
    rewrite <- (foldl_seqZ_lookup _ (placed na l')), placed_length.
    subst l'. rewrite length_fmap.
    apply (foldl_ext_in _ _ (λ _, True)); [done|].
    intros acc j Hj%elem_of_seqZ _. split; [|done].
    assert (Hlt : (Z.to_nat j < length (placed na (normalize_if_needed <$> toCopy)))%nat)
      by (rewrite placed_length, length_fmap; lia).
    destruct (lookup_lt_is_Some_2 _ _ Hlt) as [[src off] Hso].
    rewrite (list_lookup_total_correct _ _ _ Hso).
    destruct (placed_bounds na _ src off Hl' (proj1 Hna) (list_elem_of_lookup_2 _ _ _ Hso))
      as (H1 & H2 & H3).
    assert ((normalize_if_needed <$> toCopy) !!! Z.to_nat j = src) as ->.
    { apply list_lookup_total_correct.
      rewrite <- (placed_fst na (normalize_if_needed <$> toCopy)) at 1.
      by rewrite list_lookup_fmap, Hso. }
    assert (offsets na toCopy !!! Z.to_nat j = off) as ->.
    { apply list_lookup_total_correct.
      rewrite <- (offsets_normalize na toCopy), <- placed_snd.
      by rewrite list_lookup_fmap, Hso. }
    assert (masks na toCopy !!! Z.to_nat j = regMask_of off (qubitCount src)) as ->.
    { apply list_lookup_total_correct.
      assert (masks na toCopy = masks na (normalize_if_needed <$> toCopy)) as ->.
      { clear. generalize na. induction toCopy as [|b l IH]; intros m; [done|].
        cbn. by rewrite normalize_qubitCount, IH. }
      rewrite <- placed_masks. by rewrite list_lookup_fmap, Hso. }
    by rewrite register_of_masked by lia. }
  unfold par_for. rewrite Z.sub_0_r. unfold run_kernel.
  rewrite <- (scatter_all (product_amplitude a' na l') (2 ^ n) (AllocStateVec mem (2 ^ n))).
  2:{ unfold AllocStateVec. by rewrite length_resize. }
  unfold scatter, run_kernel.
  apply (foldl_ext_in _ _ (λ _, True)); [done|].
  intros out lcv _ _. split; [|done]. apply Hbody.
Qed.

Lemma composed_nil (a : QEngineCPU.t) : well_formed a -> composed a [] = a.
Proof.
  intros (Hq & Hm & Hlen). unfold composed, qubits. cbn [fmap list_fmap foldr].
  rewrite Z.add_0_r, <- Hm. destruct a as [q m rn sv]. cbn in *. f_equal.
  apply list_eq. intros j. rewrite list_lookup_fmap.
  destruct (decide (j < length sv)%nat) as [Hj|Hj].
  - rewrite lookup_seqZ_lt by lia. cbn. unfold product_amplitude. cbn.
    rewrite Z.land_ones, Z.mod_small by lia.
    rewrite Z.add_0_l, Nat2Z.id. symmetry. by apply list_lookup_lookup_total_lt.
  - rewrite (lookup_ge_None_2 sv), (lookup_ge_None_2 (seqZ 0 m)); [done| |lia].
    rewrite length_seqZ. lia.
Qed.

(** One more [Cohere] on the composed engine. *)
Lemma Cohere_composed (mem : list complex) (a : QEngineCPU.t) (l : list QEngineCPU.t)
    (b : QEngineCPU.t) :
  r_eqb (runningNorm a) ONE_R1 = true -> 0 <= qubitCount a ->
  Forall well_formed l -> well_formed b ->
  qubitCount a + qubits l + qubitCount b < bitsInInt - 1 ->
  Cohere mem (composed a l) b =
  (qubitCount a + qubits l, composed a (l ++ [normalize_if_needed b]), normalize_if_needed b).
Proof.
  intros Hone Hna Hl Hb Hsum. pose proof int_shift_below_cap as Hic.
  pose proof (qubits_nonneg l Hl) as Hql.
  destruct (normalize_if_needed_fields b Hb) as (Hqb & Hmb & Hlb).
  destruct Hb as (Hnb & Hpb & Hlenb).
  set (na := qubitCount a) in *. set (n := na + qubits l) in *.
  set (nb := qubitCount b) in *. set (b' := normalize_if_needed b) in *.
  assert (normalize_if_needed (composed a l) = composed a l) as Hnorm.
  { unfold normalize_if_needed, composed. cbn [runningNorm]. by rewrite Hone. }
  unfold Cohere. rewrite Hnorm. fold b'.
  assert (qubitCount (composed a l) = n) as -> by done.
  rewrite Hqb.
  destruct (Cohere_masks n nb) as (M1 & M2 & M3 & M4); [lia..|].
  rewrite M1, M2, M3, M4.
  f_equal. f_equal. unfold composed, ResetStateVec, SetQubitCount.
  cbn [qubitCount maxQPower runningNorm stateVec].
  rewrite qubits_app.
  assert (qubits [b'] = nb) as -> by (unfold qubits; cbn; rewrite Hqb; lia).
  fold na. replace (na + (qubits l + nb)) with (n + nb) by (subst n; lia).
  rewrite M2. f_equal.
  rewrite par_for_scatter, scatter_all by (unfold AllocStateVec; by rewrite length_resize).
  apply list_fmap_ext. intros i lcv Hlcv.
  apply lookup_seqZ in Hlcv as [-> Hi].
  rewrite product_amplitude_snoc. fold n. rewrite Hqb.
  change (Z.shiftl (Z.ones nb) n) with (regMask_of n nb).
  rewrite register_of_masked by lia. f_equal.
  assert (0 <= Z.land (0 + Z.of_nat i) (Z.ones n) < 2 ^ n) as Hlow.
  { rewrite Z.land_ones by lia. apply Z.mod_pos_bound. apply Z.pow_pos_nonneg; lia. }
  rewrite <- (product_amplitude_low (stateVec a) na l n) by first [done|lia].
  apply list_lookup_total_correct. rewrite list_lookup_fmap.
  rewrite lookup_seqZ_lt by lia. cbn. do 2 f_equal. lia.
Qed.

(** [Cohere] of one engine after the other, amplitude by amplitude. *)
Lemma Cohere_each_composed (mem : list complex) (a : QEngineCPU.t) (l : list QEngineCPU.t) :
  r_eqb (runningNorm a) ONE_R1 = true -> well_formed a -> Forall well_formed l ->
  qubitCount a + qubits l < bitsInInt - 1 ->
  Cohere_each mem a l =
  (offsets (qubitCount a) l, composed a (normalize_if_needed <$> l), normalize_if_needed <$> l).
Proof.
  intros Hone Ha. induction l as [|b l IH] using rev_ind; intros Hl Hsum.
  - cbn. by rewrite composed_nil.
  - apply Forall_app in Hl as [Hl Hb]. rewrite Forall_singleton in Hb.
    rewrite qubits_app in Hsum.
    assert (qubits [b] = qubitCount b) as Hq1 by (unfold qubits; cbn; lia).
    rewrite Hq1 in Hsum. destruct (Hb) as (Hqb & _).
    unfold Cohere_each in *. rewrite foldl_app. cbn [foldl].
    rewrite IH by first [done|lia].
    assert (Hl' : Forall well_formed (normalize_if_needed <$> l)).
    { apply Forall_fmap. eapply Forall_impl; [exact Hl|].
      intros c Hc. unfold compose.
      destruct (normalize_if_needed_fields c Hc) as (E1 & E2 & E3).
      unfold well_formed. by rewrite E1, E2, E3. }
    rewrite Cohere_composed; try done.
    + rewrite qubits_normalize, offsets_app, fmap_app. done.
    + destruct Ha as (? & _). lia.
    + rewrite qubits_normalize. lia.
Qed.

Lemma normalize_settled (e : QEngineCPU.t) :
  r_eqb ONE_R1 ONE_R1 = true ->
  r_eqb (runningNorm (normalize_if_needed e)) ONE_R1 = true /\
  normalize_if_needed (normalize_if_needed e) = normalize_if_needed e.
Proof.
  intros Hone. unfold normalize_if_needed.
  destruct (r_eqb (runningNorm e) ONE_R1) eqn:E; cbn [negb].
  - by rewrite E.
  - assert (runningNorm (NormalizeState e) = ONE_R1) as -> by done.
    by rewrite Hone.
Qed.

(** X29. [Cohere] of a vector of engines does what [Cohere] does called
    for one engine of the vector after the other: the same offsets, the same
    combined engine and the same engines left in the vector, each normalised
    where its running norm was not 1. The amplitude of the combined state at
    an index is the amplitude of this engine at the low bits times the
    amplitudes of the others at the values of their registers, multiplied in
    their order. *)
Theorem Cohere_vector_is_Cohere_each (mem mem' : list complex) (e : QEngineCPU.t)
    (toCopy : list QEngineCPU.t) :
  well_formed e -> Forall well_formed toCopy ->
  Z.of_nat (length toCopy) < 2 ^ bitsInByte ->
  qubitCount e + qubits toCopy < bitsInInt - 1 ->
  r_eqb ONE_R1 ONE_R1 = true ->
  Cohere_vector mem e toCopy = Cohere_each mem' (normalize_if_needed e) toCopy /\
  (toCopy <> [] -> Cohere_vector mem e toCopy = Cohere_each mem' e toCopy) /\
  (Cohere_vector mem e toCopy).1.1 = offsets (qubitCount e) toCopy /\
  (Cohere_vector mem e toCopy).2 = normalize_if_needed <$> toCopy /\
  qubitCount (Cohere_vector mem e toCopy).1.2 = qubitCount e + qubits toCopy /\
  forall lcv, 0 <= lcv < 2 ^ (qubitCount e + qubits toCopy) ->
    stateVec (Cohere_vector mem e toCopy).1.2 !! Z.to_nat lcv =
    Some (product_amplitude (stateVec (normalize_if_needed e)) (qubitCount e)
            (normalize_if_needed <$> toCopy) lcv).
Proof.
  intros He Hl Hcount Hsum Hone.
  destruct (normalize_settled e Hone) as [Hrn Hidem].
  destruct (normalize_if_needed_fields e He) as (Hqa & Hma & Hla).
  assert (He' : well_formed (normalize_if_needed e)).
  { unfold well_formed. by rewrite Hqa, Hma, Hla. }
  assert (Heach : Cohere_vector mem e toCopy =
                  Cohere_each mem' (normalize_if_needed e) toCopy).
  { rewrite Cohere_vector_composed, Cohere_each_composed by (rewrite ?Hqa; done).
    by rewrite Hqa. }
  split_and!; [done| | | | |].
  - intros Hne. rewrite Heach. destruct toCopy as [|b l]; [done|].
    unfold Cohere_each. cbn [foldl]. unfold Cohere at 2 4. by rewrite Hidem, Hqa.
  - by rewrite Cohere_vector_composed.
  - by rewrite Cohere_vector_composed.
  - rewrite Cohere_vector_composed by done. unfold composed. cbn.
    by rewrite Hqa, qubits_normalize.
  - intros lcv Hlcv. rewrite Cohere_vector_composed by done. unfold composed.
    cbn [fst snd stateVec]. rewrite Hqa, qubits_normalize, list_lookup_fmap.
    rewrite lookup_seqZ_lt by lia. cbn. do 2 f_equal. lia.
Qed.

End CohereVector.

(** * Rotations on the pager *)

Section PagerInvariant.
Context {R1 : Real1}.

Lemma engine_phase_well_formed tl br target (page : QEngineOCL.t) :
  QEngineOCL.well_formed page -> 0 <= target < QEngineOCL.qubitCount page ->
  QEngineOCL.well_formed (QEngineOCL.ApplySinglePhase tl br target page) /\
  QEngineOCL.qubitCount (QEngineOCL.ApplySinglePhase tl br target page) =
    QEngineOCL.qubitCount page.
Proof.
  intros Hw Ht. split; [|reflexivity]. pose proof Hw as (Hq & Hm & Hl).
  unfold QEngineOCL.well_formed.
  change (QEngineOCL.maxQPower (QEngineOCL.ApplySinglePhase tl br target page))
    with (QEngineOCL.maxQPower page).
  change (QEngineOCL.qubitCount (QEngineOCL.ApplySinglePhase tl br target page))
    with (QEngineOCL.qubitCount page).
  rewrite phasesingle_spec by done. unfold apply_phase_spec. by rewrite length_imap.
Qed.

Lemma scale_page_well_formed c (page : QEngineOCL.t) :
  QEngineOCL.well_formed page -> 0 < QEngineOCL.qubitCount page ->
  QEngineOCL.well_formed (scale_page c page) /\
  QEngineOCL.qubitCount (scale_page c page) = QEngineOCL.qubitCount page.
Proof.
  intros Hw Hq. unfold scale_page. destruct (ceqb c ONE_CMPLX); [done|].
  apply engine_phase_well_formed; [done|lia].
Qed.

(** The pager's diagonal gate keeps the pager well formed. *)
Lemma pager_phase_well_formed (p : QPager.t) tl br target :
  QPager.well_formed p -> QPager.randGlobalPhase p = false ->
  0 <= target < QPager.qubitCount p ->
  QPager.well_formed (QPager.ApplySinglePhase tl br target p) /\
  QPager.randGlobalPhase (QPager.ApplySinglePhase tl br target p) = false /\
  QPager.qubitCount (QPager.ApplySinglePhase tl br target p) = QPager.qubitCount p.
Proof.
  intros Hwf Hrgp Ht.
  destruct (ceqb tl br && ceqb tl ONE_CMPLX) eqn:Hguard.
  { unfold QPager.ApplySinglePhase. rewrite Hrgp. cbn [orb]. by rewrite Hguard. }
  pose proof Hwf as (Hqpp & Hn & Hpm & Hpc & Hlen & Hpages).
  assert (Hfields : forall pages',
            length pages' = length (QPager.qPages p) ->
            Forall (λ page, QEngineOCL.well_formed page /\
                            QEngineOCL.qubitCount page = QPager.qubitsPerPage p) pages' ->
            QPager.well_formed (QPager.set_qPages pages' p)).
  { intros pages' Hl' Hp'. unfold QPager.well_formed. cbn. by rewrite Hl'. }
  destruct (Z.lt_ge_cases target (QPager.qubitsPerPage p)) as [Hlow|Hhigh].
  - assert (QPager.ApplySinglePhase tl br target p =
            QPager.set_qPages (QEngineOCL.ApplySinglePhase tl br target <$> QPager.qPages p) p)
      as ->.
    { unfold QPager.ApplySinglePhase. rewrite Hrgp. cbn [orb]. rewrite Hguard.
      destruct (Z.ltb_spec target (QPager.qubitsPerPage p)); [|lia].
      f_equal. rewrite <- on_every_page. do 2 f_equal. rewrite Hlen. lia. }
    split_and!; [|done|done]. apply Hfields; [by rewrite length_fmap|].
    apply Forall_fmap. eapply Forall_impl; [exact Hpages|].
    intros page [Hw Hq]. unfold compose.
    destruct (engine_phase_well_formed tl br target page Hw ltac:(lia)) as [H1 H2].
    split; [done|]. by rewrite H2.
  - pose proof (ApplySinglePhase_pages p tl br target Hwf Hrgp ltac:(lia) Hguard) as Hp.
    cbv zeta in Hp.
    assert (QPager.ApplySinglePhase tl br target p =
            QPager.set_qPages (QPager.qPages (QPager.ApplySinglePhase tl br target p)) p) as ->.
    { unfold QPager.ApplySinglePhase. rewrite Hrgp. cbn [orb]. rewrite Hguard.
      destruct (Z.ltb_spec target (QPager.qubitsPerPage p)); [lia|]. done. }
    split_and!; [|done|done]. apply Hfields; [by rewrite Hp, pair_loop_length|].
    set (m := target - QPager.qubitsPerPage p) in *.
    set (N := QPager.qubitCount p - QPager.qubitsPerPage p) in *.
    assert (0 <= m < N) as Hm by (subst m N; lia).
    assert (N <= bitsInCap) as HN by (subst N; lia).
    assert (Hs : forall a, a ∈ seqZ 0 (2 ^ (N - 1)) <-> 0 <= a < 2 ^ (N - 1)).
    { intros a. rewrite elem_of_seqZ. lia. }
    assert (Hlen' : length (QPager.qPages p) = Z.to_nat (2 ^ N)) by (by rewrite Hlen, Hpc).
    assert (0 < 2 ^ N) by (apply Z.pow_pos_nonneg; lia).
    apply Forall_lookup. intros j page' Hj'.
    assert (0 <= Z.of_nat j < 2 ^ N) as Hj.
    { apply lookup_lt_Some in Hj'. rewrite Hp, pair_loop_length in Hj'. lia. }
    rewrite Hp in Hj'. rewrite <- (Nat2Z.id j) in Hj'.
    rewrite (bit_pair_loop_lookup m N) in Hj'; [|done|done|apply NoDup_seqZ|done|done|done].
    destruct (lookup_lt_is_Some_2 (QPager.qPages p) j ltac:(lia)) as [page Hpg].
    rewrite Nat2Z.id, (list_lookup_total_correct _ _ _ Hpg) in Hj'.
    rewrite Forall_lookup in Hpages. destruct (Hpages _ _ Hpg) as [Hw Hq].
    assert (page' = scale_page (if Z.testbit (Z.of_nat j) m then br else tl) page) as ->.
    { destruct (Z.testbit (Z.of_nat j) m); by simplify_eq. }
    destruct (scale_page_well_formed (if Z.testbit (Z.of_nat j) m then br else tl) page Hw
                ltac:(lia)) as [H1 H2].
    split; [done|]. by rewrite H2.
Qed.

End PagerInvariant.

Section PagerRotationsReal.
#[local] Existing Instance Real1_R.
#[local] Existing Instance Libm_R.

Lemma apply_phase_spec_compose c1 c2 d1 d2 target (sv : list complex) :
  apply_phase_spec c1 c2 target (apply_phase_spec d1 d2 target sv) =
  apply_phase_spec (zmul c1 d1) (zmul c2 d2) target sv.
Proof.
  unfold apply_phase_spec. apply list_eq. intros i. rewrite !list_lookup_imap.
  destruct (sv !! i) as [[x y]|]; [|done]. cbn.
  destruct c1, c2, d1, d2. destruct (Z.testbit _ _); unfold zmul; cbn; do 2 f_equal; lra.
Qed.

(** X30. Rotations on the pager, over the real numbers and with the
    global phase kept: [RZ], [RT] and [Exp] by two angles one after the other
    give the state of the gate by the sum of the angles, [ExpZ] twice gives
    the state of [Exp] by the sum of the angles, and [RZ] and [RT] by angle 0
    leave the state as it is. The pager stays well formed under the
    rotations. *)
Theorem QPager_rotations_add (p : QPager.t) (a b : real1) qubit :
  QPager.well_formed p -> QPager.randGlobalPhase p = false ->
  0 <= qubit < QPager.qubitCount p ->
  let RZ := QInterface.RZ QPager.ApplySinglePhase in
  let RT := QInterface.RT QPager.ApplySinglePhase in
  let Exp := QInterface.Exp QPager.ApplySinglePhase in
  let ExpZ := QInterface.ExpZ QPager.ApplySinglePhase in
  QPager.GetQuantumState (RZ b qubit (RZ a qubit p)) =
    QPager.GetQuantumState (RZ (a + b)%R qubit p) /\
  QPager.GetQuantumState (RT b qubit (RT a qubit p)) =
    QPager.GetQuantumState (RT (a + b)%R qubit p) /\
  QPager.GetQuantumState (Exp b qubit (Exp a qubit p)) =
    QPager.GetQuantumState (Exp (a + b)%R qubit p) /\
  QPager.GetQuantumState (ExpZ b qubit (ExpZ a qubit p)) =
    QPager.GetQuantumState (Exp (a + b)%R qubit p) /\
  QPager.GetQuantumState (RZ 0%R qubit p) = QPager.GetQuantumState p /\
  QPager.GetQuantumState (RT 0%R qubit p) = QPager.GetQuantumState p /\
  QPager.well_formed (RZ a qubit p) /\ QPager.well_formed (RT a qubit p).
Proof.
  intros Hwf Hrgp Hq RZ RT Exp ExpZ.
  assert (Hhalf : forall x y : R,
            QInterface.half_of (x + y)%R =
            (QInterface.half_of x + QInterface.half_of y)%R).
  { intros x y. unfold QInterface.half_of. cbn. lra. }
  assert (Hzero : QInterface.half_of 0%R = 0%R).
  { unfold QInterface.half_of. cbn. lra. }
  subst RZ RT Exp ExpZ.
  unfold QInterface.RZ, QInterface.RT, QInterface.Exp, QInterface.ExpZ. cbv zeta.
  split_and!.
  - destruct (pager_phase_well_formed p
                (Complex (r_cos (QInterface.half_of a)) (- r_sin (QInterface.half_of a))%r1)
                (Complex (r_cos (QInterface.half_of a)) (r_sin (QInterface.half_of a)))
                qubit Hwf Hrgp Hq) as (Hw1 & Hr1 & Hq1).
    rewrite !pager_phase_gate by (rewrite ?Hq1; done).
    rewrite apply_phase_spec_compose. f_equal.
    + rewrite Hhalf. cbn. unfold zmul. cbn. rewrite cos_plus, sin_plus. f_equal; lra.
    + rewrite Hhalf. cbn. unfold zmul. cbn. rewrite cos_plus, sin_plus. f_equal; lra.
  - destruct (pager_phase_well_formed p (Complex ONE_R1 ZERO_R1)
                (Complex (r_cos (QInterface.half_of a)) (r_sin (QInterface.half_of a)))
                qubit Hwf Hrgp Hq) as (Hw1 & Hr1 & Hq1).
    rewrite !pager_phase_gate by (rewrite ?Hq1; done).
    rewrite apply_phase_spec_compose. f_equal.
    + unfold zmul. cbn. f_equal; lra.
    + rewrite Hhalf. cbn. unfold zmul. cbn. rewrite cos_plus, sin_plus. f_equal; lra.
  - destruct (pager_phase_well_formed p (Complex (r_cos a) (r_sin a))
                (Complex (r_cos a) (r_sin a)) qubit Hwf Hrgp Hq) as (Hw1 & Hr1 & Hq1).
    rewrite !pager_phase_gate by (rewrite ?Hq1; done).
    rewrite apply_phase_spec_compose. f_equal.
    + cbn. unfold zmul. cbn. rewrite cos_plus, sin_plus. f_equal; lra.
    + cbn. unfold zmul. cbn. rewrite cos_plus, sin_plus. f_equal; lra.
  - destruct (pager_phase_well_formed p (Complex (r_cos a) (r_sin a))
                (cneg (Complex (r_cos a) (r_sin a))) qubit Hwf Hrgp Hq) as (Hw1 & Hr1 & Hq1).
    rewrite !pager_phase_gate by (rewrite ?Hq1; done).
    rewrite apply_phase_spec_compose. f_equal.
    + cbn. unfold zmul. cbn. rewrite cos_plus, sin_plus. f_equal; lra.
    + cbn. unfold zmul, cneg. cbn. rewrite cos_plus, sin_plus. f_equal; lra.
  - rewrite pager_phase_gate by done. rewrite Hzero. cbn.
    rewrite cos_0, sin_0, Ropp_0. apply apply_phase_spec_one.
  - rewrite pager_phase_gate by done. rewrite Hzero. cbn.
    rewrite cos_0, sin_0. apply apply_phase_spec_one.
  - by apply pager_phase_well_formed.
  - by apply pager_phase_well_formed.
Qed.

End PagerRotationsReal.

(** * The theorems at concrete engines *)

(** Closed goals on integers. *)
Ltac closed_Z := first [lia | reflexivity | vm_compute; first [reflexivity | discriminate]].

(** ** On IEEE binary64 numbers *)

Section DoubleExamples.
#[local] Existing Instance Real1_double.

Ltac float_neq H :=
  apply (f_equal Prim2SF) in H; vm_compute in H; discriminate H.

Definition fc (re im : float) : complex := Complex re im.

(** A one-qubit CPU engine left unnormalised, as a collapse leaves it: the
    amplitude of |0> and the running norm are both 1/2. And one in |0>. *)
Definition denorm_a : QEngineCPU.t := QEngineCPU.Build 1 2 0.5%float [fc 0.5 0; fc 0 0].
Definition unit_b : QEngineCPU.t := QEngineCPU.Build 1 2 1%float [fc 1 0; fc 0 0].

(** A two-qubit OpenCL engine in |01>, on a device with 3 work items. *)
Definition ocl_e : QEngineOCL.t := QEngineOCL.Build 2 4 1%float [fc 0 0; fc 1 0; fc 0 0; fc 0 0] 3.

Lemma INC_INC_neg_identity_witness :
  (forall i, 0 <= i < 4 ->
     QEngineOCL.stateVec (QEngineOCL.INC 3 0 2 ocl_e) !! Z.to_nat (add_to_register 0 2 3 i) =
     QEngineOCL.stateVec ocl_e !! Z.to_nat i) /\
  QEngineOCL.INC (cap_neg 3) 0 2 (QEngineOCL.INC 3 0 2 ocl_e) = ocl_e.
Proof.
  apply (INC_INC_neg_identity ocl_e 3 0 2).
  - unfold QEngineOCL.well_formed. simpl. split_and!; closed_Z.
  - split; [lia|reflexivity].
  - lia.
  - lia.
  - simpl. lia.
Defined.

(** [INC(3)] on |01> of a two-qubit register gives |00>. *)
Example INC_3_on_1 :
  QEngineOCL.stateVec (QEngineOCL.INC 3 0 2 ocl_e) = [fc 1 0; fc 0 0; fc 0 0; fc 0 0].
Proof. vm_compute. reflexivity. Qed.

(** [Cohere] with an engine whose running norm is 1/2 and whose first
    amplitude is 1/2: the first amplitude of the result is 1, not the
    product of the first amplitudes the two engines came with. *)
Lemma Cohere_renormalizes_operand :
  QEngineCPU.stateVec (QEngineCPU.Cohere [] denorm_a unit_b).1.2 !! 0%nat <>
  Some (zmul (QEngineCPU.stateVec denorm_a !!! 0%nat) (QEngineCPU.stateVec unit_b !!! 0%nat)).
Proof.
  vm_compute. intros [= H]; float_neq H.
Qed.

Lemma Cohere_amplitudes_witness :
  QEngineCPU.stateVec (QEngineCPU.Cohere [] denorm_a unit_b).1.2 !! 0%nat = Some (fc 1 0) /\
  QEngineCPU.stateVec (QEngineCPU.Cohere [] denorm_a unit_b).1.2 !! 2%nat = Some (fc 0 0).
Proof.
  assert (QEngineCPU.well_formed denorm_a) as Ha.
  { unfold QEngineCPU.well_formed. simpl. split_and!; closed_Z. }
  assert (QEngineCPU.well_formed unit_b) as Hb.
  { unfold QEngineCPU.well_formed. simpl. split_and!; closed_Z. }
  assert (QEngineCPU.qubitCount denorm_a + QEngineCPU.qubitCount unit_b < bitsInInt - 1) as Hab.
  { closed_Z. }
  pose proof (Cohere_amplitudes [] denorm_a unit_b Ha Hb Hab) as H.
  cbv zeta in H. destruct H as (_ & _ & _ & _ & H).
  split.
  - destruct (H 0 ltac:(simpl; lia)) as [H0 _].
    change (Z.to_nat 0) with 0%nat in H0. rewrite H0. vm_compute. reflexivity.
  - destruct (H 2 ltac:(simpl; lia)) as [H2 _].
    change (Z.to_nat 2) with 2%nat in H2. rewrite H2. vm_compute. reflexivity.
Defined.

(** An engine with running norm 2 whose first amplitude is 2^-30: the
    quotient 2^-31 has a squared magnitude below [min_norm] and is set to
    zero, the second amplitude becomes 1, and [Prob(0)] is read from that
    state. *)
Definition denorm_c : QEngineCPU.t :=
  QEngineCPU.Build 1 2 2%float [fc 0x1p-30 0; fc 2 0].

Lemma Prob_ProbAll_normalize_first_witness :
  let after := (QEngineCPU.Prob 0 denorm_c).2 in
  QEngineCPU.runningNorm after = 1%float /\
  QEngineCPU.stateVec after !! 0%nat = Some (fc 0 0) /\
  QEngineCPU.stateVec after !! 1%nat = Some (fc 1 0) /\
  (QEngineCPU.ProbAll 1 denorm_c).2 = after /\
  (QEngineCPU.Prob 0 denorm_c).1 = 1%float /\
  (QEngineCPU.ProbAll 1 denorm_c).1 = 1%float.
Proof.
  pose proof (Prob_ProbAll_normalize_first denorm_c 0 1 eq_refl ltac:(unfold bitsInInt; lia)
                ltac:(simpl; lia)) as H.
  cbv zeta in H. destruct H as (H1 & _ & H3 & H4 & H5).
  destruct (H1 eq_refl) as (Hn & _ & _ & _ & Hamp).
  cbv zeta. split_and!.
  - exact Hn.
  - rewrite (Hamp 0%nat (fc 0x1p-30 0) eq_refl). vm_compute. reflexivity.
  - rewrite (Hamp 1%nat (fc 2 0) eq_refl). vm_compute. reflexivity.
  - exact H3.
  - rewrite H4. vm_compute. reflexivity.
  - rewrite H5. vm_compute. reflexivity.
Defined.

(** *** The pager's anti-diagonal gate with [topRight = 1], [bottomLeft = -1] *)

(** Two qubits in |00>, paged one qubit a page and un-paged. *)
Definition page (stateVec : list complex) : QEngineOCL.t :=
  QEngineOCL.Build 1 2 1%float stateVec 1.
Definition pager_00 : QPager.t :=
  QPager.Build 2 1 2 2 false [page [fc 1 0; fc 0 0]; page [fc 0 0; fc 0 0]].
Definition engine_00 : QEngineOCL.t :=
  QEngineOCL.Build 2 4 1%float [fc 1 0; fc 0 0; fc 0 0; fc 0 0] 1.

(** C7 (where the code departs from the claim). On qubit 1, the qubit
    across the two pages, the gate with [topRight = 1] and [bottomLeft = -1] takes
    |00> to -|10>: so does the engine's gate on the un-paged state, and so
    does the gate as the spec words it. The pager returns from its first
    test and leaves |00>. *)
Theorem QPager_ApplySingleInvert_early_return :
  QPager.well_formed pager_00 /\
  QPager.GetQuantumState pager_00 = QEngineOCL.stateVec engine_00 /\
  QPager.ApplySingleInvert ONE_CMPLX (cneg ONE_CMPLX) 1 pager_00 = pager_00 /\
  QEngineOCL.stateVec (QEngineOCL.ApplySingleInvert ONE_CMPLX (cneg ONE_CMPLX) 1 engine_00) =
    [fc 0 0; fc 0 0; fc (-1) (-0); fc 0 (-0)] /\
  apply_invert_spec ONE_CMPLX (cneg ONE_CMPLX) 1 (QEngineOCL.stateVec engine_00) =
    [fc 0 0; fc 0 0; fc (-1) (-0); fc 0 (-0)].
Proof.
  split_and!.
  - unfold QPager.well_formed. cbn. split_and!; try closed_Z.
    repeat constructor; closed_Z.
  - reflexivity.
  - vm_compute. reflexivity.
  - vm_compute. reflexivity.
  - vm_compute. reflexivity.
Qed.

(** With [topRight = -1] and [bottomLeft = 1] the first test fails and the
    pager does swap the pages: it agrees with the engine's gate. *)
Example QPager_ApplySingleInvert_swaps :
  QPager.GetQuantumState (QPager.ApplySingleInvert (cneg ONE_CMPLX) ONE_CMPLX 1 pager_00) =
    [fc 0 (-0); fc 0 (-0); fc 1 0; fc 0 0] /\
  QEngineOCL.stateVec (QEngineOCL.ApplySingleInvert (cneg ONE_CMPLX) ONE_CMPLX 1 engine_00) =
    [fc 0 (-0); fc 0 (-0); fc 1 0; fc 0 0].
Proof. split; vm_compute; reflexivity. Qed.

(** The [compose] kernel on two one-qubit vectors, run by two work items. *)
Lemma compose_amplitudes_witness :
  Kernel.compose 2 [fc 0.5 0; fc 0 0.5] [fc 0 1; fc 2 0] [4; 1; 1; 2]
    [fc 0 0; fc 0 0; fc 0 0; fc 0 0] !! 3%nat =
  Some (zmul (fc 0 0.5) (fc 2 0)).
Proof.
  apply (compose_amplitudes 2 [fc 0.5 0; fc 0 0.5] [fc 0 1; fc 2 0]
           [fc 0 0; fc 0 0; fc 0 0; fc 0 0] 4 1 1 2 3); [lia|lia|simpl; lia].
Defined.

End DoubleExamples.

(** ** On the real numbers *)

Section RealExamples.
#[local] Existing Instance Real1_R.
#[local] Existing Instance Libm_R.
#[local] Existing Instance TrackedRegister.stabilizer_ops.
#[local] Existing Instance TrackedRegister.engine_ops.
#[local] Existing Instance TrackedRegister.header.

Lemma r_eqb_refl (x : R) : r_eqb x x = true.
Proof. cbn. by destruct (Req_dec_T x x). Qed.

Lemma r_eqb_1_0 : r_eqb 1%R 0%R = false.
Proof. cbn. destruct (Req_dec_T 1 0); [lra|done]. Qed.

Lemma r_eqb_0_1 : r_eqb 0%R 1%R = false.
Proof. cbn. destruct (Req_dec_T 0 1); [lra|done]. Qed.

Lemma Ratan2_0_pos x : (0 < x)%R -> Ratan2 0 x = 0%R.
Proof.
  intros Hx. unfold Ratan2. destruct (Rlt_dec 0 x); [|done].
  unfold Rdiv. by rewrite Rmult_0_l, atan_0.
Qed.

Lemma Ratan2_0_0 : Ratan2 0 0 = 0%R.
Proof.
  unfold Ratan2. repeat destruct (Rlt_dec _ _); try lra.
Qed.

Lemma arg_pos_real (x : R) : (0 < x)%R -> arg (Complex x 0%R) = 0%R.
Proof.
  intros Hx. unfold arg. cbn.
  destruct (Req_dec_T x 0); [lra|]. cbn. by apply Ratan2_0_pos.
Qed.

Lemma arg_zero : arg ZERO_CMPLX = 0%R.
Proof. unfold arg. cbn. by destruct (Req_dec_T 0 0). Qed.

(** Two qubits: qubit 0 in (3/5)|0> + (4/5)i|1>, qubit 1 in |0>. *)
Definition separable_s : QEngineCPU.t :=
  QEngineCPU.Build 2 4 1%R [Complex (3 / 5)%R 0%R; Complex 0%R (4 / 5)%R; ZERO_CMPLX; ZERO_CMPLX].
Definition destination_0 : QEngineCPU.t := QEngineCPU.Build 1 2 1%R [ONE_CMPLX; ZERO_CMPLX].

(** C1 (where the code departs from the claim). The high qubit of
    [separable_s] is separable: the state is the product of qubit 0 in (3/5)|0> + (4/5)i|1>
    and qubit 1 in |0>. [Decohere] of that qubit into [destination_0] and
    [Cohere] of the destination back onto the remainder give a state vector
    other than the one of [separable_s], whatever the memory the arrays
    were allocated in holds. *)
Theorem Decohere_Cohere_round_trip_fails
    (mem mem' : list complex) (partStateAngle0 remainderStateAngle0 : list real1) :
  let remainder :=
    (QEngineCPU.Decohere mem partStateAngle0 remainderStateAngle0 1 1
       separable_s destination_0).1 in
  let destination :=
    (QEngineCPU.Decohere mem partStateAngle0 remainderStateAngle0 1 1
       separable_s destination_0).2 in
  QEngineCPU.stateVec (QEngineCPU.Cohere mem' remainder destination).1.2 <>
  QEngineCPU.stateVec separable_s.
Proof.
  cbv zeta. unfold separable_s, destination_0.
  rewrite Decohere_high_qubit by apply r_eqb_refl.
  cbn [fst snd].
  rewrite Cohere_one_qubit_each by apply r_eqb_refl.
  cbn [fst snd QEngineCPU.stateVec].
  set (g := resize 2 ZERO_R1 partStateAngle0 !!! 0%nat).
  rewrite arg_zero, arg_pos_real by lra.
  unfold QEngineCPU.from_polar, polar_unit, real_cmul, zmul, ZERO_CMPLX. cbn.
  rewrite cos_0, sin_0.
  intros [= H0r H0i H1r H1i _ _ _ _].
  match type of H0r with (?A * 1 * ?X - _ = _)%R => set (a := A) in *; set (x := X) in * end.
  match type of H1i with (?B * 1 * ?Y + _ = _)%R => set (b := B) in *; set (y := Y) in * end.
  assert (a * x = 3 / 5)%R as Hax by lra.
  assert (a * y = 0)%R as Hay by lra.
  assert (b * x = 0)%R as Hbx by lra.
  assert (b * y = 4 / 5)%R as Hby by lra.
  assert ((a * x) * (b * y) = (a * y) * (b * x))%R as Hc by ring.
  rewrite Hax, Hay, Hbx, Hby in Hc. lra.
Qed.


(** A count of 257 arrives as 1 in the constructor's [bitLenInt], and an
    engine of one qubit is built. *)
Example construct_count_wraps :
  QEngineCPU.construct [] 0%R 257 0 ONE_CMPLX =
  Ok (QEngineCPU.Build 1 2 1%R [ONE_CMPLX; ZERO_CMPLX]).
Proof.
  unfold QEngineCPU.construct. cbn.
  assert (ceqb ONE_CMPLX CMPLX_DEFAULT_ARG = false) as ->; [|reflexivity].
  unfold ceqb. cbn. destruct (Req_dec_T 1 (-999)); [lra|done].
Qed.

(** A one-qubit engine in |0>. *)
Definition ocl_0 : QEngineOCL.t := QEngineOCL.Build 1 2 1%R [ONE_CMPLX; ZERO_CMPLX] 1.
Definition cpu_0 : QEngineCPU.t := QEngineCPU.Build 1 2 1%R [ONE_CMPLX; ZERO_CMPLX].


Abbreviation hybrid := (QSH.t TrackedRegister.t TrackedRegister.t).

(** Three qubits in |010> on the stabilizer. *)
Definition h_010 : hybrid :=
  QSH.Build 3 (Some (TrackedRegister.of_perm 3 2)) None [None; None; None] [false; false; false].

(** Two qubits in |01>, a destination for a part of a register. *)
Definition h_01 : hybrid :=
  QSH.Build 2 (Some (TrackedRegister.of_perm 2 1)) None [None; None] [false; false].

(** One qubit in |0>. *)
Definition h_0 : hybrid :=
  QSH.Build 1 (Some (TrackedRegister.of_perm 1 0)) None [None] [false].



(** C10 (where the code departs from the claim). [Dispose] of the whole
    register of a one-qubit CPU engine in |0> leaves one qubit, and as its
    state vector the block the allocator hands out, not |0>: a block of
    zeros gives the zero vector, a block that holds |1> gives |1>. *)
Theorem Dispose_whole_register_state :
  QEngineCPU.Dispose [] [] 0 1 cpu_0 =
    QEngineCPU.Build 1 2 1%R [ZERO_CMPLX; ZERO_CMPLX] /\
  QEngineCPU.Dispose [ZERO_CMPLX; ONE_CMPLX] [] 0 1 cpu_0 =
    QEngineCPU.Build 1 2 1%R [ZERO_CMPLX; ONE_CMPLX].
Proof.
  assert (QEngineCPU.normalize_if_needed cpu_0 = cpu_0) as Hn.
  { unfold QEngineCPU.normalize_if_needed. cbn [QEngineCPU.runningNorm cpu_0].
    by rewrite r_eqb_refl. }
  split; unfold QEngineCPU.Dispose; cbn [Z.eqb]; rewrite Hn; reflexivity.
Qed.

(** Two qubits in |00>, paged one qubit a page. *)
Definition page_R (stateVec : list complex) : QEngineOCL.t :=
  QEngineOCL.Build 1 2 1%R stateVec 1.
Definition pager_R : QPager.t :=
  QPager.Build 2 1 2 2 false [page_R [ONE_CMPLX; ZERO_CMPLX]; page_R [ZERO_CMPLX; ZERO_CMPLX]].

(** The X gate on the qubit across the two pages. *)
Lemma QPager_ApplySingleInvert_refines_gate_witness :
  QPager.GetQuantumState (QPager.ApplySingleInvert ONE_CMPLX ONE_CMPLX 1 pager_R) =
  apply_invert_spec ONE_CMPLX ONE_CMPLX 1 (QPager.GetQuantumState pager_R).
Proof.
  assert (QPager.well_formed pager_R) as Hwf.
  { unfold QPager.well_formed. cbn. split_and!; try closed_Z.
    repeat constructor; closed_Z. }
  assert (ceqb ONE_CMPLX (cneg ONE_CMPLX) && ceqb ONE_CMPLX ONE_CMPLX = false) as Hguard.
  { unfold ceqb. cbn. destruct (Req_dec_T 1 (- (1))); [lra|done]. }
  apply (QPager_ApplySingleInvert_refines_gate pager_R ONE_CMPLX ONE_CMPLX 1 Hwf eq_refl).
  - cbn. lia.
  - exact Hguard.
Defined.

End RealExamples.

(** * The theorems on buffers and arithmetic at concrete inputs *)

Section DoubleExamplesArith.
#[local] Existing Instance Real1_double.

Lemma shufflebuffers_exchanges_halves_witness :
  let h := Z.to_nat 1 in
  let r := KernelBuffer.shufflebuffers 3 [fc 1 0; fc 2 0] [fc 3 0; fc 4 0] [1] in
  r = (take h [fc 1 0; fc 2 0] ++ take h [fc 3 0; fc 4 0],
       drop h [fc 1 0; fc 2 0] ++ drop h [fc 3 0; fc 4 0]) /\
  KernelBuffer.shufflebuffers 3 r.1 r.2 [1] = ([fc 1 0; fc 2 0], [fc 3 0; fc 4 0]).
Proof.
  apply (shufflebuffers_exchanges_halves 3 [fc 1 0; fc 2 0] [fc 3 0; fc 4 0] 1);
    closed_Z.
Defined.

Lemma copypage_clearbuffer_window_witness :
  KernelBuffer.copypage 2 [fc 1 0; fc 2 0; fc 3 0; fc 4 0]
      [fc 5 0; fc 6 0; fc 7 0; fc 8 0] [1; 2; 2] =
    take (Z.to_nat 2) [fc 5 0; fc 6 0; fc 7 0; fc 8 0] ++
    take (Z.to_nat 2) (drop (Z.to_nat 1) [fc 1 0; fc 2 0; fc 3 0; fc 4 0]) ++
    drop (Z.to_nat (2 + 2)) [fc 5 0; fc 6 0; fc 7 0; fc 8 0] /\
  KernelBuffer.clearbuffer 2 [fc 5 0; fc 6 0; fc 7 0; fc 8 0] [2; 2] =
    take (Z.to_nat 2) [fc 5 0; fc 6 0; fc 7 0; fc 8 0] ++
    replicate (Z.to_nat 2) ZERO_CMPLX ++
    drop (Z.to_nat (2 + 2)) [fc 5 0; fc 6 0; fc 7 0; fc 8 0].
Proof.
  apply (copypage_clearbuffer_window 2 [fc 1 0; fc 2 0; fc 3 0; fc 4 0]
           [fc 5 0; fc 6 0; fc 7 0; fc 8 0] 1 2 2); try closed_Z; simpl; lia.
Defined.

Lemma QPager_SetQuantumState_GetQuantumState_witness :
  let p' := QuantumState.QPager_SetQuantumState [fc 0 0; fc 0 0; fc 0 0; fc 1 0] pager_00 in
  QPager.GetQuantumState p' = [fc 0 0; fc 0 0; fc 0 0; fc 1 0] /\
  QPager.well_formed p' /\
  Forall (λ page, QEngineOCL.runningNorm page = ONE_R1) (QPager.qPages p').
Proof.
  apply (QPager_SetQuantumState_GetQuantumState [fc 0 0; fc 0 0; fc 0 0; fc 1 0] pager_00).
  - unfold QPager.well_formed. cbn. split_and!; try closed_Z.
    repeat constructor; closed_Z.
  - reflexivity.
Defined.

(** A multi-device engine of two sub-engines. *)
Definition multi_2 : QEngineOCLMulti.t :=
  QEngineOCLMulti.Build 0 1 0 1 1 0 [engine_00; engine_00].

Lemma SetQubitCount_splits_evenly_witness :
  let e' := QEngineOCLMulti.SetQubitCount 16 3 multi_2 in
  QEngineOCLMulti.qubitCount e' = 3 /\ QEngineOCLMulti.maxQPower e' = 2 ^ 3 /\
  QEngineOCLMulti.subEngineCount e' = 2 ^ 1 /\ QEngineOCLMulti.subQubitCount e' = 3 - 1 /\
  QEngineOCLMulti.subMaxQPower e' = 2 ^ (3 - 1) /\
  QEngineOCLMulti.subEngineCount e' * QEngineOCLMulti.subMaxQPower e' =
    QEngineOCLMulti.maxQPower e' /\
  QEngineOCLMulti.subBufferSize e' = (16 * 2 ^ (3 - 1)) `div` 2 /\
  QEngineOCLMulti.substateEngines e' = QEngineOCLMulti.substateEngines multi_2.
Proof.
  apply (SetQubitCount_splits_evenly 16 3 1 multi_2); try closed_Z.
  split; closed_Z.
Defined.

Lemma ROL_rotates_register_witness :
  (forall i, 0 <= i < QEngineOCL.maxQPower ocl_e ->
     QEngineOCL.stateVec (OCLArith.ROL 1 0 2 ocl_e) !! Z.to_nat i =
     QEngineOCL.stateVec ocl_e !! Z.to_nat
       (with_register 0 2 (rotate_right 2 1 (register_value 0 2 i)) i)) /\
  (forall i, 0 <= i < QEngineOCL.maxQPower ocl_e ->
     QEngineOCL.stateVec (OCLArith.ROL 1 0 2 ocl_e) !! Z.to_nat
       (with_register 0 2 (rotate_left 2 1 (register_value 0 2 i)) i) =
     QEngineOCL.stateVec ocl_e !! Z.to_nat i) /\
  OCLArith.ROL (2 - 1) 0 2 (OCLArith.ROL 1 0 2 ocl_e) = ocl_e.
Proof.
  apply (ROL_rotates_register ocl_e 1 0 2).
  - unfold QEngineOCL.well_formed. simpl. split_and!; closed_Z.
  - lia.
  - lia.
  - simpl. lia.
Defined.

(** [ROL(1)] on |01> of a two-qubit register gives |10>. *)
Example ROL_1_on_1 :
  QEngineOCL.stateVec (OCLArith.ROL 1 0 2 ocl_e) = [fc 0 0; fc 0 0; fc 1 0; fc 0 0].
Proof. vm_compute. reflexivity. Qed.

(** Three qubits in |011>: a two-qubit register that holds 3, and a carry
    qubit that is clear. *)
Definition ocl_3 : QEngineOCL.t :=
  QEngineOCL.Build 3 8 1%float
    [fc 0 0; fc 0 0; fc 0 0; fc 1 0; fc 0 0; fc 0 0; fc 0 0; fc 0 0] 3.

Lemma INTC_adds_with_carry_witness :
  (forall i, 0 <= i < QEngineOCL.maxQPower ocl_3 -> Z.testbit i 2 = false ->
     QEngineOCL.stateVec (OCLArith.INTC OCLArith.OCL_API_INCC 2 0 2 2 ocl_3)
       !! Z.to_nat (add_with_carry 0 2 2 2 i) =
     QEngineOCL.stateVec ocl_3 !! Z.to_nat i) /\
  (forall e2 : QEngineOCL.t,
     QEngineOCL.maxQPower e2 = QEngineOCL.maxQPower ocl_3 ->
     QEngineOCL.nrmGroupCount e2 = QEngineOCL.nrmGroupCount ocl_3 ->
     (forall i, 0 <= i < QEngineOCL.maxQPower ocl_3 -> Z.testbit i 2 = false ->
        QEngineOCL.stateVec e2 !!! Z.to_nat i = QEngineOCL.stateVec ocl_3 !!! Z.to_nat i) ->
     QEngineOCL.stateVec (OCLArith.INTC OCLArith.OCL_API_INCC 2 0 2 2 e2) =
     QEngineOCL.stateVec (OCLArith.INTC OCLArith.OCL_API_INCC 2 0 2 2 ocl_3)).
Proof.
  apply (INTC_adds_with_carry ocl_3 2 0 2 2).
  - unfold QEngineOCL.well_formed. simpl. split_and!; closed_Z.
  - lia.
  - lia.
  - simpl. lia.
  - simpl. lia.
  - lia.
  - split; closed_Z.
Defined.

(** 3 + 2 in a two-qubit register: the register holds 1 and the carry is
    set. *)
Example INTC_2_on_3 :
  QEngineOCL.stateVec (OCLArith.INTC OCLArith.OCL_API_INCC 2 0 2 2 ocl_3) =
  [fc 0 0; fc 0 0; fc 0 0; fc 0 0; fc 0 0; fc 1 0; fc 0 0; fc 0 0].
Proof. vm_compute. reflexivity. Qed.

(** Four qubits in |0011>: the in-out register (qubits 0 and 1) holds 3, the
    carry register (qubits 2 and 3) is zero. *)
Definition ocl_4 : QEngineOCL.t :=
  QEngineOCL.Build 4 16 1%float
    [fc 0 0; fc 0 0; fc 0 0; fc 1 0; fc 0 0; fc 0 0; fc 0 0; fc 0 0;
     fc 0 0; fc 0 0; fc 0 0; fc 0 0; fc 0 0; fc 0 0; fc 0 0; fc 0 0] 3.

Lemma MUL_DIV_round_trip_witness :
  (forall i, 0 <= i < QEngineOCL.maxQPower ocl_4 -> register_value 2 2 i = 0 ->
     QEngineOCL.stateVec (OCLArith.MULx OCLArith.OCL_API_MUL 3 0 2 2 ocl_4)
       !! Z.to_nat (mul_index 0 2 2 3 i) =
     QEngineOCL.stateVec ocl_4 !! Z.to_nat i /\
     QEngineOCL.stateVec (OCLArith.MULx OCLArith.OCL_API_DIV 3 0 2 2 ocl_4) !! Z.to_nat i =
     QEngineOCL.stateVec ocl_4 !! Z.to_nat (mul_index 0 2 2 3 i)) /\
  ((forall i, 0 <= i < QEngineOCL.maxQPower ocl_4 -> register_value 2 2 i <> 0 ->
      QEngineOCL.stateVec ocl_4 !! Z.to_nat i = Some ZERO_CMPLX) ->
   OCLArith.MULx OCLArith.OCL_API_DIV 3 0 2 2
     (OCLArith.MULx OCLArith.OCL_API_MUL 3 0 2 2 ocl_4) = ocl_4).
Proof.
  apply (MUL_DIV_round_trip ocl_4 3 0 2 2).
  - unfold QEngineOCL.well_formed. simpl. split_and!; closed_Z.
  - lia.
  - lia.
  - lia.
  - simpl. lia.
  - simpl. lia.
  - lia.
  - split; closed_Z.
Defined.

(** 3 * 3 = 9: the in-out register holds 1 and the carry register 2. *)
Example MUL_3_on_3 :
  QEngineOCL.stateVec (OCLArith.MULx OCLArith.OCL_API_MUL 3 0 2 2 ocl_4) !! 9%nat =
  Some (fc 1 0).
Proof. vm_compute. reflexivity. Qed.

End DoubleExamplesArith.

Lemma log2_cut_to_nine_bits_witness :
  QEngineOCLMulti.log2 600 = Z.log2 (600 mod 2 ^ (bitsInByte + 1)) /\
  (600 < 2 ^ (bitsInByte + 1) -> QEngineOCLMulti.log2 600 = Z.log2 600) /\
  (600 mod 2 ^ (bitsInByte + 1) = 0 -> QEngineOCLMulti.log2 600 = 0).
Proof. apply (log2_cut_to_nine_bits 600). lia. Defined.

(** ** Work-group sizes *)

Lemma FixWorkItemCount_power_of_two_witness :
  QEngineOCL.FixWorkItemCount 8 5 = (if 8 <? 5 then 8 else 2 ^ Z.log2 5) /\
  QEngineOCL.double_until (Z.to_nat bitsInCap) 2 5 < 2 ^ bitsInCap.
Proof. apply (FixWorkItemCount_power_of_two 8 5). split; [lia|reflexivity]. Defined.

Lemma FixGroupSize_divides_witness :
  let start := Z.max 1 (Z.min 5 (12 `div` 2)) in
  let r := WorkGroup.FixGroupSize 2 12 5 in
  start <= r <= 12 /\ (12 `div` r) * r = 12 /\
  (forall d, start <= d < r -> ~ (d | 12)) /\
  (forall passes, (Z.to_nat 12 <= passes)%nat -> WorkGroup.next_divisor passes 12 start = r) /\
  (forall k, 0 <= k -> 12 = 2 ^ k -> exists j, 0 <= j <= k /\ r = 2 ^ j).
Proof. apply (FixGroupSize_divides 2 12 5); lia. Defined.

(** * The theorems on the gate kernels at concrete inputs *)

Section DoubleExamplesKernels.
#[local] Existing Instance Real1_double.
Import KernelGates KernelProject KernelCompose.

(** A two-qubit state vector and the matrix of a gate, with [nrm = 1]. *)
Definition sv_4 : list complex := [fc 0.5 0; fc 0 0.5; fc (-0.5) 0; fc 0 (-0.5)].
Definition mtrx_9 : list real1 :=
  [0.5; 0; 0.5; 0; 0.5; 0; (-0.5); 0; 1]%float.

Lemma apply2x2single_applies_matrix_witness :
  length (apply2x2single 3 sv_4 mtrx_9 (single_args 0 2)) = length sv_4 /\
  forall g, 0 <= g < 2 ^ 2 ->
    let r := zmatrixmul (mtrx_9 !!! 8%nat) mtrx_9
               (sv_4 !!! Z.to_nat (Z.clearbit g 0), sv_4 !!! Z.to_nat (Z.setbit g 0)) in
    apply2x2single 3 sv_4 mtrx_9 (single_args 0 2) !! Z.to_nat g =
      Some (if Z.testbit g 0 then r.2 else r.1).
Proof. apply (apply2x2single_applies_matrix 3 sv_4 mtrx_9 0 2); closed_Z. Defined.

Lemma xsingle_zsingle_pauli_witness :
  (forall g, 0 <= g < 2 ^ 2 ->
     xsingle 3 sv_4 (single_args 1 2) !! Z.to_nat g = sv_4 !! Z.to_nat (Z.lxor g (2 ^ 1))) /\
  xsingle 3 (xsingle 3 sv_4 (single_args 1 2)) (single_args 1 2) = sv_4 /\
  (forall g, 0 <= g < 2 ^ 2 ->
     zsingle 3 sv_4 (single_args 1 2) !! Z.to_nat g =
     Some (if Z.testbit g 1 then cneg (sv_4 !!! Z.to_nat g) else sv_4 !!! Z.to_nat g)).
Proof. apply (xsingle_zsingle_pauli 3 sv_4 1 2); closed_Z. Defined.

(** [xsingle] on qubit 1 exchanges the two halves of the vector. *)
Example xsingle_on_qubit_1 :
  xsingle 3 sv_4 (single_args 1 2) = [fc (-0.5) 0; fc 0 (-0.5); fc 0.5 0; fc 0 0.5].
Proof. vm_compute. reflexivity. Qed.

Lemma wide_kernels_agree_witness :
  (forall cmplxPtr,
     apply2x2singlewide (2 ^ (2 - 1)) sv_4 cmplxPtr (single_wide_args 1) =
     apply2x2single 3 sv_4 cmplxPtr (single_args 1 2)) /\
  xsinglewide (2 ^ (2 - 1)) sv_4 (single_wide_args 1) = xsingle 3 sv_4 (single_args 1 2) /\
  zsinglewide (2 ^ (2 - 1)) sv_4 (single_wide_args 1) = zsingle 3 sv_4 (single_args 1 2) /\
  (forall cmplxPtr,
     phasesinglewide (2 ^ (2 - 1)) sv_4 cmplxPtr (single_wide_args 1) =
     Kernel.phasesingle 3 sv_4 cmplxPtr (single_args 1 2)) /\
  (forall cmplxPtr,
     invertsinglewide (2 ^ (2 - 1)) sv_4 cmplxPtr (single_wide_args 1) =
     Kernel.invertsingle 3 sv_4 cmplxPtr (single_args 1 2)).
Proof. apply (wide_kernels_agree 3 sv_4 1 2); closed_Z. Defined.

Lemma applym_projects_witness :
  let savePower := if true then 2 ^ 1 else 0 in
  (forall g, 0 <= g < 2 ^ 2 ->
     applym 3 sv_4 [2 ^ (2 - 1); 2 ^ 1; savePower] [fc 2 0] !! Z.to_nat g =
     Some (if Bool.eqb (Z.testbit g 1) true
           then zmul ([fc 2 0] !!! 0%nat) (sv_4 !!! Z.to_nat g) else ZERO_CMPLX)) /\
  applym 3 sv_4 [2 ^ (2 - 1); 2 ^ 1; savePower] [fc 2 0] =
  applymreg 2 sv_4 [2 ^ 2; 2 ^ 1; savePower] [fc 2 0].
Proof. apply (applym_projects 3 2 sv_4 [fc 2 0] 1 2 true); closed_Z. Defined.

(** The measurement of qubit 1 with result 1 and [nrm = 2]. *)
Example applym_result_1 :
  applym 3 sv_4 [2; 2; 2] [fc 2 0] = [fc 0 0; fc 0 0; fc (-1) 0; fc 0 (-1)].
Proof. vm_compute. reflexivity. Qed.

Lemma PhaseFlipIfLess_flips_witness :
  (forall N maxI (sv : list complex) g, 0 < N -> 0 <= g ->
     phaseflipifless N sv [maxI; regMask_of 0 2; 2; 0] !! Z.to_nat g =
     flip_if ((g <? maxI) && (register_value 0 2 g <? 2)) <$> sv !! Z.to_nat g) /\
  (forall g, 0 <= g < QEngineOCL.maxQPower ocl_3 ->
     QEngineOCL.stateVec (OCLPhaseFlip.CPhaseFlipIfLess 2 0 2 2 ocl_3) !! Z.to_nat g =
     Some (flip_if (Z.testbit g 2 && (register_value 0 2 g <? 2))
             (QEngineOCL.stateVec ocl_3 !!! Z.to_nat g))) /\
  List.length (QEngineOCL.stateVec (OCLPhaseFlip.CPhaseFlipIfLess 2 0 2 2 ocl_3)) =
    List.length (QEngineOCL.stateVec ocl_3).
Proof.
  apply (PhaseFlipIfLess_flips ocl_3 2 0 2 2).
  - unfold QEngineOCL.well_formed. simpl. split_and!; closed_Z.
  - lia.
  - lia.
  - simpl. lia.
  - simpl. lia.
Defined.

Definition sv_a : list complex := [fc 0.5 0; fc 0 0.5].
Definition sv_b : list complex := [fc 0 1; fc 2 0].
Definition zeros_4 : list complex := [fc 0 0; fc 0 0; fc 0 0; fc 0 0].

Lemma composemid_inserts_register_witness :
  (forall i, 0 <= i < 2 ^ (1 + 1) ->
     composemid 2 sv_a sv_b (composemid_args 1 1 0) zeros_4 !! Z.to_nat i =
     Some (zmul (sv_a !!! Z.to_nat (remove_bits 0 1 i))
                (sv_b !!! Z.to_nat (register_value 0 1 i)))) /\
  composemid 2 sv_a sv_b (composemid_args 1 1 1) zeros_4 =
    Kernel.compose 3 sv_a sv_b (compose_args 1 1) zeros_4 /\
  composewide (2 ^ (1 + 1)) sv_a sv_b (compose_args 1 1) zeros_4 =
    Kernel.compose 3 sv_a sv_b (compose_args 1 1) zeros_4.
Proof. apply (composemid_inserts_register 2 3 sv_a sv_b zeros_4 1 1 0); closed_Z. Defined.

Lemma dispose_after_composemid_witness :
  let i := Z.lor (insert_zeros 0 1 1) (Z.shiftl 1 0) in
  (0 <= i < 2 ^ (1 + 1) /\ remove_bits 0 1 i = 1 /\ register_value 0 1 i = 1) /\
  (forall sv : list complex,
     dispose 3 sv (dispose_args (1 + 1) 0 1 1) [fc 0 0; fc 0 0] !! Z.to_nat 1 =
     Some (sv !!! Z.to_nat i)) /\
  dispose 3 (composemid 2 sv_a sv_b (composemid_args 1 1 0) zeros_4)
    (dispose_args (1 + 1) 0 1 1) [fc 0 0; fc 0 0] !! Z.to_nat 1 =
  Some (zmul (sv_a !!! Z.to_nat 1) (sv_b !!! Z.to_nat 1)).
Proof.
  apply (dispose_after_composemid 2 3 sv_a sv_b zeros_4 [fc 0 0; fc 0 0] 1 1 0 1);
    closed_Z.
Defined.

(** Two qubits under the mask 3: the indices 1 and 2 have odd parity, 0 and
    3 even parity. *)
Lemma uniformparityrz_kernels_by_parity_witness :
  Kernel.uniformparityrz 3 sv_4 [4; 3] [fc 0 1; fc 0 (-1)] =
    [zmul (fc 0.5 0) (fc 0 (-1)); zmul (fc 0 0.5) (fc 0 1);
     zmul (fc (-0.5) 0) (fc 0 1); zmul (fc 0 (-0.5)) (fc 0 (-1))] /\
  Kernel.uniformparityrznorm 3 sv_4 [4; 3] [fc 0 1; fc 0 (-1); fc 2 0] =
    [zmul (fc 2 0) (zmul (fc 0.5 0) (fc 0 (-1))); zmul (fc 2 0) (zmul (fc 0 0.5) (fc 0 1));
     zmul (fc 2 0) (zmul (fc (-0.5) 0) (fc 0 1));
     zmul (fc 2 0) (zmul (fc 0 (-0.5)) (fc 0 (-1)))].
Proof.
  destruct (uniformparityrz_kernels_by_parity 3 sv_4 4 3 (fc 0 1) (fc 0 (-1)) (fc 2 0))
    as [H1 H2]; [lia|split; [lia|discriminate]|lia|].
  rewrite H1, H2. split; reflexivity.
Defined.

End DoubleExamplesKernels.

Section RealExamplesKernels.
#[local] Existing Instance Real1_R.
Import KernelGates.

Lemma special_kernels_refine_apply2x2single_witness :
  Kernel.phasesingle 1 [ONE_CMPLX; I_CMPLX] [I_CMPLX; ZERO_CMPLX; ZERO_CMPLX; ONE_CMPLX]
      (single_args 0 1) =
    apply2x2single 2 [ONE_CMPLX; I_CMPLX] (mtrx_ptr I_CMPLX ZERO_CMPLX ZERO_CMPLX ONE_CMPLX)
      (single_args 0 1) /\
  Kernel.invertsingle 1 [ONE_CMPLX; I_CMPLX] [I_CMPLX; ZERO_CMPLX; ZERO_CMPLX; ONE_CMPLX]
      (single_args 0 1) =
    apply2x2single 2 [ONE_CMPLX; I_CMPLX] (mtrx_ptr ZERO_CMPLX ZERO_CMPLX ZERO_CMPLX ZERO_CMPLX)
      (single_args 0 1) /\
  xsingle 1 [ONE_CMPLX; I_CMPLX] (single_args 0 1) =
    apply2x2single 2 [ONE_CMPLX; I_CMPLX] (mtrx_ptr ZERO_CMPLX ONE_CMPLX ONE_CMPLX ZERO_CMPLX)
      (single_args 0 1) /\
  zsingle 1 [ONE_CMPLX; I_CMPLX] (single_args 0 1) =
    apply2x2single 2 [ONE_CMPLX; I_CMPLX]
      (mtrx_ptr ONE_CMPLX ZERO_CMPLX ZERO_CMPLX (cneg ONE_CMPLX)) (single_args 0 1).
Proof.
  apply (special_kernels_refine_apply2x2single 1 2 [ONE_CMPLX; I_CMPLX] 0 1
           I_CMPLX ZERO_CMPLX ZERO_CMPLX ONE_CMPLX); closed_Z.
Defined.

End RealExamplesKernels.

(** ** The pager's gates, [Cohere] of a vector and the controlled gates *)

Section DoubleExamplesPager.
#[local] Existing Instance Real1_double.

(** The Z gate and the X gate on qubit 0 of two qubits paged one qubit a
    page. *)
Lemma QPager_gate_within_pages_witness :
  QPager.GetQuantumState (QPager.ApplySinglePhase (fc 1 0) (fc (-1) 0) 0 pager_00) =
    apply_phase_spec (fc 1 0) (fc (-1) 0) 0 (QPager.GetQuantumState pager_00) /\
  QPager.GetQuantumState (QPager.ApplySingleInvert (fc 1 0) (fc 1 0) 0 pager_00) =
    apply_invert_spec (fc 1 0) (fc 1 0) 0 (QPager.GetQuantumState pager_00).
Proof.
  assert (QPager.well_formed pager_00) as Hwf.
  { unfold QPager.well_formed. cbn. split_and!; try closed_Z.
    repeat constructor; closed_Z. }
  assert (0 <= 0 < QPager.qubitsPerPage pager_00) as Ht by (cbn; lia).
  split.
  - apply (QPager_gate_within_pages pager_00 (fc 1 0) (fc (-1) 0) 0 Hwf Ht).
    vm_compute. reflexivity.
  - apply (QPager_gate_within_pages pager_00 (fc 1 0) (fc 1 0) 0 Hwf Ht).
    vm_compute. reflexivity.
Defined.

(** An engine of one qubit composed with a vector of two: the second of the
    vector comes with a running norm of 1/2. *)
Lemma Cohere_vector_is_Cohere_each_witness :
  CPUCohere.Cohere_vector [] unit_b [unit_b; denorm_a] =
    CPUCohere.Cohere_each [] (QEngineCPU.normalize_if_needed unit_b) [unit_b; denorm_a] /\
  (CPUCohere.Cohere_vector [] unit_b [unit_b; denorm_a]).1.1 = [1; 2] /\
  QEngineCPU.qubitCount (CPUCohere.Cohere_vector [] unit_b [unit_b; denorm_a]).1.2 = 3.
Proof.
  assert (QEngineCPU.well_formed unit_b) as Hb
    by (unfold QEngineCPU.well_formed; simpl; split_and!; closed_Z).
  assert (QEngineCPU.well_formed denorm_a) as Ha
    by (unfold QEngineCPU.well_formed; simpl; split_and!; closed_Z).
  destruct (Cohere_vector_is_Cohere_each [] [] unit_b [unit_b; denorm_a])
    as (H1 & _ & H3 & _ & H5 & _).
  - exact Hb.
  - constructor; [exact Hb|constructor; [exact Ha|constructor]].
  - cbn. closed_Z.
  - cbn. closed_Z.
  - reflexivity.
  - split_and!; [exact H1|exact H3|exact H5].
Defined.

End DoubleExamplesPager.

Section RealExamplesPager.
#[local] Existing Instance Real1_R.
#[local] Existing Instance Libm_R.
#[local] Existing Instance TrackedRegister.stabilizer_ops.
#[local] Existing Instance TrackedRegister.engine_ops.
#[local] Existing Instance TrackedRegister.header.

Lemma pager_R_well_formed : QPager.well_formed pager_R.
Proof.
  unfold QPager.well_formed. cbn. split_and!; try closed_Z.
  repeat constructor; closed_Z.
Defined.

(** The gate diag(1, i) on the qubit across the two pages. *)
Lemma QPager_ApplySinglePhase_refines_gate_witness :
  QPager.GetQuantumState (QPager.ApplySinglePhase ONE_CMPLX I_CMPLX 1 pager_R) =
  apply_phase_spec ONE_CMPLX I_CMPLX 1 (QPager.GetQuantumState pager_R).
Proof.
  apply (QPager_ApplySinglePhase_refines_gate pager_R ONE_CMPLX I_CMPLX 1
           pager_R_well_formed eq_refl).
  cbn. lia.
Defined.

(** Rotations by 1 and by 2 radians on the qubit across the two pages. *)
Lemma QPager_rotations_add_witness :
  QPager.GetQuantumState
    (QInterface.RZ QPager.ApplySinglePhase 2%R 1
       (QInterface.RZ QPager.ApplySinglePhase 1%R 1 pager_R)) =
  QPager.GetQuantumState (QInterface.RZ QPager.ApplySinglePhase (1 + 2)%R 1 pager_R) /\
  QPager.GetQuantumState
    (QInterface.ExpZ QPager.ApplySinglePhase 2%R 1
       (QInterface.ExpZ QPager.ApplySinglePhase 1%R 1 pager_R)) =
  QPager.GetQuantumState (QInterface.Exp QPager.ApplySinglePhase (1 + 2)%R 1 pager_R).
Proof.
  assert (0 <= 1 < QPager.qubitCount pager_R) as Hq by (cbn; lia).
  pose proof (QPager_rotations_add pager_R 1%R 2%R 1 pager_R_well_formed eq_refl Hq) as H.
  cbv zeta in H. destruct H as (H1 & _ & _ & H4 & _). split; [exact H1|exact H4].
Defined.

End RealExamplesPager.

(** ** Controls in a basis state, on amplitudes *)

Section ControlEliminationExamples.
#[local] Existing Instance Real1_R.
#[local] Existing Instance Libm_R.
#[local] Existing Instance DenseRegister.stabilizer_ops.
#[local] Existing Instance DenseRegister.engine_ops.
#[local] Existing Instance DenseRegister.header.

Definition rc (x : R) : complex := Complex x 0%R.

(** 3/5 |011> + 4/5 |111>: qubits 0 and 1 are |1>. *)
Definition psi_11 : list complex :=
  [rc 0; rc 0; rc 0; rc (3 / 5); rc 0; rc 0; rc 0; rc (4 / 5)].
(** 3/5 |001> + 4/5 |101>: qubit 0 is |1> and qubit 1 is |0>. *)
Definition psi_10 : list complex :=
  [rc 0; rc (3 / 5); rc 0; rc 0; rc 0; rc (4 / 5); rc 0; rc 0].

Definition dense (stateVec : list complex) : QSH.t DenseRegister.t DenseRegister.t :=
  QSH.Build 3 (Some stateVec) None [None; None; None] [false; false; false].

Ltac sum_of_norms :=
  cbv [total_spec prob_spec sum_where psi_11 psi_10 imap foldr rc norm real imag
       r_add r_mul Real1_R ZERO_R1 compose];
  repeat match goal with
         | |- context [Z.testbit ?a ?b] =>
             let v := eval vm_compute in (Z.testbit a b) in
             change (Z.testbit a b) with v
         end;
  cbv iota; lra.

Lemma total_psi_11 : total_spec psi_11 = 1%R.
Proof. sum_of_norms. Qed.
Lemma total_psi_10 : total_spec psi_10 = 1%R.
Proof. sum_of_norms. Qed.

(** With both controls |1> the gate acts as on the target alone: the two
    amplitudes change places under CCNOT, and CCZ negates the one with the
    target set. With the first control |1> and the second |0> the code
    calls CNOT on the second control, and the amplitudes stay. *)
Lemma CCNOT_CCZ_control_elimination_witness :
  DenseRegister.amplitudes (QSH.CCNOT 0 1 2 (dense psi_11)) =
    [rc 0; rc 0; rc 0; rc (4 / 5); rc 0; rc 0; rc 0; rc (3 / 5)] /\
  DenseRegister.amplitudes (QSH.CCZ 0 1 2 (dense psi_11)) =
    [rc 0; rc 0; rc 0; rc (3 / 5); rc 0; rc 0; cneg (rc 0); cneg (rc (4 / 5))] /\
  DenseRegister.amplitudes (QSH.CCNOT 0 1 2 (dense psi_10)) = psi_10 /\
  DenseRegister.amplitudes (QSH.CCZ 0 1 2 (dense psi_10)) = psi_10 /\
  QSH.CCNOT 0 1 2 (dense psi_10) = QSH.CNOT 1 2 (dense psi_10).
Proof.
  assert (prob_spec 0 psi_11 = 1%R) as Hp11.
  { sum_of_norms. }
  assert (prob_spec 0 psi_10 = 1%R) as Hp10.
  { sum_of_norms. }
  assert (prob_spec 1 psi_10 = 0%R) as Hq10.
  { sum_of_norms. }
  pose proof (CCNOT_CCZ_control_elimination DenseRegister.amplitudes 0 1 2 (dense psi_11)
                DenseRegister_contract eq_refl ltac:(cbn; lia) ltac:(cbn; lia) ltac:(cbn; lia)
                ltac:(discriminate) ltac:(discriminate) ltac:(discriminate) total_psi_11)
    as (_ & Hone & _ & _).
  pose proof (CCNOT_CCZ_control_elimination DenseRegister.amplitudes 0 1 2 (dense psi_10)
                DenseRegister_contract eq_refl ltac:(cbn; lia) ltac:(cbn; lia) ltac:(cbn; lia)
                ltac:(discriminate) ltac:(discriminate) ltac:(discriminate) total_psi_10)
    as (Hzero & Hone' & _ & _).
  destruct (Hone Hp11) as (_ & _ & Ha & Hb).
  destruct (Hzero (or_intror Hq10)) as [Hc Hd].
  destruct (Hone' Hp10) as (He & _ & _ & _).
  split_and!.
  - rewrite Ha. reflexivity.
  - rewrite Hb. reflexivity.
  - exact Hc.
  - exact Hd.
  - exact He.
Defined.
End ControlEliminationExamples.
